(** * s3-balance: placement engine, verified against its Go sources

    A shallow embedding of the load balancer (package [balancer]), the
    basic-auth middleware (package [middleware]), the object-deletion handler
    (package [api]) and the configuration manager's [GetConfig]
    (package [config]), with the properties their specification states;
    then of the code around them: the presign and listing handlers and the
    virtual-host middleware (package [api]), the configuration reload
    (package [config]), the health monitor (package [health]), the metrics
    reporter (package [bucket]) and the part listing of the presigner, with
    the properties the code itself shows. *)

From Stdlib Require Import ZArith List Ascii String Lia Permutation Sorted
  Bool DecimalString DecimalPos DecimalZ.
From stdpp Require Import gmap strings list sorting.

Local Open Scope Z_scope.

(** ** Machine integers

    Go's fixed-width integers are modelled as [Z] with the wrap-around
    written out where the code does arithmetic on them. *)

Definition wrap_uint64 (x : Z) : Z := x mod 2 ^ 64.

(** Two's complement wrap-around of a signed 64-bit [int] / [int64]. *)
Definition wrap_int64 (x : Z) : Z := (x + 2 ^ 63) mod 2 ^ 64 - 2 ^ 63.

Definition max_int64 : Z := 2 ^ 63 - 1.
Definition min_int64 : Z := - 2 ^ 63.

(** A Go string is a sequence of bytes. *)
Definition bytes_of_string (s : string) : list Z :=
  List.map (fun c => Z.of_N (N_of_ascii c)) (list_ascii_of_string s).

(** ** crypto/md5

    [md5.Sum] of the Go standard library (RFC 1321), bit for bit: the
    consistent-hash ring is built from it. *)
Module MD5.

Definition K : list Z :=
  [ 0xd76aa478; 0xe8c7b756; 0x242070db; 0xc1bdceee;
    0xf57c0faf; 0x4787c62a; 0xa8304613; 0xfd469501;
    0x698098d8; 0x8b44f7af; 0xffff5bb1; 0x895cd7be;
    0x6b901122; 0xfd987193; 0xa679438e; 0x49b40821;
    0xf61e2562; 0xc040b340; 0x265e5a51; 0xe9b6c7aa;
    0xd62f105d; 0x02441453; 0xd8a1e681; 0xe7d3fbc8;
    0x21e1cde6; 0xc33707d6; 0xf4d50d87; 0x455a14ed;
    0xa9e3e905; 0xfcefa3f8; 0x676f02d9; 0x8d2a4c8a;
    0xfffa3942; 0x8771f681; 0x6d9d6122; 0xfde5380c;
    0xa4beea44; 0x4bdecfa9; 0xf6bb4b60; 0xbebfbc70;
    0x289b7ec6; 0xeaa127fa; 0xd4ef3085; 0x04881d05;
    0xd9d4d039; 0xe6db99e5; 0x1fa27cf8; 0xc4ac5665;
    0xf4292244; 0x432aff97; 0xab9423a7; 0xfc93a039;
    0x655b59c3; 0x8f0ccc92; 0xffeff47d; 0x85845dd1;
    0x6fa87e4f; 0xfe2ce6e0; 0xa3014314; 0x4e0811a1;
    0xf7537e82; 0xbd3af235; 0x2ad7d2bb; 0xeb86d391 ].

Definition S : list Z :=
  [ 7; 12; 17; 22; 7; 12; 17; 22; 7; 12; 17; 22; 7; 12; 17; 22;
    5; 9; 14; 20; 5; 9; 14; 20; 5; 9; 14; 20; 5; 9; 14; 20;
    4; 11; 16; 23; 4; 11; 16; 23; 4; 11; 16; 23; 4; 11; 16; 23;
    6; 10; 15; 21; 6; 10; 15; 21; 6; 10; 15; 21; 6; 10; 15; 21 ].

Definition mask32 : Z := 0xffffffff.

Definition add32 (x y : Z) : Z := Z.land (x + y) mask32.
Definition not32 (x : Z) : Z := Z.lxor x mask32.
Definition rotl32 (x n : Z) : Z :=
  Z.lor (Z.land (Z.shiftl x n) mask32) (Z.shiftr x (32 - n)).

(** Little-endian 32-bit words of a byte sequence. *)
Fixpoint words_le (bs : list Z) : list Z :=
  match bs with
  | b0 :: b1 :: b2 :: b3 :: rest =>
      (b0 + Z.shiftl b1 8 + Z.shiftl b2 16 + Z.shiftl b3 24) :: words_le rest
  | _ => []
  end.

Definition bytes_le (nbytes : nat) (x : Z) : list Z :=
  List.map (fun i => Z.land (Z.shiftr x (8 * Z.of_nat i)) 0xff) (seq 0 nbytes).

(** Message padding: a one bit, zeros up to 56 mod 64, then the bit
    length as a 64-bit little-endian integer. *)
Definition pad (msg : list Z) : list Z :=
  let len := Z.of_nat (List.length msg) in
  let zeros := Z.to_nat ((55 - len) mod 64) in
  msg ++ [0x80] ++ repeat 0 zeros ++ bytes_le 8 (wrap_uint64 (8 * len)).

Record state := { sa : Z; sb : Z; sc : Z; sd : Z }.

Definition init : state :=
  {| sa := 0x67452301; sb := 0xefcdab89; sc := 0x98badcfe; sd := 0x10325476 |}.

Definition round (M : list Z) (st : state) (i : nat) : state :=
  let '(Build_state A B C D) := st in
  let zi := Z.of_nat i in
  let '(F, g) :=
    if zi <? 16 then (Z.lor (Z.land B C) (Z.land (not32 B) D), zi)
    else if zi <? 32 then (Z.lor (Z.land D B) (Z.land (not32 D) C), (5 * zi + 1) mod 16)
    else if zi <? 48 then (Z.lxor (Z.lxor B C) D, (3 * zi + 5) mod 16)
    else (Z.lxor C (Z.lor B (not32 D)), (7 * zi) mod 16) in
  let F' := add32 (add32 (add32 F A) (nth i K 0)) (nth (Z.to_nat g) M 0) in
  {| sa := D; sb := add32 B (rotl32 F' (nth i S 0)); sc := B; sd := C |}.

Definition block (st : state) (M : list Z) : state :=
  let st' := fold_left (round M) (seq 0 64) st in
  {| sa := add32 (sa st) (sa st'); sb := add32 (sb st) (sb st');
     sc := add32 (sc st) (sc st'); sd := add32 (sd st) (sd st') |}.

Fixpoint chunks (n : nat) (ws : list Z) : list (list Z) :=
  match n with
  | O => []
  | Datatypes.S n' => firstn 16 ws :: chunks n' (skipn 16 ws)
  end.

(** The 16 bytes of the digest. *)
Definition Sum (msg : list Z) : list Z :=
  let ws := words_le (pad msg) in
  let st := fold_left block (chunks (List.length ws / 16) ws) init in
  bytes_le 4 (sa st) ++ bytes_le 4 (sb st) ++ bytes_le 4 (sc st) ++ bytes_le 4 (sd st).

End MD5.

(** [binary.BigEndian.Uint32] on the first four bytes of a slice. *)
Definition BigEndian_Uint32 (bs : list Z) : Z :=
  match bs with
  | b0 :: b1 :: b2 :: b3 :: _ =>
      Z.lor (Z.lor (Z.lor b3 (Z.shiftl b2 8)) (Z.shiftl b1 16)) (Z.shiftl b0 24)
  | _ => 0
  end.


(** ** Package bucket: the declarations the balancer and the handlers use *)

(** Modelled from the spec: the [BucketConfig] and [BucketInfo] struct
    declarations of package [bucket] (spec section 3), reduced to the fields
    the code under verification reads: [b.Config.Name], [b.Config.Weight],
    [b.Config.MaxSizeBytes], [b.Config.Enabled], the runtime [UsedSize] and
    [Available]. [Weight] is a Go [int], the sizes are [int64]. *)
Record BucketConfig := {
  Name : string;
  Weight : Z;
  MaxSizeBytes : Z;
  Enabled : bool
}.

Record BucketInfo := {
  Config : BucketConfig;
  UsedSize : Z;
  Available : bool
}.

#[global] Instance BucketConfig_eq_dec : EqDecision BucketConfig.
Proof. solve_decision. Defined.

#[global] Instance BucketInfo_eq_dec : EqDecision BucketInfo.
Proof. solve_decision. Defined.

(** Modelled from the spec: [BucketInfo.GetAvailableSpace], the free capacity
    [max_size_bytes - used_size] the filter stage and the least-space
    strategy compare. *)
Definition GetAvailableSpace (b : BucketInfo) : Z :=
  MaxSizeBytes (Config b) - UsedSize b.

(** Modelled from the spec: the registry ([bucket.Manager]), as the list of
    its records in registry iteration order. *)
Record Manager := { buckets : list BucketInfo }.

(** Modelled from the spec: [Manager.GetAvailableBuckets], "same as get_all
    filtered by enabled && available". *)
Definition GetAvailableBuckets (m : Manager) : list BucketInfo :=
  List.filter (fun b => Enabled (Config b) && Available b) (buckets m).

(** Modelled from the spec: [Manager.GetBucket], lookup by unique name. *)
Definition GetBucket (m : Manager) (name : string) : option BucketInfo :=
  List.find (fun b => String.eqb (Name (Config b)) name) (buckets m).

(** Modelled from the spec: [BucketInfo.UpdateUsedSize], an atomic add of a
    possibly negative delta to the record named [name]. *)
Definition UpdateUsedSize (m : Manager) (name : string) (delta : Z) : Manager :=
  {| buckets :=
       List.map (fun b =>
                   if String.eqb (Name (Config b)) name
                   then {| Config := Config b;
                           UsedSize := wrap_int64 (UsedSize b + delta);
                           Available := Available b |}
                   else b) (buckets m) |}.

(** ** The Go runtime the balancer calls into

    [sort.Slice] is specified by its contract: it sorts by [less] and "is
    not guaranteed to be stable: equal elements may be reversed from their
    original order". What the contract leaves open is settled by the
    library's own routine, embedded below as [GoSort.Slice]. [math/rand] is
    specified by the value its source hands out on the one draw a selection
    makes. *)
Record Runtime := {
  sort_Slice : forall A : Type, (A -> A -> bool) -> list A -> list A;
  rand_draw : Z -> Z
}.

Arguments sort_Slice _ {A} _ _.

(** The contract of [sort.Slice]: the slice is permuted, and, [less] being a
    strict weak ordering, afterwards no element is [less] than one before
    it. *)
Definition SortContract (rt : Runtime) : Prop :=
  forall (A : Type) (less : A -> A -> bool) (l : list A),
    Permutation (sort_Slice rt less l) l /\
    ((forall x, less x x = false) ->
     (forall x y z, less x y = true -> less y z = true -> less x z = true) ->
     (forall x y z, less x y = false -> less y z = false -> less x z = false) ->
     StronglySorted (fun x y => less y x = false) (sort_Slice rt less l)).

(** The contract of [rand.Intn n] for [n > 0]: a value in [[0, n)]. *)
Definition RandContract (rt : Runtime) : Prop :=
  forall n, 0 < n -> 0 <= rand_draw rt n < n.

(** [rand.Intn]: it panics if [n <= 0]. *)
Definition rand_Intn (rt : Runtime) (n : Z) : option Z :=
  if n <=? 0 then None else Some (rand_draw rt n).

(** ** Package balancer *)

(** The errors [SelectBucket] creates with [fmt.Errorf]. *)
Inductive error :=
| NoAvailableBackend              (* "no available buckets" *)
| InsufficientCapacity (size : Z) (* "no bucket has enough space for %d bytes" *)
| NoBucketsAvailable               (* "no buckets available", from a strategy *)
| UnknownStrategy (name : string). (* "unknown balancer strategy: %s" *)

(** What a call of [SelectBucket] does: return a bucket and a nil error,
    return a nil bucket and a nil error, return an error, or panic. *)
Inductive outcome :=
| Selected (b : BucketInfo)
| NilBucket
| Failed (e : error)
| Panicked.

#[global] Instance error_eq_dec : EqDecision error.
Proof. solve_decision. Defined.

#[global] Instance outcome_eq_dec : EqDecision outcome.
Proof. solve_decision. Defined.

(** [buckets[index]] on a slice: a run-time panic when out of range. *)
Definition index_slice (l : list BucketInfo) (index : Z) : outcome :=
  if index <? 0 then Panicked
  else match l !! Z.to_nat index with
       | Some b => Selected b
       | None => Panicked
       end.

Definition len {A : Type} (l : list A) : Z := Z.of_nat (List.length l).

(** *** Round-robin *)

Record RoundRobinStrategy := { counter : Z }.

Definition NewRoundRobinStrategy : RoundRobinStrategy := {| counter := 0 |}.

(** [atomic.AddUint64]: adds with wrap-around and returns the new value. *)
Definition atomic_AddUint64 (addr delta : Z) : Z := wrap_uint64 (addr + delta).

Definition RoundRobinStrategy_SelectBucket (s : RoundRobinStrategy)
    (bs : list BucketInfo) (key : string) (size : Z)
  : RoundRobinStrategy * outcome :=
  if len bs =? 0 then (s, Failed NoBucketsAvailable)
  else
    let c := atomic_AddUint64 (counter s) 1 in
    let index := c mod len bs in
    ({| counter := c |}, index_slice bs index).

(** [n] consecutive calls on the same eligible list, the outcomes in call
    order. *)
Fixpoint RoundRobin_calls (n : nat) (s : RoundRobinStrategy)
    (bs : list BucketInfo) (key : string) (size : Z) : list outcome :=
  match n with
  | O => []
  | S n' =>
      let '(s', r) := RoundRobinStrategy_SelectBucket s bs key size in
      r :: RoundRobin_calls n' s' bs key size
  end.

(** *** Least space *)

Definition LeastSpace_less (a b : BucketInfo) : bool :=
  GetAvailableSpace b <? GetAvailableSpace a.

Definition LeastSpaceStrategy_SelectBucket (rt : Runtime)
    (bs : list BucketInfo) (key : string) (size : Z) : outcome :=
  if len bs =? 0 then Failed NoBucketsAvailable
  else
    let sorted := sort_Slice rt LeastSpace_less bs in
    index_slice sorted 0.

(** *** Weighted *)

(** The first loop: [totalWeight += b.Config.Weight] on an [int]. *)
Definition totalWeight (bs : list BucketInfo) : Z :=
  fold_left (fun acc b => wrap_int64 (acc + Weight (Config b))) bs 0.

(** The second loop, from [currentWeight]: the first bucket at which
    [randomWeight < currentWeight], if the loop finds one. *)
Fixpoint weighted_walk (randomWeight currentWeight : Z) (bs : list BucketInfo)
  : option BucketInfo :=
  match bs with
  | [] => None
  | b :: rest =>
      let currentWeight' := wrap_int64 (currentWeight + Weight (Config b)) in
      if randomWeight <? currentWeight' then Some b
      else weighted_walk randomWeight currentWeight' rest
  end.

Definition WeightedStrategy_SelectBucket (rt : Runtime)
    (bs : list BucketInfo) (key : string) (size : Z) : outcome :=
  if len bs =? 0 then Failed NoBucketsAvailable
  else
    let total := totalWeight bs in
    if total =? 0 then
      match rand_Intn rt (len bs) with
      | None => Panicked
      | Some i => index_slice bs i
      end
    else
      match rand_Intn rt total with
      | None => Panicked
      | Some randomWeight =>
          match weighted_walk randomWeight 0 bs with
          | Some b => Selected b
          | None => index_slice bs (len bs - 1)
          end
      end.

(** *** Consistent hash *)

Record ConsistentHashStrategy := {
  replicas : Z;
  ring : gmap Z BucketInfo;
  nodes : list Z
}.

Definition NewConsistentHashStrategy : ConsistentHashStrategy :=
  {| replicas := 100; ring := ∅; nodes := [] |}.

(** [hash]: the first four bytes of the MD5 digest, read big-endian. *)
Definition hash (key : string) : Z :=
  BigEndian_Uint32 (MD5.Sum (bytes_of_string key)).

(** The verb [%d] of [fmt.Sprintf]. *)
Definition Sprintf_d (i : Z) : string := NilZero.string_of_int (Z.to_int i).

(** [fmt.Sprintf("%s-%d", b.Config.Name, i)]. *)
Definition virtualKey (name : string) (i : Z) : string :=
  (name ++ "-" ++ Sprintf_d i)%string.

#[global] Arguments hash : simpl never.
#[global] Arguments virtualKey : simpl never.

(** One iteration of the inner loop of [updateRing]. *)
Definition addVirtualNode (b : BucketInfo)
    (st : gmap Z BucketInfo * list Z) (i : nat) : gmap Z BucketInfo * list Z :=
  let h := hash (virtualKey (Name (Config b)) (Z.of_nat i)) in
  (<[h := b]> (fst st), snd st ++ [h]).

(** The inner loop, [for i := 0; i < s.replicas; i++]. *)
Definition addBucket (reps : Z)
    (st : gmap Z BucketInfo * list Z) (b : BucketInfo) : gmap Z BucketInfo * list Z :=
  fold_left (addVirtualNode b) (seq 0 (Z.to_nat reps)) st.

Definition updateRing (rt : Runtime) (s : ConsistentHashStrategy)
    (bs : list BucketInfo) : ConsistentHashStrategy :=
  let st := fold_left (addBucket (replicas s)) bs (∅, []) in
  {| replicas := replicas s;
     ring := fst st;
     nodes := sort_Slice rt Z.ltb (snd st) |}.

(** [sort.Search]: binary search for the least index in [[0, n)] at which [f]
    holds, [n] if there is none. The loop halves [j - i], so [n] rounds of
    fuel are never used up. *)
Fixpoint sort_Search_loop (fuel : nat) (f : Z -> bool) (i j : Z) : Z :=
  match fuel with
  | O => i
  | S fuel' =>
      if i <? j then
        let h := (i + j) / 2 in
        if negb (f h) then sort_Search_loop fuel' f (h + 1) j
        else sort_Search_loop fuel' f i h
      else i
  end.

Definition sort_Search (n : Z) (f : Z -> bool) : Z :=
  sort_Search_loop (Z.to_nat n) f 0 n.

(** The second half of [SelectBucket], which runs under [s.mu.RLock]: the
    search of the ring as it is at that moment for the hash of the key. *)
Definition ringLookup (s : ConsistentHashStrategy) (key : string) : outcome :=
  let h := hash key in
  let idx := sort_Search (len (nodes s))
               (fun i => h <=? nth (Z.to_nat i) (nodes s) 0) in
  let idx := if idx =? len (nodes s) then 0 else idx in
  match nodes s !! Z.to_nat idx with
  | None => Panicked
  | Some node =>
      match ring s !! node with
      | Some b => Selected b
      | None => NilBucket
      end
  end.

(** A call that runs undisturbed: [updateRing] under the write lock, then
    the lookup under the read lock. *)
Definition ConsistentHashStrategy_SelectBucket (rt : Runtime)
    (s : ConsistentHashStrategy) (bs : list BucketInfo) (key : string) (size : Z)
  : ConsistentHashStrategy * outcome :=
  if len bs =? 0 then (s, Failed NoBucketsAvailable)
  else
    let s' := updateRing rt s bs in
    (s', ringLookup s' key).

(** *** The balancer *)

(** The interface [Strategy], as the tagged union of its four
    implementations with their private state. *)
Inductive Strategy :=
| RoundRobin (s : RoundRobinStrategy)
| LeastSpace
| Weighted
| ConsistentHash (s : ConsistentHashStrategy).

Definition Strategy_Name (s : Strategy) : string :=
  match s with
  | RoundRobin _ => "round-robin"
  | LeastSpace => "least-space"
  | Weighted => "weighted"
  | ConsistentHash _ => "consistent-hash"
  end.

Definition Strategy_SelectBucket (rt : Runtime) (s : Strategy)
    (bs : list BucketInfo) (key : string) (size : Z) : Strategy * outcome :=
  match s with
  | RoundRobin st =>
      let '(st', r) := RoundRobinStrategy_SelectBucket st bs key size in
      (RoundRobin st', r)
  | LeastSpace => (LeastSpace, LeastSpaceStrategy_SelectBucket rt bs key size)
  | Weighted => (Weighted, WeightedStrategy_SelectBucket rt bs key size)
  | ConsistentHash st =>
      let '(st', r) := ConsistentHashStrategy_SelectBucket rt st bs key size in
      (ConsistentHash st', r)
  end.

Record BalancerConfig := { cfg_Strategy : string }.

Record Balancer := {
  manager : Manager;
  strategy : Strategy;
  config : BalancerConfig
}.

Definition NewBalancer (m : Manager) (cfg : BalancerConfig) : Balancer + error :=
  let mk st := inl {| manager := m; strategy := st; config := cfg |} in
  if String.eqb (cfg_Strategy cfg) "round-robin" then mk (RoundRobin NewRoundRobinStrategy)
  else if String.eqb (cfg_Strategy cfg) "least-space" then mk LeastSpace
  else if String.eqb (cfg_Strategy cfg) "weighted" then mk Weighted
  else if String.eqb (cfg_Strategy cfg) "consistent-hash" then
    mk (ConsistentHash NewConsistentHashStrategy)
  else inr (UnknownStrategy (cfg_Strategy cfg)).

(** The filter stage of [Balancer.SelectBucket]. *)
Definition enoughSpace (size : Z) (bs : list BucketInfo) : list BucketInfo :=
  List.filter (fun b => size <=? GetAvailableSpace b) bs.

Definition Balancer_SelectBucket (rt : Runtime) (b : Balancer)
    (key : string) (size : Z) : Balancer * outcome :=
  let bs := GetAvailableBuckets (manager b) in
  if len bs =? 0 then (b, Failed NoAvailableBackend)
  else
    let availableBuckets := enoughSpace size bs in
    if len availableBuckets =? 0 then (b, Failed (InsufficientCapacity size))
    else
      let '(st', r) :=
        Strategy_SelectBucket rt (strategy b) availableBuckets key size in
      ({| manager := manager b; strategy := st'; config := config b |}, r).

(** [Balancer.GetStrategy]: the name the strategy reports. *)
Definition Balancer_GetStrategy (b : Balancer) : string :=
  Strategy_Name (strategy b).

(** *** Calls that run concurrently

    Every HTTP request runs [Balancer.SelectBucket] in a goroutine of its
    own, on the one strategy the balancer holds. Under the consistent-hash
    strategy a call passes through two critical sections, [updateRing] under
    the write lock and the ring search under the read lock; between the two
    the lock is free for another call. *)
Inductive progress :=
| AtUpdateRing            (* filtered; about to call s.updateRing(buckets) *)
| AtLookup                (* ring rebuilt; about to take s.mu.RLock *)
| Returned (r : outcome).

Record call := {
  call_buckets : list BucketInfo;   (* this call's availableBuckets *)
  call_key : string;
  call_size : Z;
  call_progress : progress
}.

(** The filter stage of [Balancer.SelectBucket], which only reads the
    registry, up to the call of the strategy. *)
Definition begin_call (b : Balancer) (key : string) (size : Z) : call :=
  let bs := GetAvailableBuckets (manager b) in
  let availableBuckets := enoughSpace size bs in
  {| call_buckets := availableBuckets;
     call_key := key;
     call_size := size;
     call_progress :=
       if len bs =? 0 then Returned (Failed NoAvailableBackend)
       else if len availableBuckets =? 0 then
         Returned (Failed (InsufficientCapacity size))
       else AtUpdateRing |}.

(** The next critical section of one call, on the shared strategy. *)
Definition step_call (rt : Runtime) (s : ConsistentHashStrategy) (c : call)
  : ConsistentHashStrategy * call :=
  match call_progress c with
  | AtUpdateRing =>
      (updateRing rt s (call_buckets c),
       {| call_buckets := call_buckets c; call_key := call_key c;
          call_size := call_size c; call_progress := AtLookup |})
  | AtLookup =>
      (s,
       {| call_buckets := call_buckets c; call_key := call_key c;
          call_size := call_size c;
          call_progress := Returned (ringLookup s (call_key c)) |})
  | Returned _ => (s, c)
  end.

(** A schedule names, step by step, the call that runs its next critical
    section. *)
Fixpoint run_schedule (rt : Runtime) (schedule : list nat)
    (s : ConsistentHashStrategy) (calls : list call)
  : ConsistentHashStrategy * list call :=
  match schedule with
  | [] => (s, calls)
  | i :: rest =>
      match calls !! i with
      | None => run_schedule rt rest s calls
      | Some c =>
          let '(s', c') := step_call rt s c in
          run_schedule rt rest s' (<[i := c']> calls)
      end
  end.

(** *** Calls that run concurrently, whatever the strategy

    Round-robin shares one counter, which a call reads and advances in one
    [atomic.AddUint64]; least-space and weighted share nothing, they work
    on the slice of the call. Under these three a call passes through the
    strategy in one step; under consistent-hash it takes the two steps of
    [step_call]. *)
Definition step_strategy (rt : Runtime) (st : Strategy) (c : call)
  : Strategy * call :=
  match st with
  | ConsistentHash s =>
      let '(s', c') := step_call rt s c in (ConsistentHash s', c')
  | _ =>
      match call_progress c with
      | Returned _ => (st, c)
      | _ =>
          let '(st', r) :=
            Strategy_SelectBucket rt st (call_buckets c) (call_key c) (call_size c) in
          (st',
           {| call_buckets := call_buckets c; call_key := call_key c;
              call_size := call_size c; call_progress := Returned r |})
      end
  end.

Fixpoint run_calls (rt : Runtime) (schedule : list nat)
    (st : Strategy) (calls : list call) : Strategy * list call :=
  match schedule with
  | [] => (st, calls)
  | i :: rest =>
      match calls !! i with
      | None => run_calls rt rest st calls
      | Some c =>
          let '(st', c') := step_strategy rt st c in
          run_calls rt rest st' (<[i := c']> calls)
      end
  end.

(** What [begin_call] leaves: a call at the strategy's door, or one that
    has failed. *)
Definition not_yet_served (c : call) : Prop :=
  call_progress c = AtUpdateRing \/ exists e, call_progress c = Returned (Failed e).

(** The state a schedule of calls keeps: the buckets of every call satisfy
    [P]; so does every bucket a call has returned; and so does every bucket
    of the ring, once a call is past [updateRing]. *)
Definition ring_within (P : BucketInfo -> Prop) (st : Strategy) : Prop :=
  match st with
  | ConsistentHash s => forall h b, ring s !! h = Some b -> P b
  | _ => True
  end.

Definition calls_within (P : BucketInfo -> Prop) (st : Strategy)
    (calls : list call) : Prop :=
  Forall (fun c => Forall P (call_buckets c)) calls /\
  Forall (fun c => forall sel, call_progress c = Returned (Selected sel) -> P sel)
    calls /\
  (ring_within P st \/ Forall (fun c => call_progress c <> AtLookup) calls).

(** Every bucket a call has returned is one of the call's own list. *)
Definition own_list (calls : list call) : Prop :=
  Forall (fun c => forall sel, call_progress c = Returned (Selected sel) ->
                               In sel (call_buckets c)) calls.

Definition is_consistent_hash (st : Strategy) : bool :=
  match st with
  | ConsistentHash _ => true
  | _ => false
  end.

(** *** An insertion sort that meets the contract of [sort.Slice]

    [insertionSort] is the insertion sort of package [sort], with which
    [sort.Slice] finishes short slices: each element is swapped leftwards
    while it is [less] than its left neighbour. It is stable. *)

(** The inner loop, on the sorted prefix held last element first. *)
Fixpoint bubble_left {A : Type} (less : A -> A -> bool) (x : A)
    (prefix_rev : list A) : list A :=
  match prefix_rev with
  | [] => [x]
  | y :: rest =>
      if less x y then y :: bubble_left less x rest
      else x :: y :: rest
  end.

Definition insertionSort {A : Type} (less : A -> A -> bool) (l : list A) : list A :=
  rev (fold_left (fun prefix_rev x => bubble_left less x prefix_rev) l []).

Definition insertion_runtime (draw : Z -> Z) : Runtime :=
  {| sort_Slice := @insertionSort; rand_draw := draw |}.

(** ** Package sort: [sort.Slice]

    [sort.Slice] as the Go standard library has it since Go 1.19
    ([zsortfunc.go]): a pattern-defeating quicksort that finishes slices of
    at most twelve elements by insertion sort and falls back to heap sort.
    The slice is a list updated by index; [less(i, j)] of the caller reads
    the slice as it is at the time of the call, so it is [less] on the
    elements at [i] and [j]. The pseudo-random step [Next] of
    [breakPatterns] is a parameter of the embedding. *)
Module GoSort.

Inductive sortedHint :=
| unknownHint
| increasingHint
| decreasingHint.

(** [bits.Len]: the number of bits needed to write [n]. *)
Definition bits_Len (n : nat) : nat :=
  match n with
  | O => O
  | _ => S (Nat.log2 n)
  end.

(** [1 << bits.Len(length)]. *)
Definition nextPowerOfTwo (length : nat) : nat := 2 ^ bits_Len length.

Section Slice.

Context {A : Type}.
Variable less : A -> A -> bool.
Variable Next : Z -> Z.

(** [data.Less(i, j)] and [data.Swap(i, j)]; every index the routines
    below pass lies within the slice (outside it Go would panic). *)
Definition Less (data : list A) (i j : nat) : bool :=
  match data !! i, data !! j with
  | Some x, Some y => less x y
  | _, _ => false
  end.

Definition Swap (data : list A) (i j : nat) : list A :=
  match data !! i, data !! j with
  | Some x, Some y => <[j := x]> (<[i := y]> data)
  | _, _ => data
  end.

(** [for j := i; j > a && data.Less(j, j-1); j-- { data.Swap(j, j-1) }] *)
Fixpoint insertion_shift (data : list A) (a j : nat) : list A :=
  match j with
  | O => data
  | S j' =>
      if (a <? j)%nat && Less data j j'
      then insertion_shift (Swap data j j') a j'
      else data
  end.

(** [for i := a + 1; i < b; i++ { ... }] *)
Definition insertionSort_func (data : list A) (a b : nat) : list A :=
  fold_left (fun data i => insertion_shift data a i)
    (seq (a + 1) (b - (a + 1))) data.

(** The loop of [siftDown_func]; [root] grows in every round and stays
    below [hi], so [hi] rounds are enough. *)
Fixpoint siftDown_loop (rounds : nat) (data : list A) (root hi first : nat)
  : list A :=
  match rounds with
  | O => data
  | S rounds =>
      let child := (2 * root + 1)%nat in
      if (hi <=? child)%nat then data
      else
        let child :=
          if (child + 1 <? hi)%nat && Less data (first + child) (first + child + 1)
          then (child + 1)%nat else child in
        if negb (Less data (first + root) (first + child)) then data
        else siftDown_loop rounds (Swap data (first + root) (first + child))
               child hi first
  end.

Definition siftDown_func (data : list A) (lo hi first : nat) : list A :=
  siftDown_loop hi data lo hi first.

(** [i] runs from [(hi - 1) / 2] down to [0], then from [hi - 1] down to
    [0]. *)
Definition heapSort_func (data : list A) (a b : nat) : list A :=
  let first := a in
  let lo := 0%nat in
  let hi := (b - a)%nat in
  let data :=
    fold_left (fun data i => siftDown_func data i hi first)
      (rev (seq 0 ((hi - 1) / 2 + 1))) data in
  fold_left (fun data i => siftDown_func (Swap data first (first + i)) lo i first)
    (rev (seq 0 hi)) data.

(** [for i <= j && p(i) { i++ }] *)
Fixpoint forward_loop (rounds : nat) (p : nat -> bool) (i j : nat) : nat :=
  match rounds with
  | O => i
  | S rounds =>
      if (i <=? j)%nat && p i then forward_loop rounds p (S i) j else i
  end.

Definition forward (p : nat -> bool) (i j : nat) : nat :=
  forward_loop (S j - i) p i j.

(** [for i <= j && p(j) { j-- }]; [i] is at least one wherever the loop is
    used, so [j] does not pass zero. *)
Fixpoint backward (p : nat -> bool) (i j : nat) : nat :=
  match j with
  | O => O
  | S j' => if (i <=? j)%nat && p j then backward p i j' else j
  end.

(** The second loop of [partition_func]; it returns the slice and [j]. *)
Fixpoint partition_loop (rounds : nat) (data : list A) (a i j : nat)
  : list A * nat :=
  match rounds with
  | O => (data, j)
  | S rounds =>
      let i := forward (fun i => Less data i a) i j in
      let j := backward (fun j => negb (Less data j a)) i j in
      if (j <? i)%nat then (data, j)
      else partition_loop rounds (Swap data i j) a (i + 1) (j - 1)
  end.

Definition partition_func (data : list A) (a b pivot : nat)
  : list A * nat * bool :=
  let data := Swap data a pivot in
  let i := (a + 1)%nat in
  let j := (b - 1)%nat in
  let i := forward (fun i => Less data i a) i j in
  let j := backward (fun j => negb (Less data j a)) i j in
  if (j <? i)%nat then (Swap data j a, j, true)
  else
    let data := Swap data i j in
    let '(data, j) := partition_loop (b - a) data a (i + 1) (j - 1) in
    (Swap data j a, j, false).

(** The loop of [partitionEqual_func]; it returns the slice and [i]. *)
Fixpoint partitionEqual_loop (rounds : nat) (data : list A) (a i j : nat)
  : list A * nat :=
  match rounds with
  | O => (data, i)
  | S rounds =>
      let i := forward (fun i => negb (Less data a i)) i j in
      let j := backward (fun j => Less data a j) i j in
      if (j <? i)%nat then (data, i)
      else partitionEqual_loop rounds (Swap data i j) a (i + 1) (j - 1)
  end.

Definition partitionEqual_func (data : list A) (a b pivot : nat)
  : list A * nat :=
  let data := Swap data a pivot in
  partitionEqual_loop (S (b - a)) data a (a + 1) (b - 1).

(** [for i < b && !data.Less(i, i-1) { i++ }] *)
Fixpoint ordered_run (rounds : nat) (data : list A) (i b : nat) : nat :=
  match rounds with
  | O => i
  | S rounds =>
      if (i <? b)%nat && negb (Less data i (i - 1))
      then ordered_run rounds data (S i) b else i
  end.

(** [for j := i - 1; j >= 1; j-- { if !data.Less(j, j-1) { break };
    data.Swap(j, j-1) }] *)
Fixpoint shift_smaller (data : list A) (j : nat) : list A :=
  match j with
  | O => data
  | S j' =>
      if (1 <=? j)%nat
      then if negb (Less data j j') then data
           else shift_smaller (Swap data j j') j'
      else data
  end.

(** [for j := i + 1; j < b; j++ { if !data.Less(j, j-1) { break };
    data.Swap(j, j-1) }] *)
Fixpoint shift_greater (rounds : nat) (data : list A) (j b : nat) : list A :=
  match rounds with
  | O => data
  | S rounds =>
      if (j <? b)%nat
      then if negb (Less data j (j - 1)) then data
           else shift_greater rounds (Swap data j (j - 1)) (S j) b
      else data
  end.

Definition maxSteps : nat := 5.
Definition shortestShifting : nat := 50.

(** The loop [for j := 0; j < maxSteps; j++] of
    [partialInsertionSort_func]; [i] is kept from one round to the next. *)
Fixpoint partialInsertionSort_loop (steps : nat) (data : list A) (a b i : nat)
  : list A * bool :=
  match steps with
  | O => (data, false)
  | S steps =>
      let i := ordered_run (b - i) data i b in
      if (i =? b)%nat then (data, true)
      else if (b - a <? shortestShifting)%nat then (data, false)
      else
        let data := Swap data i (i - 1) in
        let data := if (2 <=? i - a)%nat then shift_smaller data (i - 1) else data in
        let data := if (2 <=? b - i)%nat
                    then shift_greater (b - (i + 1)) data (i + 1) b else data in
        partialInsertionSort_loop steps data a b i
  end.

Definition partialInsertionSort_func (data : list A) (a b : nat)
  : list A * bool :=
  partialInsertionSort_loop maxSteps data a b (a + 1).

(** [random := xorshift(length)], then three draws. *)
Definition breakPatterns_func (data : list A) (a b : nat) : list A :=
  let length := (b - a)%nat in
  if (8 <=? length)%nat then
    let modulus := nextPowerOfTwo length in
    let idx := (a + (length / 4) * 2 - 1)%nat in
    fst (fold_left
           (fun '(data, random) i =>
              let random := Next random in
              let other := Z.to_nat (Z.land random (Z.of_nat modulus - 1)) in
              let other := if (length <=? other)%nat
                           then (other - length)%nat else other in
              (Swap data (idx - 1 + i) (a + other), random))
           [0; 1; 2]%nat (data, Z.of_nat length))
  else data.

Definition order2_func (data : list A) (a b swaps : nat) : nat * nat * nat :=
  if Less data b a then (b, a, S swaps) else (a, b, swaps).

Definition median_func (data : list A) (a b c swaps : nat) : nat * nat :=
  let '(a, b, swaps) := order2_func data a b swaps in
  let '(b, c, swaps) := order2_func data b c swaps in
  let '(a, b, swaps) := order2_func data a b swaps in
  (b, swaps).

Definition medianAdjacent_func (data : list A) (a swaps : nat) : nat * nat :=
  median_func data (a - 1) a (a + 1) swaps.

Definition shortestNinther : nat := 50.
Definition maxSwaps : nat := 4 * 3.

Definition choosePivot_func (data : list A) (a b : nat) : nat * sortedHint :=
  let l := (b - a)%nat in
  let swaps := 0%nat in
  let i := (a + l / 4 * 1)%nat in
  let j := (a + l / 4 * 2)%nat in
  let k := (a + l / 4 * 3)%nat in
  let '(j, swaps) :=
    if (8 <=? l)%nat then
      let '(i, j, k, swaps) :=
        if (shortestNinther <=? l)%nat then
          let '(i, swaps) := medianAdjacent_func data i swaps in
          let '(j, swaps) := medianAdjacent_func data j swaps in
          let '(k, swaps) := medianAdjacent_func data k swaps in
          (i, j, k, swaps)
        else (i, j, k, swaps) in
      median_func data i j k swaps
    else (j, swaps) in
  if (swaps =? 0)%nat then (j, increasingHint)
  else if (swaps =? maxSwaps)%nat then (j, decreasingHint)
  else (j, unknownHint).

(** [for i < j { data.Swap(i, j); i++; j-- }] *)
Fixpoint reverseRange_loop (rounds : nat) (data : list A) (i j : nat) : list A :=
  match rounds with
  | O => data
  | S rounds =>
      if (i <? j)%nat then reverseRange_loop rounds (Swap data i j) (S i) (j - 1)
      else data
  end.

Definition reverseRange_func (data : list A) (a b : nat) : list A :=
  reverseRange_loop (b - a) data a (b - 1).

Definition maxInsertion : nat := 12.

(** [pdqsort_func]: its [for] loop and its call of itself both go on with a
    shorter range, so that [fuel] above [b - a] is never used up; [None]
    says that it was. A call of itself starts with both flags set, the
    loop keeps them. *)
Fixpoint pdqsort_func (fuel : nat) (data : list A) (a b limit : nat)
    (wasBalanced wasPartitioned : bool) : option (list A) :=
  match fuel with
  | O => None
  | S fuel =>
      let length := (b - a)%nat in
      if (length <=? maxInsertion)%nat then Some (insertionSort_func data a b)
      else if (limit =? 0)%nat then Some (heapSort_func data a b)
      else
        let '(data, limit) :=
          if negb wasBalanced
          then (breakPatterns_func data a b, (limit - 1)%nat)
          else (data, limit) in
        let '(pivot, hint) := choosePivot_func data a b in
        let '(data, pivot, hint) :=
          match hint with
          | decreasingHint =>
              (reverseRange_func data a b, (b - 1 - (pivot - a))%nat, increasingHint)
          | _ => (data, pivot, hint)
          end in
        let '(data, sorted) :=
          match hint with
          | increasingHint =>
              if wasBalanced && wasPartitioned
              then partialInsertionSort_func data a b
              else (data, false)
          | _ => (data, false)
          end in
        if sorted then Some data
        else if (0 <? a)%nat && negb (Less data (a - 1) pivot) then
          let '(data, mid) := partitionEqual_func data a b pivot in
          pdqsort_func fuel data mid b limit wasBalanced wasPartitioned
        else
          let '(data, mid, alreadyPartitioned) := partition_func data a b pivot in
          let leftLen := (mid - a)%nat in
          let rightLen := (b - mid)%nat in
          let balanceThreshold := (length / 8)%nat in
          if (leftLen <? rightLen)%nat then
            match pdqsort_func fuel data a mid limit true true with
            | None => None
            | Some data =>
                pdqsort_func fuel data (mid + 1) b limit
                  (balanceThreshold <=? leftLen)%nat alreadyPartitioned
            end
          else
            match pdqsort_func fuel data (mid + 1) b limit true true with
            | None => None
            | Some data =>
                pdqsort_func fuel data a mid limit
                  (balanceThreshold <=? rightLen)%nat alreadyPartitioned
            end
  end.

(** [sort.Slice(x, less)]. *)
Definition Slice (x : list A) : option (list A) :=
  let length := List.length x in
  let limit := bits_Len length in
  pdqsort_func (S length) x 0 length limit true true.

End Slice.

End GoSort.

(** The runtime whose [sort.Slice] is the library's. *)
Definition go_runtime (Next : Z -> Z) (draw : Z -> Z) : Runtime :=
  {| sort_Slice := fun A less x =>
       match GoSort.Slice less Next x with
       | Some sorted => sorted
       | None => x
       end;
     rand_draw := draw |}.

(** ** Package api: deleting an object record *)

(** Modelled from the spec: the placement store (package [storage]), a
    durable map from object key to its record; [GetObjectInfo] fails with
    not-found when the key is absent, [DeleteObject] is idempotent. *)
Record ObjectRecord := {
  obj_Key : string;
  obj_BucketName : string;
  obj_Size : Z
}.

Definition GetObjectInfo (st : gmap string ObjectRecord) (key : string)
  : option ObjectRecord := st !! key.

Definition DeleteObject (st : gmap string ObjectRecord) (key : string)
  : gmap string ObjectRecord * bool := (delete key st, true).

Record Handler := {
  bucketManager : Manager;
  storage : gmap string ObjectRecord
}.

(** The JSON bodies [sendJSON] and [sendError] write. *)
Inductive body :=
| ErrorBody (error_text : string)     (* {"error": ...} *)
| MessageBody (message : string).     (* {"message": ...} *)

Record Response := { status : Z; payload : body }.

Definition StatusOK : Z := 200.
Definition StatusNotFound : Z := 404.
Definition StatusInternalServerError : Z := 500.

Definition sendError (code : Z) (message : string) : Response :=
  {| status := code; payload := ErrorBody message |}.

Definition handleDeleteObject (h : Handler) (key : string) : Handler * Response :=
  match GetObjectInfo (storage h) key with
  | None => (h, sendError StatusNotFound "object not found")
  | Some info =>
      let m :=
        match GetBucket (bucketManager h) (obj_BucketName info) with
        | Some _ =>
            UpdateUsedSize (bucketManager h) (obj_BucketName info)
              (wrap_int64 (- obj_Size info))
        | None => bucketManager h
        end in
      let '(st, ok) := DeleteObject (storage h) key in
      if ok then
        ({| bucketManager := m; storage := st |},
         {| status := StatusOK;
            payload := MessageBody "object deleted successfully" |})
      else
        ({| bucketManager := m; storage := st |},
         sendError StatusInternalServerError "failed to delete object")
  end.

(** ** Package api: the presign handlers that place an object *)
Module Presign.

Local Open Scope string_scope.

(** The gateway state the handlers work on: the registry, which the
    balancer selects from and whose records the handlers update through the
    pointers they are given, the balancer's strategy and configuration, and
    the placement store. *)
Record Server := {
  registry : Manager;
  balancer_strategy : Strategy;
  balancer_config : BalancerConfig;
  store : gmap string ObjectRecord
}.

(** [h.balancer] and the fields [handleDeleteObject] uses. *)
Definition balancer_of (s : Server) : Balancer :=
  {| manager := registry s; strategy := balancer_strategy s;
     config := balancer_config s |}.

Definition handler_of (s : Server) : Handler :=
  {| bucketManager := registry s; storage := store s |}.

(** [PresignUploadRequest] and [PresignMultipartRequest], with the fields
    the handlers branch on; [Size] is an [int64], [PartCount] an [int]. *)
Record PresignUploadRequest := {
  Key : string;
  Size : Z
}.

Record PresignMultipartRequest := {
  multipart_Key : string;
  PartCount : Z;
  multipart_Size : Z
}.

(** What the world outside the handler answers during one request: the
    JSON decoder on the request body ([None] is its error), the presigner
    for the chosen bucket and key, and the placement store on
    [RecordObject]. *)
Record World := {
  decoded_upload : option PresignUploadRequest;
  decoded_multipart : option PresignMultipartRequest;
  presigner_ok : BucketInfo -> string -> bool;
  RecordObject_ok : bool
}.

(** The JSON bodies the handlers send. *)
Inductive body :=
| ErrorBody (message : string)                        (* {"error": ...} *)
| UploadURL (bucket : BucketInfo) (key : string)
| MultipartURLs (bucket : BucketInfo) (key : string) (partCount : Z).

Record Response := { status_code : Z; json : body }.

Definition StatusBadRequest : Z := 400.
Definition StatusServiceUnavailable : Z := 503.

Definition sendError (code : Z) (message : string) : Response :=
  {| status_code := code; json := ErrorBody message |}.

(** [err.Error()] of the errors [fmt.Errorf] builds in package balancer. *)
Definition Error_string (e : error) : string :=
  match e with
  | NoAvailableBackend => "no available buckets"
  | InsufficientCapacity size =>
      "no bucket has enough space for " ++ Sprintf_d size ++ " bytes"
  | NoBucketsAvailable => "no buckets available"
  | UnknownStrategy name => "unknown balancer strategy: " ++ name
  end.

(** Modelled from the spec: [storage.RecordObject], "record(key,
    bucket_name, size, metadata): upsert"; a failed call leaves the store
    as it is. *)
Definition RecordObject (w : World) (st : gmap string ObjectRecord)
    (key bucketName : string) (size : Z) : gmap string ObjectRecord :=
  if RecordObject_ok w
  then <[key := {| obj_Key := key; obj_BucketName := bucketName; obj_Size := size |}]> st
  else st.

(** [handlePresignUpload]. A balancer error is a 503, a presigner error a
    500; otherwise the placement is recorded (an error there is only
    logged) and the size is added to the chosen bucket's usage. [None] is a
    panic: that of [SelectBucket], or the nil-pointer dereference on a nil
    bucket. *)
Definition handlePresignUpload (rt : Runtime) (w : World) (s : Server)
  : option (Server * Response) :=
  match decoded_upload w with
  | None => Some (s, sendError StatusBadRequest "invalid request body")
  | Some req =>
      if String.eqb (Key req) EmptyString
      then Some (s, sendError StatusBadRequest "key is required")
      else
        let '(b', r) := Balancer_SelectBucket rt (balancer_of s) (Key req) (Size req) in
        let s1 := {| registry := registry s; balancer_strategy := strategy b';
                     balancer_config := balancer_config s; store := store s |} in
        match r with
        | Failed e => Some (s1, sendError StatusServiceUnavailable (Error_string e))
        | Panicked | NilBucket => None
        | Selected bucket =>
            if negb (presigner_ok w bucket (Key req))
            then Some (s1, sendError StatusInternalServerError
                             "failed to generate upload URL")
            else
              Some ({| registry :=
                         UpdateUsedSize (registry s) (Name (Config bucket)) (Size req);
                       balancer_strategy := strategy b';
                       balancer_config := balancer_config s;
                       store := RecordObject w (store s) (Key req)
                                  (Name (Config bucket)) (Size req) |},
                    {| status_code := StatusOK; json := UploadURL bucket (Key req) |})
        end
  end.

(** [handlePresignMultipart]. *)
Definition handlePresignMultipart (rt : Runtime) (w : World) (s : Server)
  : option (Server * Response) :=
  match decoded_multipart w with
  | None => Some (s, sendError StatusBadRequest "invalid request body")
  | Some req =>
      if String.eqb (multipart_Key req) EmptyString || (PartCount req <=? 0)%Z
      then Some (s, sendError StatusBadRequest "invalid parameters")
      else
        let '(b', r) :=
          Balancer_SelectBucket rt (balancer_of s) (multipart_Key req)
            (multipart_Size req) in
        let s1 := {| registry := registry s; balancer_strategy := strategy b';
                     balancer_config := balancer_config s; store := store s |} in
        match r with
        | Failed e => Some (s1, sendError StatusServiceUnavailable (Error_string e))
        | Panicked | NilBucket => None
        | Selected bucket =>
            if negb (presigner_ok w bucket (multipart_Key req))
            then Some (s1, sendError StatusInternalServerError
                             "failed to generate multipart URLs")
            else
              Some ({| registry :=
                         UpdateUsedSize (registry s) (Name (Config bucket))
                           (multipart_Size req);
                       balancer_strategy := strategy b';
                       balancer_config := balancer_config s;
                       store := RecordObject w (store s) (multipart_Key req)
                                  (Name (Config bucket)) (multipart_Size req) |},
                    {| status_code := StatusOK;
                       json := MultipartURLs bucket (multipart_Key req)
                                    (PartCount req) |})
        end
  end.

(** What a request that reaches the balancer does, in either handler, from
    the state [s] to the state [s'] and the response [resp]. *)
Definition placement (rt : Runtime) (w : World) (s : Server)
    (key : string) (size : Z) (s' : Server) (resp : Response) : Prop :=
  exists b' r,
    Balancer_SelectBucket rt (balancer_of s) key size = (b', r) /\
    balancer_strategy s' = strategy b' /\
    balancer_config s' = balancer_config s /\
    match r with
    | Failed e =>
        registry s' = registry s /\ store s' = store s /\
        resp = sendError StatusServiceUnavailable (Error_string e)
    | Panicked | NilBucket => False
    | Selected bucket =>
        if presigner_ok w bucket key
        then registry s' = UpdateUsedSize (registry s) (Name (Config bucket)) size /\
             store s' = RecordObject w (store s) key (Name (Config bucket)) size /\
             status_code resp = StatusOK
        else registry s' = registry s /\ store s' = store s /\
             status_code resp = StatusInternalServerError
    end.

(** The registry's usage figures are sound: every bucket's usage lies
    between zero and its capacity, an [int64]. *)
Definition usage_within_capacity (m : Manager) : Prop :=
  forall b, In b (buckets m) ->
    0 <= UsedSize b <= MaxSizeBytes (Config b) /\
    MaxSizeBytes (Config b) <= max_int64.

(** Bucket names identify the records of the registry. *)
Definition unique_names (m : Manager) : Prop :=
  NoDup (List.map (fun b => Name (Config b)) (buckets m)).

End Presign.

(** ** Package api: listing the placement records *)
Module Listing.

(** [strconv.Atoi]: an optional sign and at least one decimal digit,
    nothing else, with a value in the range of an [int]; [None] is its
    error (syntax or range). *)
Definition Atoi (s : string) : option Z :=
  let '(negative, digits) :=
    match s with
    | String c rest =>
        if Ascii.eqb c "+" then (false, rest)
        else if Ascii.eqb c "-" then (true, rest)
        else (false, s)
    | EmptyString => (false, s)
    end in
  if String.eqb digits EmptyString then None
  else
    match NilEmpty.uint_of_string digits with
    | None => None
    | Some u =>
        let n := if negative then - Z.of_uint u else Z.of_uint u in
        if (min_int64 <=? n) && (n <=? max_int64) then Some n else None
    end.

(** What [r.URL.Query().Get] returns for the four parameters the handler
    reads; a parameter that is absent reads as the empty string. *)
Record Query := {
  prefix : string;
  bucket : string;
  marker : string;
  limit : string
}.

(** The arguments of the call of [h.storage.ListObjects]. *)
Record ListObjectsCall := {
  call_bucketName : string;
  call_prefix : string;
  call_marker : string;
  call_limit : Z
}.

(** The JSON bodies the handler sends. *)
Inductive body :=
| ErrorBody (message : string)
| ObjectsBody (objects : list ObjectRecord) (count : Z).

Record Response := { status_code : Z; json : body }.

(** [handleListObjects]: the call it makes on the store, whose answer is
    [ListObjects] ([None] its error), and the response. *)
Definition handleListObjects
    (ListObjects : ListObjectsCall -> option (list ObjectRecord)) (q : Query)
  : ListObjectsCall * Response :=
  let limit0 := 100 in
  let limit1 :=
    if negb (String.eqb (limit q) EmptyString) then
      match Atoi (limit q) with
      | Some l => if 0 <? l then l else limit0
      | None => limit0
      end
    else limit0 in
  let call := {| call_bucketName := bucket q; call_prefix := prefix q;
                 call_marker := marker q; call_limit := limit1 |} in
  match ListObjects call with
  | None =>
      (call, {| status_code := StatusInternalServerError;
                json := ErrorBody "failed to list objects" |})
  | Some objects =>
      (call, {| status_code := StatusOK;
                json := ObjectsBody objects (len objects) |})
  end.

End Listing.

(** ** Package config: the manager's [GetConfig]

    Go values live in a store: the manager holds a pointer to a [Config]
    struct, and the struct's bucket list is a slice, a header that points to
    a backing array shared by every copy of the header. *)
Module ConfigManager.

(** A slice header: the backing array and the length. *)
Record slice := { array : nat; slice_len : nat }.

(** Modelled from the spec: the [Config] struct declaration, with the fields
    the manager's code reads ([Server.Port], [Database.DSN], [Buckets],
    [Balancer.Strategy], [S3API.ProxyMode], [Metrics.Enabled]). *)
Record Config := {
  Server_Port : Z;
  Database_DSN : string;
  Buckets : slice;
  Balancer_Strategy : string;
  S3API_ProxyMode : bool;
  Metrics_Enabled : bool
}.

Record Heap := {
  structs : gmap nat Config;
  arrays : gmap nat (list BucketConfig);
  next : nat
}.

Record Manager := { config : nat }.

(** [configCopy := *m.config; return &configCopy]: a fresh struct holding the
    fields of the live one; [None] is the nil-pointer panic. *)
Definition GetConfig (m : Manager) (h : Heap) : option (nat * Heap) :=
  match structs h !! config m with
  | None => None
  | Some configCopy =>
      let p := next h in
      Some (p, {| structs := <[p := configCopy]> (structs h);
                  arrays := arrays h;
                  next := S p |})
  end.

(** What a caller can do with the pointer it was given. *)
Inductive mutation :=
| SetServerPort (v : Z)                        (* cfg.Server.Port = v *)
| SetDatabaseDSN (v : string)                  (* cfg.Database.DSN = v *)
| SetBalancerStrategy (v : string)             (* cfg.Balancer.Strategy = v *)
| SetS3APIProxyMode (v : bool)                 (* cfg.S3API.ProxyMode = v *)
| SetMetricsEnabled (v : bool)                 (* cfg.Metrics.Enabled = v *)
| SetBuckets (elems : list BucketConfig)       (* cfg.Buckets = []BucketConfig{...} *)
| SetBucketsElem (i : nat) (v : BucketConfig). (* cfg.Buckets[i] = v *)

Definition with_Buckets (c : Config) (s : slice) : Config :=
  {| Server_Port := Server_Port c; Database_DSN := Database_DSN c;
     Buckets := s; Balancer_Strategy := Balancer_Strategy c;
     S3API_ProxyMode := S3API_ProxyMode c; Metrics_Enabled := Metrics_Enabled c |}.

Definition update_struct (mu : mutation) (c : Config) : Config :=
  match mu with
  | SetServerPort v =>
      {| Server_Port := v; Database_DSN := Database_DSN c;
         Buckets := Buckets c; Balancer_Strategy := Balancer_Strategy c;
         S3API_ProxyMode := S3API_ProxyMode c; Metrics_Enabled := Metrics_Enabled c |}
  | SetDatabaseDSN v =>
      {| Server_Port := Server_Port c; Database_DSN := v;
         Buckets := Buckets c; Balancer_Strategy := Balancer_Strategy c;
         S3API_ProxyMode := S3API_ProxyMode c; Metrics_Enabled := Metrics_Enabled c |}
  | SetBalancerStrategy v =>
      {| Server_Port := Server_Port c; Database_DSN := Database_DSN c;
         Buckets := Buckets c; Balancer_Strategy := v;
         S3API_ProxyMode := S3API_ProxyMode c; Metrics_Enabled := Metrics_Enabled c |}
  | SetS3APIProxyMode v =>
      {| Server_Port := Server_Port c; Database_DSN := Database_DSN c;
         Buckets := Buckets c; Balancer_Strategy := Balancer_Strategy c;
         S3API_ProxyMode := v; Metrics_Enabled := Metrics_Enabled c |}
  | SetMetricsEnabled v =>
      {| Server_Port := Server_Port c; Database_DSN := Database_DSN c;
         Buckets := Buckets c; Balancer_Strategy := Balancer_Strategy c;
         S3API_ProxyMode := S3API_ProxyMode c; Metrics_Enabled := v |}
  | SetBuckets _ | SetBucketsElem _ _ => c
  end.

(** The store after the caller performs [mu] through the pointer [p]; an
    index out of range panics and leaves the store as it is. *)
Definition mutate (p : nat) (mu : mutation) (h : Heap) : Heap :=
  match structs h !! p with
  | None => h
  | Some c =>
      match mu with
      | SetBuckets elems =>
          let a := next h in
          {| structs :=
               <[p := with_Buckets c {| array := a; slice_len := List.length elems |}]>
                 (structs h);
             arrays := <[a := elems]> (arrays h);
             next := S a |}
      | SetBucketsElem i v =>
          if (i <? slice_len (Buckets c))%nat then
            {| structs := structs h;
               arrays := alter (fun elems => <[i := v]> elems) (array (Buckets c)) (arrays h);
               next := next h |}
          else h
      | _ =>
          {| structs := <[p := update_struct mu c]> (structs h);
             arrays := arrays h;
             next := next h |}
      end
  end.

(** What a reader of the configuration behind [p] sees: the fields of the
    struct and the elements of its bucket list. *)
Definition observe (p : nat) (h : Heap) : option (Config * list BucketConfig) :=
  match structs h !! p with
  | None => None
  | Some c =>
      Some (c, take (slice_len (Buckets c))
                 (default [] (arrays h !! array (Buckets c))))
  end.

End ConfigManager.

(** ** Package config: hot reload *)
Module ConfigReload.

Import ConfigManager.

Local Open Scope nat_scope.

(** The lines the manager writes with [log.Printf]. *)
Inductive log_line :=
| FailedToReload                               (* "Failed to reload config: %v" *)
| ReloadedSuccessfully                         (* "Configuration reloaded successfully" *)
| CallbackPanic                                (* "Config change callback panic: %v" *)
| PortChanged (old new : Z)
| DSNChanged
| BucketCountChanged (old new : nat)
| StrategyChanged (old new : string)
| ProxyModeChanged (old new : bool)
| MetricsEnabledChanged (old new : bool)
| ModifiedByPolling                            (* "... (detected by polling), reloading..." *)
| ModifiedByFsnotify                           (* "... (detected by fsnotify), reloading..." *)
| StatFailed.                                  (* "Failed to stat config file during polling: %v" *)

(** A callback, a [func] of a [*Config], by what the manager can see of it: given
    the pointer it is called with, whether it panics. *)
Definition callback : Type := nat -> bool.

(** What the goroutine that runs the callbacks does, in order. *)
Inductive callback_event :=
| Called (i : nat) (cfg : nat)    (* the [i]-th registered callback, on [cfg] *)
| Logged (line : log_line).

(** The fields of [Manager] the reload path uses; [config] is the pointer
    [GetConfig] dereferences. *)
Record Manager := {
  config : nat;
  callbacks : list callback;
  lastModTime : Z
}.

(** The manager as [GetConfig] sees it. *)
Definition reader (m : Manager) : ConfigManager.Manager :=
  {| ConfigManager.config := config m |}.

(** [OnConfigChange]. *)
Definition OnConfigChange (m : Manager) (cb : callback) : Manager :=
  {| config := config m; callbacks := callbacks m ++ [cb];
     lastModTime := lastModTime m |}.

(** What [Load(configFile)] returns when it succeeds: a freshly allocated
    [Config] with a freshly allocated bucket list. [fields] gives the
    scalar fields, [elems] the list. *)
Definition allocate (fields : Config) (elems : list BucketConfig) (h : Heap)
  : nat * Heap :=
  let a := next h in
  let p := S a in
  (p, {| structs :=
           <[p := with_Buckets fields {| array := a; slice_len := List.length elems |}]>
             (structs h);
         arrays := <[a := elems]> (arrays h);
         next := S p |}).

Definition logConfigChanges (oldConfig newConfig : Config) : list log_line :=
  (if (Server_Port oldConfig =? Server_Port newConfig)%Z then []
   else [PortChanged (Server_Port oldConfig) (Server_Port newConfig)])
  ++ (if String.eqb (Database_DSN oldConfig) (Database_DSN newConfig) then []
      else [DSNChanged])
  ++ (if slice_len (Buckets oldConfig) =? slice_len (Buckets newConfig) then []
      else [BucketCountChanged (slice_len (Buckets oldConfig))
              (slice_len (Buckets newConfig))])
  ++ (if String.eqb (Balancer_Strategy oldConfig) (Balancer_Strategy newConfig) then []
      else [StrategyChanged (Balancer_Strategy oldConfig) (Balancer_Strategy newConfig)])
  ++ (if Bool.eqb (S3API_ProxyMode oldConfig) (S3API_ProxyMode newConfig) then []
      else [ProxyModeChanged (S3API_ProxyMode oldConfig) (S3API_ProxyMode newConfig)])
  ++ (if Bool.eqb (Metrics_Enabled oldConfig) (Metrics_Enabled newConfig) then []
      else [MetricsEnabledChanged (Metrics_Enabled oldConfig)
              (Metrics_Enabled newConfig)]).

(** The goroutine of [reloadConfig]: each callback of the copied list in
    turn, a panic recovered and logged. *)
Fixpoint run_callbacks (i : nat) (cbs : list callback) (newConfig : nat)
  : list callback_event :=
  match cbs with
  | [] => []
  | cb :: rest =>
      Called i newConfig ::
      (if cb newConfig then [Logged CallbackPanic] else [])
      ++ run_callbacks (S i) rest newConfig
  end.

(** The outcome of one [reloadConfig]: the manager, the store, the lines
    the reloading goroutine logs and what the callback goroutine does. *)
Record reloaded := {
  after : Manager;
  heap_after : Heap;
  logged : list log_line;
  callback_events : list callback_event
}.

(** [reloadConfig]; [load] is what [Load(m.configFile)] returns after the
    100 ms wait, [None] its error. A nil [oldConfig] panics in
    [logConfigChanges], which is [None]. *)
Definition reloadConfig (load : option (Config * list BucketConfig))
    (m : Manager) (h : Heap) : option reloaded :=
  match load with
  | None =>
      Some {| after := m; heap_after := h; logged := [FailedToReload];
              callback_events := [] |}
  | Some (fields, elems) =>
      let '(newConfig, h') := allocate fields elems h in
      let oldConfig := config m in
      let m' := {| config := newConfig; callbacks := callbacks m;
                   lastModTime := lastModTime m |} in
      match structs h' !! oldConfig, structs h' !! newConfig with
      | Some old, Some new =>
          Some {| after := m'; heap_after := h';
                  logged := ReloadedSuccessfully :: logConfigChanges old new;
                  callback_events := run_callbacks 0 (callbacks m) newConfig |}
      | _, _ => None
      end
  end.

(** One tick of [pollConfig]; [stat] is the modification time [os.Stat]
    reports, [None] its error. *)
Definition pollTick (stat : option Z) (load : option (Config * list BucketConfig))
    (m : Manager) (h : Heap) : option reloaded :=
  match stat with
  | None =>
      Some {| after := m; heap_after := h; logged := [StatFailed];
              callback_events := [] |}
  | Some modTime =>
      if (lastModTime m <? modTime)%Z then
        match reloadConfig load
                {| config := config m; callbacks := callbacks m;
                   lastModTime := modTime |} h with
        | Some r =>
            Some {| after := after r; heap_after := heap_after r;
                    logged := ModifiedByPolling :: logged r;
                    callback_events := callback_events r |}
        | None => None
        end
      else
        Some {| after := m; heap_after := h; logged := []; callback_events := [] |}
  end.

(** The bits of [fsnotify.Op]. *)
Definition fsnotify_Write : Z := 2.
Definition fsnotify_Rename : Z := 8.

(** One event of [watchConfig] from [m.watcher.Events]. *)
Definition watchEvent (op : Z) (stat : option Z)
    (load : option (Config * list BucketConfig)) (m : Manager) (h : Heap)
  : option reloaded :=
  if (Z.land op fsnotify_Write =? fsnotify_Write)%Z
     || (Z.land op fsnotify_Rename =? fsnotify_Rename)%Z
  then
    let m1 := match stat with
              | Some modTime => {| config := config m; callbacks := callbacks m;
                                   lastModTime := modTime |}
              | None => m
              end in
    match reloadConfig load m1 h with
    | Some r =>
        Some {| after := after r; heap_after := heap_after r;
                logged := ModifiedByFsnotify :: logged r;
                callback_events := callback_events r |}
    | None => None
    end
  else Some {| after := m; heap_after := h; logged := []; callback_events := [] |}.

(** The store holds everything below [next]: every struct, every array,
    and the backing array of every struct's bucket list. *)
Definition Heap_wf (h : Heap) : Prop :=
  (forall p, is_Some (structs h !! p) -> p < next h) /\
  (forall a, is_Some (arrays h !! a) -> a < next h) /\
  (forall p c, structs h !! p = Some c -> array (Buckets c) < next h).

(** The calls among the events of the callback goroutine: which callback,
    on which configuration. *)
Definition calls_of (events : list callback_event) : list (nat * nat) :=
  omap (fun e => match e with
                 | Called i cfg => Some (i, cfg)
                 | Logged _ => None
                 end) events.

(** An outcome that changes nothing and logs nothing. *)
Definition untouched (m : Manager) (h : Heap) : reloaded :=
  {| after := m; heap_after := h; logged := []; callback_events := [] |}.

End ConfigReload.

(** ** Package middleware: [BasicAuth] *)
Module Middleware.

Local Open Scope string_scope.

(** [strings.HasPrefix] and [strings.TrimPrefix]. *)
Definition HasPrefix (s prefix : string) : bool := String.prefix prefix s.

Definition TrimPrefix (s prefix : string) : string :=
  if HasPrefix s prefix
  then String.substring (String.length prefix)
         (String.length s - String.length prefix) s
  else s.

(** The cut of [s] at the first occurrence of the byte [sep]. *)
Fixpoint cut (sep : ascii) (s : string) : option (string * string) :=
  match s with
  | EmptyString => None
  | String c rest =>
      if Ascii.eqb c sep then Some (EmptyString, rest)
      else match cut sep rest with
           | Some (before, after) => Some (String c before, after)
           | None => None
           end
  end.

(** [strings.SplitN(s, sep, 2)] for a one-byte separator. *)
Definition SplitN_2 (s : string) (sep : ascii) : list string :=
  match cut sep s with
  | Some (before, after) => [before; after]
  | None => [s]
  end.

(** [base64.StdEncoding.DecodeString]: the standard alphabet with [=]
    padding; carriage returns and line feeds are skipped. [None] is the
    [CorruptInputError]. *)
Definition b64_value (c : ascii) : option Z :=
  let n := Z.of_N (N_of_ascii c) in
  if (65 <=? n)%Z && (n <=? 90)%Z then Some (n - 65)%Z
  else if (97 <=? n)%Z && (n <=? 122)%Z then Some (n - 71)%Z
  else if (48 <=? n)%Z && (n <=? 57)%Z then Some (n + 4)%Z
  else if (n =? 43)%Z then Some 62%Z
  else if (n =? 47)%Z then Some 63%Z
  else None.

Definition byte_of (n : Z) : ascii := ascii_of_N (Z.to_N (n mod 256)).

Definition is_pad (c : ascii) : bool := Ascii.eqb c "=".

Definition is_newline (c : ascii) : bool :=
  Ascii.eqb c "010" || Ascii.eqb c "013".

Fixpoint decode_quanta (cs : list ascii) : option (list ascii) :=
  match cs with
  | [] => Some []
  | c0 :: c1 :: c2 :: c3 :: rest =>
      match b64_value c0, b64_value c1 with
      | Some v0, Some v1 =>
          let b0 := byte_of (v0 * 4 + v1 / 16) in
          match rest with
          | [] =>
              if is_pad c2 then
                if is_pad c3 then Some [b0] else None
              else
                match b64_value c2 with
                | None => None
                | Some v2 =>
                    let b1 := byte_of (v1 * 16 + v2 / 4) in
                    if is_pad c3 then Some [b0; b1]
                    else
                      match b64_value c3 with
                      | None => None
                      | Some v3 => Some [b0; b1; byte_of (v2 * 64 + v3)]
                      end
                end
          | _ =>
              match b64_value c2, b64_value c3, decode_quanta rest with
              | Some v2, Some v3, Some bytes =>
                  Some (b0 :: byte_of (v1 * 16 + v2 / 4)
                           :: byte_of (v2 * 64 + v3) :: bytes)
              | _, _, _ => None
              end
          end
      | _, _ => None
      end
  | _ => None
  end.

Definition DecodeString (s : string) : option string :=
  match decode_quanta
          (List.filter (fun c => negb (is_newline c)) (list_ascii_of_string s)) with
  | Some bytes => Some (string_of_list_ascii bytes)
  | None => None
  end.

(** [http.Header]: canonical header name to its values. *)
Record Request := {
  Method : string;
  Path : string;
  Header : gmap string (list string)
}.

(** [Header.Get]: the first value, the empty string when there is none. *)
Definition Header_Get (h : gmap string (list string)) (key : string) : string :=
  match h !! key with
  | Some (v :: _) => v
  | _ => EmptyString
  end.

(** [AuthConfig]: a nil callback is [None]; [Required] holds what the
    predicate reports for the request at hand, [OnError] whether a handler
    is installed. *)
Record AuthConfig := {
  Required : option bool;
  Credentials : option (string * string);
  OnError : bool
}.

(** What the middleware does to the response writer and the inner handler,
    in order. *)
Inductive event :=
| ServeNext (r : Request)                        (* next.ServeHTTP(w, r) *)
| SetResponseHeader (key value : string)         (* w.Header().Set *)
| CallOnError (code message resource : string)   (* cfg.OnError(w, ...) *)
| HttpError (message : string) (code : Z).       (* http.Error *)

Definition StatusForbidden : Z := 403.

Definition invokeOnError (cfg : AuthConfig) (code message : string) : list event :=
  if OnError cfg then [CallOnError code message EmptyString]
  else [HttpError message StatusForbidden].

(** The header value [Basic realm="s3-balance"]. *)
Definition realm : string :=
  "Basic realm=" ++ String (ascii_of_nat 34) "s3-balance"
  ++ String (ascii_of_nat 34) EmptyString.

Definition requireAuth (cfg : AuthConfig) : list event :=
  SetResponseHeader "WWW-Authenticate" realm ::
  invokeOnError cfg "AccessDenied" "Access Denied".

Definition BasicAuth (cfg : AuthConfig) (r : Request) : list event :=
  let required := match Required cfg with Some b => b | None => false end in
  if negb required then [ServeNext r]
  else
    let authHeader := Header_Get (Header r) "Authorization" in
    if negb (HasPrefix authHeader "Basic ") then requireAuth cfg
    else
      let payload := TrimPrefix authHeader "Basic " in
      match DecodeString payload with
      | None => requireAuth cfg
      | Some decoded =>
          match SplitN_2 decoded ":" with
          | [part0; part1] =>
              let '(accessKey, secretKey) :=
                match Credentials cfg with
                | Some creds => creds
                | None => (EmptyString, EmptyString)
                end in
              if negb (String.eqb part0 accessKey) then
                invokeOnError cfg "InvalidAccessKeyId"
                  "The AWS Access Key Id you provided does not match the configured key."
              else if negb (String.eqb part1 secretKey) then
                invokeOnError cfg "SignatureDoesNotMatch"
                  "The request signature we calculated does not match the signature you provided."
              else [ServeNext r]
          | _ => requireAuth cfg
          end
      end.

End Middleware.

(** ** Package api: the virtual-host middleware *)
Module VirtualHost.

Local Open Scope string_scope.
Local Open Scope nat_scope.

(** [bytealg.IndexByteString] and [bytealg.LastIndexByteString]: the index
    of the first and of the last occurrence of a byte; [None] is [-1]. *)
Fixpoint IndexByte (s : string) (c : ascii) : option nat :=
  match s with
  | EmptyString => None
  | String x rest =>
      if Ascii.eqb x c then Some 0
      else match IndexByte rest c with
           | Some i => Some (S i)
           | None => None
           end
  end.

Fixpoint LastIndexByte (s : string) (c : ascii) : option nat :=
  match s with
  | EmptyString => None
  | String x rest =>
      match LastIndexByte rest c with
      | Some i => Some (S i)
      | None => if Ascii.eqb x c then Some 0 else None
      end
  end.

(** [strings.Contains(s, sep)] for a one-byte [sep]. *)
Definition Contains (s : string) (sep : ascii) : bool :=
  match IndexByte s sep with
  | Some _ => true
  | None => false
  end.

(** The slice expressions [s[i:j]] and [s[i:]]. *)
Definition slice (s : string) (i j : nat) : string := substring i (j - i) s.

Definition slice_from (s : string) (i : nat) : string :=
  substring i (String.length s - i) s.

(** [net.SplitHostPort]: [host:port], [[host]:port]; [None] is the
    [AddrError] (missing port, too many colons, missing or unexpected
    bracket). *)
Definition SplitHostPort (hostport : string) : option (string * string) :=
  match LastIndexByte hostport ":" with
  | None => None
  | Some i =>
      let bracketed :=
        match hostport with
        | String c _ => Ascii.eqb c "["
        | EmptyString => false
        end in
      let checked : option (string * nat * nat) :=
        if bracketed then
          match IndexByte hostport "]" with
          | None => None
          | Some end_ =>
              if end_ + 1 =? String.length hostport then None
              else if end_ + 1 =? i then Some (slice hostport 1 end_, 1, end_ + 1)
              else None
          end
        else
          let host := slice hostport 0 i in
          if Contains host ":" then None else Some (host, 0, 0) in
      match checked with
      | None => None
      | Some (host, j, k) =>
          if Contains (slice_from hostport j) "[" then None
          else if Contains (slice_from hostport k) "]" then None
          else Some (host, slice_from hostport (i + 1))
      end
  end.

(** [strings.Split(s, sep)] for a one-byte [sep]: the pieces between the
    separators, one piece when there is no separator. *)
Fixpoint Split (s : string) (sep : ascii) : list string :=
  match s with
  | EmptyString => [EmptyString]
  | String c rest =>
      if Ascii.eqb c sep then EmptyString :: Split rest sep
      else match Split rest sep with
           | piece :: pieces => String c piece :: pieces
           | [] => [String c EmptyString]
           end
  end.

Definition bucketFromHost (host : string) : string :=
  if String.eqb host EmptyString then EmptyString
  else
    let cleanHost :=
      if Contains host ":" then
        match SplitHostPort host with
        | Some (hostname, _) => hostname
        | None => host
        end
      else host in
    match Split cleanHost "." with
    | [] => EmptyString
    | candidate :: _ =>
        if String.eqb candidate EmptyString then EmptyString else candidate
    end.

(** The fields of [http.Request] the middleware reads or rewrites. *)
Record Request := {
  Method : string;
  Host : string;
  URL_Path : string;
  RequestURI : string
}.

(** The fields of [S3Handler] the middleware reads. *)
Record S3Handler := {
  virtualHost : bool;
  bucketManager : Manager
}.

(** [virtualHostMiddleware]: the request it hands to [next.ServeHTTP],
    which it calls exactly once on every path. *)
Definition virtualHostMiddleware (h : S3Handler) (r : Request) : Request :=
  if negb (virtualHost h) then r
  else
    let bucketName := bucketFromHost (Host r) in
    if String.eqb bucketName EmptyString then r
    else if Middleware.HasPrefix (URL_Path r) ("/" ++ bucketName) then r
    else
      match GetBucket (bucketManager h) bucketName with
      | None => r
      | Some _ =>
          let newPath := "/" ++ bucketName in
          let newPath :=
            if negb (String.eqb (URL_Path r) "/") then newPath ++ URL_Path r
            else newPath in
          {| Method := Method r; Host := Host r;
             URL_Path := newPath; RequestURI := newPath |}
      end.

End VirtualHost.

(** ** Package health: the monitor *)
Module Health.

(** Modelled from the spec: the [Status] struct, "healthy: bool,
    last_checked: timestamp, optional error_message"; the code under
    verification reads [status.Healthy] and [status.LastChecked]. *)
Record Status := {
  Healthy : bool;
  LastChecked : Z;
  ErrorMessage : string
}.

(** The interface [Target]: the monitor calls [GetID] only. *)
Class Target (T : Type) := GetID : T -> string.

(** A [range] over a Go map visits every entry once, in an order the
    language leaves open. *)
Record MapRuntime := {
  range : forall A : Type, gmap string A -> list (string * A)
}.

Arguments range _ {A} _.

Definition RangeContract (rt : MapRuntime) : Prop :=
  forall (A : Type) (m : gmap string A), Permutation (range rt m) (map_to_list m).

(** A call of [reporter.ReportHealth(targetID, status)]. *)
Definition report : Type := string * Status.

Section Monitor.

Context {T : Type} `{Target T}.

(** The monitor's fields: the two maps, whether a reporter is installed
    ([reporter != nil]) and the interval taken from the checker. Each method
    below runs under [m.mu], so it is one atomic step. *)
Record Monitor := {
  targets : gmap string T;
  statuses : gmap string Status;
  reporter : bool;
  interval : Z
}.

(** [NewMonitor], from [checker.GetInterval()] and the reporter. *)
Definition NewMonitor (checker_interval : Z) (has_reporter : bool) : Monitor :=
  {| targets := ∅; statuses := ∅;
     reporter := has_reporter; interval := checker_interval |}.

Definition RegisterTarget (m : Monitor) (target : T) : Monitor :=
  {| targets := <[GetID target := target]> (targets m);
     statuses := statuses m;
     reporter := reporter m; interval := interval m |}.

Definition UnregisterTarget (m : Monitor) (targetID : string) : Monitor :=
  {| targets := delete targetID (targets m);
     statuses := delete targetID (statuses m);
     reporter := reporter m; interval := interval m |}.

(** [GetStatus]: the status and [ok], as an option. *)
Definition GetStatus (m : Monitor) (targetID : string) : option Status :=
  statuses m !! targetID.

(** [GetAllStatuses]: a fresh map with the entries of [m.statuses]. *)
Definition GetAllStatuses (rt : MapRuntime) (m : Monitor) : gmap string Status :=
  fold_left (fun result entry => <[fst entry := snd entry]> result)
    (range rt (statuses m)) ∅.

Definition IsHealthy (m : Monitor) (targetID : string) : bool :=
  match GetStatus m targetID with
  | Some status => Healthy status
  | None => false
  end.

Definition GetHealthyTargets (rt : MapRuntime) (m : Monitor) : list string :=
  List.map fst (List.filter (fun entry => Healthy (snd entry)) (range rt (statuses m))).

Definition GetUnhealthyTargets (rt : MapRuntime) (m : Monitor) : list string :=
  List.map fst
    (List.filter (fun entry => negb (Healthy (snd entry))) (range rt (statuses m))).

(** [checkTarget] runs in three steps: the probe [m.checker.Check], an I/O
    action whose result for each target is the input [probe]; the store of
    the status under [m.mu]; the call of the reporter, if there is one. *)
Inductive stage :=
| AtStore             (* probing; about to take m.mu and store the status *)
| AtReport (status : Status)   (* stored; about to call the reporter *)
| Finished.

Record goroutine := {
  probe_target : T;
  probe_stage : stage
}.

(** The next step of one [checkTarget]: the monitor after it, the reports
    it makes, and where the goroutine stands. *)
Definition step_checkTarget (probe : T -> Status) (m : Monitor) (g : goroutine)
  : Monitor * list report * goroutine :=
  match probe_stage g with
  | AtStore =>
      let status := probe (probe_target g) in
      ({| targets := targets m;
          statuses := <[GetID (probe_target g) := status]> (statuses m);
          reporter := reporter m; interval := interval m |},
       [],
       {| probe_target := probe_target g; probe_stage := AtReport status |})
  | AtReport status =>
      (m,
       if reporter m then [(GetID (probe_target g), status)] else [],
       {| probe_target := probe_target g; probe_stage := Finished |})
  | Finished => (m, [], g)
  end.

(** [checkTarget] run on its own, start to end. *)
Definition checkTarget (probe : T -> Status) (m : Monitor) (target : T)
  : Monitor * list report :=
  let '(m1, r1, g1) :=
    step_checkTarget probe m {| probe_target := target; probe_stage := AtStore |} in
  let '(m2, r2, _) := step_checkTarget probe m1 g1 in
  (m2, r1 ++ r2).

(** The goroutines of one [checkAll] under a schedule, which names step by
    step the goroutine that moves; the reports are in the order made. *)
Fixpoint run_goroutines (probe : T -> Status) (schedule : list nat)
    (m : Monitor) (reports : list report) (gs : list goroutine)
  : Monitor * list report * list goroutine :=
  match schedule with
  | [] => (m, reports, gs)
  | i :: rest =>
      match gs !! i with
      | None => run_goroutines probe rest m reports gs
      | Some g =>
          let '(m', rs, g') := step_checkTarget probe m g in
          run_goroutines probe rest m' (reports ++ rs) (<[i := g']> gs)
      end
  end.

Definition is_Finished (g : goroutine) : bool :=
  match probe_stage g with
  | Finished => true
  | _ => false
  end.

(** [checkAll]: a snapshot of the targets, one goroutine per target, and
    [wg.Wait()]: the call returns once every goroutine has finished, which
    is [None] for a schedule that leaves one unfinished. *)
Definition checkAll (rt : MapRuntime) (probe : T -> Status) (schedule : list nat)
    (m : Monitor) : option (Monitor * list report) :=
  let snapshot := List.map snd (range rt (targets m)) in
  let '(m', reports, gs) :=
    run_goroutines probe schedule m []
      (List.map (fun t => {| probe_target := t; probe_stage := AtStore |}) snapshot) in
  if forallb is_Finished gs then Some (m', reports) else None.

(** The schedule that runs [n] goroutines one after the other. *)
Definition one_by_one (n : nat) : list nat :=
  flat_map (fun i => [i; i]) (seq 0 n).

(** The monitor's methods, as steps. *)
Inductive step : Monitor -> Monitor -> Prop :=
| step_RegisterTarget (m : Monitor) (target : T) :
    step m (RegisterTarget m target)
| step_UnregisterTarget (m : Monitor) (targetID : string) :
    step m (UnregisterTarget m targetID)
| step_checkAll (rt : MapRuntime) (probe : T -> Status) (schedule : list nat)
    (m m' : Monitor) (reports : list report) :
    RangeContract rt ->
    checkAll rt probe schedule m = Some (m', reports) ->
    step m m'.

(** The monitors that calls made one after the other reach from
    [NewMonitor]. *)
Inductive reachable : Monitor -> Prop :=
| reachable_new (checker_interval : Z) (has_reporter : bool) :
    reachable (NewMonitor checker_interval has_reporter)
| reachable_step (m m' : Monitor) :
    reachable m -> step m m' -> reachable m'.

(** Every target is stored under its own ID, as [RegisterTarget] stores
    it. *)
Definition keyed_by_ID (m : Monitor) : Prop :=
  forall id t, targets m !! id = Some t -> GetID t = id.

(** The report a goroutine has made once it has finished. *)
Definition report_of (probe : T -> Status) (g : goroutine) : option report :=
  match probe_stage g with
  | Finished => Some (GetID (probe_target g), probe (probe_target g))
  | _ => None
  end.

(** The invariant of the goroutines of one [checkAll] on the monitor [m0]
    with the snapshot [ts]: only statuses of targets of the snapshot move,
    a goroutine past its store has left the result of its probe in the map,
    and the reports made so far are those of the finished goroutines. *)
Definition checkAll_inv (probe : T -> Status) (m0 : Monitor) (ts : list T)
    (st : Monitor * list report * list goroutine) : Prop :=
  let '(m, reports, gs) := st in
  targets m = targets m0 /\ reporter m = reporter m0 /\ interval m = interval m0 /\
  List.map probe_target gs = ts /\
  (forall i g s, gs !! i = Some g -> probe_stage g = AtReport s ->
                 s = probe (probe_target g)) /\
  (forall i g, gs !! i = Some g -> probe_stage g <> AtStore ->
               statuses m !! GetID (probe_target g) = Some (probe (probe_target g))) /\
  (forall id, targets m0 !! id = None -> statuses m !! id = statuses m0 !! id) /\
  Permutation reports (if reporter m0 then omap (report_of probe) gs else []).

End Monitor.

Arguments Monitor T : clear implicits.
Arguments goroutine T : clear implicits.

End Health.

(** ** Package bucket: the metrics reporter *)
Module Reporter.

(** A record of the registry as the reporter sees it: the fields the
    balancer reads ([info]), and the two the reporter also touches,
    [Config.Endpoint] and [LastChecked]. *)
Record BucketRecord := {
  info : BucketInfo;
  Endpoint : string;
  LastChecked : Z
}.

(** [bucket.Manager], by the field the reporter uses: [buckets], a
    [map[string]*BucketInfo]. *)
Record Registry := { records : gmap string BucketRecord }.

(** Modelled from the spec: the [Stats] struct, "target_id, used_size". *)
Record Stats := {
  TargetID : string;
  stats_UsedSize : Z
}.

(** The calls the reporter makes on package [metrics], each of which sets
    gauges: [SetBucketHealthy] sets [s3_balance_bucket_healthy] for the
    labels (bucket, endpoint) to 1 or 0, [SetBucketUsage] sets the usage
    and the capacity gauge of the bucket to the two [int64]s converted to
    [float64]. *)
Inductive metrics_call :=
| SetBucketHealthy (bucket endpoint : string) (healthy : bool)
| SetBucketUsage (bucket : string) (usage capacity : Z).

(** [MetricsReporter]: whether [metrics] is set (not nil), and the
    manager, here [registry]. *)
Record MetricsReporter := {
  metrics : bool;
  registry : Registry
}.

Definition NewMetricsReporter (has_metrics : bool) (m : Registry) : MetricsReporter :=
  {| metrics := has_metrics; registry := m |}.

(** [ReportHealth]: the record is updated through the pointer the map
    holds. *)
Definition ReportHealth (r : MetricsReporter) (targetID : string)
    (status : Health.Status) : MetricsReporter * list metrics_call :=
  if negb (metrics r) then (r, [])
  else
    match records (registry r) !! targetID with
    | None => (r, [])
    | Some bucket =>
        let bucket' :=
          {| info := {| Config := Config (info bucket);
                        UsedSize := UsedSize (info bucket);
                        Available := Health.Healthy status |};
             Endpoint := Endpoint bucket;
             LastChecked := Health.LastChecked status |} in
        ({| metrics := metrics r;
            registry := {| records := <[targetID := bucket']> (records (registry r)) |} |},
         [SetBucketHealthy targetID (Endpoint bucket) (Health.Healthy status)])
    end.

Definition ReportStats (r : MetricsReporter) (stats : Stats)
  : MetricsReporter * list metrics_call :=
  if negb (metrics r) then (r, [])
  else
    match records (registry r) !! TargetID stats with
    | None => (r, [])
    | Some bucket =>
        let bucket' :=
          {| info := {| Config := Config (info bucket);
                        UsedSize := stats_UsedSize stats;
                        Available := Available (info bucket) |};
             Endpoint := Endpoint bucket;
             LastChecked := LastChecked bucket |} in
        ({| metrics := metrics r;
            registry := {| records := <[TargetID stats := bucket']> (records (registry r)) |} |},
         [SetBucketUsage (TargetID stats) (stats_UsedSize stats)
            (MaxSizeBytes (Config (info bucket)))])
    end.

(** The reporter as the health monitor's [HealthReporter]: the reports of a
    round, delivered in the order made. *)
Definition deliver (r : MetricsReporter) (reports : list Health.report)
  : MetricsReporter :=
  fold_left (fun r rep => fst (ReportHealth r (fst rep) (snd rep))) reports r.

(** The registry as the balancer reads it: the records, in the order the
    map is ranged over. *)
Definition listed (order : Health.MapRuntime) (g : Registry) : Manager :=
  {| buckets := List.map (fun e => info (snd e)) (Health.range order (records g)) |}.

(** Every record is stored under its bucket's name. *)
Definition keyed_by_name (g : Registry) : Prop :=
  forall name b, records g !! name = Some b -> Name (Config (info b)) = name.

(** A call of [Balancer.SelectBucket] that read the registry [g], in some
    order of the map, and has not reached the strategy yet. *)
Definition begun_over (g : Registry) (c : call) : Prop :=
  exists (order : Health.MapRuntime) (b : Balancer) (key : string) (size : Z),
    Health.RangeContract order /\
    manager b = listed order g /\
    c = begin_call b key size.

End Reporter.

(** ** Package presigner: listing the parts of a multipart upload *)
Module Presigner.

Section ListParts.

(** [types.Part] of the AWS SDK; [ListParts] only moves parts around. *)
Context {Part : Type}.

(** [s3.ListPartsOutput], with the fields [ListParts] reads; a nil pointer
    is [None]. *)
Record ListPartsOutput := {
  Parts : list Part;
  IsTruncated : option bool;
  NextPartNumberMarker : option string
}.

(** The backend: what the [n]-th call of [bucket.Client.ListParts] answers
    to a request that carries the marker [marker]; [None] is an error. *)
Definition backend : Type := nat -> option string -> option ListPartsOutput.

(** What [ListParts] returns: the parts and a nil error, or nil and the
    wrapped error. *)
Inductive listing :=
| Listed (allParts : list Part)
| ListFailed.            (* "failed to list parts: %w" *)

(** The loop of [ListParts], from its [n]-th request on. It has no bound of
    its own: [None] is a run that has not returned after [fuel]
    requests. *)
Fixpoint ListParts_from (fuel : nat) (client : backend) (n : nat)
    (allParts : list Part) (nextPartNumberMarker : option string) : option listing :=
  match fuel with
  | O => None
  | S fuel' =>
      match client n nextPartNumberMarker with
      | None => Some ListFailed
      | Some output =>
          let allParts := allParts ++ Parts output in
          match IsTruncated output with
          | Some true =>
              ListParts_from fuel' client (S n) allParts (NextPartNumberMarker output)
          | _ => Some (Listed allParts)
          end
      end
  end.

Definition ListParts (fuel : nat) (client : backend) : option listing :=
  ListParts_from fuel client 0 [] None.

(** The pages a listing goes through: from the [n]-th request with the
    marker [marker], the backend answers the truncated pages [pages], each
    requested with the marker the one before it gave, and then [last]. *)
Inductive pages_from (client : backend)
  : nat -> option string -> list ListPartsOutput -> option ListPartsOutput -> Prop :=
| pages_end (n : nat) (marker : option string) (last : option ListPartsOutput) :
    client n marker = last ->
    (forall output, last = Some output -> IsTruncated output <> Some true) ->
    pages_from client n marker [] last
| pages_more (n : nat) (marker : option string) (output : ListPartsOutput)
    (pages : list ListPartsOutput) (last : option ListPartsOutput) :
    client n marker = Some output ->
    IsTruncated output = Some true ->
    pages_from client (S n) (NextPartNumberMarker output) pages last ->
    pages_from client n marker (output :: pages) last.

End ListParts.

Arguments ListPartsOutput Part : clear implicits.
Arguments backend Part : clear implicits.
Arguments listing Part : clear implicits.

End Presigner.

(** ** Vocabulary of the specification *)

(** The ring points a bucket contributes: the hashes of its virtual keys
    [<bucket_name>-<i>] for [i] in [[0, reps)]. *)
Definition virtualNodes (reps : Z) (b : BucketInfo) : list Z :=
  List.map (fun i => hash (virtualKey (Name (Config b)) (Z.of_nat i)))
    (seq 0 (Z.to_nat reps)).

(** The last bucket, in list order, that contributes the point [h]. *)
Fixpoint owner (reps : Z) (bs : list BucketInfo) (h : Z) : option BucketInfo :=
  match bs with
  | [] => None
  | b :: rest =>
      match owner reps rest h with
      | Some b' => Some b'
      | None => if bool_decide (h ∈ virtualNodes reps b) then Some b else None
      end
  end.

(** The total weight [W], the sum of the weights. *)
Definition sumWeights (bs : list BucketInfo) : Z :=
  fold_right (fun b acc => Weight (Config b) + acc) 0 bs.

(** The cumulative weight up to and including position [k]. *)
Definition cumulativeWeight (bs : list BucketInfo) (k : nat) : Z :=
  sumWeights (take (S k) bs).

(** [b], at position [i], is the first bucket in list order whose cumulative
    weight strictly exceeds [r]. *)
Definition first_exceeding (bs : list BucketInfo) (r : Z) (i : nat)
    (b : BucketInfo) : Prop :=
  bs !! i = Some b /\
  r < cumulativeWeight bs i /\
  forall j, (j < i)%nat -> cumulativeWeight bs j <= r.

(** [b], at position [i], is the first bucket in list order whose available
    space is the largest of the list. *)
Definition first_maximal (bs : list BucketInfo) (i : nat) (b : BucketInfo) : Prop :=
  bs !! i = Some b /\
  (forall b', In b' bs -> GetAvailableSpace b' <= GetAvailableSpace b) /\
  (forall j b', (j < i)%nat -> bs !! j = Some b' ->
                GetAvailableSpace b' < GetAvailableSpace b).

(** [s] splits on its first [sep] into [before] and [after]. *)
Definition splits_on_first (sep : ascii) (s before after : string) : Prop :=
  s = (before ++ String sep after)%string /\
  ~ In sep (list_ascii_of_string before).

(** The keys the middleware compares with: the configured pair, two empty
    strings when no [Credentials] callback is installed. *)
Definition configured_keys (cfg : Middleware.AuthConfig) : string * string :=
  match Middleware.Credentials cfg with
  | Some creds => creds
  | None => (EmptyString, EmptyString)
  end.

(** The request carries valid credentials: its [Authorization] header is
    [Basic ] followed by valid base64 whose decoding splits on the first
    colon into the configured access key and the configured secret key. *)
Definition authorized (cfg : Middleware.AuthConfig) (r : Middleware.Request) : Prop :=
  exists payload decoded user password,
    Middleware.Header_Get (Middleware.Header r) "Authorization"
    = ("Basic " ++ payload)%string /\
    Middleware.DecodeString payload = Some decoded /\
    splits_on_first ":" decoded user password /\
    user = fst (configured_keys cfg) /\
    password = snd (configured_keys cfg).

(** The event that writes an error response. *)
Definition is_error_response (e : Middleware.event) : Prop :=
  match e with
  | Middleware.CallOnError _ _ _ => True
  | Middleware.HttpError _ code => code = Middleware.StatusForbidden
  | _ => False
  end.

(** The event that hands the request to the inner handler. *)
Definition is_ServeNext (e : Middleware.event) : Prop :=
  match e with
  | Middleware.ServeNext _ => True
  | _ => False
  end.

(** A refusal: the events end in an error response and none of them hands
    the request to the inner handler. *)
Definition refusal (events : list Middleware.event) : Prop :=
  (exists e, last events = Some e /\ is_error_response e) /\
  Forall (fun e => ~ is_ServeNext e) events.

(** A ring that some call over the bucket names [N] has rebuilt. *)
Definition ring_of_names (rt : Runtime) (N : list string)
    (s : ConsistentHashStrategy) : Prop :=
  exists s0 bs,
    s = updateRing rt s0 bs /\
    List.map (fun b => Name (Config b)) bs = N /\
    replicas s0 = 100.

(** The result [r] for the key [key] names the bucket that every ring
    rebuilt from the names [N] gives for that key. *)
Definition agrees_on_name (rt : Runtime) (N : list string) (key : string)
    (r : outcome) : Prop :=
  forall s0 bs,
    List.map (fun b => Name (Config b)) bs = N ->
    replicas s0 = 100 ->
    exists b b',
      r = Selected b /\
      ringLookup (updateRing rt s0 bs) key = Selected b' /\
      Name (Config b) = Name (Config b').

(** The invariant of a call among concurrent calls over the names [N]. *)
Definition call_ok (rt : Runtime) (N : list string) (s : ConsistentHashStrategy)
    (c : call) : Prop :=
  List.map (fun b => Name (Config b)) (call_buckets c) = N /\
  match call_progress c with
  | AtUpdateRing => True
  | AtLookup => ring_of_names rt N s
  | Returned r => agrees_on_name rt N (call_key c) r
  end.

(** The states a strategy can be in: [NewBalancer] sets the counter to zero
    and the replica count to 100, and no call changes the replica count or
    takes the counter out of the range of a [uint64]. *)
Definition Strategy_wf (s : Strategy) : Prop :=
  match s with
  | RoundRobin rr => 0 <= counter rr < 2 ^ 64
  | ConsistentHash ch => replicas ch = 100
  | LeastSpace | Weighted => True
  end.

(** The ring point that serves the hash [h] among [points]: the least point
    at or after [h], the least point of all when none is at or after [h]. *)
Definition serves (points : list Z) (h p : Z) : Prop :=
  In p points /\
  ((h <= p /\ forall q, In q points -> h <= q -> p <= q) \/
   ((forall q, In q points -> q < h) /\ forall q, In q points -> p <= q)).

(** The strategy names [NewBalancer] accepts. *)
Definition strategy_names : list string :=
  ["round-robin"; "least-space"; "weighted"; "consistent-hash"]%string.

(** The values [rand.Intn(W)] can return. *)
Definition draws (W : Z) : list Z := List.map Z.of_nat (seq 0 (Z.to_nat W)).

(** A source whose draw is [r]. *)
Definition drawing (r : Z) : Runtime := insertion_runtime (fun _ => r).

(** ** Sample data *)

Definition mkBucket (name : string) (weight maxSize used : Z) : BucketInfo :=
  {| Config := {| Name := name; Weight := weight;
                  MaxSizeBytes := maxSize; Enabled := true |};
     UsedSize := used;
     Available := true |}.

Definition bucketA : BucketInfo := mkBucket "A" 1 100 0.
Definition bucketB : BucketInfo := mkBucket "B" 3 100 0.
Definition bucketC : BucketInfo := mkBucket "C" 6 100 50.

(** Thirteen buckets of 100 bytes: the first is half full, the twelve
    others are empty and tie for the largest available space. *)
Definition thirteen_buckets : list BucketInfo :=
  [ mkBucket "b00" 1 100 50; mkBucket "b01" 1 100 0; mkBucket "b02" 1 100 0;
    mkBucket "b03" 1 100 0; mkBucket "b04" 1 100 0; mkBucket "b05" 1 100 0;
    mkBucket "b06" 1 100 0; mkBucket "b07" 1 100 0; mkBucket "b08" 1 100 0;
    mkBucket "b09" 1 100 0; mkBucket "b10" 1 100 0; mkBucket "b11" 1 100 0;
    mkBucket "b12" 1 100 0 ].

(** Two buckets whose weights are valid Go [int]s and add up to [2^63]. *)
Definition heavy1 : BucketInfo := mkBucket "heavy-1" (2 ^ 62) 100 0.
Definition heavy2 : BucketInfo := mkBucket "heavy-2" (2 ^ 62) 100 0.

(** Two buckets with a shared ring point: the virtual keys
    [bucket-1450-94] and [bucket-1545-56] have the same first four MD5
    bytes. *)
Definition bucket1450 : BucketInfo := mkBucket "bucket-1450" 1 100 0.
Definition bucket1545 : BucketInfo := mkBucket "bucket-1545" 1 100 0.

Definition sample_runtime : Runtime := insertion_runtime (fun _ => 0).

Definition sample_balancer (st : Strategy) (bs : list BucketInfo) : Balancer :=
  {| manager := {| buckets := bs |};
     strategy := st;
     config := {| cfg_Strategy := Strategy_Name st |} |}.

(** A source whose draw for the bound [n] is [n / 2]. *)
Definition midpoint_runtime : Runtime := insertion_runtime (fun n => n / 2).

Definition zeroWeight1 : BucketInfo := mkBucket "zero-1" 0 100 0.
Definition zeroWeight2 : BucketInfo := mkBucket "zero-2" 0 100 0.

(** A handler over two buckets whose store places the object [x], of 60
    bytes, in bucket [A]. *)
Definition sample_handler : Handler :=
  {| bucketManager := {| buckets := [mkBucket "A" 1 100 60; bucketB] |};
     storage := {[ "x"%string := {| obj_Key := "x"; obj_BucketName := "A";
                                    obj_Size := 60 |} ]} |}.

(** A store in which the manager's live configuration lists the buckets [A]
    and [B]. *)
Definition sample_config : ConfigManager.Config :=
  {| ConfigManager.Server_Port := 8080;
     ConfigManager.Database_DSN := "s3.db";
     ConfigManager.Buckets := {| ConfigManager.array := 0; ConfigManager.slice_len := 2 |};
     ConfigManager.Balancer_Strategy := "least-space";
     ConfigManager.S3API_ProxyMode := false;
     ConfigManager.Metrics_Enabled := true |}.

Definition configA : BucketConfig := Config bucketA.
Definition configB : BucketConfig := Config bucketB.

Definition sample_heap : ConfigManager.Heap :=
  {| ConfigManager.structs := {[ 0%nat := sample_config ]};
     ConfigManager.arrays := {[ 0%nat := [configA; configB] ]};
     ConfigManager.next := 1 |}.

Definition sample_manager : ConfigManager.Manager := {| ConfigManager.config := 0 |}.

Definition intruder : BucketConfig :=
  {| Name := "intruder"; Weight := 1000; MaxSizeBytes := 0; Enabled := true |}.

(** The buckets of the specification's capacity-filter scenario: [A] with
    90 of 100 bytes used, [B] with 50 of 100. *)
Definition nearlyFullA : BucketInfo := mkBucket "A" 1 100 90.
Definition halfFullB : BucketInfo := mkBucket "B" 1 100 50.

(** The balancer of the capacity-filter scenario under the consistent-hash
    strategy, and two requests that reach it at the same time: 20 bytes for
    [photo.jpg], for which only [B] is eligible, and 5 bytes for [k2], for
    which both buckets are. *)
Definition scenario_balancer : Balancer :=
  sample_balancer (ConsistentHash NewConsistentHashStrategy) [nearlyFullA; halfFullB].

Definition concurrent_calls : list call :=
  [begin_call scenario_balancer "photo.jpg" 20; begin_call scenario_balancer "k2" 5].

(** A gateway with virtual hosts on that fronts the bucket [photos], and a
    virtual-host request for one of its objects. *)
Definition photos : BucketInfo := mkBucket "photos" 1 100 0.

Definition sample_s3handler : VirtualHost.S3Handler :=
  {| VirtualHost.virtualHost := true;
     VirtualHost.bucketManager := {| buckets := [photos] |} |}.

Definition sample_vhost_request : VirtualHost.Request :=
  {| VirtualHost.Method := "GET";
     VirtualHost.Host := "photos.s3.example.com:9000";
     VirtualHost.URL_Path := "/a.jpg";
     VirtualHost.RequestURI := "/a.jpg" |}.

(** The targets of the examples are buckets, identified by name; the maps
    of the examples are ranged over in key order. *)
#[global] Instance BucketInfo_Target : Health.Target BucketInfo :=
  fun b => Name (Config b).

Definition listing_runtime : Health.MapRuntime :=
  {| Health.range := fun A m => map_to_list m |}.

(** A probe that finds [A] healthy and every other bucket unhealthy, at
    time 1000. *)
Definition sample_probe (b : BucketInfo) : Health.Status :=
  {| Health.Healthy := String.eqb (Name (Config b)) "A";
     Health.LastChecked := 1000;
     Health.ErrorMessage := EmptyString |}.

(** A monitor with a reporter that watches the buckets [A] and [B]. *)
Definition sample_monitor : Health.Monitor BucketInfo :=
  Health.RegisterTarget
    (Health.RegisterTarget (Health.NewMonitor 30 true) bucketA) bucketB.

(** The sample monitor after one round of checks in which the two
    goroutines take turns. *)
Definition checked_monitor : Health.Monitor BucketInfo :=
  match Health.checkAll listing_runtime sample_probe [0; 1; 0; 1]%nat sample_monitor with
  | Some (m, _) => m
  | None => sample_monitor
  end.

(** The gateway of the specification's first scenario: buckets [A] and [B],
    each with room for 100 bytes, under the least-space strategy; a request
    to upload the 60 bytes of [x] and one to upload [y], 50 bytes in 3
    parts, with a presigner and a store that work. *)
Definition sample_server : Presign.Server :=
  {| Presign.registry := {| buckets := [bucketA; bucketB] |};
     Presign.balancer_strategy := LeastSpace;
     Presign.balancer_config := {| cfg_Strategy := "least-space" |};
     Presign.store := ∅ |}.

Definition sample_world : Presign.World :=
  {| Presign.decoded_upload := Some {| Presign.Key := "x"; Presign.Size := 60 |};
     Presign.decoded_multipart :=
       Some {| Presign.multipart_Key := "y"; Presign.PartCount := 3;
               Presign.multipart_Size := 50 |};
     Presign.presigner_ok := fun _ _ => true;
     Presign.RecordObject_ok := true |}.

(** The same requests when the presigner fails. *)
Definition failing_world : Presign.World :=
  {| Presign.decoded_upload := Presign.decoded_upload sample_world;
     Presign.decoded_multipart := Presign.decoded_multipart sample_world;
     Presign.presigner_ok := fun _ _ => false;
     Presign.RecordObject_ok := true |}.

(** The gateway after the upload of [x]. *)
Definition server_after_upload : Presign.Server :=
  {| Presign.registry := {| buckets := [mkBucket "A" 1 100 60; bucketB] |};
     Presign.balancer_strategy := LeastSpace;
     Presign.balancer_config := {| cfg_Strategy := "least-space" |};
     Presign.store := {[ "x"%string := {| obj_Key := "x"; obj_BucketName := "A";
                                          obj_Size := 60 |} ]} |}.

(** The same gateway under the round-robin strategy, after [c] calls of the
    balancer. *)
Definition round_robin_server (c : Z) : Presign.Server :=
  {| Presign.registry := {| buckets := [bucketA; bucketB] |};
     Presign.balancer_strategy := RoundRobin {| counter := c |};
     Presign.balancer_config := {| cfg_Strategy := "round-robin" |};
     Presign.store := ∅ |}.

(** A manager whose live configuration is the one at address 0 of the
    sample store, with two callbacks of which the first panics, and a
    configuration file that now lists bucket [B] only, on port 9090. *)
Definition sample_reload_manager : ConfigReload.Manager :=
  {| ConfigReload.config := 0;
     ConfigReload.callbacks := [fun _ => true; fun _ => false];
     ConfigReload.lastModTime := 100 |}.

Definition sample_load : option (ConfigManager.Config * list BucketConfig) :=
  Some ({| ConfigManager.Server_Port := 9090;
           ConfigManager.Database_DSN := "s3.db";
           ConfigManager.Buckets :=
             {| ConfigManager.array := 0; ConfigManager.slice_len := 0 |};
           ConfigManager.Balancer_Strategy := "least-space";
           ConfigManager.S3API_ProxyMode := false;
           ConfigManager.Metrics_Enabled := true |},
        [configB]).

(** The outcome of the file-watcher's write event at time 200. *)
Definition sample_reloaded : ConfigReload.reloaded :=
  default (ConfigReload.untouched sample_reload_manager sample_heap)
    (ConfigReload.watchEvent ConfigReload.fsnotify_Write (Some 200) sample_load
       sample_reload_manager sample_heap).

(** A registry that holds the buckets [A] and [B], and a reporter on it
    whose metrics are set. *)
Definition sample_registry : Reporter.Registry :=
  {| Reporter.records :=
       {[ "A"%string := {| Reporter.info := bucketA;
                           Reporter.Endpoint := "https://a.example";
                           Reporter.LastChecked := 0 |};
          "B"%string := {| Reporter.info := bucketB;
                           Reporter.Endpoint := "https://b.example";
                           Reporter.LastChecked := 0 |} ]} |}.

Definition sample_reporter : Reporter.MetricsReporter :=
  Reporter.NewMetricsReporter true sample_registry.

(** A balancer over a registry as the reporter left it, listed in key
    order. *)
Definition balancer_over (st : Strategy) (r : Reporter.MetricsReporter) : Balancer :=
  {| manager := Reporter.listed listing_runtime (Reporter.registry r);
     strategy := st;
     config := {| cfg_Strategy := Strategy_Name st |} |}.

(** The reports of the sample round of checks. *)
Definition sample_reports : list Health.report :=
  [("A"%string, sample_probe bucketA); ("B"%string, sample_probe bucketB)].

(** The reporter after [B] was reported unhealthy, and after a probe
    reported [n] bytes in use on [A]. *)
Definition reporter_B_unhealthy : Reporter.MetricsReporter :=
  fst (Reporter.ReportHealth sample_reporter "B" (sample_probe bucketB)).

Definition reporter_A_used (n : Z) : Reporter.MetricsReporter :=
  fst (Reporter.ReportStats sample_reporter
         {| Reporter.TargetID := "A"; Reporter.stats_UsedSize := n |}).

(** Two requests that read the registry as the reporter [r] left it, under
    the consistent-hash strategy. *)
Definition two_calls_over (r : Reporter.MetricsReporter) (size : Z) : list call :=
  [ begin_call (balancer_over (ConsistentHash NewConsistentHashStrategy) r)
      "photo.jpg" size;
    begin_call (balancer_over (ConsistentHash NewConsistentHashStrategy) r)
      "k2" 5 ].

(** A request that read the registry before [B] was reported unhealthy, and
    one that read it afterwards. *)
Definition calls_around_report : list call :=
  [ begin_call (balancer_over (ConsistentHash NewConsistentHashStrategy)
                  sample_reporter) "k2" 5;
    begin_call (balancer_over (ConsistentHash NewConsistentHashStrategy)
                  reporter_B_unhealthy) "k2" 5 ].

(** A backend that lists the parts 1, 2 and 3 of an upload in two pages. *)
Definition first_page : Presigner.ListPartsOutput Z :=
  {| Presigner.Parts := [1; 2];
     Presigner.IsTruncated := Some true;
     Presigner.NextPartNumberMarker := Some "2"%string |}.

Definition second_page : Presigner.ListPartsOutput Z :=
  {| Presigner.Parts := [3];
     Presigner.IsTruncated := Some false;
     Presigner.NextPartNumberMarker := None |}.

Definition two_page_backend : Presigner.backend Z :=
  fun _ marker =>
    match marker with
    | None => Some first_page
    | Some m => if String.eqb m "2" then Some second_page else None
    end.

(** * Properties *)

(** ** The MD5 embedding agrees with RFC 1321's test vectors *)

Example md5_empty :
  MD5.Sum (bytes_of_string EmptyString) =
  [0xd4; 0x1d; 0x8c; 0xd9; 0x8f; 0x00; 0xb2; 0x04;
   0xe9; 0x80; 0x09; 0x98; 0xec; 0xf8; 0x42; 0x7e].
Proof. vm_compute. reflexivity. Qed.

Example md5_abc :
  MD5.Sum (bytes_of_string "abc") =
  [0x90; 0x01; 0x50; 0x98; 0x3c; 0xd2; 0x4f; 0xb0;
   0xd6; 0x96; 0x3f; 0x7d; 0x28; 0xe1; 0x7f; 0x72].
Proof. vm_compute. reflexivity. Qed.

Example md5_message_digest :
  hash "message digest" = 0xf96b697d.
Proof. vm_compute. reflexivity. Qed.

Example md5_two_blocks :
  BigEndian_Uint32 (MD5.Sum (repeat 122 119)) = 0xcaf43ee6.
Proof. vm_compute. reflexivity. Qed.

Example md5_full_block :
  BigEndian_Uint32 (MD5.Sum (repeat 121 64)) = 0xb0c4864f.
Proof. vm_compute. reflexivity. Qed.

Example md5_56_bytes :
  BigEndian_Uint32 (MD5.Sum (repeat 120 56)) = 0x668a72d5.
Proof. vm_compute. reflexivity. Qed.

(** ** Proof automation *)

(** Case analysis on every [match] scrutinee left in the goal. *)
Ltac case_matches :=
  repeat match goal with
         | |- context [match ?x with _ => _ end] => destruct x
         end.

(** ** Slices *)

Lemma len_nonneg {A : Type} (l : list A) : 0 <= len l.
Proof. unfold len. lia. Qed.

Lemma len_zero_iff {A : Type} (l : list A) : (len l =? 0) = true <-> l = [].
Proof.
  unfold len. rewrite Z.eqb_eq. destruct l; simpl; split; intros H;
    try reflexivity; try discriminate; lia.
Qed.

Lemma len_nonzero {A : Type} (l : list A) : l <> [] -> (len l =? 0) = false.
Proof.
  intros H. destruct (len l =? 0) eqn:E; [|reflexivity].
  apply len_zero_iff in E. contradiction.
Qed.

Lemma index_slice_Selected (l : list BucketInfo) (i : Z) (b : BucketInfo) :
  index_slice l i = Selected b -> 0 <= i /\ l !! Z.to_nat i = Some b.
Proof.
  unfold index_slice. destruct (i <? 0) eqn:E; [discriminate|].
  apply Z.ltb_ge in E. destruct (l !! Z.to_nat i) eqn:L; [|discriminate].
  intros [= ->]. auto.
Qed.

Lemma index_slice_In (l : list BucketInfo) (i : Z) (b : BucketInfo) :
  index_slice l i = Selected b -> In b l.
Proof.
  intros H. apply index_slice_Selected in H as [_ H].
  apply list_elem_of_In. eapply list_elem_of_lookup_2. exact H.
Qed.

Lemma index_slice_in_range (l : list BucketInfo) (i : Z) :
  0 <= i < len l -> exists b, index_slice l i = Selected b /\ l !! Z.to_nat i = Some b.
Proof.
  intros [H0 H1]. unfold index_slice.
  destruct (i <? 0) eqn:E; [apply Z.ltb_lt in E; lia|].
  destruct (lookup_lt_is_Some_2 l (Z.to_nat i)) as [b Hb].
  - unfold len in H1. lia.
  - exists b. rewrite Hb. auto.
Qed.

(** ** The ring built by [updateRing] *)

Section Ring.

Variable reps : Z.

Lemma addVirtualNodes_fold (b : BucketInfo) (idxs : list nat)
    (r : gmap Z BucketInfo) (ns : list Z) :
  let pts := List.map (fun i => hash (virtualKey (Name (Config b)) (Z.of_nat i))) idxs in
  fold_left (addVirtualNode b) idxs (r, ns) =
  (fold_left (fun m h => <[h := b]> m) pts r, ns ++ pts).
Proof.
  revert r ns. induction idxs as [|i idxs IH]; intros r ns;
    cbn [fold_left List.map]; cbv zeta.
  - by rewrite app_nil_r.
  - unfold addVirtualNode at 2. cbn [fst snd]. rewrite IH.
    by rewrite <- app_assoc.
Qed.

Lemma lookup_insert_all (b : BucketInfo) (pts : list Z)
    (r : gmap Z BucketInfo) (h : Z) :
  fold_left (fun m k => <[k := b]> m) pts r !! h =
  if bool_decide (h ∈ pts) then Some b else r !! h.
Proof.
  revert r. induction pts as [|k pts IH]; intros r; cbn [fold_left].
  - reflexivity.
  - rewrite IH. destruct (bool_decide (h ∈ pts)) eqn:E.
    + apply bool_decide_eq_true in E.
      rewrite bool_decide_eq_true_2; [done | by right].
    + apply bool_decide_eq_false in E.
      destruct (decide (h = k)) as [->|Hne].
      * rewrite lookup_insert_eq. rewrite bool_decide_eq_true_2; [done | by left].
      * rewrite lookup_insert_ne by done.
        rewrite bool_decide_eq_false_2; [done|].
        intros Hin. apply elem_of_cons in Hin as [?|?]; contradiction.
Qed.

Lemma addBucket_spec (st : gmap Z BucketInfo * list Z) (b : BucketInfo) :
  addBucket reps st b =
  (fold_left (fun m h => <[h := b]> m) (virtualNodes reps b) (fst st),
   snd st ++ virtualNodes reps b).
Proof.
  unfold addBucket, virtualNodes. destruct st as [r ns].
  apply addVirtualNodes_fold.
Qed.

Lemma ring_nodes (bs : list BucketInfo) (st : gmap Z BucketInfo * list Z) :
  snd (fold_left (addBucket reps) bs st) =
  snd st ++ flat_map (virtualNodes reps) bs.
Proof.
  revert st. induction bs as [|b bs IH]; intros st; cbn [fold_left flat_map].
  - by rewrite app_nil_r.
  - rewrite IH, addBucket_spec. cbn [snd]. by rewrite <- app_assoc.
Qed.

Lemma ring_lookup (bs : list BucketInfo) (st : gmap Z BucketInfo * list Z) (h : Z) :
  fst (fold_left (addBucket reps) bs st) !! h =
  match owner reps bs h with
  | Some b => Some b
  | None => fst st !! h
  end.
Proof.
  revert st. induction bs as [|b bs IH]; intros st; cbn [fold_left owner].
  - reflexivity.
  - rewrite IH. destruct (owner reps bs h); [reflexivity|].
    rewrite addBucket_spec. cbn [fst]. rewrite lookup_insert_all.
    by destruct (bool_decide (h ∈ virtualNodes reps b)).
Qed.

Lemma owner_In (bs : list BucketInfo) (h : Z) (b : BucketInfo) :
  owner reps bs h = Some b -> In b bs /\ In h (virtualNodes reps b).
Proof.
  induction bs as [|b0 bs IH]; simpl; [discriminate|].
  destruct (owner reps bs h) as [b'|].
  - intros [= ->]. destruct IH as [? ?]; auto.
  - destruct (bool_decide (h ∈ virtualNodes reps b0)) eqn:E; [|discriminate].
    intros [= ->]. apply bool_decide_eq_true in E.
    split; [by left | by apply list_elem_of_In].
Qed.

Lemma owner_is_Some (bs : list BucketInfo) (h : Z) :
  In h (flat_map (virtualNodes reps) bs) -> is_Some (owner reps bs h).
Proof.
  induction bs as [|b0 bs IH]; simpl; [contradiction|].
  intros Hin. apply in_app_or in Hin.
  destruct (owner reps bs h) as [b'|] eqn:E; [eauto|].
  destruct Hin as [Hin|Hin].
  - rewrite bool_decide_eq_true_2; [eauto | by apply list_elem_of_In].
  - destruct (IH Hin) as [? ?]. discriminate.
Qed.

(** A point belongs to the last bucket that contributes it. *)
Lemma owner_last (pre post : list BucketInfo) (b : BucketInfo) (h : Z) :
  In h (virtualNodes reps b) ->
  (forall b', In b' post -> ~ In h (virtualNodes reps b')) ->
  owner reps (pre ++ b :: post) h = Some b.
Proof.
  intros Hb Hpost. induction pre as [|p pre IH]; simpl.
  - destruct (owner reps post h) as [b'|] eqn:E.
    + apply owner_In in E as [? ?]. exfalso. eapply Hpost; eauto.
    + rewrite bool_decide_eq_true_2; [done | by apply list_elem_of_In].
  - by rewrite IH.
Qed.

End Ring.

(** ** The insertion sort meets the contract of [sort.Slice] *)

Section InsertionSort.

Context {A : Type} (less : A -> A -> bool).

Lemma bubble_left_Permutation (x : A) (prefix_rev : list A) :
  Permutation (bubble_left less x prefix_rev) (x :: prefix_rev).
Proof.
  induction prefix_rev as [|y rest IH]; simpl.
  - reflexivity.
  - destruct (less x y).
    + rewrite IH. apply perm_swap.
    + reflexivity.
Qed.

Lemma insertion_loop_Permutation (l acc : list A) :
  Permutation (fold_left (fun prefix_rev x => bubble_left less x prefix_rev) l acc)
              (l ++ acc).
Proof.
  revert acc. induction l as [|x l IH]; intros acc; simpl.
  - reflexivity.
  - rewrite IH, bubble_left_Permutation. symmetry. apply Permutation_middle.
Qed.

Lemma insertionSort_Permutation (l : list A) :
  Permutation (insertionSort less l) l.
Proof.
  unfold insertionSort. rewrite <- Permutation_rev, insertion_loop_Permutation.
  by rewrite app_nil_r.
Qed.

Hypothesis less_irrefl : forall x, less x x = false.
Hypothesis less_trans :
  forall x y z, less x y = true -> less y z = true -> less x z = true.
Hypothesis less_negtrans :
  forall x y z, less x y = false -> less y z = false -> less x z = false.

Lemma less_asym (x y : A) : less x y = true -> less y x = false.
Proof.
  intros H. destruct (less y x) eqn:E; [|reflexivity].
  rewrite <- (less_irrefl x). symmetry. eauto.
Qed.

(** The prefix, last element first, is sorted when no element is [less]
    than one after it. *)
Lemma bubble_left_sorted (x : A) (prefix_rev : list A) :
  StronglySorted (fun a b => less a b = false) prefix_rev ->
  StronglySorted (fun a b => less a b = false) (bubble_left less x prefix_rev).
Proof.
  induction prefix_rev as [|y rest IH]; intros Hs; simpl.
  - repeat constructor.
  - apply StronglySorted_inv in Hs as [Hs Hy].
    destruct (less x y) eqn:E.
    + constructor; [auto|].
      rewrite Forall_forall. intros z Hz.
      apply list_elem_of_In in Hz.
      eapply Permutation_in in Hz; [|apply bubble_left_Permutation].
      destruct Hz as [<-|Hz].
      * by apply less_asym.
      * rewrite Forall_forall in Hy. apply Hy. by apply list_elem_of_In.
    + constructor; [by constructor|].
      constructor; [exact E|].
      rewrite Forall_forall in Hy |- *. intros z Hz. eauto.
Qed.

Lemma insertion_loop_sorted (l acc : list A) :
  StronglySorted (fun a b => less a b = false) acc ->
  StronglySorted (fun a b => less a b = false)
    (fold_left (fun prefix_rev x => bubble_left less x prefix_rev) l acc).
Proof.
  revert acc. induction l as [|x l IH]; intros acc Hs; simpl; auto.
  apply IH. by apply bubble_left_sorted.
Qed.

Lemma StronglySorted_rev_flip (R : A -> A -> Prop) (l : list A) :
  StronglySorted R l -> StronglySorted (fun x y => R y x) (rev l).
Proof.
  induction 1 as [|x l Hs IH Hx]; simpl.
  - constructor.
  - apply StronglySorted_app_2.
    + intros a b Ha Hb. apply list_elem_of_singleton in Hb as ->.
      rewrite Forall_forall in Hx. apply Hx.
      apply list_elem_of_In. apply in_rev. by apply list_elem_of_In.
    + exact IH.
    + repeat constructor.
Qed.

Lemma insertionSort_sorted (l : list A) :
  StronglySorted (fun x y => less y x = false) (insertionSort less l).
Proof.
  unfold insertionSort.
  apply (StronglySorted_rev_flip (fun a b => less a b = false)).
  apply insertion_loop_sorted. constructor.
Qed.

End InsertionSort.

Lemma insertion_runtime_SortContract (draw : Z -> Z) :
  SortContract (insertion_runtime draw).
Proof.
  intros A less l. cbn [insertion_runtime sort_Slice]. split.
  - apply insertionSort_Permutation.
  - intros. by apply insertionSort_sorted.
Qed.

Lemma constant_zero_RandContract (rt : Runtime) :
  (forall n, rand_draw rt n = 0) -> RandContract rt.
Proof. intros H n Hn. rewrite H. lia. Qed.

Lemma Zltb_irrefl (x : Z) : (x <? x) = false.
Proof. apply Z.ltb_irrefl. Qed.

Lemma Zltb_trans (x y z : Z) : (x <? y) = true -> (y <? z) = true -> (x <? z) = true.
Proof. rewrite !Z.ltb_lt. lia. Qed.

Lemma Zltb_negtrans (x y z : Z) :
  (x <? y) = false -> (y <? z) = false -> (x <? z) = false.
Proof. rewrite !Z.ltb_ge. lia. Qed.

Lemma StronglySorted_weaken {A : Type} (R R' : A -> A -> Prop) (l : list A) :
  (forall x y, R x y -> R' x y) -> StronglySorted R l -> StronglySorted R' l.
Proof.
  intros HR. induction 1 as [|x l Hs IH Hx]; constructor; auto.
  eapply Forall_impl; [exact Hx|]. auto.
Qed.

(** What the contract gives for the ring's points: the sorted permutation. *)
Lemma sort_Slice_Z (rt : Runtime) (l : list Z) :
  SortContract rt ->
  Permutation (sort_Slice rt Z.ltb l) l /\
  StronglySorted Z.le (sort_Slice rt Z.ltb l).
Proof.
  intros Hsort. destruct (Hsort Z Z.ltb l) as [Hp Hs]. split; [exact Hp|].
  specialize (Hs Zltb_irrefl Zltb_trans Zltb_negtrans).
  eapply StronglySorted_weaken; [|exact Hs].
  intros x y H. cbv beta in H. apply Z.ltb_ge in H. exact H.
Qed.

Lemma sort_Slice_Z_unique (rt1 rt2 : Runtime) (l : list Z) :
  SortContract rt1 -> SortContract rt2 ->
  sort_Slice rt1 Z.ltb l = sort_Slice rt2 Z.ltb l.
Proof.
  intros H1 H2.
  destruct (sort_Slice_Z rt1 l H1) as [P1 S1].
  destruct (sort_Slice_Z rt2 l H2) as [P2 S2].
  apply (StronglySorted_unique Z.le); [exact S1 | exact S2 | by rewrite P1, P2].
Qed.

(** ** Every strategy picks from the list it is given *)

Lemma enoughSpace_In (size : Z) (bs : list BucketInfo) (b : BucketInfo) :
  In b (enoughSpace size bs) <-> In b bs /\ size <= GetAvailableSpace b.
Proof.
  unfold enoughSpace. rewrite List.filter_In, Z.leb_le. reflexivity.
Qed.

Lemma RoundRobin_In (s s' : RoundRobinStrategy) (bs : list BucketInfo)
    (key : string) (size : Z) (b : BucketInfo) :
  RoundRobinStrategy_SelectBucket s bs key size = (s', Selected b) -> In b bs.
Proof.
  unfold RoundRobinStrategy_SelectBucket.
  destruct (len bs =? 0); [discriminate|].
  intros [= _ H]. eapply index_slice_In; eauto.
Qed.

Lemma LeastSpace_In (rt : Runtime) (bs : list BucketInfo)
    (key : string) (size : Z) (b : BucketInfo) :
  SortContract rt ->
  LeastSpaceStrategy_SelectBucket rt bs key size = Selected b -> In b bs.
Proof.
  intros Hsort. unfold LeastSpaceStrategy_SelectBucket.
  destruct (len bs =? 0); [discriminate|].
  intros H. apply index_slice_In in H.
  eapply Permutation_in; [apply (Hsort _ LeastSpace_less bs) | exact H].
Qed.

Lemma weighted_walk_In (r c : Z) (bs : list BucketInfo) (b : BucketInfo) :
  weighted_walk r c bs = Some b -> In b bs.
Proof.
  revert c. induction bs as [|b0 bs IH]; intros c; simpl; [discriminate|].
  destruct (r <? wrap_int64 (c + Weight (Config b0))).
  - intros [= ->]. by left.
  - intros H. right. eauto.
Qed.

Lemma Weighted_In (rt : Runtime) (bs : list BucketInfo)
    (key : string) (size : Z) (b : BucketInfo) :
  WeightedStrategy_SelectBucket rt bs key size = Selected b -> In b bs.
Proof.
  unfold WeightedStrategy_SelectBucket.
  destruct (len bs =? 0); [discriminate|].
  destruct (totalWeight bs =? 0).
  - destruct (rand_Intn rt (len bs)); [|discriminate]. apply index_slice_In.
  - destruct (rand_Intn rt (totalWeight bs)) as [r|]; [|discriminate].
    destruct (weighted_walk r 0 bs) eqn:W.
    + intros [= ->]. eapply weighted_walk_In; eauto.
    + apply index_slice_In.
Qed.

Lemma updateRing_lookup (rt : Runtime) (s : ConsistentHashStrategy)
    (bs : list BucketInfo) (h : Z) :
  ring (updateRing rt s bs) !! h = owner (replicas s) bs h.
Proof.
  unfold updateRing. cbn [ring]. rewrite ring_lookup. cbn [fst].
  rewrite lookup_empty. by destruct (owner (replicas s) bs h).
Qed.

Lemma ConsistentHash_In (rt : Runtime) (s s' : ConsistentHashStrategy)
    (bs : list BucketInfo) (key : string) (size : Z) (b : BucketInfo) :
  ConsistentHashStrategy_SelectBucket rt s bs key size = (s', Selected b) ->
  In b bs.
Proof.
  unfold ConsistentHashStrategy_SelectBucket, ringLookup.
  destruct (len bs =? 0); [discriminate|]. cbv zeta.
  match goal with |- context [nodes ?st !! ?i] => destruct (nodes st !! i) as [node|] end;
    [|discriminate].
  rewrite updateRing_lookup.
  destruct (owner (replicas s) bs node) as [b'|] eqn:E; [|discriminate].
  intros [= _ ->]. by apply owner_In in E as [? _].
Qed.

Lemma Strategy_In (rt : Runtime) (s s' : Strategy) (bs : list BucketInfo)
    (key : string) (size : Z) (b : BucketInfo) :
  SortContract rt ->
  Strategy_SelectBucket rt s bs key size = (s', Selected b) -> In b bs.
Proof.
  intros Hsort. destruct s as [rr| | |ch]; cbn [Strategy_SelectBucket].
  - destruct (RoundRobinStrategy_SelectBucket rr bs key size) as [rr' r] eqn:E.
    intros [= _ ->]. eapply RoundRobin_In; eauto.
  - intros [= _ H]. eapply LeastSpace_In; eauto.
  - intros [= _ H]. eapply Weighted_In; eauto.
  - destruct (ConsistentHashStrategy_SelectBucket rt ch bs key size) as [ch' r] eqn:E.
    intros [= _ ->]. eapply ConsistentHash_In; eauto.
Qed.

(** A call that no other call overlaps: whatever the strategy, a bucket that
    [Balancer.SelectBucket] returns is one of the registry's available
    buckets that passed the capacity filter: its available space
    [max_size_bytes - used_size] is at least the requested size, never
    strictly smaller. *)
Theorem SelectBucket_returns_eligible (rt : Runtime) (b b' : Balancer)
    (key : string) (size : Z) (sel : BucketInfo) :
  SortContract rt ->
  Balancer_SelectBucket rt b key size = (b', Selected sel) ->
  In sel (enoughSpace size (GetAvailableBuckets (manager b))) /\
  In sel (GetAvailableBuckets (manager b)) /\
  size <= MaxSizeBytes (Config sel) - UsedSize sel /\
  ~ (GetAvailableSpace sel < size).
Proof.
  intros Hsort. unfold Balancer_SelectBucket.
  destruct (len (GetAvailableBuckets (manager b)) =? 0); [discriminate|].
  destruct (len (enoughSpace size (GetAvailableBuckets (manager b))) =? 0);
    [discriminate|].
  destruct (Strategy_SelectBucket rt (strategy b)
              (enoughSpace size (GetAvailableBuckets (manager b))) key size)
    as [st' r] eqn:E.
  intros [= _ ->].
  pose proof (Strategy_In _ _ _ _ _ _ _ Hsort E) as Hin.
  pose proof Hin as Hin'. apply enoughSpace_In in Hin' as [Hav Hsz].
  unfold GetAvailableSpace in *. repeat split; auto. lia.
Qed.

Lemma SelectBucket_returns_eligible_witness :
  In bucketB
    (enoughSpace 60
       (GetAvailableBuckets
          (manager (sample_balancer (RoundRobin NewRoundRobinStrategy)
                      [bucketA; bucketB; bucketC])))) /\
  In bucketB
    (GetAvailableBuckets
       (manager (sample_balancer (RoundRobin NewRoundRobinStrategy)
                   [bucketA; bucketB; bucketC]))) /\
  60 <= MaxSizeBytes (Config bucketB) - UsedSize bucketB /\
  ~ (GetAvailableSpace bucketB < 60).
Proof.
  eapply (SelectBucket_returns_eligible sample_runtime
            (sample_balancer (RoundRobin NewRoundRobinStrategy)
               [bucketA; bucketB; bucketC]) _ "x" 60 bucketB).
  - apply insertion_runtime_SortContract.
  - vm_compute. reflexivity.
Defined.

(** ** Calls that overlap under the consistent-hash strategy *)

(** A call whose two critical sections run back to back is the call of the
    sequential embedding. *)
Lemma run_schedule_alone (rt : Runtime) (b : Balancer) (s : ConsistentHashStrategy)
    (key : string) (size : Z) :
  strategy b = ConsistentHash s ->
  List.map call_progress
    (snd (run_schedule rt [0%nat; 0%nat] s [begin_call b key size]))
  = [Returned (snd (Balancer_SelectBucket rt b key size))].
Proof.
  intros Hs. unfold Balancer_SelectBucket, begin_call. rewrite Hs.
  cbn [Strategy_SelectBucket]. cbv zeta.
  destruct (len (GetAvailableBuckets (manager b)) =? 0) eqn:E1; [reflexivity|].
  destruct (len (enoughSpace size (GetAvailableBuckets (manager b))) =? 0) eqn:E2;
    [reflexivity|].
  unfold ConsistentHashStrategy_SelectBucket. rewrite E2. reflexivity.
Qed.

(** C1. Under the consistent-hash strategy the ring is rebuilt and searched
    under two separate acquisitions of the lock, so that a call can search
    the ring another call has just rebuilt from its own eligible list: the
    request for 20 bytes, for which only [B] passes the filter, is given
    [A], a bucket with 10 bytes of available space that its own filter
    stage had left out. The same request running alone is given [B]. *)
Theorem SelectBucket_concurrent_rebuild_returns_ineligible :
  List.map call_buckets concurrent_calls = [[halfFullB]; [nearlyFullA; halfFullB]] /\
  List.map call_progress
    (snd (run_schedule sample_runtime [0%nat; 1%nat; 0%nat; 1%nat]
            NewConsistentHashStrategy concurrent_calls))
  = [Returned (Selected nearlyFullA); Returned (Selected halfFullB)] /\
  GetAvailableSpace nearlyFullA = 10 /\
  List.map call_progress
    (snd (run_schedule sample_runtime [0%nat; 0%nat; 1%nat; 1%nat]
            NewConsistentHashStrategy concurrent_calls))
  = [Returned (Selected halfFullB); Returned (Selected halfFullB)] /\
  snd (Balancer_SelectBucket sample_runtime scenario_balancer "photo.jpg" 20)
  = Selected halfFullB.
Proof.
  split; [vm_compute; reflexivity|].
  split; [vm_compute; reflexivity|].
  split; [vm_compute; reflexivity|].
  split; vm_compute; reflexivity.
Qed.

(** ** When [SelectBucket] fails *)

Lemma NewBalancer_wf (m : Manager) (cfg : BalancerConfig) (b : Balancer) :
  NewBalancer m cfg = inl b -> Strategy_wf (strategy b).
Proof.
  unfold NewBalancer.
  repeat match goal with
         | |- context [if ?c then _ else _] => destruct c
         end; intros [= <-]; cbn; try exact I; try lia; reflexivity.
Qed.

Lemma sort_Search_loop_bounds (fuel : nat) (f : Z -> bool) (i j : Z) :
  i <= j -> i <= sort_Search_loop fuel f i j <= j.
Proof.
  revert i j. induction fuel as [|fuel IH]; intros i j Hij; simpl; [lia|].
  destruct (i <? j) eqn:E; [|lia].
  apply Z.ltb_lt in E.
  assert (i <= (i + j) / 2 < j) as [H1 H2].
  { split; [apply Z.div_le_lower_bound | apply Z.div_lt_upper_bound]; lia. }
  destruct (negb (f ((i + j) / 2))).
  - specialize (IH ((i + j) / 2 + 1) j). lia.
  - specialize (IH i ((i + j) / 2)). lia.
Qed.

Lemma sort_Search_bounds (n : Z) (f : Z -> bool) :
  0 <= n -> 0 <= sort_Search n f <= n.
Proof. intros H. by apply sort_Search_loop_bounds. Qed.

Lemma RoundRobin_Selected (s : RoundRobinStrategy) (bs : list BucketInfo)
    (key : string) (size : Z) :
  bs <> [] ->
  exists b, snd (RoundRobinStrategy_SelectBucket s bs key size) = Selected b.
Proof.
  intros Hne. unfold RoundRobinStrategy_SelectBucket.
  rewrite (len_nonzero bs Hne). cbn [snd].
  destruct (index_slice_in_range bs (atomic_AddUint64 (counter s) 1 mod len bs))
    as [b [Hb _]]; [|eauto].
  apply Z.mod_pos_bound. pose proof (len_nonneg bs).
  destruct (len bs =? 0) eqn:E; [apply len_zero_iff in E; contradiction|].
  apply Z.eqb_neq in E. lia.
Qed.

Lemma LeastSpace_Selected (rt : Runtime) (bs : list BucketInfo)
    (key : string) (size : Z) :
  SortContract rt -> bs <> [] ->
  exists b, LeastSpaceStrategy_SelectBucket rt bs key size = Selected b.
Proof.
  intros Hsort Hne. unfold LeastSpaceStrategy_SelectBucket.
  rewrite (len_nonzero bs Hne).
  destruct (Hsort _ LeastSpace_less bs) as [Hp _].
  destruct (index_slice_in_range (sort_Slice rt LeastSpace_less bs) 0)
    as [b [Hb _]]; [|eauto].
  unfold len. rewrite (Permutation_length Hp).
  destruct bs; [contradiction|]. simpl. lia.
Qed.

Lemma Weighted_Selected (rt : Runtime) (bs : list BucketInfo)
    (key : string) (size : Z) :
  RandContract rt -> bs <> [] -> 0 <= totalWeight bs ->
  exists b, WeightedStrategy_SelectBucket rt bs key size = Selected b.
Proof.
  intros Hrand Hne Htot. unfold WeightedStrategy_SelectBucket.
  rewrite (len_nonzero bs Hne).
  assert (0 < len bs) as Hlen.
  { unfold len. destruct bs; [contradiction|]. simpl. lia. }
  unfold rand_Intn.
  destruct (totalWeight bs =? 0) eqn:E.
  - destruct (len bs <=? 0) eqn:L; [apply Z.leb_le in L; lia|].
    destruct (index_slice_in_range bs (rand_draw rt (len bs))) as [b [Hb _]];
      [by apply Hrand | eauto].
  - apply Z.eqb_neq in E.
    destruct (totalWeight bs <=? 0) eqn:L; [apply Z.leb_le in L; lia|].
    destruct (weighted_walk (rand_draw rt (totalWeight bs)) 0 bs); [eauto|].
    destruct (index_slice_in_range bs (len bs - 1)) as [b [Hb _]]; [lia | eauto].
Qed.

Lemma Weighted_negative_total_panics (rt : Runtime) (bs : list BucketInfo)
    (key : string) (size : Z) :
  bs <> [] -> totalWeight bs < 0 ->
  WeightedStrategy_SelectBucket rt bs key size = Panicked.
Proof.
  intros Hne Hneg. unfold WeightedStrategy_SelectBucket, rand_Intn.
  rewrite (len_nonzero bs Hne).
  destruct (totalWeight bs =? 0) eqn:E; [apply Z.eqb_eq in E; lia|].
  destruct (totalWeight bs <=? 0) eqn:L; [reflexivity | apply Z.leb_gt in L; lia].
Qed.

Lemma Weighted_never_Failed (rt : Runtime) (bs : list BucketInfo)
    (key : string) (size : Z) (e : error) :
  bs <> [] -> WeightedStrategy_SelectBucket rt bs key size <> Failed e.
Proof.
  intros Hne. unfold WeightedStrategy_SelectBucket, index_slice.
  rewrite (len_nonzero bs Hne).
  case_matches; discriminate.
Qed.

Lemma virtualNodes_length (reps : Z) (b : BucketInfo) :
  List.length (virtualNodes reps b) = Z.to_nat reps.
Proof. unfold virtualNodes. by rewrite length_map, length_seq. Qed.

Lemma flat_map_virtualNodes_length (reps : Z) (bs : list BucketInfo) :
  List.length (flat_map (virtualNodes reps) bs) = (Z.to_nat reps * List.length bs)%nat.
Proof.
  induction bs as [|b bs IH]; cbn [flat_map List.length].
  - lia.
  - rewrite length_app, IH, virtualNodes_length. lia.
Qed.

Lemma updateRing_nodes (rt : Runtime) (s : ConsistentHashStrategy)
    (bs : list BucketInfo) :
  SortContract rt ->
  Permutation (nodes (updateRing rt s bs)) (flat_map (virtualNodes (replicas s)) bs) /\
  StronglySorted Z.le (nodes (updateRing rt s bs)).
Proof.
  intros Hsort. unfold updateRing. cbn [nodes].
  destruct (sort_Slice_Z rt
              (snd (fold_left (addBucket (replicas s)) bs (∅, []))) Hsort) as [Hp Hs].
  split; [|exact Hs].
  rewrite Hp, ring_nodes. reflexivity.
Qed.

Lemma updateRing_replicas (rt : Runtime) (s : ConsistentHashStrategy)
    (bs : list BucketInfo) :
  replicas (updateRing rt s bs) = replicas s.
Proof. reflexivity. Qed.

Lemma ConsistentHash_Selected (rt : Runtime) (s : ConsistentHashStrategy)
    (bs : list BucketInfo) (key : string) (size : Z) :
  SortContract rt -> 0 < replicas s -> bs <> [] ->
  exists b, snd (ConsistentHashStrategy_SelectBucket rt s bs key size) = Selected b.
Proof.
  intros Hsort Hreps Hne. unfold ConsistentHashStrategy_SelectBucket.
  rewrite (len_nonzero bs Hne). cbv zeta. cbn [snd]. unfold ringLookup. cbv zeta.
  destruct (updateRing_nodes rt s bs Hsort) as [Hp _].
  set (s' := updateRing rt s bs) in *.
  set (f := fun i => hash key <=? nth (Z.to_nat i) (nodes s') 0).
  assert (0 < len (nodes s')) as Hlen.
  { unfold len. rewrite (Permutation_length Hp), flat_map_virtualNodes_length.
    destruct bs; [contradiction|]. cbn [List.length]. nia. }
  pose proof (sort_Search_bounds (len (nodes s')) f ltac:(lia)) as Hidx.
  set (idx := if sort_Search (len (nodes s')) f =? len (nodes s') then 0
              else sort_Search (len (nodes s')) f).
  assert (0 <= idx < len (nodes s')) as Hrange.
  { subst idx. destruct (sort_Search (len (nodes s')) f =? len (nodes s')) eqn:E.
    - lia.
    - apply Z.eqb_neq in E. lia. }
  destruct (lookup_lt_is_Some_2 (nodes s') (Z.to_nat idx)) as [node Hnode].
  { unfold len in Hrange. lia. }
  rewrite Hnode. subst s'. rewrite updateRing_lookup.
  destruct (owner_is_Some (replicas s) bs node) as [b Hb].
  - eapply Permutation_in; [exact Hp|].
    apply list_elem_of_In. eapply list_elem_of_lookup_2. exact Hnode.
  - rewrite Hb. eauto.
Qed.

Lemma Strategy_Selected (rt : Runtime) (s : Strategy) (bs : list BucketInfo)
    (key : string) (size : Z) :
  SortContract rt -> RandContract rt -> Strategy_wf s -> bs <> [] ->
  (s = Weighted -> 0 <= totalWeight bs) ->
  exists b, snd (Strategy_SelectBucket rt s bs key size) = Selected b.
Proof.
  intros Hsort Hrand Hwf Hne Hw. destruct s as [rr| | |ch]; cbn [Strategy_SelectBucket].
  - destruct (RoundRobin_Selected rr bs key size Hne) as [b Hb].
    destruct (RoundRobinStrategy_SelectBucket rr bs key size). eauto.
  - by apply LeastSpace_Selected.
  - apply Weighted_Selected; auto.
  - destruct (ConsistentHash_Selected rt ch bs key size Hsort) as [b Hb]; auto.
    { cbn in Hwf. lia. }
    destruct (ConsistentHashStrategy_SelectBucket rt ch bs key size). eauto.
Qed.

Lemma Strategy_never_Failed (rt : Runtime) (s : Strategy) (bs : list BucketInfo)
    (key : string) (size : Z) (e : error) :
  SortContract rt -> RandContract rt -> Strategy_wf s -> bs <> [] ->
  snd (Strategy_SelectBucket rt s bs key size) <> Failed e.
Proof.
  intros Hsort Hrand Hwf Hne.
  assert (s = Weighted \/ s <> Weighted) as [->|Hs]
    by (destruct s; auto; right; discriminate).
  - cbn [Strategy_SelectBucket snd]. by apply Weighted_never_Failed.
  - destruct (Strategy_Selected rt s bs key size) as [b Hb]; auto; try congruence.
Qed.

Lemma ConsistentHash_SelectBucket_replicas (rt : Runtime)
    (s : ConsistentHashStrategy) (bs : list BucketInfo) (key : string) (size : Z) :
  replicas (fst (ConsistentHashStrategy_SelectBucket rt s bs key size)) = replicas s.
Proof.
  unfold ConsistentHashStrategy_SelectBucket.
  destruct (len bs =? 0); reflexivity.
Qed.

Lemma Strategy_SelectBucket_wf (rt : Runtime) (s : Strategy)
    (bs : list BucketInfo) (key : string) (size : Z) :
  Strategy_wf s -> Strategy_wf (fst (Strategy_SelectBucket rt s bs key size)).
Proof.
  destruct s as [rr| | |ch]; cbn [Strategy_SelectBucket]; auto.
  - unfold RoundRobinStrategy_SelectBucket.
    destruct (len bs =? 0); cbn; auto.
    intros _. unfold atomic_AddUint64, wrap_uint64. apply Z.mod_pos_bound. lia.
  - intros Hr.
    pose proof (ConsistentHash_SelectBucket_replicas rt ch bs key size) as H.
    destruct (ConsistentHashStrategy_SelectBucket rt ch bs key size) as [ch' r].
    cbn [fst Strategy_wf] in *. congruence.
Qed.

(** C2 (amended). [Balancer.SelectBucket] returns the error
    [NoAvailableBackend] when the registry's available set is empty, and the
    error [InsufficientCapacity] carrying the requested size when that set is
    not empty but no bucket of it has enough free space. When some bucket is
    eligible it never returns an error, and it returns a bucket, except that
    under the weighted strategy this needs the 64-bit sum of the eligible
    weights not to be negative: with a negative sum the call panics. *)
Theorem SelectBucket_failure_cases (rt : Runtime) (b : Balancer)
    (key : string) (size : Z) :
  SortContract rt -> RandContract rt -> Strategy_wf (strategy b) ->
  (GetAvailableBuckets (manager b) = [] ->
   snd (Balancer_SelectBucket rt b key size) = Failed NoAvailableBackend) /\
  (GetAvailableBuckets (manager b) <> [] ->
   enoughSpace size (GetAvailableBuckets (manager b)) = [] ->
   snd (Balancer_SelectBucket rt b key size) = Failed (InsufficientCapacity size)) /\
  (enoughSpace size (GetAvailableBuckets (manager b)) <> [] ->
   (forall e, snd (Balancer_SelectBucket rt b key size) <> Failed e) /\
   ((strategy b = Weighted ->
     0 <= totalWeight (enoughSpace size (GetAvailableBuckets (manager b)))) ->
    exists sel, snd (Balancer_SelectBucket rt b key size) = Selected sel) /\
   (strategy b = Weighted ->
    totalWeight (enoughSpace size (GetAvailableBuckets (manager b))) < 0 ->
    snd (Balancer_SelectBucket rt b key size) = Panicked)).
Proof.
  intros Hsort Hrand Hwf. unfold Balancer_SelectBucket.
  set (avail := GetAvailableBuckets (manager b)).
  set (eligible := enoughSpace size avail).
  split; [|split].
  - intros ->. reflexivity.
  - intros Hne He. rewrite (len_nonzero avail Hne), He. reflexivity.
  - intros He.
    assert (avail <> []) as Hne.
    { intros E. apply He. subst eligible. rewrite E. reflexivity. }
    rewrite (len_nonzero avail Hne), (len_nonzero eligible He).
    split; [|split].
    + intros e.
      pose proof (Strategy_never_Failed rt (strategy b) eligible key size e
                    Hsort Hrand Hwf He) as Hnf.
      destruct (Strategy_SelectBucket rt (strategy b) eligible key size). exact Hnf.
    + intros Hw.
      destruct (Strategy_Selected rt (strategy b) eligible key size
                  Hsort Hrand Hwf He Hw) as [sel Hsel].
      destruct (Strategy_SelectBucket rt (strategy b) eligible key size). eauto.
    + intros -> Hneg. cbn [Strategy_SelectBucket snd].
      by apply Weighted_negative_total_panics.
Qed.

Lemma SelectBucket_failure_cases_witness :
  (GetAvailableBuckets (manager (sample_balancer LeastSpace [bucketA; bucketB; bucketC])) = [] ->
   snd (Balancer_SelectBucket sample_runtime
          (sample_balancer LeastSpace [bucketA; bucketB; bucketC]) "x" 60)
   = Failed NoAvailableBackend) /\
  (GetAvailableBuckets (manager (sample_balancer LeastSpace [bucketA; bucketB; bucketC])) <> [] ->
   enoughSpace 60
     (GetAvailableBuckets (manager (sample_balancer LeastSpace [bucketA; bucketB; bucketC]))) = [] ->
   snd (Balancer_SelectBucket sample_runtime
          (sample_balancer LeastSpace [bucketA; bucketB; bucketC]) "x" 60)
   = Failed (InsufficientCapacity 60)) /\
  (enoughSpace 60
     (GetAvailableBuckets (manager (sample_balancer LeastSpace [bucketA; bucketB; bucketC]))) <> [] ->
   (forall e, snd (Balancer_SelectBucket sample_runtime
                     (sample_balancer LeastSpace [bucketA; bucketB; bucketC]) "x" 60)
              <> Failed e) /\
   ((strategy (sample_balancer LeastSpace [bucketA; bucketB; bucketC]) = Weighted ->
     0 <= totalWeight
            (enoughSpace 60
               (GetAvailableBuckets
                  (manager (sample_balancer LeastSpace [bucketA; bucketB; bucketC]))))) ->
    exists sel,
      snd (Balancer_SelectBucket sample_runtime
             (sample_balancer LeastSpace [bucketA; bucketB; bucketC]) "x" 60)
      = Selected sel) /\
   (strategy (sample_balancer LeastSpace [bucketA; bucketB; bucketC]) = Weighted ->
    totalWeight
      (enoughSpace 60
         (GetAvailableBuckets
            (manager (sample_balancer LeastSpace [bucketA; bucketB; bucketC])))) < 0 ->
    snd (Balancer_SelectBucket sample_runtime
           (sample_balancer LeastSpace [bucketA; bucketB; bucketC]) "x" 60)
    = Panicked)).
Proof.
  apply (SelectBucket_failure_cases sample_runtime
           (sample_balancer LeastSpace [bucketA; bucketB; bucketC]) "x" 60).
  - apply insertion_runtime_SortContract.
  - apply constant_zero_RandContract. reflexivity.
  - exact I.
Defined.

(** C2, as stated, fails: two eligible buckets whose weights add up to
    [2^63] make the weighted strategy's total wrap to a negative [int], and
    [rand.Intn] panics, so that neither a bucket nor an error is returned. *)
Lemma SelectBucket_weighted_overflow_panics :
  enoughSpace 0
    (GetAvailableBuckets (manager (sample_balancer Weighted [heavy1; heavy2])))
  = [heavy1; heavy2] /\
  Weight (Config heavy1) <= max_int64 /\
  Weight (Config heavy2) <= max_int64 /\
  totalWeight [heavy1; heavy2] = min_int64 /\
  snd (Balancer_SelectBucket sample_runtime
         (sample_balancer Weighted [heavy1; heavy2]) "k" 0) = Panicked.
Proof. vm_compute. repeat split; try reflexivity; discriminate. Qed.

(** The capacity-filter scenario of the specification: with [A] at 90 of 100
    bytes and [B] at 50 of 100, a request for 20 bytes goes to [B] under
    every strategy, and a request for 60 bytes fails for lack of capacity. *)
Lemma capacity_filter_scenario (rt : Runtime) (st : Strategy) (key : string) :
  SortContract rt -> RandContract rt -> Strategy_wf st ->
  snd (Balancer_SelectBucket rt (sample_balancer st [nearlyFullA; halfFullB]) key 20)
  = Selected halfFullB /\
  snd (Balancer_SelectBucket rt (sample_balancer st [nearlyFullA; halfFullB]) key 60)
  = Failed (InsufficientCapacity 60).
Proof.
  intros Hsort Hrand Hwf. split; [|reflexivity].
  unfold Balancer_SelectBucket.
  change (GetAvailableBuckets (manager (sample_balancer st [nearlyFullA; halfFullB])))
    with [nearlyFullA; halfFullB].
  change (enoughSpace 20 [nearlyFullA; halfFullB]) with [halfFullB].
  cbn [len List.length Z.of_nat Z.eqb Pos.of_succ_nat Pos.succ strategy sample_balancer].
  destruct (Strategy_Selected rt st [halfFullB] key 20 Hsort Hrand Hwf)
    as [sel Hsel]; [discriminate | intros _; vm_compute; discriminate |].
  destruct (Strategy_SelectBucket rt st [halfFullB] key 20) as [st' r] eqn:E.
  cbn [snd] in *. subst r.
  apply Strategy_In in E; [|exact Hsort]. by destruct E as [->|[]].
Qed.

Example empty_registry_has_no_backend :
  snd (Balancer_SelectBucket sample_runtime
         (sample_balancer (RoundRobin NewRoundRobinStrategy) []) "k" 0)
  = Failed NoAvailableBackend.
Proof. reflexivity. Qed.

Example NewBalancer_unknown_strategy :
  NewBalancer {| buckets := [] |} {| cfg_Strategy := "random" |}
  = inr (UnknownStrategy "random").
Proof. reflexivity. Qed.

(** ** Round-robin *)

(** The index the [k]-th of a run of calls computes, the counter being [c]
    before the first. *)
Lemma RoundRobin_calls_indices (n : nat) (s : RoundRobinStrategy)
    (bs : list BucketInfo) (key : string) (size : Z) :
  bs <> [] ->
  RoundRobin_calls n s bs key size =
  List.map (fun k => index_slice bs
                       (((counter s + 1 + Z.of_nat k) mod 2 ^ 64) mod len bs))
    (seq 0 n).
Proof.
  intros Hne. revert s. induction n as [|n IH]; intros s; [reflexivity|].
  cbn [RoundRobin_calls]. unfold RoundRobinStrategy_SelectBucket.
  rewrite (len_nonzero bs Hne). cbn [seq List.map].
  rewrite IH. f_equal.
  - unfold atomic_AddUint64, wrap_uint64. do 3 f_equal. lia.
  - rewrite <- seq_shift, List.map_map. apply List.map_ext. intros k.
    cbn [counter]. unfold atomic_AddUint64, wrap_uint64. do 2 f_equal.
    replace ((counter s + 1) mod 2 ^ 64 + 1 + Z.of_nat k)
      with ((counter s + 1) mod 2 ^ 64 + (1 + Z.of_nat k)) by lia.
    rewrite Zplus_mod_idemp_l. f_equal. lia.
Qed.

Lemma mod_eq_small_diff (n a b : Z) :
  0 < n -> a mod n = b mod n -> - n < a - b < n -> a = b.
Proof.
  intros Hn Hab Hd.
  pose proof (Z.div_mod a n ltac:(lia)). pose proof (Z.div_mod b n ltac:(lia)).
  assert (a - b = n * (a / n - b / n)) by lia.
  assert (a / n - b / n = 0) by nia. lia.
Qed.

(** Over [n] consecutive counter values that do not wrap, or when [n]
    divides [2^64], the indices are the [n] residues, each once. *)
Lemma RoundRobin_indices_Permutation (c n : Z) :
  0 < n -> 0 <= c ->
  (c + n < 2 ^ 64 \/ 2 ^ 64 mod n = 0) ->
  Permutation
    (List.map (fun k => Z.to_nat (((c + 1 + Z.of_nat k) mod 2 ^ 64) mod n))
       (seq 0 (Z.to_nat n)))
    (seq 0 (Z.to_nat n)).
Proof.
  intros Hn Hc Hcase.
  assert (forall k, (k < Z.to_nat n)%nat ->
            ((c + 1 + Z.of_nat k) mod 2 ^ 64) mod n = (c + 1 + Z.of_nat k) mod n)
    as Hmod.
  { intros k Hk. destruct Hcase as [Hsmall|Hdiv].
    - rewrite (Z.mod_small (c + 1 + Z.of_nat k)); [reflexivity | lia].
    - apply Z.mod_mod_divide. apply Z.mod_divide; [lia | exact Hdiv]. }
  apply NoDup_Permutation_bis.
  - apply NoDup_ListNoDup. apply NoDup_fmap_2_strong; [|apply NoDup_seq].
    intros x y Hx Hy Heq.
    apply elem_of_seq in Hx, Hy.
    rewrite (Hmod x), (Hmod y) in Heq by lia.
    apply Z2Nat.inj in Heq;
      try (apply Z.mod_pos_bound; lia).
    apply mod_eq_small_diff in Heq; lia.
  - by rewrite length_map.
  - intros i Hi. apply in_map_iff in Hi as [k [<- Hk]].
    apply in_seq in Hk. apply in_seq.
    pose proof (Z.mod_pos_bound ((c + 1 + Z.of_nat k) mod 2 ^ 64) n Hn). lia.
Qed.

(** C3 (amended). Over a fixed non-empty eligible list of [n] buckets, [n]
    consecutive round-robin calls select each bucket exactly once, provided
    the 64-bit counter does not wrap around during these calls, or [n]
    divides [2^64]. *)
Theorem RoundRobin_each_bucket_once (s : RoundRobinStrategy)
    (bs : list BucketInfo) (key : string) (size : Z) :
  bs <> [] ->
  0 <= counter s < 2 ^ 64 ->
  (counter s + len bs < 2 ^ 64 \/ 2 ^ 64 mod len bs = 0) ->
  exists picks,
    RoundRobin_calls (List.length bs) s bs key size = List.map Selected picks /\
    Permutation picks bs.
Proof.
  intros Hne Hc Hcase.
  assert (0 < len bs) as Hlen.
  { unfold len. destruct bs; [contradiction|]. simpl. lia. }
  destruct bs as [|d rest] eqn:Ebs; [contradiction|]. rewrite <- Ebs in *.
  exists (List.map (fun i => nth i bs d)
            (List.map (fun k => Z.to_nat (((counter s + 1 + Z.of_nat k) mod 2 ^ 64)
                                            mod len bs))
               (seq 0 (List.length bs)))).
  split.
  - rewrite RoundRobin_calls_indices by (rewrite Ebs; discriminate).
    rewrite !List.map_map. apply List.map_ext. intros k.
    destruct (index_slice_in_range bs
                (((counter s + 1 + Z.of_nat k) mod 2 ^ 64) mod len bs))
      as [b [Hb Hl]].
    { apply Z.mod_pos_bound. lia. }
    rewrite Hb. f_equal. symmetry. by apply nth_lookup_Some.
  - pose proof (RoundRobin_indices_Permutation (counter s) (len bs)
                  Hlen ltac:(lia) Hcase) as Hp.
    unfold len in Hp at 2 3. rewrite Nat2Z.id in Hp.
    rewrite (Permutation_map _ Hp).
    clear. induction bs as [|b bs IH] using rev_ind; [reflexivity|].
    rewrite length_app. cbn [List.length].
    replace (List.length bs + 1)%nat with (S (List.length bs)) by lia.
    rewrite seq_S, map_app. cbn [List.map Nat.add].
    rewrite app_nth2, Nat.sub_diag by lia. cbn [nth].
    apply Permutation_app_tail.
    erewrite List.map_ext_in; [exact IH|].
    intros i Hi. apply in_seq in Hi. apply app_nth1. lia.
Qed.

Lemma RoundRobin_each_bucket_once_witness :
  exists picks,
    RoundRobin_calls 3 NewRoundRobinStrategy [bucketA; bucketB; bucketC] "k" 0
    = List.map Selected picks /\
    Permutation picks [bucketA; bucketB; bucketC].
Proof.
  apply (RoundRobin_each_bucket_once NewRoundRobinStrategy
           [bucketA; bucketB; bucketC] "k" 0).
  - discriminate.
  - vm_compute. split; [discriminate | reflexivity].
  - left. vm_compute. reflexivity.
Defined.

(** C3, as stated, fails when the counter wraps around: three calls that
    take it from [2^64 - 3] to [0] pick the first of three buckets twice and
    the second never. *)
Lemma RoundRobin_wraparound_repeats :
  RoundRobin_calls 3 {| counter := 2 ^ 64 - 3 |} [bucketA; bucketB; bucketC] "k" 0
  = [Selected bucketC; Selected bucketA; Selected bucketA] /\
  ~ Permutation [bucketC; bucketA; bucketA] [bucketA; bucketB; bucketC].
Proof.
  split; [vm_compute; reflexivity|].
  intros Hp. symmetry in Hp.
  pose proof (Permutation_in bucketB Hp ltac:(right; left; reflexivity)) as Hin.
  cbn in Hin. destruct Hin as [H|[H|[H|[]]]]; discriminate.
Qed.

(** ** Weighted *)

Lemma wrap_int64_id (x : Z) : min_int64 <= x <= max_int64 -> wrap_int64 x = x.
Proof.
  unfold wrap_int64, min_int64, max_int64. intros H.
  rewrite Z.mod_small; lia.
Qed.

Lemma sumWeights_nonneg (bs : list BucketInfo) :
  Forall (fun b => 0 <= Weight (Config b)) bs -> 0 <= sumWeights bs.
Proof.
  induction 1 as [|b bs Hb _ IH]; simpl; lia.
Qed.

Lemma totalWeight_from (bs : list BucketInfo) (acc : Z) :
  Forall (fun b => 0 <= Weight (Config b)) bs ->
  0 <= acc -> acc + sumWeights bs <= max_int64 ->
  fold_left (fun acc b => wrap_int64 (acc + Weight (Config b))) bs acc
  = acc + sumWeights bs.
Proof.
  intros Hw. revert acc. induction Hw as [|b bs Hb Hbs IH]; intros acc Hacc Hmax; simpl.
  - lia.
  - pose proof (sumWeights_nonneg bs Hbs). simpl in Hmax.
    rewrite wrap_int64_id by (unfold min_int64, max_int64 in *; lia).
    rewrite IH; lia.
Qed.

Lemma totalWeight_sumWeights (bs : list BucketInfo) :
  Forall (fun b => 0 <= Weight (Config b)) bs ->
  sumWeights bs <= max_int64 ->
  totalWeight bs = sumWeights bs.
Proof.
  intros Hw Hmax. unfold totalWeight. rewrite totalWeight_from; auto; lia.
Qed.

Lemma cumulativeWeight_head (b : BucketInfo) (bs : list BucketInfo) :
  cumulativeWeight (b :: bs) 0 = Weight (Config b).
Proof. unfold cumulativeWeight. simpl. lia. Qed.

Lemma cumulativeWeight_tail (b : BucketInfo) (bs : list BucketInfo) (i : nat) :
  cumulativeWeight (b :: bs) (S i) = Weight (Config b) + cumulativeWeight bs i.
Proof. reflexivity. Qed.

Lemma weighted_walk_first (bs : list BucketInfo) (r c : Z) :
  Forall (fun b => 0 <= Weight (Config b)) bs ->
  0 <= c -> c + sumWeights bs <= max_int64 ->
  c <= r < c + sumWeights bs ->
  exists i b,
    weighted_walk r c bs = Some b /\
    bs !! i = Some b /\
    r < c + cumulativeWeight bs i /\
    forall j, (j < i)%nat -> c + cumulativeWeight bs j <= r.
Proof.
  intros Hw. revert c. induction Hw as [|b0 bs Hb Hbs IH]; intros c Hc Hmax Hr.
  - simpl in Hr. lia.
  - pose proof (sumWeights_nonneg bs Hbs) as Hnn. simpl in Hmax, Hr.
    cbn [weighted_walk].
    rewrite wrap_int64_id by (unfold min_int64, max_int64 in *; lia).
    destruct (r <? c + Weight (Config b0)) eqn:E.
    + apply Z.ltb_lt in E. exists 0%nat, b0. repeat split.
      * rewrite cumulativeWeight_head. lia.
      * intros j Hj. lia.
    + apply Z.ltb_ge in E.
      destruct (IH (c + Weight (Config b0))) as [i [b [Hwalk [Hl [Hlt Hfirst]]]]];
        try lia.
      exists (S i), b. repeat split; auto.
      * rewrite cumulativeWeight_tail. lia.
      * intros j Hj. destruct j as [|j].
        -- rewrite cumulativeWeight_head. lia.
        -- specialize (Hfirst j ltac:(lia)).
           rewrite cumulativeWeight_tail. lia.
Qed.

(** C4 (amended). On a non-empty eligible list whose weights are not
    negative and whose total weight [W] fits a Go [int]: if [W] is zero the
    weighted strategy returns the bucket at the position [rand.Intn] draws
    in [[0, n)], always a bucket of the list and never an error; if [W] is
    positive it draws [r] in [[0, W)] and returns the first bucket in list
    order whose cumulative weight strictly exceeds [r]. *)
Theorem Weighted_selection (rt : Runtime) (bs : list BucketInfo)
    (key : string) (size : Z) :
  RandContract rt ->
  bs <> [] ->
  Forall (fun b => 0 <= Weight (Config b)) bs ->
  sumWeights bs <= max_int64 ->
  (sumWeights bs = 0 ->
   exists b,
     0 <= rand_draw rt (len bs) < len bs /\
     bs !! Z.to_nat (rand_draw rt (len bs)) = Some b /\
     WeightedStrategy_SelectBucket rt bs key size = Selected b) /\
  (0 < sumWeights bs ->
   exists i b,
     0 <= rand_draw rt (sumWeights bs) < sumWeights bs /\
     first_exceeding bs (rand_draw rt (sumWeights bs)) i b /\
     WeightedStrategy_SelectBucket rt bs key size = Selected b).
Proof.
  intros Hrand Hne Hw Hmax.
  assert (0 < len bs) as Hlen.
  { unfold len. destruct bs; [contradiction|]. simpl. lia. }
  unfold WeightedStrategy_SelectBucket, rand_Intn.
  rewrite (len_nonzero bs Hne), (totalWeight_sumWeights bs Hw Hmax).
  split.
  - intros H0. rewrite H0. cbn [Z.eqb].
    destruct (len bs <=? 0) eqn:L; [apply Z.leb_le in L; lia|].
    pose proof (Hrand (len bs) Hlen) as Hd.
    destruct (index_slice_in_range bs (rand_draw rt (len bs)) Hd) as [b [Hb Hl]].
    exists b. auto.
  - intros Hpos.
    destruct (sumWeights bs =? 0) eqn:E; [apply Z.eqb_eq in E; lia|].
    destruct (sumWeights bs <=? 0) eqn:L; [apply Z.leb_le in L; lia|].
    pose proof (Hrand (sumWeights bs) Hpos) as Hd.
    destruct (weighted_walk_first bs (rand_draw rt (sumWeights bs)) 0 Hw)
      as [i [b [Hwalk [Hl [Hlt Hfirst]]]]]; try lia.
    exists i, b. rewrite Hwalk. repeat split; auto; try lia.
Qed.

Lemma midpoint_runtime_RandContract : RandContract midpoint_runtime.
Proof.
  intros n Hn. cbn [midpoint_runtime insertion_runtime rand_draw].
  split; [apply Z.div_pos | apply Z.div_lt_upper_bound]; lia.
Qed.

Lemma Weighted_selection_witness :
  (sumWeights [bucketA; bucketB; bucketC] = 0 ->
   exists b,
     0 <= rand_draw midpoint_runtime (len [bucketA; bucketB; bucketC])
       < len [bucketA; bucketB; bucketC] /\
     [bucketA; bucketB; bucketC]
       !! Z.to_nat (rand_draw midpoint_runtime (len [bucketA; bucketB; bucketC]))
     = Some b /\
     WeightedStrategy_SelectBucket midpoint_runtime [bucketA; bucketB; bucketC] "k" 0
     = Selected b) /\
  (0 < sumWeights [bucketA; bucketB; bucketC] ->
   exists i b,
     0 <= rand_draw midpoint_runtime (sumWeights [bucketA; bucketB; bucketC])
       < sumWeights [bucketA; bucketB; bucketC] /\
     first_exceeding [bucketA; bucketB; bucketC]
       (rand_draw midpoint_runtime (sumWeights [bucketA; bucketB; bucketC])) i b /\
     WeightedStrategy_SelectBucket midpoint_runtime [bucketA; bucketB; bucketC] "k" 0
     = Selected b).
Proof.
  apply (Weighted_selection midpoint_runtime [bucketA; bucketB; bucketC] "k" 0).
  - apply midpoint_runtime_RandContract.
  - discriminate.
  - repeat constructor; vm_compute; discriminate.
  - vm_compute. discriminate.
Defined.

Example Weighted_picks_by_cumulative_weight :
  WeightedStrategy_SelectBucket midpoint_runtime [bucketA; bucketB; bucketC] "k" 0
  = Selected bucketC.
Proof. vm_compute. reflexivity. Qed.

Example Weighted_all_zero_still_selects :
  WeightedStrategy_SelectBucket midpoint_runtime [zeroWeight1; zeroWeight2] "k" 0
  = Selected zeroWeight2.
Proof. vm_compute. reflexivity. Qed.

(** C4, as stated, fails on weights whose sum does not fit a Go [int]: the
    two weights are positive and [W = 2^63 > 0], yet the code's total wraps
    to [-2^63], no [r] is drawn and no bucket is returned. *)
Lemma Weighted_overflow_selects_nothing :
  0 <= Weight (Config heavy1) <= max_int64 /\
  0 <= Weight (Config heavy2) <= max_int64 /\
  sumWeights [heavy1; heavy2] = 2 ^ 63 /\
  totalWeight [heavy1; heavy2] = - 2 ^ 63 /\
  WeightedStrategy_SelectBucket midpoint_runtime [heavy1; heavy2] "k" 0 = Panicked.
Proof. vm_compute. repeat split; try reflexivity; discriminate. Qed.

(** ** Consistent hash: the selection is a function of the names and the key *)

Lemma virtualNodes_name (reps : Z) (b1 b2 : BucketInfo) :
  Name (Config b1) = Name (Config b2) ->
  virtualNodes reps b1 = virtualNodes reps b2.
Proof. intros H. unfold virtualNodes. by rewrite H. Qed.

Lemma flat_map_virtualNodes_names (reps : Z) (bs1 bs2 : list BucketInfo) :
  List.map (fun b => Name (Config b)) bs1 = List.map (fun b => Name (Config b)) bs2 ->
  flat_map (virtualNodes reps) bs1 = flat_map (virtualNodes reps) bs2.
Proof.
  revert bs2. induction bs1 as [|b1 bs1 IH]; intros [|b2 bs2]; cbn [List.map flat_map];
    try discriminate; [reflexivity|].
  intros [= Hn Hrest]. by rewrite (virtualNodes_name reps b1 b2 Hn), (IH bs2 Hrest).
Qed.

Lemma owner_names (reps : Z) (bs1 bs2 : list BucketInfo) (h : Z) :
  List.map (fun b => Name (Config b)) bs1 = List.map (fun b => Name (Config b)) bs2 ->
  option_map (fun b => Name (Config b)) (owner reps bs1 h) =
  option_map (fun b => Name (Config b)) (owner reps bs2 h).
Proof.
  revert bs2. induction bs1 as [|b1 bs1 IH]; intros [|b2 bs2]; cbn [List.map owner];
    try discriminate; [reflexivity|].
  intros [= Hn Hrest]. specialize (IH bs2 Hrest).
  rewrite (virtualNodes_name reps b1 b2 Hn).
  destruct (owner reps bs1 h), (owner reps bs2 h); cbn in IH |- *; try discriminate.
  - exact IH.
  - destruct (bool_decide (h ∈ virtualNodes reps b2)); cbn; congruence.
Qed.

(** What a call returns, in terms of the sorted points and their owners. *)
Lemma ConsistentHash_outcome (rt : Runtime) (s : ConsistentHashStrategy)
    (bs : list BucketInfo) (key : string) (size : Z) :
  bs <> [] ->
  snd (ConsistentHashStrategy_SelectBucket rt s bs key size) =
  let ns := sort_Slice rt Z.ltb (flat_map (virtualNodes (replicas s)) bs) in
  let found := sort_Search (len ns) (fun i => hash key <=? nth (Z.to_nat i) ns 0) in
  let idx := if found =? len ns then 0 else found in
  match ns !! Z.to_nat idx with
  | None => Panicked
  | Some node =>
      match owner (replicas s) bs node with
      | Some b => Selected b
      | None => NilBucket
      end
  end.
Proof.
  intros Hne. unfold ConsistentHashStrategy_SelectBucket.
  rewrite (len_nonzero bs Hne). cbv zeta. cbn [snd]. unfold ringLookup. cbv zeta.
  assert (nodes (updateRing rt s bs)
          = sort_Slice rt Z.ltb (flat_map (virtualNodes (replicas s)) bs)) as ->.
  { unfold updateRing. cbn [nodes]. by rewrite ring_nodes. }
  match goal with |- context [?l !! ?i] => destruct (l !! i) as [node|] end;
    [|reflexivity].
  rewrite updateRing_lookup.
  by destruct (owner (replicas s) bs node).
Qed.

Lemma ConsistentHash_SelectBucket_snd (rt : Runtime) (s : ConsistentHashStrategy)
    (bs : list BucketInfo) (key : string) (size : Z) :
  bs <> [] ->
  snd (ConsistentHashStrategy_SelectBucket rt s bs key size)
  = ringLookup (updateRing rt s bs) key.
Proof.
  intros Hne. unfold ConsistentHashStrategy_SelectBucket.
  by rewrite (len_nonzero bs Hne).
Qed.

(** Two rings rebuilt from the same names in the same order answer a key
    with buckets of the same name. *)
Lemma ringLookup_names (rt1 rt2 : Runtime) (s1 s2 : ConsistentHashStrategy)
    (bs1 bs2 : list BucketInfo) (key : string) :
  SortContract rt1 -> SortContract rt2 ->
  replicas s1 = 100 -> replicas s2 = 100 ->
  bs1 <> [] ->
  List.map (fun b => Name (Config b)) bs1 = List.map (fun b => Name (Config b)) bs2 ->
  exists b1 b2,
    ringLookup (updateRing rt1 s1 bs1) key = Selected b1 /\
    ringLookup (updateRing rt2 s2 bs2) key = Selected b2 /\
    Name (Config b1) = Name (Config b2) /\
    (bs1 = bs2 -> b1 = b2).
Proof.
  intros Hs1 Hs2 Hr1 Hr2 Hne Hnames.
  assert (bs2 <> []) as Hne2.
  { intros ->. destruct bs1; [contradiction | discriminate]. }
  rewrite <- (ConsistentHash_SelectBucket_snd rt1 s1 bs1 key 0 Hne).
  rewrite <- (ConsistentHash_SelectBucket_snd rt2 s2 bs2 key 0 Hne2).
  destruct (ConsistentHash_Selected rt1 s1 bs1 key 0 Hs1 ltac:(lia) Hne)
    as [b1 Hb1].
  destruct (ConsistentHash_Selected rt2 s2 bs2 key 0 Hs2 ltac:(lia) Hne2)
    as [b2 Hb2].
  exists b1, b2. split; [exact Hb1|]. split; [exact Hb2|].
  rewrite ConsistentHash_outcome in Hb1, Hb2 by assumption.
  cbv zeta in Hb1, Hb2.
  rewrite Hr1 in Hb1. rewrite Hr2 in Hb2.
  rewrite <- (flat_map_virtualNodes_names 100 bs1 bs2 Hnames) in Hb2.
  rewrite (sort_Slice_Z_unique rt2 rt1 _ Hs2 Hs1) in Hb2.
  match type of Hb1 with context [?l !! ?i] => destruct (l !! i) as [node|] end;
    [|discriminate].
  pose proof (owner_names 100 bs1 bs2 node Hnames) as Hown.
  split.
  - destruct (owner 100 bs1 node), (owner 100 bs2 node); try discriminate.
    cbn in Hown. congruence.
  - intros <-. destruct (owner 100 bs1 node); congruence.
Qed.

(** C5. Under the consistent-hash strategy, two calls of [SelectBucket] with
    the same key over the same bucket names in the same order return the
    same bucket, whatever ring the strategy held before each call and
    whatever the buckets' usage is at each call. *)
Theorem ConsistentHash_same_key_same_bucket (rt1 rt2 : Runtime)
    (s1 s2 : ConsistentHashStrategy) (bs1 bs2 : list BucketInfo)
    (key : string) (size1 size2 : Z) :
  SortContract rt1 -> SortContract rt2 ->
  replicas s1 = 100 -> replicas s2 = 100 ->
  bs1 <> [] ->
  List.map (fun b => Name (Config b)) bs1 = List.map (fun b => Name (Config b)) bs2 ->
  exists b1 b2,
    snd (ConsistentHashStrategy_SelectBucket rt1 s1 bs1 key size1) = Selected b1 /\
    snd (ConsistentHashStrategy_SelectBucket rt2 s2 bs2 key size2) = Selected b2 /\
    Name (Config b1) = Name (Config b2) /\
    (bs1 = bs2 -> b1 = b2).
Proof.
  intros Hs1 Hs2 Hr1 Hr2 Hne Hnames.
  assert (bs2 <> []) as Hne2.
  { intros ->. destruct bs1; [contradiction | discriminate]. }
  rewrite !ConsistentHash_SelectBucket_snd by assumption.
  by apply ringLookup_names.
Qed.

Lemma ConsistentHash_same_key_same_bucket_witness :
  exists b1 b2,
    snd (ConsistentHashStrategy_SelectBucket sample_runtime NewConsistentHashStrategy
           [bucketA; bucketB; bucketC] "user/42/avatar.png" 0) = Selected b1 /\
    snd (ConsistentHashStrategy_SelectBucket sample_runtime
           (fst (ConsistentHashStrategy_SelectBucket sample_runtime
                   NewConsistentHashStrategy [bucketA; bucketB; bucketC]
                   "user/42/avatar.png" 0))
           [bucketA; bucketB; bucketC] "user/42/avatar.png" 0) = Selected b2 /\
    Name (Config b1) = Name (Config b2) /\
    ([bucketA; bucketB; bucketC] = [bucketA; bucketB; bucketC] -> b1 = b2).
Proof.
  apply (ConsistentHash_same_key_same_bucket sample_runtime sample_runtime
           NewConsistentHashStrategy
           (fst (ConsistentHashStrategy_SelectBucket sample_runtime
                   NewConsistentHashStrategy [bucketA; bucketB; bucketC]
                   "user/42/avatar.png" 0))
           [bucketA; bucketB; bucketC] [bucketA; bucketB; bucketC]
           "user/42/avatar.png" 0 0).
  - apply insertion_runtime_SortContract.
  - apply insertion_runtime_SortContract.
  - reflexivity.
  - apply ConsistentHash_SelectBucket_replicas.
  - discriminate.
  - reflexivity.
Defined.

Example ConsistentHash_avatar_key :
  snd (ConsistentHashStrategy_SelectBucket sample_runtime NewConsistentHashStrategy
         [bucketA; bucketB; bucketC] "user/42/avatar.png" 0) = Selected bucketA.
Proof. vm_compute. reflexivity. Qed.

(** *** Overlapping calls over the same names *)

Section SameNames.

Variable rt : Runtime.
Hypothesis Hsort : SortContract rt.
Variable N : list string.
Hypothesis N_nonempty : N <> [].

Lemma names_nonempty (bs : list BucketInfo) :
  List.map (fun b => Name (Config b)) bs = N -> bs <> [].
Proof. intros H ->. by apply N_nonempty. Qed.

Lemma call_ok_after_rebuild (s : ConsistentHashStrategy) (bs : list BucketInfo)
    (c : call) :
  replicas s = 100 ->
  List.map (fun b => Name (Config b)) bs = N ->
  call_ok rt N s c -> call_ok rt N (updateRing rt s bs) c.
Proof.
  intros Hr Hbs [Hn Hc]. split; [exact Hn|].
  destruct (call_progress c); auto.
  exists s, bs. auto.
Qed.

Lemma ring_of_names_lookup (s : ConsistentHashStrategy) (key : string) :
  ring_of_names rt N s -> agrees_on_name rt N key (ringLookup s key).
Proof.
  intros (s0 & bs0 & -> & Hn0 & Hr0) s1 bs1 Hn1 Hr1.
  destruct (ringLookup_names rt rt s0 s1 bs0 bs1 key Hsort Hsort Hr0 Hr1)
    as (b & b' & Hb & Hb' & Hname & _).
  - by apply names_nonempty.
  - congruence.
  - exists b, b'. auto.
Qed.

Lemma step_call_invariant (s : ConsistentHashStrategy) (calls : list call)
    (i : nat) (c : call) :
  replicas s = 100 ->
  Forall (call_ok rt N s) calls ->
  calls !! i = Some c ->
  replicas (fst (step_call rt s c)) = 100 /\
  Forall (call_ok rt N (fst (step_call rt s c))) (<[i := snd (step_call rt s c)]> calls).
Proof.
  intros Hr Hall Hc.
  assert (call_ok rt N s c) as [Hn Hp].
  { rewrite Forall_forall in Hall. apply Hall.
    eapply list_elem_of_lookup_2. exact Hc. }
  unfold step_call. destruct (call_progress c) as [| |r] eqn:Hprog; cbn [fst snd].
  - split; [exact Hr|]. apply Forall_insert.
    + eapply Forall_impl; [exact Hall|]. intros c0. by apply call_ok_after_rebuild.
    + split; [exact Hn|]. cbn [call_progress]. exists s, (call_buckets c). auto.
  - split; [exact Hr|]. apply Forall_insert; [exact Hall|].
    split; [exact Hn|]. cbn [call_progress call_key].
    by apply ring_of_names_lookup.
  - split; [exact Hr|]. rewrite list_insert_id; [exact Hall | exact Hc].
Qed.

Lemma run_schedule_invariant (schedule : list nat) (s : ConsistentHashStrategy)
    (calls : list call) :
  replicas s = 100 ->
  Forall (call_ok rt N s) calls ->
  replicas (fst (run_schedule rt schedule s calls)) = 100 /\
  Forall (call_ok rt N (fst (run_schedule rt schedule s calls)))
    (snd (run_schedule rt schedule s calls)).
Proof.
  revert s calls. induction schedule as [|i rest IH]; intros s calls Hr Hall.
  - cbn [run_schedule fst snd]. auto.
  - cbn [run_schedule]. destruct (calls !! i) as [c|] eqn:Hc; [|by apply IH].
    destruct (step_call_invariant s calls i c Hr Hall Hc) as [Hr' Hall'].
    destruct (step_call rt s c) as [s' c']. cbn [fst snd] in *. by apply IH.
Qed.

(** However calls over the same bucket names in the same order overlap, two
    of them that have returned for the same key have returned buckets of
    the same name. *)
Lemma overlapping_calls_same_key_same_name (schedule : list nat)
    (calls : list call) (c1 c2 : call) (r1 r2 : outcome) :
  Forall (fun c => List.map (fun b => Name (Config b)) (call_buckets c) = N /\
                   call_progress c = AtUpdateRing) calls ->
  In c1 (snd (run_schedule rt schedule NewConsistentHashStrategy calls)) ->
  In c2 (snd (run_schedule rt schedule NewConsistentHashStrategy calls)) ->
  call_key c1 = call_key c2 ->
  call_progress c1 = Returned r1 ->
  call_progress c2 = Returned r2 ->
  exists b1 b2,
    r1 = Selected b1 /\ r2 = Selected b2 /\ Name (Config b1) = Name (Config b2).
Proof.
  intros Hinit Hin1 Hin2 Hkey Hp1 Hp2.
  destruct (run_schedule_invariant schedule NewConsistentHashStrategy calls)
    as [_ Hall]; [reflexivity | |].
  { eapply Forall_impl; [exact Hinit|]. intros c [Hn Hp]. split; [exact Hn|].
    by rewrite Hp. }
  rewrite Forall_forall in Hall.
  destruct (Hall c1 ltac:(by apply list_elem_of_In)) as [Hn1 Hok1].
  destruct (Hall c2 ltac:(by apply list_elem_of_In)) as [Hn2 Hok2].
  rewrite Hp1 in Hok1. rewrite Hp2 in Hok2. rewrite <- Hkey in Hok2.
  destruct (Hok1 NewConsistentHashStrategy (call_buckets c1) Hn1 eq_refl)
    as (b1 & b1' & -> & Hl1 & Hname1).
  destruct (Hok2 NewConsistentHashStrategy (call_buckets c1) Hn1 eq_refl)
    as (b2 & b2' & -> & Hl2 & Hname2).
  exists b1, b2. split; [reflexivity|]. split; [reflexivity|]. congruence.
Qed.

End SameNames.

(** ** The ring invariant *)

Lemma virtualNodes_nth (reps : Z) (b : BucketInfo) (i : nat) :
  (i < Z.to_nat reps)%nat ->
  nth i (virtualNodes reps b) 0 = hash (virtualKey (Name (Config b)) (Z.of_nat i)).
Proof.
  intros Hi. unfold virtualNodes.
  rewrite (nth_indep _ 0 (hash (virtualKey (Name (Config b)) (Z.of_nat 0))))
    by (rewrite length_map, length_seq; exact Hi).
  rewrite (List.map_nth (fun i => hash (virtualKey (Name (Config b)) (Z.of_nat i)))).
  by rewrite seq_nth.
Qed.

(** C6 (amended). After [updateRing] rebuilds the ring from [n] buckets, the
    node sequence is sorted non-decreasing and holds [100 * n] points; each
    bucket contributes exactly its 100 virtual nodes, the one for index [i]
    being the first four bytes, read big-endian, of the MD5 digest of
    [<bucket_name>-<i>]; and the ring maps every point to a bucket that
    contributes it, namely the last such bucket in list order (so back to
    its own bucket whenever no later bucket shares the point). *)
Theorem updateRing_invariant (rt : Runtime) (s : ConsistentHashStrategy)
    (bs : list BucketInfo) :
  SortContract rt ->
  replicas s = 100 ->
  StronglySorted Z.le (nodes (updateRing rt s bs)) /\
  List.length (nodes (updateRing rt s bs)) = (100 * List.length bs)%nat /\
  Permutation (nodes (updateRing rt s bs)) (flat_map (virtualNodes 100) bs) /\
  (forall b,
     List.length (virtualNodes 100 b) = 100%nat /\
     forall i, (i < 100)%nat ->
       nth i (virtualNodes 100 b) 0 =
       BigEndian_Uint32
         (MD5.Sum (bytes_of_string
                     (Name (Config b) ++ "-" ++ Sprintf_d (Z.of_nat i))%string))) /\
  (forall h, In h (nodes (updateRing rt s bs)) ->
     exists b, ring (updateRing rt s bs) !! h = Some b /\
               In b bs /\ In h (virtualNodes 100 b)) /\
  (forall pre b post h,
     bs = pre ++ b :: post ->
     In h (virtualNodes 100 b) ->
     (forall b', In b' post -> ~ In h (virtualNodes 100 b')) ->
     ring (updateRing rt s bs) !! h = Some b).
Proof.
  intros Hsort Hreps.
  destruct (updateRing_nodes rt s bs Hsort) as [Hp Hs]. rewrite Hreps in Hp.
  split; [exact Hs|]. split.
  { rewrite (Permutation_length Hp), flat_map_virtualNodes_length. reflexivity. }
  split; [exact Hp|]. split.
  { intros b. split; [by rewrite virtualNodes_length|].
    intros i Hi. rewrite virtualNodes_nth by exact Hi. reflexivity. }
  split.
  - intros h Hh. rewrite updateRing_lookup, Hreps.
    destruct (owner_is_Some 100 bs h) as [b Hb].
    { eapply Permutation_in; [exact Hp | exact Hh]. }
    exists b. split; [exact Hb|]. by apply owner_In in Hb.
  - intros pre b post h -> Hb Hpost.
    rewrite updateRing_lookup, Hreps. by apply owner_last.
Qed.

Lemma updateRing_invariant_witness :
  StronglySorted Z.le
    (nodes (updateRing sample_runtime NewConsistentHashStrategy [bucketA; bucketB])) /\
  List.length
    (nodes (updateRing sample_runtime NewConsistentHashStrategy [bucketA; bucketB]))
  = (100 * List.length [bucketA; bucketB])%nat /\
  Permutation
    (nodes (updateRing sample_runtime NewConsistentHashStrategy [bucketA; bucketB]))
    (flat_map (virtualNodes 100) [bucketA; bucketB]) /\
  (forall b,
     List.length (virtualNodes 100 b) = 100%nat /\
     forall i, (i < 100)%nat ->
       nth i (virtualNodes 100 b) 0 =
       BigEndian_Uint32
         (MD5.Sum (bytes_of_string
                     (Name (Config b) ++ "-" ++ Sprintf_d (Z.of_nat i))%string))) /\
  (forall h,
     In h (nodes (updateRing sample_runtime NewConsistentHashStrategy
                    [bucketA; bucketB])) ->
     exists b,
       ring (updateRing sample_runtime NewConsistentHashStrategy [bucketA; bucketB])
         !! h = Some b /\
       In b [bucketA; bucketB] /\ In h (virtualNodes 100 b)) /\
  (forall pre b post h,
     [bucketA; bucketB] = pre ++ b :: post ->
     In h (virtualNodes 100 b) ->
     (forall b', In b' post -> ~ In h (virtualNodes 100 b')) ->
     ring (updateRing sample_runtime NewConsistentHashStrategy [bucketA; bucketB])
       !! h = Some b).
Proof.
  apply (updateRing_invariant sample_runtime NewConsistentHashStrategy
           [bucketA; bucketB]).
  - apply insertion_runtime_SortContract.
  - reflexivity.
Defined.

(** C6, as stated, fails where two buckets share a point: the virtual keys
    [bucket-1450-94] and [bucket-1545-56] hash to the same 32 bits, and the
    ring maps that point of the first bucket to the second. *)
Lemma ring_point_shared_by_two_buckets :
  virtualKey (Name (Config bucket1450)) 94 = "bucket-1450-94"%string /\
  nth 94 (virtualNodes 100 bucket1450) 0 = 1023368873 /\
  nth 56 (virtualNodes 100 bucket1545) 0 = 1023368873 /\
  ring (updateRing sample_runtime NewConsistentHashStrategy [bucket1450; bucket1545])
    !! 1023368873 = Some bucket1545 /\
  Name (Config bucket1545) <> Name (Config bucket1450).
Proof.
  split; [vm_compute; reflexivity|].
  split; [vm_compute; reflexivity|].
  split; [vm_compute; reflexivity|].
  split; [vm_compute; reflexivity|].
  vm_compute. discriminate.
Qed.

(** ** The ring lookup *)

(** With fuel for every round, [sort.Search] ends at the least index of
    [[i, j)] at which a monotone [f] holds, at [j] when there is none. *)
Lemma sort_Search_loop_first (fuel : nat) (f : Z -> bool) (i j : Z) :
  i <= j ->
  (Z.to_nat (j - i) <= fuel)%nat ->
  (forall k k', i <= k <= k' -> k' < j -> f k = true -> f k' = true) ->
  i <= sort_Search_loop fuel f i j <= j /\
  (forall k, i <= k < sort_Search_loop fuel f i j -> f k = false) /\
  (sort_Search_loop fuel f i j < j -> f (sort_Search_loop fuel f i j) = true).
Proof.
  revert i j. induction fuel as [|fuel IH]; intros i j Hij Hfuel Hmono.
  - cbn [sort_Search_loop]. repeat split; intros; lia.
  - cbn [sort_Search_loop]. destruct (i <? j) eqn:E.
    2:{ apply Z.ltb_ge in E. repeat split; intros; lia. }
    apply Z.ltb_lt in E.
    assert (i <= (i + j) / 2 < j) as [H1 H2].
    { split; [apply Z.div_le_lower_bound | apply Z.div_lt_upper_bound]; lia. }
    set (h := (i + j) / 2) in *.
    destruct (f h) eqn:Fh; cbn [negb].
    + destruct (IH i h) as [Hb [Hlow Hhit]]; [lia | lia | |].
      { intros k k' Hk Hk'. apply Hmono; lia. }
      repeat split; try lia; [exact Hlow|].
      intros _. destruct (Z.eq_dec (sort_Search_loop fuel f i h) h) as [->|Hne];
        [exact Fh | apply Hhit; lia].
    + destruct (IH (h + 1) j) as [Hb [Hlow Hhit]]; [lia | lia | |].
      { intros k k' Hk Hk'. apply Hmono; lia. }
      repeat split; try lia; [|exact Hhit].
      intros k Hk. destruct (Z_lt_le_dec h k) as [Hlt|Hle]; [apply Hlow; lia|].
      destruct (f k) eqn:Fk; [|reflexivity].
      rewrite <- Fh. symmetry. apply (Hmono k h); [lia | lia | exact Fk].
Qed.

Lemma StronglySorted_nth_le (ns : list Z) (a b : nat) :
  StronglySorted Z.le ns ->
  (a <= b)%nat -> (b < List.length ns)%nat ->
  nth a ns 0 <= nth b ns 0.
Proof.
  intros Hs. revert a b. induction Hs as [|x ns Hs IH Hx]; intros a b Hab Hb.
  - cbn in Hb. lia.
  - destruct a as [|a], b as [|b]; cbn [nth List.length] in *; try lia.
    + rewrite Forall_forall in Hx. apply Hx.
      apply list_elem_of_In. apply nth_In. lia.
    + apply IH; lia.
Qed.

(** On the sorted ring, the search finds the first point at or after the
    hash of the key. *)
Lemma ring_search_first (ns : list Z) (h : Z) :
  StronglySorted Z.le ns ->
  0 <= sort_Search (len ns) (fun i => h <=? nth (Z.to_nat i) ns 0) <= len ns /\
  (forall k, 0 <= k < sort_Search (len ns) (fun i => h <=? nth (Z.to_nat i) ns 0) ->
             nth (Z.to_nat k) ns 0 < h) /\
  (sort_Search (len ns) (fun i => h <=? nth (Z.to_nat i) ns 0) < len ns ->
   h <= nth (Z.to_nat (sort_Search (len ns)
                         (fun i => h <=? nth (Z.to_nat i) ns 0))) ns 0).
Proof.
  intros Hs. unfold sort_Search.
  destruct (sort_Search_loop_first (Z.to_nat (len ns))
              (fun i => h <=? nth (Z.to_nat i) ns 0) 0 (len ns))
    as [Hb [Hlow Hhit]].
  - apply len_nonneg.
  - lia.
  - intros k k' Hk Hk'. cbv beta. rewrite !Z.leb_le. intros Hle.
    pose proof (StronglySorted_nth_le ns (Z.to_nat k) (Z.to_nat k') Hs) as Hm.
    unfold len in Hk'. lia.
  - split; [exact Hb|]. split.
    + intros k Hk. specialize (Hlow k Hk). cbv beta in Hlow.
      by apply Z.leb_gt in Hlow.
    + intros Hlt. specialize (Hhit Hlt). cbv beta in Hhit. by apply Z.leb_le in Hhit.
Qed.

(** A ring built from one bucket maps every key to it. *)
Lemma ConsistentHash_single_bucket (rt : Runtime) (s : ConsistentHashStrategy)
    (b : BucketInfo) (key : string) (size : Z) :
  SortContract rt -> 0 < replicas s ->
  snd (ConsistentHashStrategy_SelectBucket rt s [b] key size) = Selected b.
Proof.
  intros Hsort Hreps.
  destruct (ConsistentHash_Selected rt s [b] key size Hsort Hreps ltac:(discriminate))
    as [b' Hb'].
  rewrite Hb'. f_equal.
  destruct (ConsistentHashStrategy_SelectBucket rt s [b] key size) as [s' r] eqn:E.
  cbn [snd] in Hb'. subst r.
  apply ConsistentHash_In in E. by destruct E as [->|[]].
Qed.

(** ** [sort.Slice] of the library *)

Module GoSortFacts.

Import GoSort.

Section Slice.

Context {A : Type}.
Variable less : A -> A -> bool.
Variable Next : Z -> Z.

Lemma forward_loop_ge (rounds : nat) (p : nat -> bool) (i j : nat) :
  (i <= forward_loop rounds p i j)%nat.
Proof.
  revert i. induction rounds as [|rounds IH]; intros i; cbn [forward_loop]; [lia|].
  destruct ((i <=? j)%nat && p i); [|lia]. specialize (IH (S i)). lia.
Qed.

Lemma forward_loop_le (rounds : nat) (p : nat -> bool) (i j : nat) :
  (i <= j + 1 -> forward_loop rounds p i j <= j + 1)%nat.
Proof.
  revert i. induction rounds as [|rounds IH]; intros i Hi; cbn [forward_loop]; [lia|].
  destruct (i <=? j)%nat eqn:E; cbn [andb]; [|lia].
  apply Nat.leb_le in E. destruct (p i); [|lia]. apply IH. lia.
Qed.

Lemma backward_le (p : nat -> bool) (i j : nat) : (backward p i j <= j)%nat.
Proof.
  induction j as [|j IH]; cbn [backward]; [lia|].
  destruct ((i <=? S j)%nat && p (S j)); lia.
Qed.

Lemma backward_ge (p : nat -> bool) (i j : nat) :
  (i <= j + 1 -> i <= backward p i j + 1)%nat.
Proof.
  induction j as [|j IH]; intros Hi; cbn [backward]; [lia|].
  destruct (i <=? S j)%nat eqn:E; cbn [andb]; [|lia].
  apply Nat.leb_le in E. destruct (p (S j)); [|lia]. apply IH. lia.
Qed.

Lemma forward_loop_stop (rounds : nat) (p : nat -> bool) (i j : nat) :
  (S j - i <= rounds -> forward_loop rounds p i j <= j ->
   p (forward_loop rounds p i j) = false)%nat.
Proof.
  revert i. induction rounds as [|rounds IH]; intros i Hr; cbn [forward_loop]; [lia|].
  destruct (i <=? j)%nat eqn:E; cbn [andb].
  - destruct (p i) eqn:P; [|by intros _]. apply IH. lia.
  - apply Nat.leb_gt in E. lia.
Qed.

Lemma backward_stop (p : nat -> bool) (i j : nat) :
  (1 <= i -> i <= backward p i j -> p (backward p i j) = false)%nat.
Proof.
  intros Hi. induction j as [|j IH]; cbn [backward]; [lia|].
  destruct (i <=? S j)%nat eqn:E; cbn [andb].
  - destruct (p (S j)) eqn:P; [exact IH | by intros _].
  - apply Nat.leb_gt in E. lia.
Qed.

(** Where the two scans of a partition stop without having crossed, they
    stop at different places. *)
Lemma scans_apart (p : nat -> bool) (i j : nat) :
  (1 <= i ->
   forward p i j <= backward (fun j => negb (p j)) (forward p i j) j ->
   forward p i j < backward (fun j => negb (p j)) (forward p i j) j)%nat.
Proof.
  intros Hi Hle.
  pose proof (forward_loop_ge (S j - i) p i j) as Hge.
  pose proof (forward_loop_stop (S j - i) p i j ltac:(lia)) as Hf.
  fold (forward p i j) in Hge, Hf.
  pose proof (backward_le (fun j => negb (p j)) (forward p i j) j) as Hj.
  pose proof (backward_stop (fun j => negb (p j)) (forward p i j) j) as Hb.
  cbv beta in Hb.
  set (F := forward p i j) in *.
  set (B := backward (fun j => negb (p j)) F j) in *.
  destruct (decide (F = B)) as [Heq|]; [exfalso|lia].
  assert (p F = false) as HF by (apply Hf; lia).
  assert (negb (p B) = false) as HB by (apply Hb; lia).
  rewrite <- Heq, HF in HB. discriminate.
Qed.

Lemma partition_loop_bounds (rounds : nat) (data : list A) (a i j : nat) :
  (a + 1 <= i -> i <= j + 1 ->
   a <= snd (partition_loop less rounds data a i j) <= j)%nat.
Proof.
  revert data i j. induction rounds as [|rounds IH]; intros data i j Ha Hi;
    cbn [partition_loop snd]; [lia|].
  set (i1 := forward _ i j). set (j1 := backward _ i1 j).
  assert (i <= i1 <= j + 1)%nat as Hi1.
  { split; [apply forward_loop_ge | by apply forward_loop_le]. }
  assert (i1 <= j1 + 1 /\ j1 <= j)%nat as Hj1.
  { split; [apply backward_ge; lia | apply backward_le]. }
  destruct (j1 <? i1)%nat eqn:E; cbn [snd].
  - lia.
  - apply Nat.ltb_ge in E.
    pose proof (scans_apart (fun i => Less less data i a) i j ltac:(lia) E) as Hlt.
    fold i1 j1 in Hlt.
    specialize (IH (Swap data i1 j1) (i1 + 1)%nat (j1 - 1)%nat). lia.
Qed.

Lemma partition_func_bounds (data : list A) (a b pivot : nat) :
  (a < b -> a <= snd (fst (partition_func less data a b pivot)) < b)%nat.
Proof.
  intros Hab. unfold partition_func.
  set (d := Swap data a pivot).
  set (i1 := forward _ (a + 1)%nat (b - 1)%nat). set (j1 := backward _ i1 (b - 1)%nat).
  assert (a + 1 <= i1 <= b - 1 + 1)%nat as Hi1.
  { split; [apply forward_loop_ge | apply forward_loop_le; lia]. }
  assert (i1 <= j1 + 1 /\ j1 <= b - 1)%nat as Hj1.
  { split; [apply backward_ge; lia | apply backward_le]. }
  destruct (j1 <? i1)%nat eqn:E; cbn [fst snd]; [lia|].
  apply Nat.ltb_ge in E.
  pose proof (scans_apart (fun i => Less less d i a) (a + 1) (b - 1) ltac:(lia) E)
    as Hlt.
  fold i1 j1 in Hlt.
  pose proof (partition_loop_bounds (b - a) (Swap d i1 j1) a (i1 + 1) (j1 - 1)) as Hl.
  destruct (partition_loop less (b - a) (Swap d i1 j1) a (i1 + 1) (j1 - 1))
    as [d' j'].
  cbn [fst snd] in *. lia.
Qed.

Lemma partitionEqual_loop_ge (rounds : nat) (data : list A) (a i j : nat) :
  (i <= snd (partitionEqual_loop less rounds data a i j))%nat.
Proof.
  revert data i j. induction rounds as [|rounds IH]; intros data i j;
    cbn [partitionEqual_loop snd]; [lia|].
  set (i1 := forward _ i j). set (j1 := backward _ i1 j).
  assert (i <= i1)%nat as Hi1 by apply forward_loop_ge.
  destruct (j1 <? i1)%nat; cbn [snd]; [lia|].
  specialize (IH (Swap data i1 j1) (i1 + 1)%nat (j1 - 1)%nat). lia.
Qed.

Lemma partitionEqual_func_ge (data : list A) (a b pivot : nat) :
  (a + 1 <= snd (partitionEqual_func less data a b pivot))%nat.
Proof. unfold partitionEqual_func. apply partitionEqual_loop_ge. Qed.

(** [pdqsort_func] returns: a range shorter than the fuel is sorted before
    the fuel is used up. *)
Lemma pdqsort_func_returns (fuel : nat) (data : list A) (a b limit : nat)
    (wasBalanced wasPartitioned : bool) :
  (b - a < fuel)%nat ->
  is_Some (pdqsort_func less Next fuel data a b limit wasBalanced wasPartitioned).
Proof.
  revert data a b limit wasBalanced wasPartitioned.
  induction fuel as [|fuel IH]; intros data a b limit wb wp Hfuel; [lia|].
  cbn [pdqsort_func].
  destruct (b - a <=? maxInsertion)%nat eqn:Hshort; [by eexists|].
  apply Nat.leb_gt in Hshort. unfold maxInsertion in Hshort.
  destruct (limit =? 0)%nat; [by eexists|].
  destruct (if negb wb then _ else _) as [data1 limit1].
  destruct (choosePivot_func less data1 a b) as [pivot hint].
  destruct (match hint with decreasingHint => _ | _ => _ end) as [[data2 pivot2] hint2].
  destruct (match hint2 with increasingHint => _ | _ => _ end) as [data3 [|]];
    [by eexists|].
  destruct ((0 <? a)%nat && negb (Less less data3 (a - 1) pivot2)).
  - pose proof (partitionEqual_func_ge data3 a b pivot2) as Hmid.
    destruct (partitionEqual_func less data3 a b pivot2) as [data4 mid].
    cbn [snd] in Hmid. apply IH. lia.
  - pose proof (partition_func_bounds data3 a b pivot2 ltac:(lia)) as Hmid.
    destruct (partition_func less data3 a b pivot2) as [[data4 mid] already].
    cbn [fst snd] in Hmid.
    destruct (mid - a <? b - mid)%nat.
    + destruct (IH data4 a mid limit1 true true ltac:(lia)) as [data5 ->].
      apply IH. lia.
    + destruct (IH data4 (mid + 1)%nat b limit1 true true ltac:(lia)) as [data5 ->].
      apply IH. lia.
Qed.

(** [sort.Slice] returns on every slice. *)
Lemma Slice_returns (x : list A) : is_Some (Slice less Next x).
Proof. unfold Slice. apply pdqsort_func_returns. lia. Qed.

(** *** Short slices: the insertion sort *)

Lemma bubble_left_length (x : A) (p : list A) :
  List.length (bubble_left less x p) = S (List.length p).
Proof.
  induction p as [|y p IH]; cbn [bubble_left]; [reflexivity|].
  destruct (less x y); cbn [List.length]; [by rewrite IH | reflexivity].
Qed.

Lemma Less_middle (p : list A) (x y : A) (rest : list A) :
  Less less ((rev p ++ [y]) ++ x :: rest) (S (List.length p)) (List.length p)
  = less x y.
Proof.
  unfold Less.
  assert (((rev p ++ [y]) ++ x :: rest) !! S (List.length p) = Some x) as ->.
  { apply list_lookup_middle. rewrite length_app, length_rev. cbn. lia. }
  assert (((rev p ++ [y]) ++ x :: rest) !! List.length p = Some y) as ->.
  { rewrite <- app_assoc. apply list_lookup_middle. by rewrite length_rev. }
  reflexivity.
Qed.

Lemma Swap_middle (p : list A) (x y : A) (rest : list A) :
  Swap ((rev p ++ [y]) ++ x :: rest) (S (List.length p)) (List.length p)
  = rev p ++ x :: y :: rest.
Proof.
  unfold Swap.
  assert (((rev p ++ [y]) ++ x :: rest) !! S (List.length p) = Some x) as ->.
  { apply list_lookup_middle. rewrite length_app, length_rev. cbn. lia. }
  assert (((rev p ++ [y]) ++ x :: rest) !! List.length p = Some y) as ->.
  { rewrite <- app_assoc. apply list_lookup_middle. by rewrite length_rev. }
  rewrite <- app_assoc. cbn [app].
  replace (S (List.length p)) with (List.length (rev p) + 1)%nat
    by (rewrite length_rev; lia).
  rewrite insert_app_r. cbn [list_insert].
  replace (List.length p) with (List.length (rev p) + 0)%nat
    by (rewrite length_rev; lia).
  rewrite insert_app_r. reflexivity.
Qed.

(** The inner loop moves the new element as [bubble_left] does. *)
Lemma insertion_shift_bubble (p : list A) (x : A) (rest : list A) :
  insertion_shift less (rev p ++ x :: rest) 0 (List.length p)
  = rev (bubble_left less x p) ++ rest.
Proof.
  revert rest. induction p as [|y p IH]; intros rest; [reflexivity|].
  cbn [List.length insertion_shift rev bubble_left].
  change (0 <? S (List.length p))%nat with true. cbn [andb].
  rewrite Less_middle. destruct (less x y).
  - rewrite Swap_middle, IH. cbn [rev]. by rewrite <- app_assoc.
  - cbn [rev]. by rewrite <- !app_assoc.
Qed.

Lemma insertion_rounds (p rest : list A) :
  fold_left (fun data i => insertion_shift less data 0 i)
    (seq (List.length p) (List.length rest)) (rev p ++ rest)
  = rev (fold_left (fun prefix_rev x => bubble_left less x prefix_rev) rest p).
Proof.
  revert p. induction rest as [|x rest IH]; intros p.
  - cbn. by rewrite app_nil_r.
  - cbn [List.length seq fold_left]. rewrite insertion_shift_bubble.
    rewrite <- (bubble_left_length x p). apply IH.
Qed.

Lemma insertionSort_func_whole (x : list A) :
  insertionSort_func less x 0 (List.length x) = insertionSort less x.
Proof.
  unfold insertionSort_func, insertionSort. destruct x as [|x0 x]; [reflexivity|].
  cbn [List.length Nat.add Nat.sub fold_left bubble_left].
  rewrite Nat.sub_0_r. apply (insertion_rounds [x0] x).
Qed.

(** A slice of at most twelve elements is sorted by insertion, which keeps
    equal elements in their order. *)
Lemma Slice_short (x : list A) :
  (List.length x <= 12)%nat ->
  Slice less Next x = Some (insertionSort less x).
Proof.
  intros Hlen. unfold Slice. cbn [pdqsort_func]. rewrite Nat.sub_0_r.
  unfold maxInsertion. apply Nat.leb_le in Hlen. rewrite Hlen.
  by rewrite insertionSort_func_whole.
Qed.

(** *** The slice is permuted *)

Lemma insert_head_Permutation (l : list A) (j : nat) (x y : A) :
  l !! j = Some y -> Permutation (y :: <[j := x]> l) (x :: l).
Proof.
  revert j. induction l as [|z l IH]; intros [|j] Hj; try discriminate.
  - injection Hj as ->. cbn. apply perm_swap.
  - cbn [list_insert]. cbn in Hj.
    etransitivity; [apply perm_swap|].
    etransitivity; [apply perm_skip, (IH j Hj) | apply perm_swap].
Qed.

Lemma Swap_Permutation (data : list A) (i j : nat) :
  Permutation (Swap data i j) data.
Proof.
  unfold Swap. destruct (data !! i) as [x|] eqn:Hi; [|reflexivity].
  destruct (data !! j) as [y|] eqn:Hj; [|reflexivity].
  revert i j Hi Hj. induction data as [|d data IH]; intros [|i] [|j] Hi Hj;
    try discriminate; cbn in Hi, Hj; cbn [list_insert].
  - by injection Hi as ->.
  - injection Hi as ->. by apply insert_head_Permutation.
  - injection Hj as ->. by apply insert_head_Permutation.
  - apply perm_skip. by apply IH.
Qed.

Lemma insertion_shift_Permutation (data : list A) (a j : nat) :
  Permutation (insertion_shift less data a j) data.
Proof.
  revert data. induction j as [|j IH]; intros data; cbn [insertion_shift]; [reflexivity|].
  destruct ((a <? S j)%nat && Less less data (S j) j); [|reflexivity].
  rewrite IH. apply Swap_Permutation.
Qed.

Lemma fold_left_Permutation {B : Type} (f : list A -> B -> list A) (l : list B)
    (data : list A) :
  (forall d x, Permutation (f d x) d) -> Permutation (fold_left f l data) data.
Proof.
  intros Hf. revert data. induction l as [|x l IH]; intros data; [reflexivity|].
  cbn [fold_left]. by rewrite IH.
Qed.

Lemma insertionSort_func_Permutation (data : list A) (a b : nat) :
  Permutation (insertionSort_func less data a b) data.
Proof.
  unfold insertionSort_func. apply fold_left_Permutation.
  intros d i. apply insertion_shift_Permutation.
Qed.

Lemma siftDown_func_Permutation (data : list A) (lo hi first : nat) :
  Permutation (siftDown_func less data lo hi first) data.
Proof.
  unfold siftDown_func. generalize hi at 1. intros rounds. revert data lo.
  induction rounds as [|rounds IH]; intros data lo; cbn [siftDown_loop]; [reflexivity|].
  destruct (hi <=? 2 * lo + 1)%nat; [reflexivity|]. cbv zeta.
  destruct (negb _); [reflexivity|]. rewrite IH. apply Swap_Permutation.
Qed.

Lemma heapSort_func_Permutation (data : list A) (a b : nat) :
  Permutation (heapSort_func less data a b) data.
Proof.
  unfold heapSort_func. cbv zeta.
  rewrite fold_left_Permutation.
  - apply fold_left_Permutation. intros d i. apply siftDown_func_Permutation.
  - intros d i. rewrite siftDown_func_Permutation. apply Swap_Permutation.
Qed.

Lemma partition_loop_Permutation (rounds : nat) (data : list A) (a i j : nat) :
  Permutation (fst (partition_loop less rounds data a i j)) data.
Proof.
  revert data i j. induction rounds as [|rounds IH]; intros data i j;
    cbn [partition_loop]; [reflexivity|]. cbv zeta.
  destruct (_ <? _)%nat; [reflexivity|]. rewrite IH. apply Swap_Permutation.
Qed.

Lemma partition_func_Permutation (data : list A) (a b pivot : nat) :
  Permutation (fst (fst (partition_func less data a b pivot))) data.
Proof.
  unfold partition_func. cbv zeta.
  destruct (_ <? _)%nat; cbn [fst].
  - by rewrite !Swap_Permutation.
  - match goal with |- context [partition_loop less ?r ?d ?a ?i ?j] =>
      pose proof (partition_loop_Permutation r d a i j) as Hl;
      destruct (partition_loop less r d a i j) as [d' j'] end.
    cbn [fst] in *. by rewrite Swap_Permutation, Hl, !Swap_Permutation.
Qed.

Lemma partitionEqual_loop_Permutation (rounds : nat) (data : list A) (a i j : nat) :
  Permutation (fst (partitionEqual_loop less rounds data a i j)) data.
Proof.
  revert data i j. induction rounds as [|rounds IH]; intros data i j;
    cbn [partitionEqual_loop]; [reflexivity|]. cbv zeta.
  destruct (_ <? _)%nat; [reflexivity|]. rewrite IH. apply Swap_Permutation.
Qed.

Lemma partitionEqual_func_Permutation (data : list A) (a b pivot : nat) :
  Permutation (fst (partitionEqual_func less data a b pivot)) data.
Proof.
  unfold partitionEqual_func. cbv zeta.
  rewrite partitionEqual_loop_Permutation. apply Swap_Permutation.
Qed.

Lemma shift_smaller_Permutation (data : list A) (j : nat) :
  Permutation (shift_smaller less data j) data.
Proof.
  revert data. induction j as [|j IH]; intros data; cbn [shift_smaller]; [reflexivity|].
  destruct (1 <=? S j)%nat; [|reflexivity].
  destruct (negb _); [reflexivity|]. rewrite IH. apply Swap_Permutation.
Qed.

Lemma shift_greater_Permutation (rounds : nat) (data : list A) (j b : nat) :
  Permutation (shift_greater less rounds data j b) data.
Proof.
  revert data j. induction rounds as [|rounds IH]; intros data j;
    cbn [shift_greater]; [reflexivity|].
  destruct (j <? b)%nat; [|reflexivity].
  destruct (negb _); [reflexivity|]. rewrite IH. apply Swap_Permutation.
Qed.

Lemma partialInsertionSort_func_Permutation (data : list A) (a b : nat) :
  Permutation (fst (partialInsertionSort_func less data a b)) data.
Proof.
  unfold partialInsertionSort_func. generalize (a + 1)%nat as i. generalize maxSteps.
  intros steps. revert data. induction steps as [|steps IH]; intros data i;
    cbn [partialInsertionSort_loop]; [reflexivity|]. cbv zeta.
  destruct (_ =? b)%nat; [reflexivity|].
  destruct (_ <? shortestShifting)%nat; [reflexivity|].
  rewrite IH.
  assert (forall (c : bool) (f : list A -> list A) d,
            (forall d, Permutation (f d) d) -> Permutation (if c then f d else d) d)
    as Hif by (intros [] f d Hf; [apply Hf | reflexivity]).
  rewrite (Hif _ (fun d => shift_greater less _ d _ b))
    by (intros d; apply shift_greater_Permutation).
  rewrite (Hif _ (fun d => shift_smaller less d _))
    by (intros d; apply shift_smaller_Permutation).
  apply Swap_Permutation.
Qed.

Lemma breakPatterns_func_Permutation (data : list A) (a b : nat) :
  Permutation (breakPatterns_func Next data a b) data.
Proof.
  unfold breakPatterns_func. cbv zeta. destruct (8 <=? b - a)%nat; [|reflexivity].
  cbn [fold_left fst]. by rewrite !Swap_Permutation.
Qed.

Lemma reverseRange_func_Permutation (data : list A) (a b : nat) :
  Permutation (reverseRange_func data a b) data.
Proof.
  unfold reverseRange_func. generalize (b - a)%nat as rounds, (b - 1)%nat as j.
  intros rounds. revert data a. induction rounds as [|rounds IH]; intros data i j;
    cbn [reverseRange_loop]; [reflexivity|].
  destruct (i <? j)%nat; [|reflexivity]. rewrite IH. apply Swap_Permutation.
Qed.

Lemma pdqsort_func_Permutation (fuel : nat) (data sorted : list A) (a b limit : nat)
    (wasBalanced wasPartitioned : bool) :
  pdqsort_func less Next fuel data a b limit wasBalanced wasPartitioned = Some sorted ->
  Permutation sorted data.
Proof.
  revert data sorted a b limit wasBalanced wasPartitioned.
  induction fuel as [|fuel IH]; intros data sorted a b limit wb wp; [discriminate|].
  cbn [pdqsort_func]. cbv zeta.
  destruct (b - a <=? maxInsertion)%nat.
  { intros [= <-]. apply insertionSort_func_Permutation. }
  destruct (limit =? 0)%nat.
  { intros [= <-]. apply heapSort_func_Permutation. }
  assert (exists data1 limit1,
            (if negb wb then (breakPatterns_func Next data a b, (limit - 1)%nat)
             else (data, limit)) = (data1, limit1) /\ Permutation data1 data)
    as (data1 & limit1 & -> & H1).
  { destruct wb; cbn [negb]; do 2 eexists; (split; [reflexivity|]);
      [reflexivity | apply breakPatterns_func_Permutation]. }
  destruct (choosePivot_func less data1 a b) as [pivot hint].
  assert (exists data2 pivot2 hint2,
            match hint with
            | decreasingHint =>
                (reverseRange_func data1 a b, (b - 1 - (pivot - a))%nat, increasingHint)
            | _ => (data1, pivot, hint)
            end = (data2, pivot2, hint2) /\ Permutation data2 data)
    as (data2 & pivot2 & hint2 & -> & H2).
  { destruct hint; do 3 eexists; (split; [reflexivity|]); auto.
    by rewrite reverseRange_func_Permutation. }
  assert (exists data3 sorted3,
            match hint2 with
            | increasingHint =>
                if wb && wp then partialInsertionSort_func less data2 a b
                else (data2, false)
            | _ => (data2, false)
            end = (data3, sorted3) /\ Permutation data3 data)
    as (data3 & sorted3 & -> & H3).
  { pose proof (partialInsertionSort_func_Permutation data2 a b) as Hp.
    destruct (partialInsertionSort_func less data2 a b) as [d s].
    destruct hint2, (wb && wp); do 2 eexists; (split; [reflexivity|]); auto.
    cbn [fst] in Hp. by rewrite Hp. }
  destruct sorted3; [by intros [= <-]|].
  destruct (_ && _).
  - pose proof (partitionEqual_func_Permutation data3 a b pivot2) as H4.
    destruct (partitionEqual_func less data3 a b pivot2) as [data4 mid].
    cbn [fst] in H4. intros Hs. apply IH in Hs. by rewrite Hs, H4.
  - pose proof (partition_func_Permutation data3 a b pivot2) as H4.
    destruct (partition_func less data3 a b pivot2) as [[data4 mid] already].
    cbn [fst] in H4.
    destruct (_ <? _)%nat.
    + destruct (pdqsort_func less Next fuel data4 a mid limit1 true true)
        as [data5|] eqn:E5; [|discriminate].
      apply IH in E5. intros Hs. apply IH in Hs. by rewrite Hs, E5, H4.
    + destruct (pdqsort_func less Next fuel data4 (mid + 1) b limit1 true true)
        as [data5|] eqn:E5; [|discriminate].
      apply IH in E5. intros Hs. apply IH in Hs. by rewrite Hs, E5, H4.
Qed.

(** [sort.Slice] permutes the slice. *)
Lemma Slice_Permutation (x sorted : list A) :
  Slice less Next x = Some sorted -> Permutation sorted x.
Proof. apply pdqsort_func_Permutation. Qed.

End Slice.

(** The runtime's [sort.Slice] is the library's: the routine returns, and
    what it returns is a permutation of the slice. *)
Lemma go_runtime_sort_Slice {A : Type} (Next draw : Z -> Z)
    (less : A -> A -> bool) (x : list A) :
  GoSort.Slice less Next x = Some (sort_Slice (go_runtime Next draw) less x) /\
  Permutation (sort_Slice (go_runtime Next draw) less x) x.
Proof.
  cbn [go_runtime sort_Slice].
  destruct (Slice_returns less Next x) as [sorted E]. rewrite E.
  split; [reflexivity|]. by eapply Slice_Permutation.
Qed.

End GoSortFacts.

(** ** Least space *)

Lemma LeastSpace_less_irrefl (x : BucketInfo) : LeastSpace_less x x = false.
Proof. apply Z.ltb_irrefl. Qed.

Lemma LeastSpace_less_trans (x y z : BucketInfo) :
  LeastSpace_less x y = true -> LeastSpace_less y z = true ->
  LeastSpace_less x z = true.
Proof. unfold LeastSpace_less. rewrite !Z.ltb_lt. lia. Qed.

Lemma LeastSpace_less_negtrans (x y z : BucketInfo) :
  LeastSpace_less x y = false -> LeastSpace_less y z = false ->
  LeastSpace_less x z = false.
Proof. unfold LeastSpace_less. rewrite !Z.ltb_ge. lia. Qed.

(** Whatever sort meets the contract, the head of the sorted slice has the
    largest available space. *)
Lemma LeastSpace_head_maximal (rt : Runtime) (bs : list BucketInfo) (b : BucketInfo) :
  SortContract rt ->
  sort_Slice rt LeastSpace_less bs !! 0%nat = Some b ->
  forall b', In b' bs -> GetAvailableSpace b' <= GetAvailableSpace b.
Proof.
  intros Hsort Hhead b' Hin.
  destruct (Hsort _ LeastSpace_less bs) as [Hp Hs].
  specialize (Hs LeastSpace_less_irrefl LeastSpace_less_trans LeastSpace_less_negtrans).
  destruct (sort_Slice rt LeastSpace_less bs) as [|b0 sorted]; [discriminate|].
  cbn in Hhead. injection Hhead as ->.
  apply (Permutation_in _ (Permutation_sym Hp)) in Hin.
  apply StronglySorted_inv in Hs as [_ Hall].
  destruct Hin as [->|Hin]; [lia|].
  rewrite Forall_forall in Hall.
  specialize (Hall b' ltac:(by apply list_elem_of_In)).
  cbv beta in Hall. unfold LeastSpace_less in Hall. apply Z.ltb_ge in Hall. lia.
Qed.

(** The insertion sort keeps the first of the largest at the head. *)
Lemma last_bubble_left {A : Type} (less : A -> A -> bool) (x : A) (R : list A) :
  last (bubble_left less x R) = if forallb (less x) R then Some x else last R.
Proof.
  induction R as [|y rest IH]; [reflexivity|].
  cbn [bubble_left forallb]. destruct (less x y) eqn:E; cbn [andb].
  - destruct (bubble_left less x rest) as [|z zs] eqn:B.
    + destruct rest; cbn in B; [discriminate|].
      destruct (less x a); discriminate.
    + change (last (y :: z :: zs)) with (last (z :: zs)). rewrite IH.
      destruct (forallb (less x) rest) eqn:F; [reflexivity|].
      destruct rest; [discriminate | reflexivity].
  - reflexivity.
Qed.

Lemma first_maximal_singleton (x : BucketInfo) : first_maximal [x] 0 x.
Proof.
  repeat split.
  - intros b' [->|[]]. lia.
  - intros j b' Hj. lia.
Qed.

Lemma first_maximal_snoc_new (P : list BucketInfo) (x : BucketInfo) :
  (forall y, In y P -> GetAvailableSpace y < GetAvailableSpace x) ->
  first_maximal (P ++ [x]) (List.length P) x.
Proof.
  intros Hall. repeat split.
  - rewrite lookup_app_r by lia. by rewrite Nat.sub_diag.
  - intros b' Hin. apply in_app_or in Hin as [Hin|[->|[]]]; [|lia].
    specialize (Hall b' Hin). lia.
  - intros j b' Hj Hl. rewrite lookup_app_l in Hl by exact Hj.
    apply Hall. apply list_elem_of_In. eapply list_elem_of_lookup_2. exact Hl.
Qed.

Lemma first_maximal_snoc_old (P : list BucketInfo) (x b : BucketInfo) (i : nat) :
  first_maximal P i b ->
  (exists y, In y P /\ GetAvailableSpace x <= GetAvailableSpace y) ->
  first_maximal (P ++ [x]) i b.
Proof.
  intros [Hl [Hmax Hfirst]] [y [Hy Hxy]].
  pose proof (lookup_lt_Some _ _ _ Hl) as Hi.
  repeat split.
  - rewrite lookup_app_l by exact Hi. exact Hl.
  - intros b' Hin. apply in_app_or in Hin as [Hin|[<-|[]]]; [by apply Hmax|].
    specialize (Hmax y Hy). lia.
  - intros j b' Hj Hlj. rewrite lookup_app_l in Hlj by lia. eauto.
Qed.

Lemma insertion_loop_first_maximal (l P R : list BucketInfo) :
  Permutation R P ->
  (P <> [] -> exists i b, last R = Some b /\ first_maximal P i b) ->
  P ++ l <> [] ->
  exists i b,
    last (fold_left (fun prefix_rev x => bubble_left LeastSpace_less x prefix_rev) l R)
    = Some b /\
    first_maximal (P ++ l) i b.
Proof.
  revert P R. induction l as [|x l IH]; intros P R Hp Hinv Hne.
  - rewrite app_nil_r in *. cbn [fold_left]. auto.
  - cbn [fold_left].
    replace (P ++ x :: l) with ((P ++ [x]) ++ l) in * by (by rewrite <- app_assoc).
    apply IH.
    + rewrite bubble_left_Permutation, Hp. apply Permutation_cons_append.
    + intros _. rewrite last_bubble_left.
      destruct (forallb (LeastSpace_less x) R) eqn:F.
      * exists (List.length P), x. split; [reflexivity|].
        apply first_maximal_snoc_new. intros y Hy.
        rewrite forallb_forall in F.
        apply (Permutation_in _ (Permutation_sym Hp)) in Hy.
        specialize (F y Hy). unfold LeastSpace_less in F. by apply Z.ltb_lt in F.
      * assert (exists y, In y P /\ GetAvailableSpace x <= GetAvailableSpace y)
          as Hex.
        { assert (exists y, In y R /\ LeastSpace_less x y = false) as [y [Hy Hf]].
          { clear -F. induction R as [|r R IHR]; [discriminate|].
            cbn [forallb] in F. destruct (LeastSpace_less x r) eqn:E.
            - destruct (IHR F) as [y [Hy Hf]].
              exists y. split; [by right | exact Hf].
            - exists r. split; [by left | exact E]. }
          exists y. split; [eapply Permutation_in; eauto|].
          unfold LeastSpace_less in Hf. by apply Z.ltb_ge in Hf. }
        destruct P as [|p P'].
        { destruct Hex as [y [[] _]]. }
        destruct Hinv as [i [b [Hlast Hfm]]]; [discriminate|].
        exists i, b. split; [exact Hlast|].
        by apply first_maximal_snoc_old.
    + exact Hne.
Qed.

Lemma insertionSort_head_first_maximal (bs : list BucketInfo) :
  bs <> [] ->
  exists i b,
    insertionSort LeastSpace_less bs !! 0%nat = Some b /\ first_maximal bs i b.
Proof.
  intros Hne.
  destruct (insertion_loop_first_maximal bs [] [] (Permutation_refl _))
    as [i [b [Hlast Hfm]]]; [by intros [] | exact Hne |].
  exists i, b. split; [|exact Hfm].
  unfold insertionSort. cbn [app] in Hlast.
  destruct (fold_left _ bs []) as [|r R] using rev_ind; [discriminate|].
  rewrite last_snoc in Hlast. injection Hlast as ->.
  by rewrite rev_unit.
Qed.

(** The head of a slice. *)
Lemma index_slice_head (l : list BucketInfo) (b : BucketInfo) :
  l !! 0%nat = Some b -> index_slice l 0 = Selected b.
Proof.
  intros H. unfold index_slice. change (0 <? 0) with false.
  change (Z.to_nat 0) with 0%nat. cbv iota. by rewrite H.
Qed.

(** C7 (amended). On every non-empty eligible list the least-space strategy
    returns a bucket of the list whose available space is maximal. Which of
    several tied buckets it returns is left to [sort.Slice]: when the slice
    is sorted as the insertion sort does, the first such bucket in list
    order is returned; and so the library's [sort.Slice] sorts a list of at
    most twelve buckets. *)
Theorem LeastSpace_selects_maximal (rt : Runtime) (bs : list BucketInfo)
    (key : string) (size : Z) :
  SortContract rt ->
  bs <> [] ->
  (exists b,
     LeastSpaceStrategy_SelectBucket rt bs key size = Selected b /\
     In b bs /\
     (forall b', In b' bs ->
        MaxSizeBytes (Config b') - UsedSize b' <= MaxSizeBytes (Config b) - UsedSize b) /\
     (sort_Slice rt LeastSpace_less bs = insertionSort LeastSpace_less bs ->
      exists i, first_maximal bs i b)) /\
  (forall (Next draw : Z -> Z),
     (List.length bs <= 12)%nat ->
     exists i b,
       LeastSpaceStrategy_SelectBucket (go_runtime Next draw) bs key size
       = Selected b /\
       first_maximal bs i b).
Proof.
  intros Hsort Hne. split.
  - destruct (LeastSpace_Selected rt bs key size Hsort Hne) as [b Hb].
    exists b. split; [exact Hb|]. split; [eapply LeastSpace_In; eauto|].
    unfold LeastSpaceStrategy_SelectBucket in Hb.
    rewrite (len_nonzero bs Hne) in Hb.
    apply index_slice_Selected in Hb as [_ Hhead].
    change (Z.to_nat 0) with 0%nat in Hhead.
    split.
    + intros b' Hin.
      apply (LeastSpace_head_maximal rt bs b Hsort Hhead b' Hin).
    + intros Hstable. rewrite Hstable in Hhead.
      destruct (insertionSort_head_first_maximal bs Hne) as [i [b0 [H0 Hfm]]].
      exists i. rewrite H0 in Hhead. injection Hhead as <-. exact Hfm.
  - intros Next draw Hlen.
    destruct (insertionSort_head_first_maximal bs Hne) as [i [b [H0 Hfm]]].
    exists i, b. split; [|exact Hfm].
    unfold LeastSpaceStrategy_SelectBucket. rewrite (len_nonzero bs Hne).
    cbn [go_runtime sort_Slice].
    rewrite (GoSortFacts.Slice_short LeastSpace_less Next bs Hlen).
    by apply index_slice_head.
Qed.

Lemma LeastSpace_selects_maximal_witness :
  (exists b,
     LeastSpaceStrategy_SelectBucket sample_runtime [bucketC; bucketA; bucketB] "k" 0
     = Selected b /\
     In b [bucketC; bucketA; bucketB] /\
     (forall b', In b' [bucketC; bucketA; bucketB] ->
        MaxSizeBytes (Config b') - UsedSize b' <= MaxSizeBytes (Config b) - UsedSize b) /\
     (sort_Slice sample_runtime LeastSpace_less [bucketC; bucketA; bucketB]
      = insertionSort LeastSpace_less [bucketC; bucketA; bucketB] ->
      exists i, first_maximal [bucketC; bucketA; bucketB] i b)) /\
  (forall (Next draw : Z -> Z),
     (List.length [bucketC; bucketA; bucketB] <= 12)%nat ->
     exists i b,
       LeastSpaceStrategy_SelectBucket (go_runtime Next draw)
         [bucketC; bucketA; bucketB] "k" 0
       = Selected b /\
       first_maximal [bucketC; bucketA; bucketB] i b).
Proof.
  apply (LeastSpace_selects_maximal sample_runtime [bucketC; bucketA; bucketB] "k" 0).
  - apply insertion_runtime_SortContract.
  - discriminate.
Defined.

Example LeastSpace_tie_insertion_sort :
  LeastSpaceStrategy_SelectBucket sample_runtime [bucketC; bucketA; bucketB] "k" 0
  = Selected bucketA /\
  forall Next draw,
    LeastSpaceStrategy_SelectBucket (go_runtime Next draw)
      [bucketC; bucketA; bucketB] "k" 0
    = Selected bucketA.
Proof. split; [|intros Next draw]; vm_compute; reflexivity. Qed.

(** C7, as stated, fails in its tie-break: [sort.Slice] is not a stable
    sort. Of thirteen buckets of which the last twelve tie for the largest
    available space, the first of these in list order is [b01]; the
    library's [sort.Slice], which takes the middle element of a slice of
    thirteen for its pivot and swaps it to the front, puts [b06] first, and
    that is the bucket the strategy returns. *)
Lemma LeastSpace_tie_not_first :
  first_maximal thirteen_buckets 1 (mkBucket "b01" 1 100 0) /\
  (forall Next draw : Z -> Z,
     LeastSpaceStrategy_SelectBucket (go_runtime Next draw) thirteen_buckets "k" 0
     = Selected (mkBucket "b06" 1 100 0)) /\
  (forall Next : Z -> Z,
     option_map (List.map (fun b => Name (Config b)))
       (GoSort.Slice LeastSpace_less Next thirteen_buckets)
     = Some ["b06"; "b01"; "b02"; "b03"; "b04"; "b05"; "b07"; "b08"; "b09";
             "b10"; "b11"; "b12"; "b00"]%string) /\
  GetAvailableSpace (mkBucket "b06" 1 100 0)
  = GetAvailableSpace (mkBucket "b01" 1 100 0) /\
  mkBucket "b06" 1 100 0 <> mkBucket "b01" 1 100 0.
Proof.
  split.
  { split; [reflexivity|]. split.
    - intros b' Hin. unfold thirteen_buckets in Hin. cbn [In] in Hin.
      repeat (destruct Hin as [<-|Hin]; [vm_compute; discriminate|]).
      destruct Hin.
    - intros j b' Hj Hb'. assert (j = 0%nat) as -> by lia.
      injection Hb' as <-. reflexivity. }
  split; [intros Next draw; vm_compute; reflexivity|].
  split; [intros Next; vm_compute; reflexivity|].
  split; [reflexivity | discriminate].
Qed.

(** ** Deleting an object record *)

(** The store's own delete is idempotent. *)
Lemma DeleteObject_idempotent (st : gmap string ObjectRecord) (key : string) :
  DeleteObject (fst (DeleteObject st key)) key = DeleteObject st key.
Proof.
  unfold DeleteObject. cbn [fst]. f_equal. apply delete_delete_eq.
Qed.

Lemma handleDeleteObject_absent (h : Handler) (key : string) :
  storage h !! key = None ->
  handleDeleteObject h key = (h, sendError StatusNotFound "object not found").
Proof.
  intros Habs. unfold handleDeleteObject, GetObjectInfo. by rewrite Habs.
Qed.

Lemma handleDeleteObject_present (h : Handler) (key : string) (info : ObjectRecord) :
  storage h !! key = Some info ->
  storage (fst (handleDeleteObject h key)) = delete key (storage h) /\
  snd (handleDeleteObject h key) =
  {| status := StatusOK; payload := MessageBody "object deleted successfully" |}.
Proof.
  intros Hpres. unfold handleDeleteObject, GetObjectInfo, DeleteObject.
  rewrite Hpres. cbn [fst snd storage]. auto.
Qed.

(** C8 (amended). Through [DELETE /api/v1/objects/{key}], deleting a key that
    has a record succeeds with status 200 and removes the record; deleting a
    key that has none answers 404 "object not found" and changes nothing. So
    of two deletes in a row the second always answers 404 and leaves the
    state as the first left it: the operation is idempotent on the state,
    not in its response. *)
Theorem handleDeleteObject_twice (h : Handler) (key : string) :
  (is_Some (storage h !! key) ->
   status (snd (handleDeleteObject h key)) = StatusOK) /\
  (storage h !! key = None ->
   handleDeleteObject h key = (h, sendError StatusNotFound "object not found")) /\
  storage (fst (handleDeleteObject h key)) !! key = None /\
  handleDeleteObject (fst (handleDeleteObject h key)) key =
  (fst (handleDeleteObject h key), sendError StatusNotFound "object not found").
Proof.
  assert (storage (fst (handleDeleteObject h key)) !! key = None) as Hgone.
  { destruct (storage h !! key) as [info|] eqn:E.
    - destruct (handleDeleteObject_present h key info E) as [-> _].
      apply lookup_delete_eq.
    - by rewrite handleDeleteObject_absent. }
  split; [|split; [|split]].
  - intros [info E]. by destruct (handleDeleteObject_present h key info E) as [_ ->].
  - apply handleDeleteObject_absent.
  - exact Hgone.
  - by apply handleDeleteObject_absent.
Qed.

(** C8, as stated, fails: the second of two deletes of the stored key [x]
    is answered with 404, not with success. *)
Lemma handleDeleteObject_second_is_not_found :
  status (snd (handleDeleteObject sample_handler "x")) = 200 /\
  snd (handleDeleteObject (fst (handleDeleteObject sample_handler "x")) "x")
  = {| status := 404; payload := ErrorBody "object not found" |}.
Proof. split; vm_compute; reflexivity. Qed.

Example handleDeleteObject_releases_space :
  List.map UsedSize (buckets (bucketManager (fst (handleDeleteObject sample_handler "x"))))
  = [0; 0].
Proof. vm_compute. reflexivity. Qed.

(** ** The configuration manager's [GetConfig] *)

Module ConfigManagerFacts.

Import ConfigManager.

(** The copy is a fresh struct equal to the live one. *)
Lemma GetConfig_copies (m : Manager) (h h' : Heap) (p : nat) (c : Config) :
  structs h !! config m = Some c ->
  GetConfig m h = Some (p, h') ->
  p = next h /\ structs h' !! p = Some c /\ arrays h' = arrays h.
Proof.
  unfold GetConfig. intros ->. intros [= <- <-]. cbn [structs arrays].
  split; [reflexivity|]. split; [apply lookup_insert_eq | reflexivity].
Qed.

(** Writes to the fields of the returned struct, a reassignment of its
    bucket list included, do not reach the live configuration. *)
Lemma GetConfig_fields_are_copied (m : Manager) (h h' : Heap) (p : nat)
    (mu : mutation) :
  (config m < next h)%nat ->
  (forall c, structs h !! config m = Some c -> (array (Buckets c) < next h)%nat) ->
  GetConfig m h = Some (p, h') ->
  (forall i v, mu <> SetBucketsElem i v) ->
  observe (config m) (mutate p mu h') = observe (config m) h'.
Proof.
  intros Hm Harr Hget Hmu. unfold GetConfig in Hget.
  destruct (structs h !! config m) as [c|] eqn:Hc; [|discriminate].
  injection Hget as <- <-. specialize (Harr c eq_refl).
  unfold mutate. cbn [structs arrays next]. rewrite lookup_insert_eq.
  unfold observe.
  destruct mu; cbn [structs arrays];
    try (rewrite lookup_insert_ne by lia; reflexivity).
  - rewrite !lookup_insert_ne by lia. rewrite Hc.
    rewrite lookup_insert_ne by lia. reflexivity.
  - exfalso. by eapply Hmu.
Qed.

(** C9. [GetConfig] copies the struct only: the copy's bucket list shares its
    backing array with the live configuration, so that a caller's write to
    an element of the returned list is seen by a reader of the live
    configuration and by the next call of [GetConfig]. *)
Theorem GetConfig_shares_bucket_list :
  exists p h1 q h2,
    GetConfig sample_manager sample_heap = Some (p, h1) /\
    observe (config sample_manager) h1
    = Some (sample_config, [configA; configB]) /\
    observe (config sample_manager) (mutate p (SetBucketsElem 0 intruder) h1)
    = Some (sample_config, [intruder; configB]) /\
    GetConfig sample_manager (mutate p (SetBucketsElem 0 intruder) h1) = Some (q, h2) /\
    observe q h2 = Some (sample_config, [intruder; configB]).
Proof.
  eexists _, _, _, _.
  split; [vm_compute; reflexivity|].
  split; [vm_compute; reflexivity|].
  split; [vm_compute; reflexivity|].
  split; vm_compute; reflexivity.
Qed.

Example GetConfig_port_is_copied :
  exists p h1,
    GetConfig sample_manager sample_heap = Some (p, h1) /\
    observe (config sample_manager) (mutate p (SetServerPort 1) h1)
    = Some (sample_config, [configA; configB]).
Proof. eexists _, _. split; vm_compute; reflexivity. Qed.

End ConfigManagerFacts.

(** ** The basic-auth middleware *)

Module MiddlewareFacts.

Import Middleware.

Local Open Scope string_scope.

Lemma HasPrefix_app (p rest : string) : HasPrefix (p ++ rest) p = true.
Proof.
  unfold HasPrefix. induction p as [|c p IH].
  - by destruct rest.
  - change (String c p ++ rest) with (String c (p ++ rest)).
    cbn [String.prefix]. destruct (ascii_dec c c); [exact IH | contradiction].
Qed.

Lemma HasPrefix_inv (s p : string) :
  HasPrefix s p = true -> exists rest, s = p ++ rest.
Proof.
  unfold HasPrefix. revert s. induction p as [|c p IH]; intros s H.
  - exists s. reflexivity.
  - destruct s as [|d s]; cbn [String.prefix] in H; [discriminate|].
    destruct (ascii_dec c d) as [->|]; [|discriminate].
    destruct (IH s H) as [rest ->]. by exists rest.
Qed.

Lemma substring_whole (s : string) : substring 0 (String.length s) s = s.
Proof. induction s as [|c s IH]; cbn; [reflexivity | by rewrite IH]. Qed.

Lemma TrimPrefix_app (p rest : string) : TrimPrefix (p ++ rest) p = rest.
Proof.
  unfold TrimPrefix. rewrite HasPrefix_app.
  induction p as [|c p IH].
  - change (EmptyString ++ rest) with rest. cbn [String.length].
    rewrite Nat.sub_0_r. apply substring_whole.
  - change (String c p ++ rest) with (String c (p ++ rest)).
    cbn [String.length substring]. rewrite Nat.sub_succ. exact IH.
Qed.

Lemma cut_sound (sep : ascii) (s before after : string) :
  cut sep s = Some (before, after) -> splits_on_first sep s before after.
Proof.
  revert before. induction s as [|c s IH]; intros before; cbn; [discriminate|].
  destruct (Ascii.eqb c sep) eqn:E.
  - apply Ascii.eqb_eq in E. subst c. intros [= <- <-]. split; [reflexivity|].
    intros [].
  - apply Ascii.eqb_neq in E.
    destruct (cut sep s) as [[b a]|]; [|discriminate].
    intros [= <- <-]. destruct (IH b eq_refl) as [-> Hno].
    split; [reflexivity|]. cbn [list_ascii_of_string In].
    intros [H|H]; [congruence | contradiction].
Qed.

Lemma cut_complete (sep : ascii) (s before after : string) :
  splits_on_first sep s before after -> cut sep s = Some (before, after).
Proof.
  intros [-> Hno]. induction before as [|c before IH].
  - change (EmptyString ++ String sep after) with (String sep after).
    cbn [cut]. by rewrite Ascii.eqb_refl.
  - change (String c before ++ String sep after)
      with (String c (before ++ String sep after)).
    cbn [cut list_ascii_of_string In] in *. destruct (Ascii.eqb c sep) eqn:E.
    + apply Ascii.eqb_eq in E. exfalso. apply Hno. by left.
    + rewrite IH; [reflexivity|]. intros H. apply Hno. by right.
Qed.

Lemma invokeOnError_error (cfg : AuthConfig) (code message : string) :
  exists e, invokeOnError cfg code message = [e] /\ is_error_response e.
Proof.
  unfold invokeOnError. destruct (OnError cfg); eexists; split; try reflexivity;
    cbn; auto.
Qed.

Lemma invokeOnError_refusal (cfg : AuthConfig) (code message : string) :
  refusal (invokeOnError cfg code message).
Proof.
  destruct (invokeOnError_error cfg code message) as [e [-> He]].
  split; [exists e; auto|].
  constructor; [|constructor]. destruct e; cbn in *; auto.
Qed.

Lemma requireAuth_refusal (cfg : AuthConfig) : refusal (requireAuth cfg).
Proof.
  unfold requireAuth.
  destruct (invokeOnError_refusal cfg "AccessDenied" "Access Denied")
    as [[e [Hl He]] Hall].
  split.
  - exists e. split; [|exact He].
    destruct (invokeOnError cfg "AccessDenied" "Access Denied"); [discriminate|].
    exact Hl.
  - constructor; [cbn; auto | exact Hall].
Qed.

Lemma append_inj_l (p a b : string) : p ++ a = p ++ b -> a = b.
Proof.
  induction p as [|c p IH]; intros H.
  - exact H.
  - change (String c (p ++ a) = String c (p ++ b)) in H.
    injection H as H. auto.
Qed.

(** With authentication required, a request either carries valid
    credentials and is served, or does not and is refused. *)
Lemma BasicAuth_required (cfg : AuthConfig) (r : Request) :
  Required cfg = Some true ->
  (authorized cfg r /\ BasicAuth cfg r = [ServeNext r]) \/
  (~ authorized cfg r /\ refusal (BasicAuth cfg r)).
Proof.
  intros Hreq. unfold BasicAuth. rewrite Hreq. cbn [negb].
  destruct (HasPrefix (Header_Get (Header r) "Authorization") "Basic ") eqn:HP;
    cbn [negb].
  - destruct (HasPrefix_inv _ _ HP) as [payload Hhdr]. rewrite Hhdr.
    rewrite TrimPrefix_app.
    destruct (DecodeString payload) as [decoded|] eqn:HD.
    + unfold SplitN_2.
      destruct (cut ":" decoded) as [[part0 part1]|] eqn:HC.
      * assert (forall user password,
                  authorized cfg r ->
                  user = fst (configured_keys cfg) ->
                  password = snd (configured_keys cfg) ->
                  part0 = user /\ part1 = password) as Hparts.
        { intros user password (p' & d' & u' & w' & H1 & H2 & H3 & H4 & H5) -> ->.
          rewrite Hhdr in H1. apply append_inj_l in H1. subst p'.
          rewrite HD in H2. injection H2 as <-.
          apply cut_complete in H3. rewrite HC in H3. injection H3 as <- <-.
          auto. }
        unfold authorized, configured_keys in *.
        destruct (match Credentials cfg with
                  | Some creds => creds
                  | None => (EmptyString, EmptyString)
                  end) as [accessKey secretKey] eqn:HK.
        cbn [fst snd] in *.
        destruct (String.eqb part0 accessKey) eqn:E0; cbn [negb].
        -- destruct (String.eqb part1 secretKey) eqn:E1; cbn [negb].
           ++ left. apply String.eqb_eq in E0, E1. subst.
              split; [|reflexivity].
              exists payload, decoded, accessKey, secretKey.
              repeat split; auto; by apply cut_sound in HC as [? ?].
           ++ right. split; [|apply invokeOnError_refusal].
              intros Hauth. apply String.eqb_neq in E1.
              destruct (Hparts accessKey secretKey Hauth eq_refl eq_refl). auto.
        -- right. split; [|apply invokeOnError_refusal].
           intros Hauth. apply String.eqb_neq in E0.
           destruct (Hparts accessKey secretKey Hauth eq_refl eq_refl). auto.
      * right. split; [|apply requireAuth_refusal].
        intros (p' & d' & u' & w' & H1 & H2 & H3 & _).
        rewrite Hhdr in H1. apply append_inj_l in H1. subst p'.
        rewrite HD in H2. injection H2 as <-.
        apply cut_complete in H3. congruence.
    + right. split; [|apply requireAuth_refusal].
      intros (p' & d' & u' & w' & H1 & H2 & _).
      rewrite Hhdr in H1. apply append_inj_l in H1. subst p'. congruence.
  - right. split; [|apply requireAuth_refusal].
    intros (p' & d' & u' & w' & H1 & _).
    rewrite H1, HasPrefix_app in HP. discriminate.
Qed.

(** C10. When the [Required] predicate is absent or reports false, the
    request goes to the inner handler unchanged and nothing else happens.
    When it reports true, the inner handler is invoked if and only if the
    [Authorization] header is [Basic ] followed by valid base64 whose
    decoding splits on the first colon into the configured access key and
    the configured secret key; in every other case an error response is
    written and the inner handler is never called. *)
Theorem BasicAuth_behaviour (cfg : AuthConfig) (r : Request) :
  (Required cfg <> Some true -> BasicAuth cfg r = [ServeNext r]) /\
  (Required cfg = Some true ->
   (Exists is_ServeNext (BasicAuth cfg r) <-> authorized cfg r) /\
   (authorized cfg r -> BasicAuth cfg r = [ServeNext r]) /\
   (~ authorized cfg r -> refusal (BasicAuth cfg r))).
Proof.
  split.
  - intros Hreq. unfold BasicAuth.
    destruct (Required cfg) as [[|]|]; [contradiction | reflexivity | reflexivity].
  - intros Hreq.
    destruct (BasicAuth_required cfg r Hreq) as [[Hauth Hev]|[Hno [Herr Hall]]].
    + rewrite Hev. split; [|split].
      * split; [auto|]. intros _. constructor. exact I.
      * auto.
      * intros Hno. contradiction.
    + split; [|split].
      * split; [|intros; contradiction].
        intros Hex. exfalso. rewrite Exists_exists in Hex.
        destruct Hex as [e [Hin He]]. rewrite Forall_forall in Hall.
        apply (Hall e); [exact Hin | exact He].
      * intros; contradiction.
      * intros _. split; assumption.
Qed.

Example BasicAuth_valid_credentials :
  BasicAuth {| Required := Some true; Credentials := Some ("user", "pass");
               OnError := true |}
    {| Method := "GET"; Path := "/bucket/key";
       Header := {[ "Authorization" := ["Basic dXNlcjpwYXNz"] ]} |}
  = [ServeNext {| Method := "GET"; Path := "/bucket/key";
                  Header := {[ "Authorization" := ["Basic dXNlcjpwYXNz"] ]} |}].
Proof. vm_compute. reflexivity. Qed.

Example BasicAuth_wrong_secret :
  BasicAuth {| Required := Some true; Credentials := Some ("user", "other");
               OnError := false |}
    {| Method := "GET"; Path := "/bucket/key";
       Header := {[ "Authorization" := ["Basic dXNlcjpwYXNz"] ]} |}
  = [HttpError "The request signature we calculated does not match the signature you provided." 403].
Proof. vm_compute. reflexivity. Qed.

Example BasicAuth_missing_header :
  BasicAuth {| Required := Some true; Credentials := Some ("user", "pass");
               OnError := true |}
    {| Method := "GET"; Path := "/bucket/key"; Header := ∅ |}
  = [SetResponseHeader "WWW-Authenticate" realm;
     CallOnError "AccessDenied" "Access Denied" EmptyString].
Proof. vm_compute. reflexivity. Qed.

End MiddlewareFacts.

(** * Further properties of the balancer *)

(** ** Construction *)

(** [NewBalancer] accepts exactly the four strategy names, and the balancer
    it builds reports the configured name back through [GetStrategy]; any
    other name is refused with the error that carries it. *)
Theorem NewBalancer_GetStrategy (m : Manager) (cfg : BalancerConfig) :
  match NewBalancer m cfg with
  | inl b =>
      Balancer_GetStrategy b = cfg_Strategy cfg /\
      manager b = m /\ config b = cfg /\
      In (cfg_Strategy cfg) strategy_names
  | inr e =>
      e = UnknownStrategy (cfg_Strategy cfg) /\
      ~ In (cfg_Strategy cfg) strategy_names
  end.
Proof.
  unfold NewBalancer, Balancer_GetStrategy, strategy_names.
  destruct (String.eqb_spec (cfg_Strategy cfg) "round-robin") as [->|H1].
  { cbn. intuition. }
  destruct (String.eqb_spec (cfg_Strategy cfg) "least-space") as [->|H2].
  { cbn. intuition. }
  destruct (String.eqb_spec (cfg_Strategy cfg) "weighted") as [->|H3].
  { cbn. intuition. }
  destruct (String.eqb_spec (cfg_Strategy cfg) "consistent-hash") as [->|H4].
  { cbn. intuition. }
  split; [reflexivity|]. cbn. intros [E|[E|[E|[E|[]]]]]; congruence.
Qed.

(** ** Weighted: a bucket of weight zero *)

Lemma wrap_int64_range (x : Z) : min_int64 <= wrap_int64 x <= max_int64.
Proof.
  unfold wrap_int64, min_int64, max_int64.
  pose proof (Z.mod_pos_bound (x + 2 ^ 63) (2 ^ 64) ltac:(lia)). lia.
Qed.

(** The walk never stops at a bucket of weight zero: the running sum does
    not move there. *)
Lemma weighted_walk_nonzero (r c : Z) (bs : list BucketInfo) (b : BucketInfo) :
  min_int64 <= c <= max_int64 -> c <= r ->
  weighted_walk r c bs = Some b -> Weight (Config b) <> 0.
Proof.
  revert c. induction bs as [|b0 bs IH]; intros c Hc Hr; cbn [weighted_walk];
    [discriminate|].
  destruct (r <? wrap_int64 (c + Weight (Config b0))) eqn:E.
  - intros [= <-] H0. apply Z.ltb_lt in E.
    rewrite H0, Z.add_0_r, wrap_int64_id in E by exact Hc. lia.
  - apply Z.ltb_ge in E. apply IH; [apply wrap_int64_range | exact E].
Qed.

(** While some bucket of the list has a positive weight, the weighted
    strategy never selects a bucket of weight zero (weights not negative,
    their sum within a Go [int]). *)
Theorem Weighted_never_selects_zero_weight (rt : Runtime) (bs : list BucketInfo)
    (key : string) (size : Z) (b : BucketInfo) :
  RandContract rt ->
  Forall (fun b => 0 <= Weight (Config b)) bs ->
  sumWeights bs <= max_int64 ->
  0 < sumWeights bs ->
  WeightedStrategy_SelectBucket rt bs key size = Selected b ->
  0 < Weight (Config b).
Proof.
  intros Hrand Hw Hmax Hpos.
  unfold WeightedStrategy_SelectBucket, rand_Intn.
  destruct (len bs =? 0); [discriminate|].
  rewrite (totalWeight_sumWeights bs Hw Hmax).
  destruct (sumWeights bs =? 0) eqn:E; [apply Z.eqb_eq in E; lia|].
  destruct (sumWeights bs <=? 0) eqn:L; [apply Z.leb_le in L; lia|].
  pose proof (Hrand (sumWeights bs) Hpos) as Hd.
  destruct (weighted_walk_first bs (rand_draw rt (sumWeights bs)) 0 Hw)
    as [i [b' [Hwalk [Hl _]]]]; try lia.
  rewrite Hwalk. intros [= <-].
  assert (min_int64 <= 0 <= max_int64) as H0 by (unfold min_int64, max_int64; lia).
  pose proof (weighted_walk_nonzero _ _ _ _ H0 (proj1 Hd) Hwalk) as Hnz.
  rewrite Forall_forall in Hw.
  specialize (Hw b' (list_elem_of_lookup_2 _ _ _ Hl)). cbv beta in Hw. lia.
Qed.

Lemma Weighted_never_selects_zero_weight_witness :
  0 < Weight (Config bucketB).
Proof.
  apply (Weighted_never_selects_zero_weight midpoint_runtime
           [zeroWeight1; bucketB; zeroWeight2] "k" 0 bucketB).
  - apply midpoint_runtime_RandContract.
  - repeat constructor; cbn; lia.
  - vm_compute. discriminate.
  - vm_compute. reflexivity.
  - vm_compute. reflexivity.
Defined.

(** ** Consistent hash: which bucket serves a key *)

Lemma serves_unique (points : list Z) (h p p' : Z) :
  serves points h p -> serves points h p' -> p = p'.
Proof.
  intros [Hp [[Hle Hmin]|[Hall Hmin]]] [Hp' [[Hle' Hmin']|[Hall' Hmin']]].
  - specialize (Hmin p' Hp' Hle'). specialize (Hmin' p Hp Hle). lia.
  - specialize (Hall' p Hp). lia.
  - specialize (Hall p' Hp'). lia.
  - specialize (Hmin p' Hp'). specialize (Hmin' p Hp). lia.
Qed.

Lemma serves_subset (points points' : list Z) (h p : Z) :
  (forall q, In q points' -> In q points) ->
  In p points' -> serves points h p -> serves points' h p.
Proof.
  intros Hsub Hp' [_ [[Hle Hmin]|[Hall Hmin]]]; (split; [exact Hp'|]).
  - left. split; [exact Hle|]. intros q Hq. apply Hmin. auto.
  - right. split; intros q Hq; [apply Hall | apply Hmin]; auto.
Qed.

Lemma serves_Permutation (points points' : list Z) (h p : Z) :
  Permutation points points' -> serves points h p -> serves points' h p.
Proof.
  intros Hperm Hs. eapply serves_subset; [| |exact Hs].
  - intros q Hq. eapply Permutation_in; [symmetry; exact Hperm | exact Hq].
  - eapply Permutation_in; [exact Hperm | exact (proj1 Hs)].
Qed.

Lemma In_nth_Z (ns : list Z) (q : Z) :
  In q ns -> exists k, (k < List.length ns)%nat /\ nth k ns 0 = q.
Proof. intros H. destruct (In_nth ns q 0 H) as [k [? ?]]. eauto. Qed.

(** On a sorted ring that is not empty, the index [SelectBucket] computes
    holds the point that serves the hash. *)
Lemma ring_search_serves (ns : list Z) (h : Z) :
  StronglySorted Z.le ns -> ns <> [] ->
  let found := sort_Search (len ns) (fun i => h <=? nth (Z.to_nat i) ns 0) in
  let idx := if found =? len ns then 0 else found in
  exists node, ns !! Z.to_nat idx = Some node /\ serves ns h node.
Proof.
  intros Hs Hne found idx.
  destruct (ring_search_first ns h Hs) as [Hb [Hlow Hhit]]. fold found in Hb, Hlow, Hhit.
  assert (0 < len ns) as Hlen.
  { unfold len. destruct ns; [contradiction|]. cbn [List.length]. lia. }
  assert (0 <= idx < len ns) as Hidx.
  { subst idx. destruct (found =? len ns) eqn:E; [lia|]. apply Z.eqb_neq in E. lia. }
  destruct (lookup_lt_is_Some_2 ns (Z.to_nat idx)) as [node Hnode].
  { unfold len in Hidx. lia. }
  exists node. split; [exact Hnode|].
  assert (nth (Z.to_nat idx) ns 0 = node) as Hnth.
  { apply nth_lookup_Some with (d := 0) in Hnode. exact Hnode. }
  split.
  { apply list_elem_of_In. eapply list_elem_of_lookup_2. exact Hnode. }
  subst idx. destruct (found =? len ns) eqn:E.
  - apply Z.eqb_eq in E. right. split.
    + intros q Hq. destruct (In_nth_Z ns q Hq) as [k [Hk <-]].
      specialize (Hlow (Z.of_nat k)). rewrite Nat2Z.id in Hlow.
      apply Hlow. unfold len in *. lia.
    + intros q Hq. destruct (In_nth_Z ns q Hq) as [k [Hk <-]].
      rewrite <- Hnth. change (Z.to_nat 0) with 0%nat.
      apply StronglySorted_nth_le; [exact Hs | lia | exact Hk].
  - apply Z.eqb_neq in E. left. split.
    + rewrite <- Hnth. apply Hhit. lia.
    + intros q Hq Hle. destruct (In_nth_Z ns q Hq) as [k [Hk <-]].
      rewrite <- Hnth.
      destruct (Z_lt_le_dec (Z.of_nat k) found) as [Hlt|Hge].
      * specialize (Hlow (Z.of_nat k)). rewrite Nat2Z.id in Hlow.
        specialize (Hlow ltac:(lia)). lia.
      * apply StronglySorted_nth_le; [exact Hs | lia | exact Hk].
Qed.

(** What a call returns: the owner of the point that serves the key. *)
Lemma ConsistentHash_lookup_serves (rt : Runtime) (s : ConsistentHashStrategy)
    (bs : list BucketInfo) (key : string) (size : Z) :
  SortContract rt -> 0 < replicas s -> bs <> [] ->
  exists p b,
    snd (ConsistentHashStrategy_SelectBucket rt s bs key size) = Selected b /\
    serves (flat_map (virtualNodes (replicas s)) bs) (hash key) p /\
    owner (replicas s) bs p = Some b.
Proof.
  intros Hsort Hreps Hne.
  rewrite (ConsistentHash_outcome rt s bs key size Hne). cbv zeta.
  destruct (sort_Slice_Z rt (flat_map (virtualNodes (replicas s)) bs) Hsort)
    as [Hperm Hsorted].
  set (ns := sort_Slice rt Z.ltb (flat_map (virtualNodes (replicas s)) bs)) in *.
  assert (ns <> []) as Hns.
  { intros E. apply (f_equal (@List.length Z)) in E.
    rewrite (Permutation_length Hperm), flat_map_virtualNodes_length in E.
    destruct bs; [contradiction|]. cbn [List.length] in E. nia. }
  destruct (ring_search_serves ns (hash key) Hsorted Hns) as [node [Hnode Hserves]].
  cbv zeta in Hnode. rewrite Hnode.
  apply (serves_Permutation _ _ _ _ Hperm) in Hserves.
  destruct (owner_is_Some (replicas s) bs node (proj1 Hserves)) as [b Hb].
  exists node, b. rewrite Hb. auto.
Qed.

Lemma owner_split (reps : Z) (bs : list BucketInfo) (p : Z) (b : BucketInfo) :
  owner reps bs p = Some b ->
  exists pre post,
    bs = pre ++ b :: post /\
    In p (virtualNodes reps b) /\
    forall b', In b' post -> ~ In p (virtualNodes reps b').
Proof.
  induction bs as [|b0 bs IH]; cbn [owner]; [discriminate|].
  destruct (owner reps bs p) as [b1|] eqn:E.
  - intros [= <-]. destruct (IH eq_refl) as [pre [post [-> [Hin Hpost]]]].
    exists (b0 :: pre), post. auto.
  - destruct (bool_decide (p ∈ virtualNodes reps b0)) eqn:D; [|discriminate].
    intros [= <-]. apply bool_decide_eq_true in D.
    exists [], bs. split; [reflexivity|]. split; [by apply list_elem_of_In|].
    intros b' Hb' Hp.
    destruct (owner_is_Some reps bs p) as [x Hx]; [|congruence].
    apply in_flat_map. eauto.
Qed.

Lemma owner_None_filter (reps : Z) (keep : BucketInfo -> bool)
    (bs : list BucketInfo) (p : Z) :
  owner reps bs p = None -> owner reps (List.filter keep bs) p = None.
Proof.
  induction bs as [|b0 bs IH]; cbn [owner List.filter]; [reflexivity|].
  destruct (owner reps bs p) eqn:E; [discriminate|].
  destruct (bool_decide (p ∈ virtualNodes reps b0)) eqn:D; [discriminate|].
  intros _. destruct (keep b0); cbn [owner]; rewrite (IH eq_refl); [|reflexivity].
  by rewrite D.
Qed.

(** A point keeps its owner when other buckets leave the list. *)
Lemma owner_filter (reps : Z) (keep : BucketInfo -> bool)
    (bs : list BucketInfo) (p : Z) (b : BucketInfo) :
  owner reps bs p = Some b -> keep b = true ->
  owner reps (List.filter keep bs) p = Some b.
Proof.
  intros Ho Hk. induction bs as [|b0 bs IH]; cbn [owner List.filter] in *;
    [discriminate|].
  destruct (owner reps bs p) as [b1|] eqn:E.
  - injection Ho as ->. specialize (IH eq_refl).
    destruct (keep b0); cbn [owner]; by rewrite IH.
  - destruct (bool_decide (p ∈ virtualNodes reps b0)) eqn:D; [|discriminate].
    injection Ho as ->. rewrite Hk. cbn [owner].
    by rewrite (owner_None_filter reps keep bs p E), D.
Qed.

(** The consistent-hash strategy returns the bucket on the ring's successor
    point: the least virtual node at or after the hash of the key, the least
    node of the whole ring when the hash lies beyond every node; among
    buckets that share that point, the last one of the list. *)
Theorem ConsistentHash_selects_successor (rt : Runtime)
    (s : ConsistentHashStrategy) (bs : list BucketInfo) (key : string) (size : Z) :
  SortContract rt -> 0 < replicas s -> bs <> [] ->
  exists p b pre post,
    snd (ConsistentHashStrategy_SelectBucket rt s bs key size) = Selected b /\
    serves (flat_map (virtualNodes (replicas s)) bs) (hash key) p /\
    bs = pre ++ b :: post /\
    In p (virtualNodes (replicas s) b) /\
    (forall b', In b' post -> ~ In p (virtualNodes (replicas s) b')).
Proof.
  intros Hsort Hreps Hne.
  destruct (ConsistentHash_lookup_serves rt s bs key size Hsort Hreps Hne)
    as [p [b [Hsel [Hserves Hown]]]].
  destruct (owner_split _ _ _ _ Hown) as [pre [post [Hbs [Hin Hpost]]]].
  exists p, b, pre, post. auto.
Qed.

Lemma ConsistentHash_selects_successor_witness :
  exists p b pre post,
    snd (ConsistentHashStrategy_SelectBucket sample_runtime
           NewConsistentHashStrategy [bucketA; bucketB; bucketC] "photo.jpg" 0)
    = Selected b /\
    serves (flat_map (virtualNodes (replicas NewConsistentHashStrategy))
              [bucketA; bucketB; bucketC]) (hash "photo.jpg") p /\
    [bucketA; bucketB; bucketC] = pre ++ b :: post /\
    In p (virtualNodes (replicas NewConsistentHashStrategy) b) /\
    (forall b', In b' post ->
                ~ In p (virtualNodes (replicas NewConsistentHashStrategy) b')).
Proof.
  apply (ConsistentHash_selects_successor sample_runtime NewConsistentHashStrategy
           [bucketA; bucketB; bucketC] "photo.jpg" 0).
  - apply insertion_runtime_SortContract.
  - reflexivity.
  - discriminate.
Defined.

(** Minimal disruption: a key stays on its bucket when other buckets leave
    the eligible list. If the strategy places [key] on [b] over the list
    [bs], it places [key] on [b] over every sub-list of [bs] that keeps [b],
    whatever ring an earlier call left behind. *)
Theorem ConsistentHash_key_stays (rt rt' : Runtime)
    (s s' : ConsistentHashStrategy) (bs : list BucketInfo)
    (keep : BucketInfo -> bool) (key : string) (size size' : Z) (b : BucketInfo) :
  SortContract rt -> SortContract rt' ->
  0 < replicas s -> replicas s' = replicas s ->
  snd (ConsistentHashStrategy_SelectBucket rt s bs key size) = Selected b ->
  keep b = true ->
  snd (ConsistentHashStrategy_SelectBucket rt' s' (List.filter keep bs) key size')
  = Selected b.
Proof.
  intros Hsort Hsort' Hreps Hreps' Hsel Hkeep.
  assert (bs <> []) as Hne.
  { intros ->. cbn in Hsel. discriminate. }
  destruct (ConsistentHash_lookup_serves rt s bs key size Hsort Hreps Hne)
    as [p [b0 [Hsel0 [Hserves Hown]]]].
  rewrite Hsel in Hsel0. injection Hsel0 as <-.
  pose proof (owner_In _ _ _ _ Hown) as [Hb Hp].
  assert (In b (List.filter keep bs)) as Hb' by (apply List.filter_In; auto).
  assert (List.filter keep bs <> []) as Hne' by (intros E; rewrite E in Hb'; contradiction).
  destruct (ConsistentHash_lookup_serves rt' s' (List.filter keep bs) key size'
              Hsort' ltac:(lia) Hne') as [p' [b' [Hsel' [Hserves' Hown']]]].
  rewrite Hsel'. f_equal. rewrite Hreps' in Hserves', Hown'.
  assert (serves (flat_map (virtualNodes (replicas s)) (List.filter keep bs))
            (hash key) p) as Hserves2.
  { eapply serves_subset; [| |exact Hserves].
    - intros q Hq. apply in_flat_map in Hq as [x [Hx Hq]].
      apply List.filter_In in Hx as [Hx _]. apply in_flat_map. eauto.
    - apply in_flat_map. eauto. }
  rewrite (serves_unique _ _ _ _ Hserves' Hserves2) in Hown'.
  rewrite (owner_filter _ keep _ _ _ Hown Hkeep) in Hown'. congruence.
Qed.

Lemma ConsistentHash_key_stays_witness :
  snd (ConsistentHashStrategy_SelectBucket sample_runtime NewConsistentHashStrategy
         (List.filter (fun x => negb (String.eqb (Name (Config x)) "B"))
            [bucketA; bucketB; bucketC]) "photo.jpg" 0)
  = Selected bucketA.
Proof.
  apply (ConsistentHash_key_stays sample_runtime sample_runtime
           NewConsistentHashStrategy NewConsistentHashStrategy
           [bucketA; bucketB; bucketC]
           (fun x => negb (String.eqb (Name (Config x)) "B"))
           "photo.jpg" 0 0 bucketA).
  - apply insertion_runtime_SortContract.
  - apply insertion_runtime_SortContract.
  - reflexivity.
  - reflexivity.
  - vm_compute. reflexivity.
  - reflexivity.
Defined.

(** * The virtual-host middleware *)

Module VirtualHostFacts.

Import VirtualHost.

Local Open Scope string_scope.
Local Open Scope nat_scope.

Lemma append_cons (c : ascii) (p s : string) : String c p ++ s = String c (p ++ s).
Proof. reflexivity. Qed.

Lemma append_nil_r (s : string) : s ++ EmptyString = s.
Proof. induction s as [|c s IH]; [reflexivity|]. by rewrite append_cons, IH. Qed.

Lemma HasPrefix_refl (p : string) : Middleware.HasPrefix p p = true.
Proof.
  pose proof (MiddlewareFacts.HasPrefix_app p EmptyString) as H.
  by rewrite append_nil_r in H.
Qed.

(** The first piece of a split holds no separator. *)
Lemma Split_head (s : string) (sep : ascii) :
  exists piece pieces,
    Split s sep = piece :: pieces /\ ~ In sep (list_ascii_of_string piece).
Proof.
  induction s as [|c s (piece & pieces & IH & Hno)]; cbn [Split].
  - exists EmptyString, []. split; [reflexivity | intros []].
  - destruct (Ascii.eqb c sep) eqn:E.
    + exists EmptyString, (Split s sep). split; [reflexivity | intros []].
    + rewrite IH. exists (String c piece), pieces. split; [reflexivity|].
      apply Ascii.eqb_neq in E. cbn [list_ascii_of_string In].
      intros [H|H]; [congruence | contradiction].
Qed.

(** A string that begins with a separator-free label and a separator
    splits off that label first. *)
Lemma Split_app (b rest : string) (sep : ascii) :
  ~ In sep (list_ascii_of_string b) ->
  Split (b ++ String sep rest) sep = b :: Split rest sep.
Proof.
  induction b as [|c b IH]; intros Hno.
  - change (EmptyString ++ String sep rest) with (String sep rest).
    cbn [Split]. by rewrite Ascii.eqb_refl.
  - rewrite append_cons. cbn [Split list_ascii_of_string In] in *.
    destruct (Ascii.eqb c sep) eqn:E.
    + apply Ascii.eqb_eq in E. exfalso. apply Hno. by left.
    + rewrite IH; [reflexivity|]. intros H. apply Hno. by right.
Qed.

Lemma LastIndexByte_app (b s : string) (c : ascii) :
  ~ In c (list_ascii_of_string b) ->
  LastIndexByte (b ++ s) c =
  match LastIndexByte s c with
  | Some i => Some (String.length b + i)
  | None => None
  end.
Proof.
  induction b as [|x b IH]; intros Hno.
  - change (EmptyString ++ s) with s. by destruct (LastIndexByte s c).
  - rewrite append_cons. cbn [LastIndexByte list_ascii_of_string In String.length] in *.
    rewrite IH by (intros H; apply Hno; by right).
    destruct (LastIndexByte s c); [reflexivity|].
    destruct (Ascii.eqb x c) eqn:E; [|reflexivity].
    apply Ascii.eqb_eq in E. exfalso. apply Hno. by left.
Qed.

Lemma substring_app (b s : string) (n : nat) :
  substring 0 (String.length b + n) (b ++ s) = b ++ substring 0 n s.
Proof.
  induction b as [|x b IH].
  - reflexivity.
  - rewrite !append_cons. cbn [String.length Nat.add substring]. by rewrite IH.
Qed.

(** Whatever [net.SplitHostPort] makes of the port, the host name it
    returns for [label.rest] still begins with [label.]. *)
Lemma clean_host_keeps_label (b rest : string) :
  b <> EmptyString ->
  ~ In ":"%char (list_ascii_of_string b) ->
  Middleware.HasPrefix b "[" = false ->
  forall hostname port,
    SplitHostPort (b ++ String "." rest) = Some (hostname, port) ->
    exists rest', hostname = b ++ String "." rest'.
Proof.
  intros Hne Hcolon Hbr hostname port. unfold SplitHostPort.
  rewrite (LastIndexByte_app b (String "." rest) ":" Hcolon).
  cbn [LastIndexByte].
  destruct (LastIndexByte rest ":") as [i|] eqn:L;
    [|change (Ascii.eqb "." ":") with false; cbn iota; discriminate].
  destruct b as [|c b]; [contradiction|].
  rewrite append_cons.
  assert (Ascii.eqb c "[" = false) as Hc.
  { unfold Middleware.HasPrefix in Hbr. cbn [String.prefix] in Hbr.
    destruct (ascii_dec "[" c) as [<-|Hn].
    - by destruct b.
    - apply Ascii.eqb_neq. congruence. }
  rewrite Hc. cbv zeta. rewrite <- append_cons.
  unfold slice. rewrite Nat.sub_0_r.
  rewrite (substring_app (String c b) (String "." rest) (S i)).
  destruct (Contains _ ":"); [discriminate|].
  destruct (Contains _ "["); [discriminate|].
  destruct (Contains _ "]"); [discriminate|].
  intros [= <- _]. cbn [substring]. eauto.
Qed.

Lemma bucketFromHost_label_aux (b rest : string) :
  b <> EmptyString ->
  ~ In "."%char (list_ascii_of_string b) ->
  ~ In ":"%char (list_ascii_of_string b) ->
  Middleware.HasPrefix b "[" = false ->
  bucketFromHost (b ++ String "." rest) = b.
Proof.
  intros Hne Hdot Hcolon Hbr. unfold bucketFromHost.
  assert (String.eqb (b ++ String "." rest) EmptyString = false) as ->.
  { apply String.eqb_neq. destruct b; [contradiction | discriminate]. }
  assert (String.eqb b EmptyString = false) as Hb by (by apply String.eqb_neq).
  assert (forall x, match Split (b ++ String "." x) "." with
                    | [] => EmptyString
                    | candidate :: _ =>
                        if String.eqb candidate EmptyString then EmptyString
                        else candidate
                    end = b) as Hsplit.
  { intros x. rewrite (Split_app b x "." Hdot). by rewrite Hb. }
  destruct (Contains (b ++ String "." rest) ":"); [|apply Hsplit].
  destruct (SplitHostPort (b ++ String "." rest)) as [[hostname port]|] eqn:S;
    [|apply Hsplit].
  destruct (clean_host_keeps_label b rest Hne Hcolon Hbr hostname port S)
    as [rest' ->].
  apply Hsplit.
Qed.

Lemma IndexByte_notin (s : string) (c : ascii) :
  ~ In c (list_ascii_of_string s) -> IndexByte s c = None.
Proof.
  induction s as [|x s IH]; cbn [IndexByte list_ascii_of_string In]; [reflexivity|].
  intros Hno. destruct (Ascii.eqb x c) eqn:E.
  - apply Ascii.eqb_eq in E. exfalso. apply Hno. by left.
  - rewrite IH; [reflexivity|]. intros H. apply Hno. by right.
Qed.

Lemma Split_no_sep (s : string) (sep : ascii) :
  ~ In sep (list_ascii_of_string s) -> Split s sep = [s].
Proof.
  induction s as [|x s IH]; cbn [Split list_ascii_of_string In]; [reflexivity|].
  intros Hno. destruct (Ascii.eqb x sep) eqn:E.
  - apply Ascii.eqb_eq in E. exfalso. apply Hno. by left.
  - rewrite IH; [reflexivity|]. intros H. apply Hno. by right.
Qed.

(** Virtual-host addressing: the bucket read off a host name that begins
    with a label and a dot is that label, with or without a port and
    whatever follows the dot, and a host that is a bare label names that
    bucket. The label is not empty, holds no dot and no colon and does not
    open a bracket. *)
Theorem bucketFromHost_label (b rest : string) :
  b <> EmptyString ->
  ~ In "."%char (list_ascii_of_string b) ->
  ~ In ":"%char (list_ascii_of_string b) ->
  Middleware.HasPrefix b "[" = false ->
  bucketFromHost (b ++ String "." rest) = b /\
  bucketFromHost b = b.
Proof.
  intros Hne Hdot Hcolon Hbr. split.
  - by apply bucketFromHost_label_aux.
  - unfold bucketFromHost, Contains.
    assert (String.eqb b EmptyString = false) as Hb by (by apply String.eqb_neq).
    rewrite Hb, (IndexByte_notin b ":" Hcolon), (Split_no_sep b "." Hdot).
    by rewrite Hb.
Qed.

Lemma bucketFromHost_label_witness :
  bucketFromHost ("photos" ++ String "." "s3.example.com:9000") = "photos"
  /\ bucketFromHost "photos" = "photos".
Proof.
  apply (bucketFromHost_label "photos" "s3.example.com:9000").
  - discriminate.
  - vm_compute. intuition discriminate.
  - vm_compute. intuition discriminate.
  - reflexivity.
Defined.

(** The bucket name read off a host never holds a dot: whatever the host
    header, only its first label is used. *)
Theorem bucketFromHost_has_no_dot (host : string) :
  ~ In "."%char (list_ascii_of_string (bucketFromHost host)).
Proof.
  unfold bucketFromHost.
  destruct (String.eqb host EmptyString); [intros []|].
  match goal with
  | |- context [Split ?s "."] =>
      destruct (Split_head s ".") as (piece & pieces & -> & Hno)
  end.
  destruct (String.eqb piece EmptyString); [intros [] | exact Hno].
Qed.

(** The middleware is idempotent: a request it has forwarded passes through
    it unchanged, so stacking it twice rewrites a path once. *)
Theorem virtualHostMiddleware_idempotent (h : S3Handler) (r : Request) :
  virtualHostMiddleware h (virtualHostMiddleware h r) = virtualHostMiddleware h r.
Proof.
  unfold virtualHostMiddleware at 2.
  destruct (negb (virtualHost h)) eqn:V.
  { unfold virtualHostMiddleware. by rewrite V. }
  cbv zeta.
  destruct (String.eqb (bucketFromHost (Host r)) EmptyString) eqn:B.
  { unfold virtualHostMiddleware. by rewrite V, B. }
  destruct (Middleware.HasPrefix (URL_Path r) ("/" ++ bucketFromHost (Host r))) eqn:P.
  { unfold virtualHostMiddleware. by rewrite V, B, P. }
  destruct (GetBucket (bucketManager h) (bucketFromHost (Host r))) eqn:G.
  2:{ unfold virtualHostMiddleware. by rewrite V, B, P, G. }
  unfold virtualHostMiddleware. rewrite V. cbn [Host URL_Path]. rewrite B.
  destruct (negb (String.eqb (URL_Path r) "/")).
  - by rewrite MiddlewareFacts.HasPrefix_app, P, G.
  - by rewrite HasPrefix_refl, P, G.
Qed.

(** A virtual-host request becomes a path-style request: with virtual hosts
    on, a request to [bucket.rest] for a registered bucket whose path does
    not already begin with [/bucket] is forwarded with the path
    [/bucket] followed by the original path ([/bucket] alone for the path
    [/]), the request URI set to the same, method and host as they were. *)
Theorem virtualHostMiddleware_path_style (h : S3Handler) (r : Request)
    (b rest : string) (info : BucketInfo) :
  virtualHost h = true ->
  b <> EmptyString ->
  ~ In "."%char (list_ascii_of_string b) ->
  ~ In ":"%char (list_ascii_of_string b) ->
  Middleware.HasPrefix b "[" = false ->
  Host r = b ++ String "." rest ->
  GetBucket (bucketManager h) b = Some info ->
  Middleware.HasPrefix (URL_Path r) ("/" ++ b) = false ->
  virtualHostMiddleware h r =
  {| Method := Method r; Host := Host r;
     URL_Path := if String.eqb (URL_Path r) "/" then "/" ++ b
                 else "/" ++ b ++ URL_Path r;
     RequestURI := if String.eqb (URL_Path r) "/" then "/" ++ b
                   else "/" ++ b ++ URL_Path r |}.
Proof.
  intros V Hne Hdot Hcolon Hbr HH G P. unfold virtualHostMiddleware.
  rewrite V, HH, (bucketFromHost_label_aux b rest Hne Hdot Hcolon Hbr).
  cbn [negb]. cbv zeta.
  assert (String.eqb b EmptyString = false) as -> by (by apply String.eqb_neq).
  rewrite P, G.
  destruct (String.eqb (URL_Path r) "/"); reflexivity.
Qed.

Lemma virtualHostMiddleware_path_style_witness :
  virtualHostMiddleware sample_s3handler sample_vhost_request =
  {| Method := "GET"; Host := "photos.s3.example.com:9000";
     URL_Path := "/photos/a.jpg"; RequestURI := "/photos/a.jpg" |}.
Proof.
  apply (virtualHostMiddleware_path_style sample_s3handler sample_vhost_request
           "photos" "s3.example.com:9000" photos).
  - reflexivity.
  - discriminate.
  - vm_compute. intuition discriminate.
  - vm_compute. intuition discriminate.
  - reflexivity.
  - reflexivity.
  - reflexivity.
  - reflexivity.
Defined.

End VirtualHostFacts.

(** * The health monitor *)

Module HealthFacts.

Import Health.

Section Monitor.

Context {T : Type} `{Target T}.

(** ** Ranging over a map *)

Lemma range_In {A : Type} (rt : MapRuntime) (m : gmap string A) (k : string) (v : A) :
  RangeContract rt -> In (k, v) (range rt m) <-> m !! k = Some v.
Proof.
  intros Hrt. rewrite <- elem_of_map_to_list, <- list_elem_of_In.
  by rewrite (Hrt A m).
Qed.

Lemma range_NoDup {A : Type} (rt : MapRuntime) (m : gmap string A) :
  RangeContract rt -> NoDup (List.map fst (range rt m)).
Proof.
  intros Hrt. rewrite (Permutation_map fst (Hrt A m)).
  exact (NoDup_fst_map_to_list m).
Qed.

Lemma range_keys {A : Type} (rt : MapRuntime) (m : gmap string A) (k : string) :
  RangeContract rt -> In k (List.map fst (range rt m)) <-> is_Some (m !! k).
Proof.
  intros Hrt. rewrite in_map_iff. split.
  - intros [[k' v] [<- Hin]]. apply (range_In rt m) in Hin; [eauto | exact Hrt].
  - intros [v Hv]. exists (k, v). split; [reflexivity|]. by apply range_In.
Qed.

Lemma NoDup_fst_unique {A : Type} (l : list (string * A)) (k : string) (v v' : A) :
  NoDup (List.map fst l) -> In (k, v) l -> In (k, v') l -> v = v'.
Proof.
  induction l as [|[k0 v0] l IH]; cbn [List.map In fst]; [intros _ []|].
  intros Hnd. apply NoDup_cons in Hnd as [Hk Hnd].
  intros [E|Hin] [E'|Hin']; [congruence | | | by auto].
  - injection E as -> ->. exfalso. apply Hk. apply list_elem_of_In.
    apply in_map_iff. by exists (k, v').
  - injection E' as -> ->. exfalso. apply Hk. apply list_elem_of_In.
    apply in_map_iff. by exists (k, v).
Qed.

Lemma filter_partition_NoDup {A : Type} (P : string * A -> bool)
    (l : list (string * A)) :
  NoDup (List.map fst l) ->
  NoDup (List.map fst (List.filter P l)
         ++ List.map fst (List.filter (fun e => negb (P e)) l)).
Proof.
  intros Hnd.
  apply (NoDup_Permutation_proper (List.map fst l)); [|exact Hnd].
  clear Hnd. induction l as [|e l IH]; cbn [List.filter List.map]; [reflexivity|].
  destruct (P e); cbn [negb List.map app].
  - by constructor.
  - rewrite IH. apply Permutation_middle.
Qed.

Lemma fold_insert_lookup_In (l : list (string * Status)) (acc : gmap string Status)
    (k : string) (v : Status) :
  NoDup (List.map fst l) -> In (k, v) l ->
  fold_left (fun result entry => <[fst entry := snd entry]> result) l acc !! k
  = Some v.
Proof.
  revert acc. induction l as [|[k0 v0] l IH]; intros acc Hnd; cbn [fold_left In fst snd List.map] in *;
    [intros []|].
  apply NoDup_cons in Hnd as [Hk Hnd]. intros [[= -> ->]|Hin].
  - clear IH. revert acc. induction l as [|[k1 v1] l IH]; intros acc; cbn [fold_left fst snd].
    + by rewrite lookup_insert_eq.
    + cbn [List.map fst] in Hk, Hnd. apply not_elem_of_cons in Hk as [Hne Hk].
      apply NoDup_cons in Hnd as [_ Hnd].
      rewrite insert_insert_ne by done. by apply IH.
  - by apply IH.
Qed.

Lemma fold_insert_lookup_notin (l : list (string * Status)) (acc : gmap string Status)
    (k : string) :
  ~ In k (List.map fst l) ->
  fold_left (fun result entry => <[fst entry := snd entry]> result) l acc !! k
  = acc !! k.
Proof.
  revert acc. induction l as [|[k0 v0] l IH]; intros acc Hk; cbn [fold_left fst snd List.map In] in *;
    [reflexivity|].
  rewrite IH by tauto. apply lookup_insert_ne. tauto.
Qed.

(** ** Reading the statuses out *)

Lemma GetHealthyTargets_In (rt : MapRuntime) (m : Monitor T) (id : string) :
  RangeContract rt ->
  In id (GetHealthyTargets rt m) <-> IsHealthy m id = true.
Proof.
  intros Hrt. unfold GetHealthyTargets, IsHealthy, GetStatus.
  rewrite in_map_iff. split.
  - intros [[k v] [<- Hin]]. apply List.filter_In in Hin as [Hin Hv].
    apply (range_In rt) in Hin; [|exact Hrt]. cbn [fst snd] in *. by rewrite Hin.
  - destruct (statuses m !! id) as [v|] eqn:E; [|discriminate].
    intros Hv. exists (id, v). split; [reflexivity|].
    apply List.filter_In. split; [by apply range_In | exact Hv].
Qed.

Lemma GetUnhealthyTargets_In (rt : MapRuntime) (m : Monitor T) (id : string) :
  RangeContract rt ->
  In id (GetUnhealthyTargets rt m) <->
  exists status, GetStatus m id = Some status /\ Healthy status = false.
Proof.
  intros Hrt. unfold GetUnhealthyTargets, GetStatus.
  rewrite in_map_iff. split.
  - intros [[k v] [<- Hin]]. apply List.filter_In in Hin as [Hin Hv].
    apply (range_In rt) in Hin; [|exact Hrt]. cbn [fst snd] in *.
    exists v. split; [exact Hin | by apply negb_true_iff].
  - intros [v [Hv Hh]]. exists (id, v). split; [reflexivity|].
    apply List.filter_In. split; [by apply range_In|].
    cbn [snd]. by rewrite Hh.
Qed.

Lemma GetAllStatuses_lookup (rt : MapRuntime) (m : Monitor T) (id : string) :
  RangeContract rt -> GetAllStatuses rt m !! id = GetStatus m id.
Proof.
  intros Hrt. unfold GetAllStatuses, GetStatus.
  destruct (statuses m !! id) as [v|] eqn:E.
  - apply fold_insert_lookup_In; [by apply range_NoDup | by apply range_In].
  - rewrite fold_insert_lookup_notin; [apply lookup_empty|].
    rewrite (range_keys rt (statuses m) id Hrt), E. by intros [? ?].
Qed.

(** The read-out methods agree with [GetStatus], in whatever order the
    statuses are ranged over: [GetHealthyTargets] lists exactly the targets
    [IsHealthy] accepts, [GetUnhealthyTargets] exactly those with a status
    that is not healthy, no target is listed twice or in both lists, and
    [GetAllStatuses] is a copy that answers every lookup as [GetStatus]
    does. *)
Theorem Monitor_readouts_agree (rt : MapRuntime) (m : Monitor T) :
  RangeContract rt ->
  (forall id, In id (GetHealthyTargets rt m) <-> IsHealthy m id = true) /\
  (forall id, In id (GetUnhealthyTargets rt m) <->
              exists status, GetStatus m id = Some status /\ Healthy status = false) /\
  NoDup (GetHealthyTargets rt m ++ GetUnhealthyTargets rt m) /\
  (forall id, GetAllStatuses rt m !! id = GetStatus m id).
Proof.
  intros Hrt. split; [|split; [|split]].
  - intros id. by apply GetHealthyTargets_In.
  - intros id. by apply GetUnhealthyTargets_In.
  - apply filter_partition_NoDup. by apply range_NoDup.
  - intros id. by apply GetAllStatuses_lookup.
Qed.

(** ** One round of checks *)

Lemma omap_insert_same {A B : Type} (f : A -> option B) (l : list A) (i : nat)
    (x x' : A) :
  l !! i = Some x -> f x' = f x -> omap f (<[i := x']> l) = omap f l.
Proof.
  revert i. induction l as [|y l IH]; intros [|i]; cbn; try discriminate.
  - intros [= ->] ->. reflexivity.
  - intros Hl Hf. destruct (f y); [f_equal|]; by apply IH.
Qed.

Lemma omap_insert_new {A B : Type} (f : A -> option B) (l : list A) (i : nat)
    (x x' : A) (r : B) :
  l !! i = Some x -> f x = None -> f x' = Some r ->
  Permutation (omap f (<[i := x']> l)) (r :: omap f l).
Proof.
  revert i. induction l as [|y l IH]; intros [|i]; cbn; try discriminate.
  - intros [= ->] -> ->. reflexivity.
  - intros Hl Hx Hx'. destruct (f y) as [z|]; [|by apply IH].
    etransitivity; [apply perm_skip, (IH i Hl Hx Hx') | apply perm_swap].
Qed.

Lemma map_insert_same {A B : Type} (f : A -> B) (l : list A) (i : nat) (x x' : A) :
  l !! i = Some x -> f x' = f x -> List.map f (<[i := x']> l) = List.map f l.
Proof.
  revert i. induction l as [|y l IH]; intros [|i]; cbn; try discriminate.
  - intros [= ->] ->. reflexivity.
  - intros Hl Hf. f_equal. by apply IH.
Qed.

Lemma goroutine_target_In (gs : list (goroutine T)) (i : nat) (g : goroutine T) :
  gs !! i = Some g -> In (probe_target g) (List.map probe_target gs).
Proof.
  intros Hg. apply in_map. apply list_elem_of_In. eapply list_elem_of_lookup_2. exact Hg.
Qed.

(** A step of any goroutine keeps the invariant. *)
Lemma step_checkTarget_inv (probe : T -> Status) (m0 m : Monitor T) (ts : list T)
    (reports : list report) (gs : list (goroutine T)) (i : nat) (g : goroutine T) :
  (forall t, In t ts -> targets m0 !! GetID t = Some t) ->
  checkAll_inv probe m0 ts (m, reports, gs) ->
  gs !! i = Some g ->
  checkAll_inv probe m0 ts
    (fst (fst (step_checkTarget probe m g)),
     reports ++ snd (fst (step_checkTarget probe m g)),
     <[i := snd (step_checkTarget probe m g)]> gs).
Proof.
  intros Hts (Ht & Hr & Hi & Hmap & Hrep & Hst & Hout & Hperm) Hg.
  assert (forall j g', gs !! j = Some g' ->
            targets m0 !! GetID (probe_target g') = Some (probe_target g')) as Hkey.
  { intros j g' Hg'. apply Hts. rewrite <- Hmap. eapply goroutine_target_In; eauto. }
  assert (i < List.length gs)%nat as Hlt by (eapply lookup_lt_Some; eauto).
  unfold step_checkTarget. destruct (probe_stage g) as [|s|] eqn:Stage; cbn [fst snd].
  - (* the store *)
    repeat split; cbn [targets reporter interval statuses]; auto.
    + erewrite map_insert_same; eauto.
    + intros j g' s Hj. destruct (decide (j = i)) as [->|Hne].
      * rewrite list_lookup_insert_eq in Hj by exact Hlt. injection Hj as <-.
        cbn. by intros [= <-].
      * rewrite list_lookup_insert_ne in Hj by done. eauto.
    + intros j g' Hj Hs. destruct (decide (j = i)) as [->|Hne].
      * rewrite list_lookup_insert_eq in Hj by exact Hlt. injection Hj as <-.
        cbn. by rewrite lookup_insert_eq.
      * rewrite list_lookup_insert_ne in Hj by done.
        destruct (decide (GetID (probe_target g) = GetID (probe_target g'))) as [E|E].
        -- pose proof (Hkey _ _ Hg) as K1. pose proof (Hkey _ _ Hj) as K2.
           rewrite E in K1. rewrite K1 in K2. injection K2 as K2.
           rewrite E, <- K2. by rewrite lookup_insert_eq.
        -- rewrite lookup_insert_ne by done. eauto.
    + intros id Hid. rewrite lookup_insert_ne; [by apply Hout|].
      intros <-. rewrite (Hkey _ _ Hg) in Hid. discriminate.
    + rewrite app_nil_r. destruct (reporter m0); [|exact Hperm].
      erewrite omap_insert_same; eauto.
      unfold report_of. cbn. by rewrite Stage.
  - (* the report *)
    repeat split; auto.
    + erewrite map_insert_same; eauto.
    + intros j g' s' Hj. destruct (decide (j = i)) as [->|Hne].
      * rewrite list_lookup_insert_eq in Hj by exact Hlt. injection Hj as <-.
        cbn. discriminate.
      * rewrite list_lookup_insert_ne in Hj by done. eauto.
    + intros j g' Hj Hs. destruct (decide (j = i)) as [->|Hne].
      * rewrite list_lookup_insert_eq in Hj by exact Hlt. injection Hj as <-.
        cbn. apply (Hst i g Hg). rewrite Stage. discriminate.
      * rewrite list_lookup_insert_ne in Hj by done. eauto.
    + rewrite Hr. destruct (reporter m0).
      * rewrite (omap_insert_new (report_of probe) gs i g _
                   (GetID (probe_target g), probe (probe_target g)) Hg).
        -- rewrite (Hrep i g s Hg Stage), Hperm.
           symmetry. apply Permutation_cons_append.
        -- unfold report_of. by rewrite Stage.
        -- reflexivity.
      * by rewrite app_nil_r.
  - (* finished already *)
    rewrite app_nil_r, list_insert_id by exact Hg.
    repeat split; auto.
Qed.

Lemma run_goroutines_inv (probe : T -> Status) (m0 : Monitor T) (ts : list T)
    (schedule : list nat) (m : Monitor T) (reports : list report)
    (gs : list (goroutine T)) :
  (forall t, In t ts -> targets m0 !! GetID t = Some t) ->
  checkAll_inv probe m0 ts (m, reports, gs) ->
  checkAll_inv probe m0 ts (run_goroutines probe schedule m reports gs).
Proof.
  intros Hts. revert m reports gs.
  induction schedule as [|i schedule IH]; intros m reports gs Hinv;
    cbn [run_goroutines]; [exact Hinv|].
  destruct (gs !! i) as [g|] eqn:Hg; [|by apply IH].
  pose proof (step_checkTarget_inv probe m0 m ts reports gs i g Hts Hinv Hg) as Hstep.
  destruct (step_checkTarget probe m g) as [[m' rs] g']. cbn [fst snd] in Hstep.
  by apply IH.
Qed.

(** Every goroutine gets to its end: the schedule that runs them one after
    the other finishes them all. *)
Lemma run_goroutines_app (probe : T -> Status) (s1 s2 : list nat) (m : Monitor T)
    (reports : list report) (gs : list (goroutine T)) :
  run_goroutines probe (s1 ++ s2) m reports gs =
  let '(m', reports', gs') := run_goroutines probe s1 m reports gs in
  run_goroutines probe s2 m' reports' gs'.
Proof.
  revert m reports gs. induction s1 as [|i s1 IH]; intros m reports gs;
    cbn [app run_goroutines]; [reflexivity|].
  destruct (gs !! i) as [g|]; [|apply IH].
  destruct (step_checkTarget probe m g) as [[m' rs] g']. apply IH.
Qed.

Lemma run_goroutines_length (probe : T -> Status) (schedule : list nat)
    (m : Monitor T) (reports : list report) (gs : list (goroutine T)) :
  List.length (snd (run_goroutines probe schedule m reports gs)) = List.length gs.
Proof.
  revert m reports gs. induction schedule as [|i schedule IH]; intros m reports gs;
    cbn [run_goroutines]; [reflexivity|].
  destruct (gs !! i) as [g|]; [|apply IH].
  destruct (step_checkTarget probe m g) as [[m' rs] g'].
  rewrite IH. apply length_insert.
Qed.

Lemma finished_stays (probe : T -> Status) (schedule : list nat)
    (m : Monitor T) (reports : list report) (gs : list (goroutine T))
    (i : nat) (g : goroutine T) :
  gs !! i = Some g -> is_Finished g = true ->
  snd (run_goroutines probe schedule m reports gs) !! i = Some g.
Proof.
  revert m reports gs. induction schedule as [|j schedule IH]; intros m reports gs Hg Hf;
    cbn [run_goroutines]; [exact Hg|].
  destruct (gs !! j) as [g0|] eqn:Hj; [|by apply IH].
  destruct (step_checkTarget probe m g0) as [[m' rs] g'] eqn:Hstep.
  apply IH; [|exact Hf].
  destruct (decide (i = j)) as [->|Hne].
  - rewrite Hg in Hj. injection Hj as <-.
    unfold step_checkTarget, is_Finished in *.
    destruct (probe_stage g); try discriminate.
    injection Hstep as _ _ <-. by rewrite list_insert_id.
  - by rewrite list_lookup_insert_ne.
Qed.

Lemma two_steps_finish (probe : T -> Status) (m : Monitor T)
    (reports : list report) (gs : list (goroutine T)) (i : nat) (g : goroutine T) :
  gs !! i = Some g ->
  exists g', snd (run_goroutines probe [i; i] m reports gs) !! i = Some g' /\
             is_Finished g' = true.
Proof.
  intros Hg. assert (i < List.length gs)%nat as Hlt by (eapply lookup_lt_Some; eauto).
  cbn [run_goroutines]. rewrite Hg.
  unfold step_checkTarget at 1. destruct (probe_stage g) eqn:Stage.
  - rewrite list_lookup_insert_eq by exact Hlt. cbn [step_checkTarget probe_stage snd].
    eexists. split; [apply list_lookup_insert_eq; by rewrite length_insert | reflexivity].
  - rewrite list_lookup_insert_eq by exact Hlt. cbn [step_checkTarget probe_stage snd].
    eexists. split; [apply list_lookup_insert_eq; by rewrite length_insert | reflexivity].
  - rewrite list_lookup_insert_eq by exact Hlt.
    unfold step_checkTarget. rewrite Stage. cbn [snd].
    exists g. split; [|unfold is_Finished; by rewrite Stage].
    rewrite !list_insert_id; auto. by rewrite list_insert_id.
Qed.

Lemma one_by_one_finishes (probe : T -> Status) (idxs : list nat) (m : Monitor T)
    (reports : list report) (gs : list (goroutine T)) (i : nat) :
  In i idxs -> (i < List.length gs)%nat ->
  exists g',
    snd (run_goroutines probe (flat_map (fun i => [i; i]) idxs) m reports gs) !! i
    = Some g' /\ is_Finished g' = true.
Proof.
  revert m reports gs. induction idxs as [|j idxs IH]; intros m reports gs Hin Hlt;
    [destruct Hin|].
  cbn [flat_map]. rewrite run_goroutines_app.
  pose proof (run_goroutines_length probe [j; j] m reports gs) as Hlen.
  destruct (decide (i = j)) as [->|Hne].
  - destruct (lookup_lt_is_Some_2 gs j Hlt) as [g Hg].
    destruct (two_steps_finish probe m reports gs j g Hg) as [g' [Hg' Hf]].
    destruct (run_goroutines probe [j; j] m reports gs) as [[m' reports'] gs'].
    cbn [snd] in *. exists g'. split; [|exact Hf]. by apply finished_stays.
  - destruct Hin as [->|Hin]; [contradiction|].
    destruct (run_goroutines probe [j; j] m reports gs) as [[m' reports'] gs'].
    cbn [snd] in Hlen. apply IH; [exact Hin | lia].
Qed.

Lemma omap_report_of_AtStore (probe : T -> Status) (ts : list T) :
  omap (report_of probe)
    (List.map (fun t => {| probe_target := t; probe_stage := AtStore |}) ts) = [].
Proof. induction ts as [|t ts IH]; [reflexivity | exact IH]. Qed.

Lemma omap_report_of_Finished (probe : T -> Status) (gs : list (goroutine T)) :
  forallb is_Finished gs = true ->
  omap (report_of probe) gs
  = List.map (fun t => (GetID t, probe t)) (List.map probe_target gs).
Proof.
  induction gs as [|g gs IH]; cbn [forallb]; [reflexivity|].
  intros Hall. apply andb_true_iff in Hall as [Hg Hall].
  cbn [List.map]. rewrite <- (IH Hall).
  unfold is_Finished in Hg. cbn. unfold report_of.
  by destruct (probe_stage g).
Qed.

(** What [checkAll] leaves behind when it returns. *)
Lemma checkAll_result (rt : MapRuntime) (probe : T -> Status)
    (m : Monitor T) (schedule : list nat) (m' : Monitor T) (reports : list report) :
  RangeContract rt -> keyed_by_ID m ->
  checkAll rt probe schedule m = Some (m', reports) ->
  targets m' = targets m /\ reporter m' = reporter m /\
  (forall id t, targets m !! id = Some t -> GetStatus m' id = Some (probe t)) /\
  (forall id, targets m !! id = None -> GetStatus m' id = GetStatus m id) /\
  Permutation reports
    (if reporter m
     then List.map (fun e => (fst e, probe (snd e))) (map_to_list (targets m))
     else []).
Proof.
  intros Hrt Hkey. unfold checkAll.
  set (ts := List.map snd (range rt (targets m))).
  set (gs0 := List.map (fun t => {| probe_target := t; probe_stage := AtStore |}) ts).
  assert (forall t, In t ts -> targets m !! GetID t = Some t) as Hts.
  { intros t Ht. apply in_map_iff in Ht as [[k t'] [<- Hin]].
    apply (range_In rt) in Hin; [|exact Hrt]. cbn [snd].
    by rewrite (Hkey k t' Hin). }
  assert (checkAll_inv probe m ts (m, [], gs0)) as Hinv0.
  { repeat split; auto.
    - subst gs0. rewrite List.map_map. cbn [probe_target]. apply List.map_id.
    - intros i g s Hg Hs. subst gs0.
      apply list_elem_of_lookup_2, list_elem_of_In, in_map_iff in Hg as [t [<- _]].
      discriminate.
    - intros i g Hg Hs. subst gs0.
      apply list_elem_of_lookup_2, list_elem_of_In, in_map_iff in Hg as [t [<- _]].
      contradiction.
    - subst gs0. rewrite omap_report_of_AtStore. by destruct (reporter m). }
  pose proof (run_goroutines_inv probe m ts schedule m [] gs0 Hts Hinv0) as Hinv.
  destruct (run_goroutines probe schedule m [] gs0) as [[m1 reports1] gs1].
  destruct (forallb is_Finished gs1) eqn:Hall; [|discriminate].
  intros [= <- <-].
  destruct Hinv as (Ht & Hr & Hi & Hmap & Hrep & Hst & Hout & Hperm).
  split; [exact Ht|]. split; [exact Hr|]. split; [|split; [exact Hout|]].
  + intros id t Hid. unfold GetStatus.
    assert (In t ts) as Hin.
    { apply in_map_iff. exists (id, t). split; [reflexivity | by apply range_In]. }
    rewrite <- Hmap in Hin. apply in_map_iff in Hin as [g [<- Hg]].
    apply list_elem_of_In, list_elem_of_lookup_1 in Hg as [i Hi'].
    rewrite <- (Hkey id _ Hid). apply (Hst i g Hi').
    rewrite forallb_forall in Hall.
    specialize (Hall g (proj1 (list_elem_of_In _ _) (list_elem_of_lookup_2 _ _ _ Hi'))).
    unfold is_Finished in Hall. intros E. by rewrite E in Hall.
  + rewrite Hperm. destruct (reporter m); [|reflexivity].
    rewrite (omap_report_of_Finished probe gs1 Hall), Hmap. subst ts.
    rewrite List.map_map.
    rewrite (Permutation_map _ (Hrt T (targets m))).
    apply Permutation_refl'. apply List.map_ext_in.
    intros [k t] Hin. apply list_elem_of_In, elem_of_map_to_list in Hin.
    cbn [fst snd]. by rewrite (Hkey k t Hin).
Qed.

(** Every goroutine can be run to its end. *)
Lemma checkAll_one_by_one (rt : MapRuntime) (probe : T -> Status) (m : Monitor T) :
  RangeContract rt ->
  is_Some (checkAll rt probe (one_by_one (size (targets m))) m).
Proof.
  intros Hrt. unfold checkAll.
  set (ts := List.map snd (range rt (targets m))).
  set (gs0 := List.map (fun t => {| probe_target := t; probe_stage := AtStore |}) ts).
  assert (forallb is_Finished
            (snd (run_goroutines probe (one_by_one (size (targets m))) m [] gs0))
          = true) as Hall.
  { apply forallb_forall. intros g Hg.
    apply list_elem_of_In, list_elem_of_lookup_1 in Hg as [i Hi].
    assert (i < List.length gs0)%nat as Hlt.
    { rewrite <- (run_goroutines_length probe (one_by_one (size (targets m))) m [] gs0).
      eapply lookup_lt_Some; eauto. }
    destruct (one_by_one_finishes probe (seq 0 (size (targets m))) m [] gs0 i)
      as [g' [Hg' Hf]]; [|exact Hlt|].
    + apply in_seq. split; [lia|]. cbn.
      subst gs0 ts. rewrite !length_map in Hlt.
      rewrite (Permutation_length (Hrt T (targets m))) in Hlt.
      by rewrite length_map_to_list in Hlt.
    + unfold one_by_one in Hi. rewrite Hi in Hg'. by injection Hg' as ->. }
  destruct (run_goroutines probe (one_by_one (size (targets m))) m [] gs0)
    as [[m' reports] gs'].
  cbn [snd] in Hall. rewrite Hall. eauto.
Qed.

(** ** The monitor's invariants *)

Lemma keyed_NewMonitor (checker_interval : Z) (has_reporter : bool) :
  keyed_by_ID (NewMonitor (T := T) checker_interval has_reporter).
Proof. intros id t. cbn. by rewrite lookup_empty. Qed.

Lemma keyed_RegisterTarget (m : Monitor T) (target : T) :
  keyed_by_ID m -> keyed_by_ID (RegisterTarget m target).
Proof.
  intros Hkey id t. cbn [RegisterTarget targets].
  destruct (decide (GetID target = id)) as [<-|Hne].
  - rewrite lookup_insert_eq. by intros [= <-].
  - rewrite lookup_insert_ne by done. apply Hkey.
Qed.

Lemma keyed_UnregisterTarget (m : Monitor T) (targetID : string) :
  keyed_by_ID m -> keyed_by_ID (UnregisterTarget m targetID).
Proof.
  intros Hkey id t. cbn [UnregisterTarget targets].
  intros Hl. apply lookup_delete_Some in Hl as [_ Hl]. by apply Hkey.
Qed.

(** One round of checks, however the goroutines interleave: [checkAll]
    returns (a schedule that finishes every goroutine exists: one after the
    other), and when it returns every registered target has the status its
    probe gave, statuses of other IDs are as they were, the targets are
    untouched, and the reporter, if there is one, has been told each
    target's result exactly once. Targets are stored under their own ID. *)
Theorem checkAll_checks_every_target (rt : MapRuntime) (probe : T -> Status)
    (m : Monitor T) :
  RangeContract rt -> keyed_by_ID m ->
  is_Some (checkAll rt probe (one_by_one (size (targets m))) m) /\
  forall schedule m' reports,
    checkAll rt probe schedule m = Some (m', reports) ->
    targets m' = targets m /\
    (forall id t, targets m !! id = Some t -> GetStatus m' id = Some (probe t)) /\
    (forall id, targets m !! id = None -> GetStatus m' id = GetStatus m id) /\
    Permutation reports
      (if reporter m
       then List.map (fun e => (fst e, probe (snd e))) (map_to_list (targets m))
       else []).
Proof.
  intros Hrt Hkey. split; [by apply checkAll_one_by_one|].
  intros schedule m' reports Hcheck.
  destruct (checkAll_result rt probe m schedule m' reports Hrt Hkey Hcheck)
    as (Ht & _ & Hin & Hout & Hperm).
  auto.
Qed.

(** Calls made one after the other keep the two maps in step: in every
    monitor reached from [NewMonitor] by [RegisterTarget],
    [UnregisterTarget] and [checkAll], each target is stored under its own
    ID and every ID that has a status is a registered target. *)
Theorem reachable_statuses_have_targets (m : Monitor T) :
  reachable m ->
  keyed_by_ID m /\
  forall id, is_Some (GetStatus m id) -> is_Some (targets m !! id).
Proof.
  induction 1 as [checker_interval has_reporter|m m' _ [Hkey Hsub] Hstep].
  - split; [apply keyed_NewMonitor|]. intros id [s Hs].
    unfold GetStatus in Hs. cbn [NewMonitor statuses] in Hs.
    by rewrite lookup_empty in Hs.
  - destruct Hstep as [m target|m targetID|rt probe schedule m m' reports Hrt Hcheck].
    + split; [by apply keyed_RegisterTarget|]. intros id Hs.
      cbn [RegisterTarget targets]. unfold GetStatus in *. cbn [RegisterTarget statuses] in Hs.
      destruct (decide (GetID target = id)) as [<-|Hne].
      * rewrite lookup_insert_eq. eauto.
      * rewrite lookup_insert_ne by done. by apply Hsub.
    + split; [by apply keyed_UnregisterTarget|]. intros id [s Hs].
      unfold GetStatus in *. cbn [UnregisterTarget targets statuses] in *.
      apply lookup_delete_Some in Hs as [Hne Hs].
      rewrite lookup_delete_ne by done. apply Hsub. eauto.
    + destruct (checkAll_result rt probe m schedule m' reports Hrt Hkey Hcheck)
        as (Ht & _ & Hin & Hout & _).
      split.
      * intros id t. rewrite Ht. apply Hkey.
      * intros id Hs. rewrite Ht.
        destruct (targets m !! id) as [t|] eqn:E; [eauto|].
        rewrite <- E. apply Hsub. by rewrite <- (Hout id E).
Qed.

End Monitor.

Lemma listing_runtime_RangeContract : RangeContract listing_runtime.
Proof. intros A m. reflexivity. Qed.

Lemma sample_monitor_keyed : keyed_by_ID sample_monitor.
Proof. apply keyed_RegisterTarget, keyed_RegisterTarget, keyed_NewMonitor. Qed.

Lemma sample_monitor_reachable : reachable sample_monitor.
Proof.
  unfold sample_monitor.
  eapply reachable_step; [eapply reachable_step; [apply reachable_new|]|];
    apply step_RegisterTarget.
Qed.

Lemma Monitor_readouts_agree_witness :
  (forall id, In id (GetHealthyTargets listing_runtime checked_monitor) <->
              IsHealthy checked_monitor id = true) /\
  (forall id, In id (GetUnhealthyTargets listing_runtime checked_monitor) <->
              exists status, GetStatus checked_monitor id = Some status /\
                             Healthy status = false) /\
  NoDup (GetHealthyTargets listing_runtime checked_monitor
         ++ GetUnhealthyTargets listing_runtime checked_monitor) /\
  (forall id, GetAllStatuses listing_runtime checked_monitor !! id
              = GetStatus checked_monitor id).
Proof.
  apply (Monitor_readouts_agree listing_runtime checked_monitor).
  apply listing_runtime_RangeContract.
Defined.

Lemma checkAll_checks_every_target_witness :
  is_Some (checkAll listing_runtime sample_probe
             (one_by_one (size (targets sample_monitor))) sample_monitor) /\
  forall schedule m' reports,
    checkAll listing_runtime sample_probe schedule sample_monitor = Some (m', reports) ->
    targets m' = targets sample_monitor /\
    (forall id t, targets sample_monitor !! id = Some t ->
                  GetStatus m' id = Some (sample_probe t)) /\
    (forall id, targets sample_monitor !! id = None ->
                GetStatus m' id = GetStatus sample_monitor id) /\
    Permutation reports
      (if reporter sample_monitor
       then List.map (fun e => (fst e, sample_probe (snd e)))
              (map_to_list (targets sample_monitor))
       else []).
Proof.
  apply (checkAll_checks_every_target listing_runtime sample_probe sample_monitor).
  - apply listing_runtime_RangeContract.
  - apply sample_monitor_keyed.
Defined.

Lemma reachable_statuses_have_targets_witness :
  keyed_by_ID checked_monitor /\
  forall id, is_Some (GetStatus checked_monitor id) ->
             is_Some (targets checked_monitor !! id).
Proof.
  apply (reachable_statuses_have_targets checked_monitor).
  eapply reachable_step; [apply sample_monitor_reachable|].
  apply (step_checkAll listing_runtime sample_probe [0; 1; 0; 1]%nat
           sample_monitor checked_monitor
           [("A"%string, sample_probe bucketA); ("B"%string, sample_probe bucketB)]).
  - apply listing_runtime_RangeContract.
  - vm_compute. reflexivity.
Defined.

(** The round of the example: the probe finds [A] healthy and [B] not. *)
Example checked_monitor_lists :
  GetHealthyTargets listing_runtime checked_monitor = ["A"%string] /\
  GetUnhealthyTargets listing_runtime checked_monitor = ["B"%string].
Proof. split; vm_compute; reflexivity. Qed.

End HealthFacts.

(** * The presign handlers *)

Module PresignFacts.

Import Presign.

(** Either handler answers a malformed request with a 400 and leaves the
    state alone, or goes on to place the object. *)
Lemma handlePresignUpload_cases (rt : Runtime) (w : World) (s s' : Server)
    (resp : Response) :
  handlePresignUpload rt w s = Some (s', resp) ->
  (s' = s /\ status_code resp = StatusBadRequest) \/
  exists req, decoded_upload w = Some req /\ Key req <> EmptyString /\
              placement rt w s (Key req) (Size req) s' resp.
Proof.
  unfold handlePresignUpload.
  destruct (decoded_upload w) as [req|]; [|intros [= <- <-]; by left].
  destruct (String.eqb_spec (Key req) EmptyString) as [E|E];
    [intros [= <- <-]; by left|].
  intros Hres. right. exists req. split; [reflexivity|]. split; [exact E|].
  unfold placement.
  destruct (Balancer_SelectBucket rt (balancer_of s) (Key req) (Size req))
    as [b' r] eqn:Sel.
  exists b', r. split; [reflexivity|].
  destruct r as [bucket| |e|]; try discriminate.
  - destruct (presigner_ok w bucket (Key req)); cbn [negb] in Hres;
      injection Hres as <- <-; cbn; auto.
  - injection Hres as <- <-. cbn. auto.
Qed.

Lemma handlePresignMultipart_cases (rt : Runtime) (w : World) (s s' : Server)
    (resp : Response) :
  handlePresignMultipart rt w s = Some (s', resp) ->
  (s' = s /\ status_code resp = StatusBadRequest) \/
  exists req, decoded_multipart w = Some req /\
              multipart_Key req <> EmptyString /\ 0 < PartCount req /\
              placement rt w s (multipart_Key req) (multipart_Size req) s' resp.
Proof.
  unfold handlePresignMultipart.
  destruct (decoded_multipart w) as [req|]; [|intros [= <- <-]; by left].
  destruct (String.eqb_spec (multipart_Key req) EmptyString) as [E|E];
    [intros [= <- <-]; by left|].
  destruct (PartCount req <=? 0) eqn:P; [intros [= <- <-]; by left|].
  apply Z.leb_gt in P. cbn [orb].
  intros Hres. right. exists req. split; [reflexivity|]. split; [exact E|].
  split; [exact P|]. unfold placement.
  destruct (Balancer_SelectBucket rt (balancer_of s) (multipart_Key req)
              (multipart_Size req)) as [b' r] eqn:Sel.
  exists b', r. split; [reflexivity|].
  destruct r as [bucket| |e|]; try discriminate.
  - destruct (presigner_ok w bucket (multipart_Key req)); cbn [negb] in Hres;
      injection Hres as <- <-; cbn; auto.
  - injection Hres as <- <-. cbn. auto.
Qed.

Lemma placement_error_changes_nothing (rt : Runtime) (w : World) (s s' : Server)
    (key : string) (size : Z) (resp : Response) :
  placement rt w s key size s' resp ->
  status_code resp <> StatusOK ->
  registry s' = registry s /\ store s' = store s.
Proof.
  intros (b' & r & _ & _ & _ & Hr) Hne.
  destruct r as [bucket| |e|]; try contradiction.
  - destruct (presigner_ok w bucket key); destruct Hr as (? & ? & ?); [contradiction | auto].
  - destruct Hr as (? & ? & ?). auto.
Qed.

(** The presign handlers reserve nothing and record nothing unless they
    answer 200: after any other answer (a malformed request, a balancer
    error, a presigner error) the registry's usage figures and the
    placement store are as before. *)
Theorem presign_error_changes_nothing (rt : Runtime) (w : World) (s s' : Server)
    (resp : Response) :
  handlePresignUpload rt w s = Some (s', resp) \/
  handlePresignMultipart rt w s = Some (s', resp) ->
  status_code resp <> StatusOK ->
  registry s' = registry s /\ store s' = store s.
Proof.
  intros [Hres|Hres] Hne.
  - apply handlePresignUpload_cases in Hres as [[-> _]|(req & _ & _ & Hp)]; [auto|].
    eapply placement_error_changes_nothing; eauto.
  - apply handlePresignMultipart_cases in Hres as [[-> _]|(req & _ & _ & _ & Hp)]; [auto|].
    eapply placement_error_changes_nothing; eauto.
Qed.

(** ** Reservations *)

Lemma NoDup_names_eq (l : list BucketInfo) (b1 b2 : BucketInfo) :
  NoDup (List.map (fun b => Name (Config b)) l) -> In b1 l -> In b2 l ->
  Name (Config b1) = Name (Config b2) -> b1 = b2.
Proof.
  induction l as [|b l IH]; cbn [List.map In]; [intros _ []|].
  intros Hnd. apply NoDup_cons in Hnd as [Hb Hnd].
  intros [<-|H1] [<-|H2] Hn; auto.
  - exfalso. apply Hb. rewrite Hn. apply list_elem_of_In.
    by apply (in_map (fun b => Name (Config b))).
  - exfalso. apply Hb. rewrite <- Hn. apply list_elem_of_In.
    by apply (in_map (fun b => Name (Config b))).
Qed.

Lemma unique_names_eq (m : Manager) (b1 b2 : BucketInfo) :
  unique_names m -> In b1 (buckets m) -> In b2 (buckets m) ->
  Name (Config b1) = Name (Config b2) -> b1 = b2.
Proof. apply NoDup_names_eq. Qed.

Lemma UpdateUsedSize_names (m : Manager) (name : string) (delta : Z) :
  List.map (fun b => Name (Config b)) (buckets (UpdateUsedSize m name delta))
  = List.map (fun b => Name (Config b)) (buckets m).
Proof.
  unfold UpdateUsedSize. cbn [buckets]. rewrite List.map_map.
  apply List.map_ext. intros b.
  by destruct (String.eqb (Name (Config b)) name).
Qed.

Lemma BucketInfo_eta (b : BucketInfo) :
  {| Config := Config b; UsedSize := UsedSize b; Available := Available b |} = b.
Proof. by destruct b. Qed.

(** On a registry with unique names, [UpdateUsedSize] by the name of a
    record moves that record only. *)
Lemma UpdateUsedSize_In (m : Manager) (sel : BucketInfo) (delta : Z) (b' : BucketInfo) :
  unique_names m -> In sel (buckets m) ->
  In b' (buckets (UpdateUsedSize m (Name (Config sel)) delta)) ->
  (In b' (buckets m) /\ b' <> sel) \/
  b' = {| Config := Config sel; UsedSize := wrap_int64 (UsedSize sel + delta);
          Available := Available sel |}.
Proof.
  intros Hu Hsel. unfold UpdateUsedSize. cbn [buckets].
  intros Hin. apply in_map_iff in Hin as [b [<- Hb]].
  destruct (String.eqb_spec (Name (Config b)) (Name (Config sel))) as [E|E].
  - right. by rewrite (unique_names_eq m b sel Hu Hb Hsel E).
  - left. split; [exact Hb|]. intros ->. contradiction.
Qed.

Lemma placement_eligible (rt : Runtime) (s : Server) (key : string) (size : Z)
    (b' : Balancer) (bucket : BucketInfo) :
  SortContract rt ->
  Balancer_SelectBucket rt (balancer_of s) key size = (b', Selected bucket) ->
  In bucket (buckets (registry s)) /\ size <= GetAvailableSpace bucket.
Proof.
  intros Hsort Hsel.
  destruct (SelectBucket_returns_eligible rt _ _ _ _ _ Hsort Hsel)
    as (_ & Hav & Hsize & _).
  split; [|exact Hsize].
  unfold GetAvailableBuckets in Hav. cbn [balancer_of manager] in Hav.
  by apply List.filter_In in Hav as [? _].
Qed.

Lemma placement_keeps_usage (rt : Runtime) (w : World) (s s' : Server)
    (key : string) (size : Z) (resp : Response) :
  SortContract rt ->
  unique_names (registry s) -> usage_within_capacity (registry s) ->
  0 <= size ->
  placement rt w s key size s' resp ->
  unique_names (registry s') /\ usage_within_capacity (registry s').
Proof.
  intros Hsort Hu Hcap Hsize (b' & r & Hsel & _ & _ & Hr).
  destruct r as [bucket| |e|]; try contradiction.
  2:{ destruct Hr as (-> & _ & _). auto. }
  destruct (presigner_ok w bucket key); destruct Hr as (-> & _ & _); [|auto].
  destruct (placement_eligible rt s key size b' bucket Hsort Hsel) as [Hin Hroom].
  split.
  - unfold unique_names. by rewrite UpdateUsedSize_names.
  - intros x Hx.
    apply (UpdateUsedSize_In _ _ _ _ Hu Hin) in Hx as [[Hx _]| ->]; [by apply Hcap|].
    destruct (Hcap bucket Hin) as [[H0 H1] H2]. unfold GetAvailableSpace in Hroom.
    cbn [Config UsedSize].
    rewrite wrap_int64_id by (unfold min_int64, max_int64 in *; lia). lia.
Qed.

(** Requests served one after the other never oversubscribe a bucket: if
    every bucket's usage lies between zero and its capacity and names are
    unique, the same holds after a presign request for a size that is not
    negative, whatever the strategy and whatever the answer. *)
Theorem presign_keeps_usage_within_capacity (rt : Runtime) (w : World)
    (s s' : Server) (resp : Response) :
  SortContract rt ->
  unique_names (registry s) -> usage_within_capacity (registry s) ->
  (handlePresignUpload rt w s = Some (s', resp) /\
   forall req, decoded_upload w = Some req -> 0 <= Size req) \/
  (handlePresignMultipart rt w s = Some (s', resp) /\
   forall req, decoded_multipart w = Some req -> 0 <= multipart_Size req) ->
  unique_names (registry s') /\ usage_within_capacity (registry s').
Proof.
  intros Hsort Hu Hcap [[Hres Hsize]|[Hres Hsize]].
  - apply handlePresignUpload_cases in Hres as [[-> _]|(req & Hreq & _ & Hp)]; [auto|].
    eapply placement_keeps_usage; eauto.
  - apply handlePresignMultipart_cases in Hres as [[-> _]|(req & Hreq & _ & _ & Hp)]; [auto|].
    eapply placement_keeps_usage; eauto.
Qed.

(** ** An upload and its delete *)

Lemma GetBucket_UpdateUsedSize (m : Manager) (sel : BucketInfo) (delta : Z) :
  In sel (buckets m) ->
  is_Some (GetBucket (UpdateUsedSize m (Name (Config sel)) delta) (Name (Config sel))).
Proof.
  intros Hin. unfold GetBucket.
  destruct (List.find _ _) eqn:F; [eauto|].
  exfalso.
  pose proof (List.find_none _ _ F
                {| Config := Config sel; UsedSize := wrap_int64 (UsedSize sel + delta);
                   Available := Available sel |}) as Hnone.
  cbn [Config Name] in Hnone. rewrite String.eqb_refl in Hnone.
  assert (true = false) as Habs; [|discriminate].
  apply Hnone. unfold UpdateUsedSize. cbn [buckets]. apply in_map_iff. exists sel.
  split; [|exact Hin]. by rewrite String.eqb_refl.
Qed.

(** Adding a size to a record and taking it away again gives the registry
    back, when neither sum leaves the range of an [int64]. *)
Lemma UpdateUsedSize_undo (m : Manager) (sel : BucketInfo) (size : Z) :
  unique_names m -> In sel (buckets m) ->
  0 <= size -> 0 <= UsedSize sel -> UsedSize sel + size <= max_int64 ->
  UpdateUsedSize (UpdateUsedSize m (Name (Config sel)) size) (Name (Config sel))
    (wrap_int64 (- size)) = m.
Proof.
  intros Hu Hin H0 H1 H2. destruct m as [l]. unfold UpdateUsedSize. cbn [buckets] in *.
  f_equal. rewrite List.map_map. rewrite <- (List.map_id l) at 2.
  apply List.map_ext_in. intros b Hb.
  destruct (String.eqb_spec (Name (Config b)) (Name (Config sel))) as [E|E].
  - cbn [Config Name]. rewrite E, String.eqb_refl. cbn [UsedSize Available].
    rewrite (NoDup_names_eq l b sel Hu Hb Hin E).
    rewrite (wrap_int64_id (UsedSize sel + size))
      by (unfold min_int64, max_int64 in *; lia).
    rewrite (wrap_int64_id (- size)) by (unfold min_int64, max_int64 in *; lia).
    rewrite wrap_int64_id by (unfold min_int64, max_int64 in *; lia).
    replace (UsedSize sel + size + - size) with (UsedSize sel) by lia.
    apply BucketInfo_eta.
  - destruct (String.eqb_spec (Name (Config b)) (Name (Config sel))); [contradiction|].
    reflexivity.
Qed.

(** A delete undoes the upload it follows: after [handlePresignUpload] has
    answered 200 for a key and the store took the record,
    [handleDeleteObject] for that key answers 200, gives every bucket the
    usage it had before the upload and removes the record. The registry
    has unique names and sound usage figures, the size is not negative,
    and no other request comes in between. *)
Theorem upload_then_delete_restores_usage (rt : Runtime) (w : World)
    (s s1 : Server) (resp : Response) (req : PresignUploadRequest) :
  SortContract rt ->
  unique_names (registry s) -> usage_within_capacity (registry s) ->
  decoded_upload w = Some req -> 0 <= Size req -> RecordObject_ok w = true ->
  handlePresignUpload rt w s = Some (s1, resp) -> status_code resp = StatusOK ->
  exists h2,
    handleDeleteObject (handler_of s1) (Key req)
    = (h2, {| status := StatusOK;
              payload := MessageBody "object deleted successfully" |}) /\
    bucketManager h2 = registry s /\
    storage h2 = delete (Key req) (store s).
Proof.
  intros Hsort Hu Hcap Hreq Hsize Hrec Hres Hok.
  apply handlePresignUpload_cases in Hres as [[_ Hbad]|(req' & Hreq' & _ & Hp)].
  { rewrite Hbad in Hok. discriminate. }
  rewrite Hreq in Hreq'. injection Hreq' as <-.
  destruct Hp as (b' & r & Hsel & _ & _ & Hr).
  destruct r as [bucket| |e|]; try contradiction.
  2:{ destruct Hr as (_ & _ & ->). discriminate. }
  destruct (presigner_ok w bucket (Key req)).
  2:{ destruct Hr as (_ & _ & Hst). rewrite Hst in Hok. discriminate. }
  destruct Hr as (Hreg & Hstore & _).
  destruct (placement_eligible rt s (Key req) (Size req) b' bucket Hsort Hsel)
    as [Hin Hroom].
  destruct (Hcap bucket Hin) as [[H0 H1] H2]. unfold GetAvailableSpace in Hroom.
  unfold RecordObject in Hstore. rewrite Hrec in Hstore.
  unfold handleDeleteObject, GetObjectInfo, DeleteObject, handler_of.
  cbn [storage bucketManager]. rewrite Hstore, Hreg, lookup_insert_eq.
  cbn [obj_BucketName obj_Size].
  destruct (GetBucket_UpdateUsedSize (registry s) bucket (Size req) Hin) as [x ->].
  rewrite UpdateUsedSize_undo by (auto; lia).
  eexists. split; [reflexivity|]. cbn [bucketManager storage].
  split; [reflexivity | apply delete_insert_eq].
Qed.

(** ** The first scenario of the specification *)

Lemma sample_server_unique_names : unique_names (registry sample_server).
Proof. unfold unique_names. by apply (bool_decide_unpack _). Qed.

Lemma sample_server_usage : usage_within_capacity (registry sample_server).
Proof.
  intros b [<-|[<-|[]]]; cbn; unfold max_int64; lia.
Qed.

Lemma presign_error_changes_nothing_witness :
  registry (round_robin_server 1) = registry (round_robin_server 0) /\
  store (round_robin_server 1) = store (round_robin_server 0).
Proof.
  apply (presign_error_changes_nothing sample_runtime failing_world
           (round_robin_server 0) (round_robin_server 1)
           (sendError StatusInternalServerError "failed to generate upload URL")).
  - left. vm_compute. reflexivity.
  - discriminate.
Defined.

Lemma presign_keeps_usage_within_capacity_witness :
  unique_names (registry server_after_upload) /\
  usage_within_capacity (registry server_after_upload).
Proof.
  apply (presign_keeps_usage_within_capacity sample_runtime sample_world
           sample_server server_after_upload
           {| status_code := StatusOK; json := UploadURL bucketA "x" |}).
  - apply insertion_runtime_SortContract.
  - apply sample_server_unique_names.
  - apply sample_server_usage.
  - left. split; [vm_compute; reflexivity|].
    intros req [= <-]. cbn. lia.
Defined.

Lemma upload_then_delete_restores_usage_witness :
  exists h2,
    handleDeleteObject (handler_of server_after_upload) "x"
    = (h2, {| status := StatusOK;
              payload := MessageBody "object deleted successfully" |}) /\
    bucketManager h2 = registry sample_server /\
    storage h2 = delete "x"%string (store sample_server).
Proof.
  apply (upload_then_delete_restores_usage sample_runtime sample_world
           sample_server server_after_upload
           {| status_code := StatusOK; json := UploadURL bucketA "x" |}
           {| Key := "x"; Size := 60 |}).
  - apply insertion_runtime_SortContract.
  - apply sample_server_unique_names.
  - apply sample_server_usage.
  - reflexivity.
  - cbn. lia.
  - reflexivity.
  - vm_compute. reflexivity.
  - reflexivity.
Defined.

End PresignFacts.

(** * Hot reload of the configuration *)

Module ConfigReloadFacts.

Import ConfigManager ConfigReload.

Local Open Scope nat_scope.

Lemma allocate_next (fields : Config) (elems : list BucketConfig) (h : Heap) :
  fst (allocate fields elems h) = S (next h) /\
  next (snd (allocate fields elems h)) = S (S (next h)).
Proof. split; reflexivity. Qed.

(** Allocation leaves what the store already holds as it is. *)
Lemma allocate_observe (fields : Config) (elems : list BucketConfig) (h : Heap)
    (q : nat) :
  Heap_wf h -> is_Some (structs h !! q) ->
  observe q (snd (allocate fields elems h)) = observe q h.
Proof.
  intros (Hs & Ha & Hb) [c Hq]. unfold allocate, observe. cbn [snd structs arrays].
  pose proof (Hs q ltac:(eauto)) as Hlt. pose proof (Hb q c Hq) as Harr.
  rewrite lookup_insert_ne by lia. rewrite Hq.
  rewrite lookup_insert_ne by lia. reflexivity.
Qed.

Lemma allocate_wf (fields : Config) (elems : list BucketConfig) (h : Heap) :
  Heap_wf h -> Heap_wf (snd (allocate fields elems h)).
Proof.
  intros (Hs & Ha & Hb). unfold allocate. cbn [snd].
  split; [|split]; cbn [structs arrays next].
  - intros p [c Hp]. destruct (decide (p = S (next h))) as [->|Hne]; [lia|].
    rewrite lookup_insert_ne in Hp by done. specialize (Hs p ltac:(eauto)). lia.
  - intros a [l Hl]. destruct (decide (a = next h)) as [->|Hne]; [lia|].
    rewrite lookup_insert_ne in Hl by done. specialize (Ha a ltac:(eauto)). lia.
  - intros p c Hp. destruct (decide (p = S (next h))) as [->|Hne].
    + rewrite lookup_insert_eq in Hp. injection Hp as <-. cbn. lia.
    + rewrite lookup_insert_ne in Hp by done. specialize (Hb p c Hp). lia.
Qed.

Lemma allocate_new (fields : Config) (elems : list BucketConfig) (h : Heap) :
  observe (fst (allocate fields elems h)) (snd (allocate fields elems h))
  = Some (with_Buckets fields {| array := next h; slice_len := List.length elems |},
          elems).
Proof.
  unfold allocate, observe. cbn [fst snd structs arrays].
  rewrite lookup_insert_eq. cbn [with_Buckets Buckets array slice_len].
  rewrite lookup_insert_eq. cbn [default]. by rewrite firstn_all.
Qed.

Lemma calls_of_run_callbacks (i : nat) (cbs : list callback) (newConfig : nat) :
  calls_of (run_callbacks i cbs newConfig)
  = List.map (fun k => (k, newConfig)) (seq i (List.length cbs)).
Proof.
  revert i. induction cbs as [|cb cbs IH]; intros i; [reflexivity|].
  cbn [run_callbacks List.length seq List.map]. unfold calls_of in *.
  cbn [omap list_omap]. f_equal.
  destruct (cb newConfig); cbn [app omap list_omap]; apply IH.
Qed.

(** [GetConfig] hands out a copy that reads as the live configuration. *)
Lemma GetConfig_observe (m : Manager) (h : Heap) :
  Heap_wf h -> is_Some (structs h !! config m) ->
  exists p h2,
    GetConfig (reader m) h = Some (p, h2) /\
    observe p h2 = observe (config m) h.
Proof.
  intros (Hs & Ha & Hb) [c Hc]. unfold GetConfig, reader.
  cbn [ConfigManager.config]. rewrite Hc.
  eexists _, _. split; [reflexivity|].
  unfold observe. cbn [structs arrays]. by rewrite lookup_insert_eq, Hc.
Qed.

(** What [reloadConfig] does. *)
Lemma reloadConfig_result (load : option (Config * list BucketConfig))
    (m : Manager) (h : Heap) :
  Heap_wf h -> is_Some (structs h !! config m) ->
  exists r,
    reloadConfig load m h = Some r /\
    Heap_wf (heap_after r) /\
    is_Some (structs (heap_after r) !! config (after r)) /\
    (forall q, is_Some (structs h !! q) -> observe q (heap_after r) = observe q h) /\
    callbacks (after r) = callbacks m /\
    lastModTime (after r) = lastModTime m /\
    match load with
    | None => after r = m /\ heap_after r = h /\ callback_events r = []
    | Some (fields, elems) =>
        observe (config (after r)) (heap_after r)
        = Some (with_Buckets fields
                  {| array := next h; slice_len := List.length elems |}, elems) /\
        calls_of (callback_events r)
        = List.map (fun i => (i, config (after r)))
            (seq 0 (List.length (callbacks m)))
    end.
Proof.
  intros Hwf Hlive. unfold reloadConfig. destruct load as [[fields elems]|].
  - pose proof (allocate_observe fields elems h _ Hwf Hlive) as Hold.
    pose proof (allocate_new fields elems h) as Hnew.
    pose proof (allocate_wf fields elems h Hwf) as Hwf'.
    pose proof (fun q => allocate_observe fields elems h q Hwf) as Hkeep.
    destruct (allocate fields elems h) as [newConfig h'] eqn:A. cbn [fst snd] in *.
    destruct Hlive as [c Hc].
    assert (exists old, structs h' !! config m = Some old) as [old Ho].
    { unfold observe in Hold. rewrite Hc in Hold.
      destruct (structs h' !! config m); [eauto | discriminate]. }
    assert (exists new, structs h' !! newConfig = Some new) as [new Hn].
    { unfold observe in Hnew. destruct (structs h' !! newConfig); [eauto | discriminate]. }
    rewrite Ho, Hn. eexists. split; [reflexivity|]. cbn [after heap_after callback_events
      config callbacks lastModTime].
    split; [exact Hwf'|]. split; [eauto|]. split; [exact Hkeep|].
    split; [reflexivity|]. split; [reflexivity|].
    split; [exact Hnew | apply calls_of_run_callbacks].
  - eexists. split; [reflexivity|]. cbn [after heap_after callback_events].
    split; [exact Hwf|]. split; [exact Hlive|]. repeat split; auto.
Qed.

(** A reload swaps in the loaded configuration or keeps the old one, and
    never touches a configuration a caller already holds. On a store with
    nothing dangling: when [Load] fails the manager and the store are as
    before and no callback runs; when it succeeds [GetConfig] reads the
    loaded fields and bucket list, and every registered callback is called
    once, in registration order, on the new configuration, whether or not
    an earlier one panics. Either way every configuration that existed
    before, the old live one and the copies [GetConfig] handed out, reads as
    it did. *)
Theorem reloadConfig_swaps_or_keeps (load : option (Config * list BucketConfig))
    (m : Manager) (h : Heap) :
  Heap_wf h -> is_Some (structs h !! config m) ->
  exists r p h2,
    reloadConfig load m h = Some r /\
    GetConfig (reader (after r)) (heap_after r) = Some (p, h2) /\
    (forall q, is_Some (structs h !! q) -> observe q (heap_after r) = observe q h) /\
    match load with
    | None =>
        after r = m /\ heap_after r = h /\ callback_events r = [] /\
        observe p h2 = observe (config m) h
    | Some (fields, elems) =>
        observe p h2
        = Some (with_Buckets fields
                  {| array := next h; slice_len := List.length elems |}, elems) /\
        calls_of (callback_events r)
        = List.map (fun i => (i, config (after r)))
            (seq 0 (List.length (callbacks m)))
    end.
Proof.
  intros Hwf Hlive.
  destruct (reloadConfig_result load m h Hwf Hlive)
    as (r & Hr & Hwf' & Hlive' & Hkeep & _ & _ & Hload).
  destruct (GetConfig_observe (after r) (heap_after r) Hwf' Hlive')
    as (p & h2 & Hget & Hobs).
  exists r, p, h2. split; [exact Hr|]. split; [exact Hget|]. split; [exact Hkeep|].
  destruct load as [[fields elems]|].
  - destruct Hload as [Hnew Hcalls]. split; [congruence | exact Hcalls].
  - destruct Hload as (Hm & Hh & Hev). repeat split; auto. rewrite Hobs. by rewrite Hm, Hh.
Qed.

(** A change is reloaded once: after a poll tick or a file-watcher event
    has seen the modification time [t] and reloaded, a poll tick that sees
    [t] or an older time changes nothing and logs nothing. *)
Theorem handled_change_is_not_polled_again (op : Z) (t t' : Z)
    (load load' : option (Config * list BucketConfig))
    (m : Manager) (h : Heap) (r : reloaded) :
  Heap_wf h -> is_Some (structs h !! config m) ->
  (pollTick (Some t) load m h = Some r /\ (lastModTime m < t)%Z) \/
  (watchEvent op (Some t) load m h = Some r /\
   (Z.land op fsnotify_Write = fsnotify_Write \/
    Z.land op fsnotify_Rename = fsnotify_Rename)) ->
  (t' <= t)%Z ->
  pollTick (Some t') load' (after r) (heap_after r)
  = Some (untouched (after r) (heap_after r)).
Proof.
  intros Hwf Hlive Hhandled Hle.
  assert (lastModTime (after r) = t) as Hlast.
  { destruct Hhandled as [[Hpoll Hlt]|[Hwatch Hop]].
    - unfold pollTick in Hpoll. apply Z.ltb_lt in Hlt. rewrite Hlt in Hpoll.
      destruct (reloadConfig_result load
                  {| config := config m; callbacks := callbacks m; lastModTime := t |}
                  h Hwf Hlive) as (r0 & Hr0 & _ & _ & _ & _ & Hl & _).
      rewrite Hr0 in Hpoll. injection Hpoll as <-. exact Hl.
    - unfold watchEvent in Hwatch.
      assert ((Z.land op fsnotify_Write =? fsnotify_Write)%Z
              || (Z.land op fsnotify_Rename =? fsnotify_Rename)%Z = true) as Hbits.
      { apply orb_true_iff. destruct Hop as [E|E]; [left|right]; by apply Z.eqb_eq. }
      rewrite Hbits in Hwatch.
      destruct (reloadConfig_result load
                  {| config := config m; callbacks := callbacks m; lastModTime := t |}
                  h Hwf Hlive) as (r0 & Hr0 & _ & _ & _ & _ & Hl & _).
      rewrite Hr0 in Hwatch. injection Hwatch as <-. exact Hl. }
  unfold pollTick. rewrite Hlast.
  destruct (t <? t')%Z eqn:E; [apply Z.ltb_lt in E; lia | reflexivity].
Qed.

Lemma sample_heap_wf : Heap_wf sample_heap.
Proof.
  unfold sample_heap. split; [|split]; cbn [structs arrays next].
  - intros p [c Hp]. apply lookup_singleton_Some in Hp as [<- _]. lia.
  - intros a [l Hl]. apply lookup_singleton_Some in Hl as [<- _]. lia.
  - intros p c Hp. apply lookup_singleton_Some in Hp as [<- <-]. cbn. lia.
Qed.

Lemma sample_reload_manager_live :
  is_Some (structs sample_heap !! config sample_reload_manager).
Proof. exists sample_config. reflexivity. Qed.

Lemma reloadConfig_swaps_or_keeps_witness :
  exists r p h2,
    reloadConfig sample_load sample_reload_manager sample_heap = Some r /\
    GetConfig (reader (after r)) (heap_after r) = Some (p, h2) /\
    (forall q, is_Some (structs sample_heap !! q) ->
               observe q (heap_after r) = observe q sample_heap) /\
    observe p h2
    = Some ({| Server_Port := 9090; Database_DSN := "s3.db";
               Buckets := {| array := 1; slice_len := 1 |};
               Balancer_Strategy := "least-space";
               S3API_ProxyMode := false; Metrics_Enabled := true |},
            [configB]) /\
    calls_of (callback_events r) = [(0, config (after r)); (1, config (after r))].
Proof.
  apply (reloadConfig_swaps_or_keeps sample_load sample_reload_manager sample_heap).
  - apply sample_heap_wf.
  - apply sample_reload_manager_live.
Defined.

Lemma handled_change_is_not_polled_again_witness :
  pollTick (Some 200%Z) None (after sample_reloaded) (heap_after sample_reloaded)
  = Some (untouched (after sample_reloaded) (heap_after sample_reloaded)).
Proof.
  apply (handled_change_is_not_polled_again fsnotify_Write 200 200 sample_load None
           sample_reload_manager sample_heap sample_reloaded).
  - apply sample_heap_wf.
  - apply sample_reload_manager_live.
  - right. split; [vm_compute; reflexivity | left; reflexivity].
  - lia.
Defined.

(** The reload of the example: the log names the two changes, and the
    second callback runs although the first has panicked. *)
Example sample_reloaded_log :
  logged sample_reloaded
  = [ModifiedByFsnotify; ReloadedSuccessfully;
     PortChanged 8080 9090; BucketCountChanged 2 1] /\
  callback_events sample_reloaded
  = [Called 0 2; Logged CallbackPanic; Called 1 2].
Proof. split; vm_compute; reflexivity. Qed.

End ConfigReloadFacts.

(** ** Calls that overlap, whatever the strategy *)

Lemma run_calls_consistent_hash (rt : Runtime) (schedule : list nat)
    (s : ConsistentHashStrategy) (calls : list call) :
  run_calls rt schedule (ConsistentHash s) calls
  = (ConsistentHash (fst (run_schedule rt schedule s calls)),
     snd (run_schedule rt schedule s calls)).
Proof.
  revert s calls. induction schedule as [|i rest IH]; intros s calls; [reflexivity|].
  cbn [run_calls run_schedule]. destruct (calls !! i) as [c|]; [|apply IH].
  cbn [step_strategy]. destruct (step_call rt s c) as [s' c']. apply IH.
Qed.

(** A call that runs its steps back to back is the call of the sequential
    embedding. *)
Lemma run_calls_alone (rt : Runtime) (b : Balancer) (key : string) (size : Z) :
  List.map call_progress
    (snd (run_calls rt [0%nat; 0%nat] (strategy b) [begin_call b key size]))
  = [Returned (snd (Balancer_SelectBucket rt b key size))].
Proof.
  destruct (strategy b) as [rr| | |ch] eqn:Hs.
  4:{ rewrite run_calls_consistent_hash. cbn [snd].
      by apply run_schedule_alone. }
  all: unfold Balancer_SelectBucket, begin_call; rewrite Hs; cbv zeta;
    destruct (len (GetAvailableBuckets (manager b)) =? 0) eqn:E1; [reflexivity|];
    destruct (len (enoughSpace size (GetAvailableBuckets (manager b))) =? 0) eqn:E2;
    [reflexivity|]; cbn [run_calls lookup list_lookup step_strategy call_progress
                         call_buckets call_key call_size].
  - cbn [Strategy_SelectBucket].
    destruct (RoundRobinStrategy_SelectBucket rr _ key size) as [rr' r].
    reflexivity.
  - reflexivity.
  - reflexivity.
Qed.

Lemma ringLookup_in_ring (s : ConsistentHashStrategy) (key : string) (sel : BucketInfo) :
  ringLookup s key = Selected sel -> exists h, ring s !! h = Some sel.
Proof.
  unfold ringLookup. cbv zeta.
  match goal with |- context [nodes s !! ?i] => destruct (nodes s !! i) as [node|] end;
    [|discriminate].
  destruct (ring s !! node) as [b|] eqn:E; [|discriminate].
  intros [= <-]. by exists node.
Qed.

Lemma updateRing_ring_In (rt : Runtime) (s : ConsistentHashStrategy)
    (bs : list BucketInfo) (h : Z) (b : BucketInfo) :
  ring (updateRing rt s bs) !! h = Some b -> In b bs.
Proof.
  rewrite updateRing_lookup. intros E. by apply owner_In in E as [? _].
Qed.

Lemma step_strategy_within (P : BucketInfo -> Prop) (rt : Runtime) (st : Strategy)
    (calls : list call) (i : nat) (c : call) :
  SortContract rt ->
  calls_within P st calls ->
  calls !! i = Some c ->
  calls_within P (fst (step_strategy rt st c))
    (<[i := snd (step_strategy rt st c)]> calls).
Proof.
  intros Hsort (Hbs & Hret & Hring) Hc.
  assert (Forall P (call_buckets c)) as HPc.
  { rewrite Forall_forall in Hbs. apply (Hbs c). by eapply list_elem_of_lookup_2. }
  assert (forall sel, call_progress c = Returned (Selected sel) -> P sel) as HRc.
  { rewrite Forall_forall in Hret. apply (Hret c). by eapply list_elem_of_lookup_2. }
  assert (forall st' r,
            (forall sel, r = Selected sel -> P sel) ->
            ring_within P st' ->
            calls_within P st'
              (<[i := {| call_buckets := call_buckets c; call_key := call_key c;
                         call_size := call_size c; call_progress := Returned r |}]>
                 calls)) as Hdone.
  { intros st' r Hr Hst'. split; [|split].
    - apply Forall_insert; [exact Hbs | exact HPc].
    - apply Forall_insert; [exact Hret|]. cbn [call_progress].
      intros sel [= ->]. by apply Hr.
    - by left. }
  destruct st as [rr| | |s]; cbn [step_strategy].
  4:{ unfold step_call. destruct (call_progress c) as [| |r] eqn:Hp; cbn [fst snd].
      - split; [|split].
        + apply Forall_insert; [exact Hbs | exact HPc].
        + apply Forall_insert; [exact Hret|]. cbn [call_progress]. discriminate.
        + left. cbn [ring_within]. intros h b Hb.
          apply updateRing_ring_In in Hb. rewrite Forall_forall in HPc.
          apply HPc. by apply list_elem_of_In.
      - assert (ring_within P (ConsistentHash s)) as Hclean.
        { destruct Hring as [H|H]; [exact H|]. exfalso.
          rewrite Forall_forall in H. apply (H c); [|exact Hp].
          by eapply list_elem_of_lookup_2. }
        apply Hdone; [|exact Hclean].
        intros sel Hsel. apply ringLookup_in_ring in Hsel as [h Hh].
        by apply (Hclean h).
      - rewrite list_insert_id by exact Hc. split; [|split]; assumption. }
  all: destruct (call_progress c) as [| |r] eqn:Hp; cbn [fst snd];
    try (rewrite list_insert_id by exact Hc; split; [|split]; [assumption..|by left]).
  all: match goal with
       | |- context [Strategy_SelectBucket ?r0 ?st ?bs ?k ?z] =>
           destruct (Strategy_SelectBucket r0 st bs k z) as [st' r] eqn:E
       end; cbn [fst snd].
  all: apply Hdone;
    [ intros sel ->; apply Strategy_In in E; [|exact Hsort];
      rewrite Forall_forall in HPc; apply HPc; by apply list_elem_of_In
    | ].
  all: cbn [Strategy_SelectBucket] in E;
    try (destruct (RoundRobinStrategy_SelectBucket _ _ _ _) in E);
    injection E as <- _; exact I.
Qed.

Lemma run_calls_within (P : BucketInfo -> Prop) (rt : Runtime) (schedule : list nat)
    (st : Strategy) (calls : list call) :
  SortContract rt ->
  calls_within P st calls ->
  calls_within P (fst (run_calls rt schedule st calls))
    (snd (run_calls rt schedule st calls)).
Proof.
  intros Hsort. revert st calls.
  induction schedule as [|i rest IH]; intros st calls Hin; [exact Hin|].
  cbn [run_calls]. destruct (calls !! i) as [c|] eqn:Hc; [|by apply IH].
  pose proof (step_strategy_within P rt st calls i c Hsort Hin Hc) as Hstep.
  destruct (step_strategy rt st c) as [st' c']. by apply IH.
Qed.

Lemma begin_call_not_yet_served (b : Balancer) (key : string) (size : Z) :
  not_yet_served (begin_call b key size).
Proof.
  unfold not_yet_served, begin_call. cbn [call_progress].
  destruct (len _ =? 0); [right; by eexists|].
  destruct (len _ =? 0); [right; by eexists | by left].
Qed.

(** However calls overlap and whatever the strategy held before, a bucket
    that one of them returns is a bucket of one of their lists. *)
Lemma run_calls_selected (P : BucketInfo -> Prop) (rt : Runtime)
    (schedule : list nat) (st : Strategy) (calls : list call)
    (c : call) (sel : BucketInfo) :
  SortContract rt ->
  Forall (fun c => Forall P (call_buckets c) /\ not_yet_served c) calls ->
  In c (snd (run_calls rt schedule st calls)) ->
  call_progress c = Returned (Selected sel) ->
  P sel.
Proof.
  intros Hsort Hinit Hin Hp.
  assert (calls_within P st calls) as H0.
  { split; [|split].
    - eapply Forall_impl; [exact Hinit|]. by intros ? [? _].
    - eapply Forall_impl; [exact Hinit|]. intros c0 [_ [H|[e H]]] sel0; by rewrite H.
    - right. eapply Forall_impl; [exact Hinit|]. intros c0 [_ [H|[e H]]]; by rewrite H. }
  destruct (run_calls_within P rt schedule st calls Hsort H0) as (_ & Hret & _).
  rewrite Forall_forall in Hret. apply (Hret c); [|exact Hp].
  by apply list_elem_of_In.
Qed.

(** Under a strategy other than consistent-hash the bucket is one of the
    call's own list. *)
Lemma step_strategy_own (rt : Runtime) (st : Strategy) (calls : list call)
    (i : nat) (c : call) :
  SortContract rt ->
  is_consistent_hash st = false ->
  own_list calls ->
  calls !! i = Some c ->
  is_consistent_hash (fst (step_strategy rt st c)) = false /\
  own_list (<[i := snd (step_strategy rt st c)]> calls).
Proof.
  intros Hsort Hst Hown Hc.
  destruct st as [rr| | |s]; [| | |discriminate]; cbn [step_strategy].
  all: destruct (call_progress c) as [| |r] eqn:Hp; cbn [fst snd];
    try (rewrite list_insert_id by exact Hc; by split).
  all: match goal with
       | |- context [Strategy_SelectBucket ?r0 ?st ?bs ?k ?z] =>
           destruct (Strategy_SelectBucket r0 st bs k z) as [st' r] eqn:E
       end; cbn [fst snd].
  all: split;
    [ cbn [Strategy_SelectBucket] in E;
      try (destruct (RoundRobinStrategy_SelectBucket _ _ _ _) in E);
      by injection E as <- _
    | apply Forall_insert; [exact Hown|]; cbn [call_progress call_buckets];
      intros sel [= ->]; by apply Strategy_In in E ].
Qed.

Lemma run_calls_own (rt : Runtime) (schedule : list nat) (st : Strategy)
    (calls : list call) (c : call) (sel : BucketInfo) :
  SortContract rt ->
  is_consistent_hash st = false ->
  Forall not_yet_served calls ->
  In c (snd (run_calls rt schedule st calls)) ->
  call_progress c = Returned (Selected sel) ->
  In sel (call_buckets c).
Proof.
  intros Hsort Hst Hinit Hin Hp.
  assert (own_list calls) as H0.
  { eapply Forall_impl; [exact Hinit|]. intros c0 [H|[e H]] sel0; by rewrite H. }
  assert (own_list (snd (run_calls rt schedule st calls))) as Hfin.
  { clear Hin Hinit. revert st calls Hst H0.
    induction schedule as [|i rest IH]; intros st calls Hst H0; [exact H0|].
    cbn [run_calls]. destruct (calls !! i) as [c0|] eqn:Hc; [|by apply IH].
    destruct (step_strategy_own rt st calls i c0 Hsort Hst H0 Hc) as [Hst' H1].
    destruct (step_strategy rt st c0) as [st' c']. by apply IH. }
  unfold own_list in Hfin. rewrite Forall_forall in Hfin.
  apply (Hfin c); [|exact Hp]. by apply list_elem_of_In.
Qed.

(** The steps of a schedule leave the size and the list of a call as they
    are. *)
Lemma run_calls_same_calls (rt : Runtime) (schedule : list nat) (st : Strategy)
    (calls : list call) :
  List.map (fun c => (call_buckets c, call_key c, call_size c))
    (snd (run_calls rt schedule st calls))
  = List.map (fun c => (call_buckets c, call_key c, call_size c)) calls.
Proof.
  revert st calls. induction schedule as [|i rest IH]; intros st calls; [reflexivity|].
  cbn [run_calls]. destruct (calls !! i) as [c|] eqn:Hc; [|apply IH].
  destruct (step_strategy rt st c) as [st' c'] eqn:E. rewrite IH.
  assert ((call_buckets c', call_key c', call_size c')
          = (call_buckets c, call_key c, call_size c)) as Hsame.
  { destruct st as [rr| | |s]; cbn [step_strategy] in E.
    4:{ unfold step_call in E. destruct (call_progress c); injection E as _ <-;
        reflexivity. }
    all: destruct (call_progress c);
      try (destruct (Strategy_SelectBucket rt _ _ _ _) in E);
      injection E as _ <-; reflexivity. }
  apply list_eq. intros k. rewrite !list_lookup_fmap.
  destruct (decide (k = i)) as [->|Hne].
  - rewrite list_lookup_insert_eq by (by eapply lookup_lt_Some).
    rewrite Hc. cbn. by rewrite Hsame.
  - by rewrite list_lookup_insert_ne.
Qed.

(** * The metrics reporter, between the monitor and the balancer *)

Module ReporterFacts.

Import Health Reporter.

Lemma ReportHealth_metrics (r : MetricsReporter) (id : string) (status : Status) :
  metrics (fst (ReportHealth r id status)) = metrics r.
Proof.
  unfold ReportHealth. destruct (metrics r) eqn:M; cbn [negb]; [|exact M].
  destruct (records (registry r) !! id); cbn [fst metrics]; [reflexivity | exact M].
Qed.

(** What [ReportHealth] leaves in the registry. *)
Lemma ReportHealth_lookup (r : MetricsReporter) (id id' : string) (status : Status) :
  metrics r = true ->
  records (registry (fst (ReportHealth r id status))) !! id' =
  match records (registry r) !! id' with
  | Some b =>
      if decide (id = id')
      then Some {| info := {| Config := Config (info b); UsedSize := UsedSize (info b);
                              Available := Healthy status |};
                   Endpoint := Endpoint b;
                   LastChecked := Health.LastChecked status |}
      else Some b
  | None => None
  end.
Proof.
  intros M. unfold ReportHealth. rewrite M. cbn [negb].
  destruct (records (registry r) !! id) as [b|] eqn:E; cbn [fst registry records].
  - destruct (decide (id = id')) as [<-|Hne].
    + by rewrite lookup_insert_eq, E.
    + rewrite lookup_insert_ne by done.
      by destruct (records (registry r) !! id').
  - destruct (records (registry r) !! id') as [b'|] eqn:E'; [|reflexivity].
    destruct (decide (id = id')) as [<-|Hne]; [congruence | reflexivity].
Qed.

Lemma ReportHealth_keyed (r : MetricsReporter) (id : string) (status : Status) :
  keyed_by_name (registry r) ->
  keyed_by_name (registry (fst (ReportHealth r id status))).
Proof.
  intros Hkey. destruct (metrics r) eqn:M.
  2:{ unfold ReportHealth. rewrite M. exact Hkey. }
  intros name b. rewrite (ReportHealth_lookup r id name status M).
  destruct (records (registry r) !! name) as [b0|] eqn:E; [|discriminate].
  specialize (Hkey name b0 E).
  destruct (decide (id = name)); intros [= <-]; exact Hkey.
Qed.

(** A record of the registry as the balancer lists it. *)
Lemma listed_In (order : MapRuntime) (g : Registry) (x : BucketInfo) :
  RangeContract order ->
  In x (buckets (listed order g)) <->
  exists name b, records g !! name = Some b /\ info b = x.
Proof.
  intros Horder. unfold listed. cbn [buckets]. rewrite in_map_iff. split.
  - intros [[name b] [<- Hin]]. exists name, b. split; [|reflexivity].
    apply list_elem_of_In in Hin. rewrite (Horder _ (records g)) in Hin.
    by apply elem_of_map_to_list in Hin.
  - intros (name & b & Hl & <-). exists (name, b). split; [reflexivity|].
    apply list_elem_of_In. rewrite (Horder _ (records g)).
    by apply elem_of_map_to_list.
Qed.

(** A bucket the balancer returns is a record of the registry that is
    available and has room. *)
Lemma selected_record (rt : Runtime) (order : MapRuntime) (g : Registry)
    (b b' : Balancer) (key : string) (size : Z) (sel : BucketInfo) :
  SortContract rt -> RangeContract order -> keyed_by_name g ->
  manager b = listed order g ->
  Balancer_SelectBucket rt b key size = (b', Selected sel) ->
  exists rec,
    records g !! Name (Config sel) = Some rec /\ info rec = sel /\
    Available sel = true /\ size <= GetAvailableSpace sel.
Proof.
  intros Hsort Horder Hkey Hm Hsel.
  destruct (SelectBucket_returns_eligible rt b b' key size sel Hsort Hsel)
    as (_ & Hav & Hsize & _).
  unfold GetAvailableBuckets in Hav. rewrite Hm in Hav.
  apply List.filter_In in Hav as [Hin Hflags].
  apply andb_true_iff in Hflags as [_ Havail].
  apply (listed_In order g sel Horder) in Hin as (name & rec & Hl & Hinfo).
  exists rec. rewrite <- Hinfo at 1. rewrite (Hkey name rec Hl).
  unfold GetAvailableSpace. auto.
Qed.

(** ** Calls of [SelectBucket] that overlap, over a reported registry *)

(** The list of a call that read the registry: available records of the
    registry with room for the call's size. *)
Lemma begun_over_list (g : Registry) (c : call) (x : BucketInfo) :
  keyed_by_name g ->
  begun_over g c -> In x (call_buckets c) ->
  (exists rec, records g !! Name (Config x) = Some rec /\ info rec = x) /\
  Available x = true /\
  call_size c <= GetAvailableSpace x.
Proof.
  intros Hkey (order & b & key & size & Horder & Hm & ->) Hin.
  cbn [begin_call call_buckets call_size] in *.
  apply enoughSpace_In in Hin as [Hav Hsize].
  unfold GetAvailableBuckets in Hav. rewrite Hm in Hav.
  apply List.filter_In in Hav as [Hin Hflags].
  apply andb_true_iff in Hflags as [_ Havail].
  apply (listed_In order g x Horder) in Hin as (name & rec & Hl & Hinfo).
  split; [|by split].
  exists rec. split; [|exact Hinfo].
  rewrite <- Hinfo, (Hkey name rec Hl). exact Hl.
Qed.

Lemma begun_over_not_yet_served (g : Registry) (c : call) :
  begun_over g c -> not_yet_served c.
Proof.
  intros (order & b & key & size & _ & _ & ->). apply begin_call_not_yet_served.
Qed.

(** A bucket that one of the overlapping calls returns is an available
    record of the registry with room for the size of one of the calls, and
    of the call itself under a strategy other than consistent-hash. *)
Lemma overlapping_selected_record (rt : Runtime) (g : Registry)
    (st : Strategy) (schedule : list nat) (calls : list call)
    (c : call) (sel : BucketInfo) :
  SortContract rt -> keyed_by_name g ->
  Forall (begun_over g) calls ->
  In c (snd (run_calls rt schedule st calls)) ->
  call_progress c = Returned (Selected sel) ->
  (exists rec, records g !! Name (Config sel) = Some rec /\ info rec = sel) /\
  Available sel = true /\
  (exists c', In c' calls /\ call_size c' <= GetAvailableSpace sel) /\
  (is_consistent_hash st = false -> call_size c <= GetAvailableSpace sel).
Proof.
  intros Hsort Hkey Hinit Hin Hp.
  pose proof Hinit as Hall. rewrite Forall_forall in Hall.
  pose proof (run_calls_selected
                (fun x => (exists rec, records g !! Name (Config x) = Some rec /\
                                       info rec = x) /\
                          Available x = true /\
                          exists c', In c' calls /\ call_size c' <= GetAvailableSpace x)
                rt schedule st calls c sel Hsort) as Hsel.
  destruct Hsel as (Hrec & Hav & Hroom); [|exact Hin|exact Hp|].
  { apply Forall_forall. intros c0 Hc0. split.
    - apply Forall_forall. intros x Hx. apply list_elem_of_In in Hx.
      destruct (begun_over_list g c0 x Hkey (Hall c0 Hc0) Hx) as (Hrec & Hav & Hroom).
      split; [exact Hrec|]. split; [exact Hav|].
      exists c0. split; [by apply list_elem_of_In | exact Hroom].
    - by eapply begun_over_not_yet_served, Hall. }
  split; [exact Hrec|]. split; [exact Hav|]. split; [exact Hroom|].
  intros Hst.
  assert (In sel (call_buckets c)) as Hown.
  { apply (run_calls_own rt schedule st calls c sel Hsort Hst); auto.
    apply Forall_forall. intros c0 Hc0.
    by eapply begun_over_not_yet_served, Hall. }
  assert (In (call_buckets c, call_key c, call_size c)
            (List.map (fun c => (call_buckets c, call_key c, call_size c)) calls))
    as Hsame.
  { rewrite <- (run_calls_same_calls rt schedule st calls).
    by apply (in_map (fun c => (call_buckets c, call_key c, call_size c))). }
  apply in_map_iff in Hsame as (c0 & Heq & Hc0). injection Heq as Hb _ Hs.
  rewrite <- Hb in Hown. rewrite <- Hs.
  apply list_elem_of_In in Hc0.
  by destruct (begun_over_list g c0 sel Hkey (Hall c0 Hc0) Hown) as (_ & _ & ?).
Qed.

(** The balancer does not select a bucket reported unhealthy. After
    [ReportHealth] with a status that is not healthy, on a reporter whose
    metrics are set, no call of [SelectBucket] that reads the registry
    afterwards returns the bucket of that name, whatever the strategy and
    the order in which the registry is listed: not a call that runs
    undisturbed, and none of a set of such calls that overlap in any way,
    on whatever state earlier calls left in the strategy. Calls that had
    read the registry before the report are not among them. *)
Theorem reported_unhealthy_is_not_selected (rt : Runtime)
    (r : MetricsReporter) (id : string) (status : Status) :
  SortContract rt ->
  metrics r = true -> keyed_by_name (registry r) ->
  Healthy status = false ->
  (forall (order : MapRuntime) (b b' : Balancer) (key : string) (size : Z)
          (sel : BucketInfo),
     RangeContract order ->
     manager b = listed order (registry (fst (ReportHealth r id status))) ->
     Balancer_SelectBucket rt b key size = (b', Selected sel) ->
     Name (Config sel) <> id) /\
  (forall (st : Strategy) (schedule : list nat) (calls : list call)
          (c : call) (sel : BucketInfo),
     Forall (begun_over (registry (fst (ReportHealth r id status)))) calls ->
     In c (snd (run_calls rt schedule st calls)) ->
     call_progress c = Returned (Selected sel) ->
     Name (Config sel) <> id).
Proof.
  intros Hsort M Hkey Hbad.
  assert (forall sel rec,
            records (registry (fst (ReportHealth r id status))) !! Name (Config sel)
            = Some rec ->
            info rec = sel -> Available sel = true -> Name (Config sel) <> id)
    as Hrecord.
  { intros sel rec Hl Hinfo Hav Hname.
    rewrite Hname, (ReportHealth_lookup r id id status M) in Hl.
    destruct (records (registry r) !! id) as [b0|]; [|discriminate].
    destruct (decide (id = id)); [|contradiction].
    injection Hl as <-. cbn in Hinfo. subst sel. cbn in Hav. congruence. }
  split.
  - intros order b b' key size sel Horder Hm Hsel.
    destruct (selected_record rt order _ b b' key size sel Hsort Horder
                (ReportHealth_keyed r id status Hkey) Hm Hsel)
      as (rec & Hl & Hinfo & Hav & _).
    by apply (Hrecord sel rec).
  - intros st schedule calls c sel Hinit Hin Hp.
    destruct (overlapping_selected_record rt _ st schedule calls c sel Hsort
                (ReportHealth_keyed r id status Hkey) Hinit Hin Hp)
      as ((rec & Hl & Hinfo) & Hav & _).
    by apply (Hrecord sel rec).
Qed.

(** ** Usage reported by a probe *)

Lemma ReportStats_lookup (r : MetricsReporter) (stats : Stats) (id' : string) :
  metrics r = true ->
  records (registry (fst (ReportStats r stats))) !! id' =
  match records (registry r) !! id' with
  | Some b =>
      if decide (TargetID stats = id')
      then Some {| info := {| Config := Config (info b);
                              UsedSize := stats_UsedSize stats;
                              Available := Available (info b) |};
                   Endpoint := Endpoint b;
                   LastChecked := Reporter.LastChecked b |}
      else Some b
  | None => None
  end.
Proof.
  intros M. unfold ReportStats. rewrite M. cbn [negb].
  destruct (records (registry r) !! TargetID stats) as [b|] eqn:E;
    cbn [fst registry records].
  - destruct (decide (TargetID stats = id')) as [<-|Hne].
    + by rewrite lookup_insert_eq, E.
    + rewrite lookup_insert_ne by done.
      by destruct (records (registry r) !! id').
  - destruct (records (registry r) !! id') as [b'|] eqn:E'; [|reflexivity].
    destruct (decide (TargetID stats = id')) as [<-|Hne]; [congruence | reflexivity].
Qed.

Lemma ReportStats_keyed (r : MetricsReporter) (stats : Stats) :
  keyed_by_name (registry r) ->
  keyed_by_name (registry (fst (ReportStats r stats))).
Proof.
  intros Hkey. destruct (metrics r) eqn:M.
  2:{ unfold ReportStats. rewrite M. exact Hkey. }
  intros name b. rewrite (ReportStats_lookup r stats name M).
  destruct (records (registry r) !! name) as [b0|] eqn:E; [|discriminate].
  specialize (Hkey name b0 E).
  destruct (decide (TargetID stats = name)); intros [= <-]; exact Hkey.
Qed.

(** The usage a probe reports replaces the running estimate. After
    [ReportStats], on a reporter whose metrics are set, the reported bucket
    is returned with the reported usage. A call that runs undisturbed, and
    a call that overlaps with others under a strategy other than
    consistent-hash, is given it only for a size that fits its capacity
    less the reported usage; under consistent-hash a call that overlaps
    with others is given it only if the size of one of the overlapping
    calls fits. *)
Theorem reported_usage_bounds_selection (rt : Runtime)
    (r : MetricsReporter) (stats : Stats) :
  SortContract rt ->
  metrics r = true -> keyed_by_name (registry r) ->
  (forall (order : MapRuntime) (b b' : Balancer) (key : string) (size : Z)
          (sel : BucketInfo),
     RangeContract order ->
     manager b = listed order (registry (fst (ReportStats r stats))) ->
     Balancer_SelectBucket rt b key size = (b', Selected sel) ->
     Name (Config sel) = TargetID stats ->
     UsedSize sel = stats_UsedSize stats /\
     size <= MaxSizeBytes (Config sel) - stats_UsedSize stats) /\
  (forall (st : Strategy) (schedule : list nat) (calls : list call)
          (c : call) (sel : BucketInfo),
     Forall (begun_over (registry (fst (ReportStats r stats)))) calls ->
     In c (snd (run_calls rt schedule st calls)) ->
     call_progress c = Returned (Selected sel) ->
     Name (Config sel) = TargetID stats ->
     UsedSize sel = stats_UsedSize stats /\
     (exists c', In c' calls /\
                 call_size c' <= MaxSizeBytes (Config sel) - stats_UsedSize stats) /\
     (is_consistent_hash st = false ->
      call_size c <= MaxSizeBytes (Config sel) - stats_UsedSize stats)).
Proof.
  intros Hsort M Hkey.
  assert (forall sel rec,
            records (registry (fst (ReportStats r stats))) !! Name (Config sel)
            = Some rec ->
            info rec = sel -> Name (Config sel) = TargetID stats ->
            UsedSize sel = stats_UsedSize stats) as Hrecord.
  { intros sel rec Hl Hinfo Hname.
    rewrite Hname, (ReportStats_lookup r stats _ M) in Hl.
    destruct (records (registry r) !! TargetID stats) as [b0|]; [|discriminate].
    destruct (decide (TargetID stats = TargetID stats)); [|contradiction].
    injection Hl as <-. cbn in Hinfo. by subst sel. }
  split.
  - intros order b b' key size sel Horder Hm Hsel Hname.
    destruct (selected_record rt order _ b b' key size sel Hsort Horder
                (ReportStats_keyed r stats Hkey) Hm Hsel)
      as (rec & Hl & Hinfo & _ & Hroom).
    pose proof (Hrecord sel rec Hl Hinfo Hname) as Hused.
    unfold GetAvailableSpace in Hroom. rewrite Hused in Hroom. by split.
  - intros st schedule calls c sel Hinit Hin Hp Hname.
    destruct (overlapping_selected_record rt _ st schedule calls c sel Hsort
                (ReportStats_keyed r stats Hkey) Hinit Hin Hp)
      as ((rec & Hl & Hinfo) & _ & (c' & Hc' & Hroom) & Hown).
    pose proof (Hrecord sel rec Hl Hinfo Hname) as Hused.
    unfold GetAvailableSpace in *. rewrite Hused in *.
    split; [reflexivity|]. split; [|exact Hown]. by exists c'.
Qed.

(** ** A round of health checks, delivered to the reporter *)

Lemma ReportHealth_lookup_ne (r : MetricsReporter) (id id' : string) (status : Status) :
  id <> id' ->
  records (registry (fst (ReportHealth r id status))) !! id'
  = records (registry r) !! id'.
Proof.
  intros Hne. destruct (metrics r) eqn:M.
  - rewrite (ReportHealth_lookup r id id' status M).
    destruct (records (registry r) !! id'); [|reflexivity].
    destruct (decide (id = id')); [contradiction | reflexivity].
  - unfold ReportHealth. by rewrite M.
Qed.

Lemma deliver_metrics (r : MetricsReporter) (reports : list report) :
  metrics (deliver r reports) = metrics r.
Proof.
  revert r. induction reports as [|[id st] reports IH]; intros r; [reflexivity|].
  cbn [deliver fold_left fst snd]. fold (deliver (fst (ReportHealth r id st)) reports).
  rewrite IH. apply ReportHealth_metrics.
Qed.

Lemma deliver_keyed (r : MetricsReporter) (reports : list report) :
  keyed_by_name (registry r) -> keyed_by_name (registry (deliver r reports)).
Proof.
  revert r. induction reports as [|[id st] reports IH]; intros r Hkey; [exact Hkey|].
  cbn [deliver fold_left fst snd]. fold (deliver (fst (ReportHealth r id st)) reports).
  apply IH. by apply ReportHealth_keyed.
Qed.

Lemma deliver_lookup_other (r : MetricsReporter) (reports : list report) (id : string) :
  ~ In id (List.map fst reports) ->
  records (registry (deliver r reports)) !! id = records (registry r) !! id.
Proof.
  revert r. induction reports as [|[id0 st] reports IH]; intros r Hno; [reflexivity|].
  cbn [deliver fold_left fst snd List.map In] in *.
  fold (deliver (fst (ReportHealth r id0 st)) reports).
  rewrite IH by tauto. apply ReportHealth_lookup_ne. tauto.
Qed.

(** After the reports of a round, in whatever order they were made, a
    record reads as its target's report says. *)
Lemma deliver_Available (r : MetricsReporter) (reports : list report)
    (id : string) (status : Status) (rec : BucketRecord) :
  metrics r = true ->
  NoDup (List.map fst reports) -> In (id, status) reports ->
  records (registry (deliver r reports)) !! id = Some rec ->
  Available (info rec) = Healthy status.
Proof.
  revert r. induction reports as [|[id0 st0] reports IH]; intros r M Hnd Hin; [destruct Hin|].
  cbn [deliver fold_left fst snd List.map] in *.
  fold (deliver (fst (ReportHealth r id0 st0)) reports).
  apply NoDup_cons in Hnd as [Hfresh Hnd]. destruct Hin as [[= -> ->]|Hin].
  - rewrite deliver_lookup_other by (by rewrite <- list_elem_of_In).
    rewrite (ReportHealth_lookup r id id status M).
    destruct (records (registry r) !! id); [|discriminate].
    destruct (decide (id = id)); [|contradiction]. by intros [= <-].
  - apply IH; auto. by rewrite ReportHealth_metrics.
Qed.

Section Round.

Context {T : Type} `{Target T}.

(** Health-driven exclusion, end to end. After a round of [checkAll] whose
    reports reach a reporter with metrics set, under any interleaving of
    the round's goroutines, no call of [SelectBucket] that reads the
    registry afterwards returns a bucket whose probe found it unhealthy,
    whatever the strategy and the listing order of the registry: not a call
    that runs undisturbed, and none of a set of such calls that overlap in
    any way. Targets are stored under their ID and records under their
    bucket's name; calls that had read the registry before the round's
    reports are not among them. *)
Theorem health_round_excludes_unhealthy (rt : Runtime) (map_rt : MapRuntime)
    (probe : T -> Status) (round : list nat) (m m' : Monitor T)
    (reports : list report) (r : MetricsReporter) (id : string) (t : T) :
  SortContract rt -> RangeContract map_rt ->
  keyed_by_ID m -> reporter m = true ->
  metrics r = true -> keyed_by_name (registry r) ->
  checkAll map_rt probe round m = Some (m', reports) ->
  targets m !! id = Some t -> Healthy (probe t) = false ->
  (forall (order : MapRuntime) (b b' : Balancer) (key : string) (size : Z)
          (sel : BucketInfo),
     RangeContract order ->
     manager b = listed order (registry (deliver r reports)) ->
     Balancer_SelectBucket rt b key size = (b', Selected sel) ->
     Name (Config sel) <> id) /\
  (forall (st : Strategy) (schedule : list nat) (calls : list call)
          (c : call) (sel : BucketInfo),
     Forall (begun_over (registry (deliver r reports))) calls ->
     In c (snd (run_calls rt schedule st calls)) ->
     call_progress c = Returned (Selected sel) ->
     Name (Config sel) <> id).
Proof.
  intros Hsort Hmap Hkeyed Hrep M Hkey Hcheck Ht Hbad.
  destruct (HealthFacts.checkAll_result map_rt probe m round m' reports
              Hmap Hkeyed Hcheck) as (_ & _ & _ & _ & Hperm).
  rewrite Hrep in Hperm.
  assert (NoDup (List.map fst reports)) as Hnd.
  { rewrite (Permutation_map fst Hperm), List.map_map. cbn [fst].
    exact (NoDup_fst_map_to_list (targets m)). }
  assert (In (id, probe t) reports) as Hin.
  { apply list_elem_of_In. rewrite Hperm. apply list_elem_of_In, in_map_iff.
    exists (id, t). split; [reflexivity|].
    apply list_elem_of_In. by apply elem_of_map_to_list. }
  assert (forall sel rec,
            records (registry (deliver r reports)) !! Name (Config sel) = Some rec ->
            info rec = sel -> Available sel = true -> Name (Config sel) <> id)
    as Hrecord.
  { intros sel rec Hl Hinfo Hav Hname. rewrite Hname in Hl.
    pose proof (deliver_Available r reports id (probe t) rec M Hnd Hin Hl) as Hrec.
    rewrite Hinfo in Hrec. congruence. }
  split.
  - intros order b b' key size sel Horder Hm Hsel.
    destruct (selected_record rt order _ b b' key size sel Hsort Horder
                (deliver_keyed r reports Hkey) Hm Hsel)
      as (rec & Hl & Hinfo & Hav & _).
    by apply (Hrecord sel rec).
  - intros st schedule calls c sel Hinit Hin' Hp.
    destruct (overlapping_selected_record rt _ st schedule calls c sel Hsort
                (deliver_keyed r reports Hkey) Hinit Hin' Hp)
      as ((rec & Hl & Hinfo) & Hav & _).
    by apply (Hrecord sel rec).
Qed.

End Round.

Lemma sample_registry_keyed : keyed_by_name (registry sample_reporter).
Proof.
  intros name b Hl. cbn [sample_reporter NewMetricsReporter registry
                         sample_registry records] in Hl.
  apply lookup_insert_Some in Hl as [[<- <-]|[_ Hl]]; [reflexivity|].
  apply lookup_singleton_Some in Hl as [<- <-]. reflexivity.
Qed.

Lemma reported_unhealthy_is_not_selected_witness :
  Name (Config bucketA) <> "B"%string.
Proof.
  apply (proj2 (reported_unhealthy_is_not_selected sample_runtime sample_reporter
                  "B" (sample_probe bucketB)
                  (insertion_runtime_SortContract _) eq_refl
                  sample_registry_keyed eq_refl)
           (ConsistentHash NewConsistentHashStrategy) [0; 1; 0; 1]%nat
           (two_calls_over reporter_B_unhealthy 10)
           {| call_buckets := [bucketA]; call_key := "photo.jpg"; call_size := 10;
              call_progress := Returned (Selected bucketA) |}
           bucketA).
  - repeat constructor;
      exists listing_runtime,
        (balancer_over (ConsistentHash NewConsistentHashStrategy) reporter_B_unhealthy);
      eexists _, _;
      (split; [apply HealthFacts.listing_runtime_RangeContract|]);
      split; reflexivity.
  - vm_compute. left. reflexivity.
  - reflexivity.
Defined.

Lemma reported_usage_bounds_selection_witness :
  UsedSize (mkBucket "A" 1 100 40) = 40 /\
  (exists c', In c' (two_calls_over (reporter_A_used 40) 10) /\
              call_size c' <= MaxSizeBytes (Config (mkBucket "A" 1 100 40)) - 40) /\
  (is_consistent_hash (ConsistentHash NewConsistentHashStrategy) = false ->
   10 <= MaxSizeBytes (Config (mkBucket "A" 1 100 40)) - 40).
Proof.
  apply (proj2 (reported_usage_bounds_selection sample_runtime sample_reporter
                  {| TargetID := "A"; stats_UsedSize := 40 |}
                  (insertion_runtime_SortContract _) eq_refl sample_registry_keyed)
           (ConsistentHash NewConsistentHashStrategy) [0; 1; 0; 1]%nat
           (two_calls_over (reporter_A_used 40) 10)
           {| call_buckets := [mkBucket "A" 1 100 40; bucketB];
              call_key := "photo.jpg"; call_size := 10;
              call_progress := Returned (Selected (mkBucket "A" 1 100 40)) |}
           (mkBucket "A" 1 100 40)).
  - repeat constructor;
      exists listing_runtime,
        (balancer_over (ConsistentHash NewConsistentHashStrategy) (reporter_A_used 40));
      eexists _, _;
      (split; [apply HealthFacts.listing_runtime_RangeContract|]);
      split; reflexivity.
  - vm_compute. left. reflexivity.
  - reflexivity.
  - reflexivity.
Defined.

Lemma health_round_excludes_unhealthy_witness :
  Name (Config bucketA) <> "B"%string.
Proof.
  apply (proj2 (health_round_excludes_unhealthy sample_runtime listing_runtime
                  sample_probe [0; 1; 0; 1]%nat sample_monitor checked_monitor
                  sample_reports sample_reporter "B" bucketB
                  (insertion_runtime_SortContract _)
                  HealthFacts.listing_runtime_RangeContract
                  HealthFacts.sample_monitor_keyed eq_refl eq_refl
                  sample_registry_keyed
                  ltac:(vm_compute; reflexivity) ltac:(vm_compute; reflexivity)
                  eq_refl)
           (ConsistentHash NewConsistentHashStrategy) [0; 1; 0; 1]%nat
           (two_calls_over (deliver sample_reporter sample_reports) 10)
           {| call_buckets := [bucketA]; call_key := "photo.jpg"; call_size := 10;
              call_progress := Returned (Selected bucketA) |}
           bucketA).
  - repeat constructor;
      exists listing_runtime,
        (balancer_over (ConsistentHash NewConsistentHashStrategy)
           (deliver sample_reporter sample_reports));
      eexists _, _;
      (split; [apply HealthFacts.listing_runtime_RangeContract|]);
      split; reflexivity.
  - vm_compute. left. reflexivity.
  - reflexivity.
Defined.

(** A call that had read the registry before the report is not covered by
    the above. Under consistent-hash its ring, rebuilt from a list that
    still holds [B], is the ring a later call searches when the rebuild
    falls between that call's own rebuild and its search: the call that
    read the registry after the report, whose own list is [A] alone, is
    given [B]. *)
Example call_begun_before_report_hands_out_unhealthy :
  List.map call_buckets calls_around_report = [[bucketA; bucketB]; [bucketA]] /\
  List.map call_progress
    (snd (run_calls sample_runtime [1; 0; 1; 0]%nat
            (ConsistentHash NewConsistentHashStrategy) calls_around_report))
  = [Returned (Selected bucketB); Returned (Selected bucketB)].
Proof. split; vm_compute; reflexivity. Qed.

(** Under consistent-hash a call that overlaps with another can be given
    the reported bucket for a size beyond its room: with 90 of the 100
    bytes of [A] reported in use, the request for 20 bytes is given [A]
    when the request for 5 bytes rebuilds the ring in between. Running
    alone it is given [B]. *)
Example overlapping_call_exceeds_reported_room :
  List.map call_progress
    (snd (run_calls sample_runtime [0; 1; 0; 1]%nat
            (ConsistentHash NewConsistentHashStrategy)
            (two_calls_over (reporter_A_used 90) 20)))
  = [Returned (Selected (mkBucket "A" 1 100 90)); Returned (Selected bucketB)] /\
  List.map call_progress
    (snd (run_calls sample_runtime [0; 0; 1; 1]%nat
            (ConsistentHash NewConsistentHashStrategy)
            (two_calls_over (reporter_A_used 90) 20)))
  = [Returned (Selected bucketB); Returned (Selected bucketB)].
Proof. split; vm_compute; reflexivity. Qed.

(** The round of the example leaves [B] unavailable and tells the metrics
    so. *)
Example sample_round_delivered :
  List.map (fun x => (Name (Config x), Available x))
    (buckets (listed listing_runtime
                (registry (deliver sample_reporter sample_reports))))
  = [("A"%string, true); ("B"%string, false)] /\
  snd (ReportHealth sample_reporter "B" (sample_probe bucketB))
  = [SetBucketHealthy "B" "https://b.example" false].
Proof. split; vm_compute; reflexivity. Qed.

End ReporterFacts.

(** * Listing the parts of a multipart upload *)

Module PresignerFacts.

Import Presigner.

Section ListParts.

Context {Part : Type}.

Lemma ListParts_from_pages (client : backend Part) (n : nat) (marker : option string)
    (pages : list (ListPartsOutput Part)) (last : option (ListPartsOutput Part)) :
  pages_from client n marker pages last ->
  forall (allParts : list Part) (fuel : nat),
    ListParts_from fuel client n allParts marker =
    if (fuel <=? List.length pages)%nat then None
    else Some match last with
              | Some output =>
                  Listed (allParts ++ flat_map Parts pages ++ Parts output)
              | None => ListFailed
              end.
Proof.
  induction 1 as [n marker last Hlast Hend|n marker output pages last Hout Htrunc _ IH];
    intros allParts fuel.
  - destruct fuel as [|fuel]; [reflexivity|].
    cbn [ListParts_from List.length Nat.leb flat_map app]. rewrite Hlast.
    destruct last as [output|]; [|reflexivity].
    specialize (Hend output eq_refl).
    destruct (IsTruncated output) as [[|]|]; [contradiction | reflexivity | reflexivity].
  - destruct fuel as [|fuel]; [reflexivity|].
    cbn [ListParts_from List.length flat_map]. rewrite Hout, Htrunc, IH.
    change (S fuel <=? S (List.length pages))%nat with (fuel <=? List.length pages)%nat.
    destruct (fuel <=? List.length pages)%nat; [reflexivity|].
    destruct last; [|reflexivity]. by rewrite <- !app_assoc.
Qed.

(** [ListParts] returns the parts of all pages, in page order: when the
    backend answers a run of truncated pages, each requested with the
    marker of the page before, and then a last page that is not truncated,
    the call returns after one request per page with the concatenation of
    their parts; when the run ends in an error instead, it returns the
    error and none of the parts collected. It has not returned before the
    last request. *)
Theorem ListParts_concatenates_pages (client : backend Part)
    (pages : list (ListPartsOutput Part)) (last : option (ListPartsOutput Part))
    (fuel : nat) :
  pages_from client 0 None pages last ->
  ((fuel <= List.length pages)%nat -> ListParts fuel client = None) /\
  ((List.length pages < fuel)%nat ->
   ListParts fuel client =
   Some match last with
        | Some output => Listed (flat_map Parts pages ++ Parts output)
        | None => ListFailed
        end).
Proof.
  intros Hpages. unfold ListParts.
  rewrite (ListParts_from_pages client 0 None pages last Hpages [] fuel).
  split; intros Hfuel.
  - apply Nat.leb_le in Hfuel. by rewrite Hfuel.
  - apply Nat.leb_gt in Hfuel. by rewrite Hfuel.
Qed.

End ListParts.

Lemma two_page_backend_pages :
  pages_from two_page_backend 0 None [first_page] (Some second_page).
Proof.
  apply pages_more; [reflexivity | reflexivity|].
  apply pages_end; [reflexivity|]. intros output [= <-]. discriminate.
Qed.

Lemma ListParts_concatenates_pages_witness :
  ((2 <= List.length [first_page])%nat -> ListParts 2 two_page_backend = None) /\
  ((List.length [first_page] < 2)%nat ->
   ListParts 2 two_page_backend = Some (Listed [1; 2; 3])).
Proof.
  apply (ListParts_concatenates_pages two_page_backend [first_page]
           (Some second_page) 2).
  apply two_page_backend_pages.
Defined.

End PresignerFacts.

(** * Weighted: selection in proportion to the weights *)

Lemma sumWeights_cons (b : BucketInfo) (l : list BucketInfo) :
  sumWeights (b :: l) = Weight (Config b) + sumWeights l.
Proof. reflexivity. Qed.

Lemma sumWeights_app (l1 l2 : list BucketInfo) :
  sumWeights (l1 ++ l2) = sumWeights l1 + sumWeights l2.
Proof.
  induction l1 as [|b l1 IH]; [reflexivity|].
  change ((b :: l1) ++ l2) with (b :: (l1 ++ l2)).
  rewrite !sumWeights_cons, IH. lia.
Qed.

Lemma sumWeights_take_le (bs : list BucketInfo) (j i : nat) :
  Forall (fun b => 0 <= Weight (Config b)) bs ->
  (j <= i)%nat -> sumWeights (take j bs) <= sumWeights (take i bs).
Proof.
  intros Hw Hji. rewrite <- (take_drop j (take i bs)).
  rewrite take_take, Nat.min_l by lia. rewrite sumWeights_app.
  pose proof (sumWeights_nonneg (drop j (take i bs))) as Hnn.
  assert (Forall (fun b => 0 <= Weight (Config b)) (drop j (take i bs))) as Hd.
  { apply Forall_drop, Forall_take. exact Hw. }
  specialize (Hnn Hd). lia.
Qed.

Lemma sumWeights_take_all (bs : list BucketInfo) (i : nat) :
  Forall (fun b => 0 <= Weight (Config b)) bs ->
  sumWeights (take i bs) <= sumWeights bs.
Proof.
  intros Hw. rewrite <- (take_drop i bs) at 2. rewrite sumWeights_app.
  pose proof (sumWeights_nonneg (drop i bs) (Forall_drop _ _ _ Hw)). lia.
Qed.

Lemma cumulativeWeight_step (bs : list BucketInfo) (i : nat) (b : BucketInfo) :
  bs !! i = Some b ->
  cumulativeWeight bs i = sumWeights (take i bs) + Weight (Config b).
Proof.
  intros Hb. unfold cumulativeWeight. rewrite (take_S_r bs i b Hb), sumWeights_app.
  rewrite sumWeights_cons. change (sumWeights []) with 0. lia.
Qed.

(** The draws of [[0, n)] that fall in [[a, b)]. *)
Lemma count_interval (a b : Z) (n : nat) :
  0 <= a <= b ->
  List.length (List.filter (fun r => (a <=? r) && (r <? b))
                 (List.map Z.of_nat (seq 0 n)))
  = Z.to_nat (Z.min b (Z.of_nat n) - Z.min a (Z.of_nat n)).
Proof.
  intros Hab. induction n as [|n IH]; [cbn; lia|].
  rewrite seq_S, List.map_app, List.filter_app, length_app, IH.
  cbn [List.map List.filter Nat.add].
  destruct (a <=? Z.of_nat n) eqn:E1; destruct (Z.of_nat n <? b) eqn:E2;
    cbn [andb List.length];
    try apply Z.leb_le in E1; try apply Z.leb_gt in E1;
    try apply Z.ltb_lt in E2; try apply Z.ltb_ge in E2; lia.
Qed.

(** Which draw selects which bucket. *)
Lemma Weighted_draw_selects (bs : list BucketInfo) (key : string) (size : Z)
    (r : Z) (i : nat) (b : BucketInfo) :
  Forall (fun b => 0 <= Weight (Config b)) bs ->
  sumWeights bs <= max_int64 ->
  NoDup bs -> bs !! i = Some b ->
  0 <= r < sumWeights bs ->
  bool_decide (WeightedStrategy_SelectBucket (drawing r) bs key size = Selected b)
  = (sumWeights (take i bs) <=? r) && (r <? cumulativeWeight bs i).
Proof.
  intros Hw Hmax Hnd Hb Hr.
  assert (bs <> []) as Hne by (intros ->; discriminate).
  unfold WeightedStrategy_SelectBucket, rand_Intn.
  rewrite (len_nonzero bs Hne), (totalWeight_sumWeights bs Hw Hmax).
  destruct (sumWeights bs =? 0) eqn:E; [apply Z.eqb_eq in E; lia|].
  destruct (sumWeights bs <=? 0) eqn:L; [apply Z.leb_le in L; lia|].
  cbn [drawing insertion_runtime rand_draw].
  destruct (weighted_walk_first bs r 0 Hw) as [j [b' [Hwalk [Hj [Hlt Hfirst]]]]];
    try lia.
  rewrite Hwalk.
  destruct (decide (j = i)) as [->|Hji].
  - rewrite Hb in Hj. injection Hj as <-.
    rewrite bool_decide_eq_true_2 by reflexivity. symmetry.
    apply andb_true_iff. split; [apply Z.leb_le | apply Z.ltb_lt; lia].
    destruct i as [|i]; [rewrite take_0; change (sumWeights []) with 0; lia|].
    specialize (Hfirst i ltac:(lia)). unfold cumulativeWeight in Hfirst. lia.
  - rewrite bool_decide_eq_false_2.
    2:{ intros [= ->]. apply Hji. eapply NoDup_lookup; eauto. }
    symmetry. apply andb_false_iff.
    destruct (Nat.lt_ge_cases j i) as [Hlt'|Hge].
    + left. apply Z.leb_gt.
      pose proof (sumWeights_take_le bs (S j) i Hw ltac:(lia)) as Hmono.
      unfold cumulativeWeight in Hlt. lia.
    + right. apply Z.ltb_ge. specialize (Hfirst i ltac:(lia)). lia.
Qed.

(** The weighted strategy selects in proportion to the weights: of the [W]
    values the draw can take, exactly [weight] select a given bucket, so
    that a uniform draw selects it with probability [weight / W]. The
    weights are not negative, their sum [W] is positive and within a Go
    [int], and the records of the list are distinct. *)
Theorem Weighted_proportional (bs : list BucketInfo) (key : string) (size : Z)
    (i : nat) (b : BucketInfo) :
  Forall (fun b => 0 <= Weight (Config b)) bs ->
  sumWeights bs <= max_int64 ->
  0 < sumWeights bs ->
  NoDup bs -> bs !! i = Some b ->
  Z.of_nat
    (List.length
       (List.filter
          (fun r => bool_decide
                      (WeightedStrategy_SelectBucket (drawing r) bs key size
                       = Selected b))
          (draws (sumWeights bs))))
  = Weight (Config b).
Proof.
  intros Hw Hmax Hpos Hnd Hb. unfold draws.
  rewrite (List.filter_ext_in _
             (fun r => (sumWeights (take i bs) <=? r) && (r <? cumulativeWeight bs i))).
  2:{ intros r Hr. apply in_map_iff in Hr as [k [<- Hk]]. apply in_seq in Hk.
      apply Weighted_draw_selects; auto. lia. }
  pose proof (sumWeights_nonneg (take i bs) (Forall_take _ _ _ Hw)) as H0.
  pose proof (sumWeights_take_all bs (S i) Hw) as Hall.
  pose proof (cumulativeWeight_step bs i b Hb) as Hstep.
  rewrite Forall_forall in Hw.
  pose proof (Hw b (list_elem_of_lookup_2 _ _ _ Hb)) as Hwb. cbv beta in Hwb.
  unfold cumulativeWeight in *.
  rewrite count_interval by lia. lia.
Qed.

Lemma Weighted_proportional_witness :
  Z.of_nat
    (List.length
       (List.filter
          (fun r => bool_decide
                      (WeightedStrategy_SelectBucket (drawing r)
                         [bucketA; bucketB; bucketC] "k" 0
                       = Selected bucketB))
          (draws (sumWeights [bucketA; bucketB; bucketC]))))
  = Weight (Config bucketB).
Proof.
  apply (Weighted_proportional [bucketA; bucketB; bucketC] "k" 0 1 bucketB).
  - repeat constructor; cbn; lia.
  - vm_compute. discriminate.
  - vm_compute. reflexivity.
  - by apply (bool_decide_unpack _).
  - reflexivity.
Defined.

(** * Listing the placement records *)

Module ListingFacts.

Import Listing.

Lemma Atoi_range (s : string) (n : Z) :
  Atoi s = Some n -> min_int64 <= n <= max_int64.
Proof.
  unfold Atoi.
  destruct (match s with
            | String c rest =>
                if Ascii.eqb c "+" then (false, rest)
                else if Ascii.eqb c "-" then (true, rest) else (false, s)
            | EmptyString => (false, s)
            end) as [negative digits].
  destruct (String.eqb digits EmptyString); [discriminate|].
  destruct (NilEmpty.uint_of_string digits) as [u|]; [|discriminate].
  destruct ((min_int64 <=? (if negative then - Z.of_uint u else Z.of_uint u))
            && ((if negative then - Z.of_uint u else Z.of_uint u) <=? max_int64)) eqn:E;
    [|discriminate].
  intros [= <-]. apply andb_true_iff in E as [E1 E2].
  apply Z.leb_le in E1, E2. lia.
Qed.

(** [Atoi] reads back what [%d] prints of a positive [int]. *)
Lemma Atoi_Sprintf_d (n : Z) :
  0 < n <= max_int64 -> Atoi (Sprintf_d n) = Some n.
Proof.
  intros Hn. destruct n as [|p|p]; try lia.
  unfold Sprintf_d. cbn [Z.to_int NilZero.string_of_int].
  assert (NilZero.string_of_uint (Pos.to_uint p)
          = NilEmpty.string_of_uint (Pos.to_uint p)) as ->.
  { unfold NilZero.string_of_uint.
    pose proof (Unsigned.to_uint_nonnil p). by destruct (Pos.to_uint p). }
  pose proof (NilEmpty.usu (Pos.to_uint p)) as Hparse.
  pose proof (Unsigned.to_uint_nonnil p) as Hnil.
  unfold Atoi.
  destruct (NilEmpty.string_of_uint (Pos.to_uint p)) as [|c rest] eqn:Hs.
  { destruct (Pos.to_uint p); try discriminate. contradiction. }
  assert (Ascii.eqb c "+" = false /\ Ascii.eqb c "-" = false) as [-> ->].
  { destruct (Pos.to_uint p); try contradiction; cbn in Hs; injection Hs as <- _;
      split; reflexivity. }
  cbn [String.eqb]. rewrite Hparse.
  unfold Z.of_uint. rewrite DecimalPos.Unsigned.of_to. cbn [Z.of_N].
  assert ((min_int64 <=? Z.pos p) && (Z.pos p <=? max_int64) = true) as ->;
    [|reflexivity].
  apply andb_true_iff. split; apply Z.leb_le; unfold min_int64 in *; lia.
Qed.

(** The limit [handleListObjects] hands to the store is always a positive
    [int]: the number the [limit] parameter spells in decimal when that is
    positive, and 100 when the parameter is absent, is not a number or is
    not positive; the other three parameters are handed on as they are, and
    the count in the answer is the number of records listed. *)
Theorem handleListObjects_limit
    (ListObjects : ListObjectsCall -> option (list ObjectRecord)) (q : Query) :
  let call := fst (handleListObjects ListObjects q) in
  let resp := snd (handleListObjects ListObjects q) in
  1 <= call_limit call <= max_int64 /\
  (forall n, 0 < n <= max_int64 -> limit q = Sprintf_d n -> call_limit call = n) /\
  (call_limit call = 100 \/ Atoi (limit q) = Some (call_limit call)) /\
  (limit q = EmptyString -> call_limit call = 100) /\
  call_bucketName call = bucket q /\ call_prefix call = prefix q /\
  call_marker call = marker q /\
  (forall objects count, json resp = ObjectsBody objects count ->
     ListObjects call = Some objects /\ count = len objects /\
     status_code resp = StatusOK).
Proof.
  set (limit1 :=
         if negb (String.eqb (limit q) EmptyString) then
           match Atoi (limit q) with
           | Some l => if 0 <? l then l else 100
           | None => 100
           end
         else 100).
  assert (fst (handleListObjects ListObjects q)
          = {| call_bucketName := bucket q; call_prefix := prefix q;
               call_marker := marker q; call_limit := limit1 |}) as Hcall.
  { unfold handleListObjects. fold limit1. by destruct (ListObjects _). }
  cbv zeta. rewrite Hcall. cbn [call_limit call_bucketName call_prefix call_marker].
  split; [|split; [|split; [|split; [|split; [|split; [|split]]]]]]; try reflexivity.
  - subst limit1. destruct (negb (String.eqb (limit q) EmptyString));
      [|unfold max_int64; lia].
    destruct (Atoi (limit q)) as [l|] eqn:A; [|unfold max_int64; lia].
    destruct (0 <? l) eqn:P; [|unfold max_int64; lia].
    apply Z.ltb_lt in P. apply Atoi_range in A. lia.
  - intros n Hn Hq. subst limit1. rewrite Hq, (Atoi_Sprintf_d n Hn).
    assert (String.eqb (Sprintf_d n) EmptyString = false) as ->.
    { apply String.eqb_neq. intros E. pose proof (Atoi_Sprintf_d n Hn) as A.
      rewrite E in A. discriminate. }
    cbn [negb]. destruct (0 <? n) eqn:P; [reflexivity | apply Z.ltb_ge in P; lia].
  - subst limit1. destruct (negb (String.eqb (limit q) EmptyString)); [|by left].
    destruct (Atoi (limit q)) as [l|]; [|by left].
    destruct (0 <? l); [by right | by left].
  - intros Hq. subst limit1. by rewrite Hq.
  - intros objects count. unfold handleListObjects. fold limit1.
    destruct (ListObjects _) as [objs|] eqn:L; cbn [snd json status_code];
      [|discriminate].
    intros [= <- <-]. auto.
Qed.

Example handleListObjects_limits :
  List.map (fun s => call_limit (fst (handleListObjects (fun _ => None)
                                        {| prefix := ""; bucket := ""; marker := "";
                                           limit := s |})))
    ["25"; ""; "0"; "-3"; "abc"; "+7"; "12x"; "99999999999999999999"]%string
  = [25; 100; 100; 100; 100; 7; 100; 100].
Proof. vm_compute. reflexivity. Qed.

End ListingFacts.

(** * The virtual keys of the ring *)

Lemma string_of_uint_no_dash (u : Decimal.uint) :
  ~ In "-"%char (list_ascii_of_string (NilEmpty.string_of_uint u)).
Proof.
  induction u; cbn [NilEmpty.string_of_uint list_ascii_of_string In];
    [tauto| | | | | | | | | |]; intros [E|E]; solve [discriminate | contradiction].
Qed.

(** [%d] of a number that is not negative prints digits only. *)
Lemma Sprintf_d_no_dash (i : Z) :
  0 <= i -> ~ In "-"%char (list_ascii_of_string (Sprintf_d i)).
Proof.
  intros Hi. unfold Sprintf_d. destruct i as [|p|p]; try lia.
  - cbn. intros [E|[]]. discriminate.
  - cbn [Z.to_int NilZero.string_of_int]. unfold NilZero.string_of_uint.
    pose proof (string_of_uint_no_dash (Pos.to_uint p)) as Hno.
    pose proof (Unsigned.to_uint_nonnil p) as Hnil.
    destruct (Pos.to_uint p); [contradiction|..]; exact Hno.
Qed.

Lemma Sprintf_d_inj (i1 i2 : Z) : Sprintf_d i1 = Sprintf_d i2 -> i1 = i2.
Proof.
  unfold Sprintf_d. intros E. apply DecimalZ.to_int_inj.
  assert (forall i, Z.to_int i <> Decimal.Pos Decimal.Nil /\
                    Z.to_int i <> Decimal.Neg Decimal.Nil) as Hnn.
  { intros [|p|p]; cbn [Z.to_int]; split; try discriminate;
      intros [= E']; by apply (Unsigned.to_uint_nonnil p). }
  apply (f_equal NilZero.int_of_string) in E.
  rewrite !NilZero.isi in E by apply Hnn. by injection E.
Qed.

Lemma In_dash_app (a b : string) :
  In "-"%char (list_ascii_of_string (a ++ String "-" b)%string).
Proof.
  induction a as [|c a IH].
  - left. reflexivity.
  - change (String c a ++ String "-" b)%string
      with (String c (a ++ String "-" b)%string).
    right. exact IH.
Qed.

(** A name, a dash and a dash-free suffix can be read back in one way
    only. *)
Lemma dash_suffix_inj (n1 n2 d1 d2 : string) :
  ~ In "-"%char (list_ascii_of_string d1) ->
  ~ In "-"%char (list_ascii_of_string d2) ->
  (n1 ++ String "-" d1 = n2 ++ String "-" d2)%string ->
  n1 = n2 /\ d1 = d2.
Proof.
  intros H1 H2. revert n2. induction n1 as [|c n1 IH]; intros [|c' n2] E.
  - injection E as ->. auto.
  - change (String "-" d1 = String c' (n2 ++ String "-" d2)%string) in E.
    injection E as _ ->. exfalso. apply H1, In_dash_app.
  - change (String c (n1 ++ String "-" d1)%string = String "-" d2) in E.
    injection E as _ <-. exfalso. apply H2, In_dash_app.
  - change (String c (n1 ++ String "-" d1)%string
            = String c' (n2 ++ String "-" d2)%string) in E.
    injection E as -> E. destruct (IH n2 E) as [-> ->]. auto.
Qed.

(** The virtual keys [updateRing] hashes are unambiguous: the key
    [<name>-<i>] of a replica index that is not negative determines the
    bucket name and the index, so that two buckets with different names
    never have a virtual key in common, whatever dashes and digits their
    names hold. *)
Theorem virtualKey_unambiguous (name1 name2 : string) (i1 i2 : Z) :
  0 <= i1 -> 0 <= i2 ->
  virtualKey name1 i1 = virtualKey name2 i2 ->
  name1 = name2 /\ i1 = i2.
Proof.
  intros H1 H2 E. unfold virtualKey in E.
  change ("-" ++ Sprintf_d i1)%string with (String "-" (Sprintf_d i1)) in E.
  change ("-" ++ Sprintf_d i2)%string with (String "-" (Sprintf_d i2)) in E.
  destruct (dash_suffix_inj name1 name2 _ _
              (Sprintf_d_no_dash i1 H1) (Sprintf_d_no_dash i2 H2) E) as [-> Ed].
  split; [reflexivity | by apply Sprintf_d_inj].
Qed.

Lemma virtualKey_unambiguous_witness :
  "bucket-1"%string = "bucket-1"%string /\ 45 = 45.
Proof.
  apply (virtualKey_unambiguous "bucket-1" "bucket-1" 45 45); [lia | lia | reflexivity].
Defined.

(** The same string read two ways would be a clash; with a negative index
    there is one. *)
Example virtualKey_negative_index_clash :
  virtualKey "a" (-5) = virtualKey "a-" 5.
Proof. vm_compute. reflexivity. Qed.
